(** * Cogito markdown engine: parser front end, serializer and input rules

    A shallow embedding of [src/services/editor/SimpleMarkdownService.ts],
    [src/services/editor/InputRulesService.ts] and the node vocabulary of
    [src/services/editor/SimpleEditorSchema.ts].

    JavaScript strings are sequences of UTF-16 code units; they are modelled
    as lists of [N], so that [trim], [\s] and [.] see the same characters as
    the engine does. *)

From Stdlib Require Import String Ascii DecimalString.
From Stdlib Require Import NArith ZArith Bool Lia List.
Import ListNotations.
Set Warnings "-register-all".
Open Scope string_scope.
Open Scope N_scope.
Open Scope list_scope.

(* ================================================================= *)
(** ** JavaScript strings *)

Module JS.

Definition codeunit := N.
Definition jsstring := list codeunit.

(** ASCII literals. *)
Fixpoint lit (s : string) : jsstring :=
  match s with
  | EmptyString => []
  | String c r => N_of_ascii c :: lit r
  end.

Definition nl : codeunit := 10.

(** [a === b] on strings. *)
Fixpoint eqb (a b : jsstring) : bool :=
  match a, b with
  | [], [] => true
  | x :: a', y :: b' => (x =? y) && eqb a' b'
  | _, _ => false
  end.

(** The characters removed by [String.prototype.trim] and matched by [\s]:
    ECMAScript WhiteSpace and LineTerminator. *)
Definition isWhiteSpace (c : codeunit) : bool :=
  (c =? 9) || (c =? 10) || (c =? 11) || (c =? 12) || (c =? 13) || (c =? 32)
  || (c =? 160) || (c =? 5760) || ((8192 <=? c) && (c <=? 8202))
  || (c =? 8232) || (c =? 8233) || (c =? 8239) || (c =? 8287)
  || (c =? 12288) || (c =? 65279).

(** The characters [.] does not match (no [s] flag). *)
Definition isLineTerminator (c : codeunit) : bool :=
  (c =? 10) || (c =? 13) || (c =? 8232) || (c =? 8233).

Definition isDigit (c : codeunit) : bool := (48 <=? c) && (c <=? 57).

Fixpoint dropWhile (p : codeunit -> bool) (s : jsstring) : jsstring :=
  match s with
  | [] => []
  | c :: r => if p c then dropWhile p r else s
  end.

Fixpoint takeWhile (p : codeunit -> bool) (s : jsstring) : jsstring :=
  match s with
  | [] => []
  | c :: r => if p c then c :: takeWhile p r else []
  end.

Definition trimStart (s : jsstring) : jsstring := dropWhile isWhiteSpace s.
Definition trimEnd (s : jsstring) : jsstring := rev (dropWhile isWhiteSpace (rev s)).
Definition trim (s : jsstring) : jsstring := trimEnd (trimStart s).

(** A string is truthy when it is not empty. *)
Definition truthy (s : jsstring) : bool :=
  match s with [] => false | _ :: _ => true end.

Fixpoint startsWith (p s : jsstring) : bool :=
  match p, s with
  | [], _ => true
  | x :: p', y :: s' => (x =? y) && startsWith p' s'
  | _ :: _, [] => false
  end.

(** [s.split(sep)] for a separator of one code unit: never the empty array. *)
Fixpoint split (sep : codeunit) (s : jsstring) : list jsstring :=
  match s with
  | [] => [[]]
  | c :: r =>
      if c =? sep then [] :: split sep r
      else match split sep r with
           | h :: t => (c :: h) :: t
           | [] => [[c]]
           end
  end.

(** [parts.join(sep)]. *)
Fixpoint join (sep : jsstring) (parts : list jsstring) : jsstring :=
  match parts with
  | [] => []
  | [p] => p
  | p :: rest => p ++ sep ++ join sep rest
  end.

(** A string of one line. *)
Definition noNewline (s : jsstring) : bool := forallb (fun c => negb (c =? nl)) s.

(** [s.repeat(n)]. *)
Fixpoint repeat (s : jsstring) (n : nat) : jsstring :=
  match n with
  | O => []
  | S k => s ++ repeat s k
  end.

(** Number-to-string for the integers a list counter takes. *)
Definition ofZ (z : Z) : jsstring := lit (NilZero.string_of_int (Z.to_int z)).

End JS.

Import JS.

(* ================================================================= *)
(** ** Regular expressions

    The fragment of ECMAScript regular expressions the two services use:
    classes of one code unit, bounded greedy and lazy repetition of a class,
    sequence, alternation, numbered groups, [^], [$] and negative look-around
    of one code unit.  Matching is the backtracking search of the language:
    a continuation receives each candidate end, leftmost alternatives
    first. *)

Module Regex.

Inductive quant : Type := Greedy | Lazy.

Inductive re : Type :=
| Eps
| Chr (p : codeunit -> bool)
| Seq (a b : re)
| Alt (a b : re)
| Rep (q : quant) (lo : nat) (hi : option nat) (p : codeunit -> bool)
| Grp (i : nat) (a : re)
| Bol
| Eol
| NotBehind (p : codeunit -> bool)
| NotAhead (p : codeunit -> bool).

Definition captures := list (nat * jsstring).

(** What a successful match leaves: the unread input and the groups. *)
Definition outcome : Type := jsstring * captures.

Definition cont := option codeunit -> jsstring -> captures -> option outcome.

Definition orElse (a b : option outcome) : option outcome :=
  match a with Some _ => a | None => b end.

Definition below (hi : option nat) (n : nat) : bool :=
  match hi with None => true | Some h => Nat.ltb n h end.

(** [p{lo,hi}] from [n] repetitions already read. *)
Fixpoint rep (q : quant) (lo : nat) (hi : option nat) (p : codeunit -> bool)
  (cs : captures) (k : cont) (n : nat) (prev : option codeunit) (s : jsstring)
  {struct s} : option outcome :=
  let stop := if Nat.leb lo n then k prev s cs else None in
  let more := match s with
              | c :: r => if p c && below hi n
                          then rep q lo hi p cs k (S n) (Some c) r
                          else None
              | [] => None
              end in
  match q with
  | Greedy => orElse more stop
  | Lazy => orElse stop more
  end.

Definition consumed (s s' : jsstring) : jsstring :=
  firstn (length s - length s') s.

Fixpoint run (r : re) (prev : option codeunit) (s : jsstring) (cs : captures)
  (k : cont) {struct r} : option outcome :=
  match r with
  | Eps => k prev s cs
  | Chr p => match s with
             | c :: s' => if p c then k (Some c) s' cs else None
             | [] => None
             end
  | Seq a b => run a prev s cs (fun prev' s' cs' => run b prev' s' cs' k)
  | Alt a b => orElse (run a prev s cs k) (run b prev s cs k)
  | Rep q lo hi p => rep q lo hi p cs k 0 prev s
  | Grp i a => run a prev s cs (fun prev' s' cs' => k prev' s' ((i, consumed s s') :: cs'))
  | Bol => match prev with None => k prev s cs | Some _ => None end
  | Eol => match s with [] => k prev s cs | _ :: _ => None end
  | NotBehind p => match prev with
                   | Some c => if p c then None else k prev s cs
                   | None => k prev s cs
                   end
  | NotAhead p => match s with
                  | c :: _ => if p c then None else k prev s cs
                  | [] => k prev s cs
                  end
  end.

(** An attempt at one position. *)
Definition matchAt (r : re) (prev : option codeunit) (s : jsstring) : option outcome :=
  run r prev s [] (fun _ s' cs => Some (s', cs)).

(** The result of [exec]: where the match starts, its text, its groups. *)
Record found : Type := mkFound {
  index : nat;
  matched : jsstring;
  groups : captures
}.

Fixpoint search (r : re) (prev : option codeunit) (s : jsstring) (idx : nat)
  {struct s} : option found :=
  match matchAt r prev s with
  | Some (s', cs) => Some (mkFound idx (consumed s s') cs)
  | None => match s with
            | [] => None
            | c :: s' => search r (Some c) s' (S idx)
            end
  end.

Definition exec (r : re) (s : jsstring) : option found := search r None s 0%nat.

Definition test (r : re) (s : jsstring) : bool :=
  match exec r s with Some _ => true | None => false end.

(** [match[i]]; a group that took no part reads as the empty string. *)
Fixpoint group (i : nat) (cs : captures) : jsstring :=
  match cs with
  | [] => []
  | (j, v) :: r => if Nat.eqb i j then v else group i r
  end.

(** Replacement strings: literal text and [$n]. *)
Inductive piece : Type :=
| TLit (s : jsstring)
| TGrp (i : nat).

Fixpoint expand (tpl : list piece) (cs : captures) : jsstring :=
  match tpl with
  | [] => []
  | TLit s :: r => s ++ expand r cs
  | TGrp i :: r => group i cs ++ expand r cs
  end.

(** [s.replace(r, tpl)] without the [g] flag: the first match only. *)
Definition replace (r : re) (tpl : list piece) (s : jsstring) : jsstring :=
  match exec r s with
  | Some f => firstn (index f) s ++ expand tpl (groups f)
              ++ skipn (index f + length (matched f)) s
  | None => s
  end.

(** [s.replace(r, tpl)] with the [g] flag.  [skip] counts the code units of
    the current match still to pass over. *)
Fixpoint replaceAllFrom (r : re) (tpl : list piece) (skip : nat)
  (prev : option codeunit) (s : jsstring) {struct s} : jsstring :=
  match skip with
  | S n => match s with
           | [] => []
           | c :: s' => replaceAllFrom r tpl n (Some c) s'
           end
  | O =>
      match matchAt r prev s with
      | Some (rest, cs) =>
          match length (consumed s rest), s with
          | S n, c :: s' => expand tpl cs ++ replaceAllFrom r tpl n (Some c) s'
          | O, c :: s' => expand tpl cs ++ c :: replaceAllFrom r tpl O (Some c) s'
          | _, [] => expand tpl cs
          end
      | None =>
          match s with
          | [] => []
          | c :: s' => c :: replaceAllFrom r tpl O (Some c) s'
          end
      end
  end.

Definition replaceAll (r : re) (tpl : list piece) (s : jsstring) : jsstring :=
  replaceAllFrom r tpl O None s.

(** The code unit before the position reached after reading [ps]. *)
Definition lastRead (ps : jsstring) (prev : option codeunit) : option codeunit :=
  match ps with
  | [] => prev
  | x :: r => Some (last r x)
  end.

(** Abbreviations. *)
Definition just (c : codeunit) : codeunit -> bool := fun x => x =? c.
Definition except (c : codeunit) : codeunit -> bool := fun x => negb (x =? c).
Definition chr (c : codeunit) : re := Chr (just c).
Definition star (p : codeunit -> bool) : re := Rep Greedy 0 None p.
Definition plus (p : codeunit -> bool) : re := Rep Greedy 1 None p.
Definition lazyStar (p : codeunit -> bool) : re := Rep Lazy 0 None p.
Definition dot (c : codeunit) : bool := negb (isLineTerminator c).
Definition space := isWhiteSpace.
Definition nonSpace (c : codeunit) : bool := negb (isWhiteSpace c).

Fixpoint chars (s : jsstring) : re :=
  match s with
  | [] => Eps
  | [c] => chr c
  | c :: r => Seq (chr c) (chars r)
  end.

Fixpoint seq (l : list re) : re :=
  match l with
  | [] => Eps
  | [a] => a
  | a :: r => Seq a (seq r)
  end.

End Regex.

Import Regex.

(* ================================================================= *)
(** ** Document model (SimpleEditorSchema.ts) *)

Inductive Mark : Type :=
| strong
| em
| code
| link (href : jsstring) (title : option jsstring).

Inductive NodeType : Type :=
| doc | paragraph | heading | blockquote | code_block | hard_break
| horizontal_rule | bullet_list | ordered_list | list_item
| task_list | task_list_item.

(** The attributes the schema declares, with its defaults: [level] 1,
    [language] null, [order] 1, [checked] false. *)
Record Attrs : Type := mkAttrs {
  level : nat;
  language : option jsstring;
  order : Z;
  checked : bool
}.

Definition defaultAttrs : Attrs := mkAttrs 1 None 1%Z false.

(** A node is a text leaf carrying marks, or a typed node with children. *)
Inductive Node : Type :=
| Text (text : jsstring) (marks : list Mark)
| Block (type : NodeType) (attrs : Attrs) (content : list Node).

Definition children (n : Node) : list Node :=
  match n with
  | Text _ _ => []
  | Block _ _ c => c
  end.

(** [schema.nodes.doc.createAndFill()]: content [block+] is filled with one
    empty paragraph. *)
Definition createAndFill : Node :=
  Block doc defaultAttrs [Block paragraph defaultAttrs []].

(** [node.textContent]. *)
Fixpoint textContent (n : Node) : jsstring :=
  match n with
  | Text s _ => s
  | Block _ _ kids =>
      (fix each (l : list Node) : jsstring :=
         match l with
         | [] => []
         | k :: r => textContent k ++ each r
         end) kids
  end.

(* ================================================================= *)
(** ** Serializer (SimpleMarkdownService.serializeToMarkdown) *)

Module Serializer.

Definition isLink (m : Mark) : bool :=
  match m with link _ _ => true | _ => false end.

(** One step of [otherMarks.forEach]: the switch on the mark's name. *)
Definition applyMark (childText : jsstring) (m : Mark) : jsstring :=
  match m with
  | strong => lit "**" ++ childText ++ lit "**"
  | em => lit "*" ++ childText ++ lit "*"
  | code => lit "`" ++ childText ++ lit "`"
  | link _ _ => childText
  end.

(** The body of [nodeToText]'s loop for a text child. *)
Definition textToMarkdown (text : jsstring) (marks : list Mark) : jsstring :=
  let linkMark := find isLink marks in
  let otherMarks := filter (fun m => negb (isLink m)) marks in
  let childText := fold_left applyMark otherMarks text in
  match linkMark with
  | Some (link href _) => lit "[" ++ childText ++ lit "](" ++ href ++ lit ")"
  | _ => childText
  end.

Fixpoint nodeToText (node : Node) : jsstring :=
  match node with
  | Text _ _ => []
  | Block _ _ kids =>
      (fix each (l : list Node) (text : jsstring) : jsstring :=
         match l with
         | [] => text
         | child :: r =>
             each r (text ++ match child with
                             | Text s ms => textToMarkdown s ms
                             | Block _ _ _ => nodeToText child
                             end)
         end) kids []
  end.

(** [nestedList.split('\n').map(line => '  ' + line).join('\n')]. *)
Definition indent (nestedList : jsstring) : jsstring :=
  join [nl] (map (fun line => lit "  " ++ line) (split nl nestedList)).

(** [startNum || 1] and [node.attrs.order || 1]. *)
Definition orOne (z : Z) : Z := if (z =? 0)%Z then 1%Z else z.

Definition startOf (startNum : option Z) : Z :=
  match startNum with
  | Some z => orOne z
  | None => 1%Z
  end.

(** The tail of the [listNode.forEach] body once [itemText] is known.  The
    counter is an integer; [currentNum++] is exact for the integers below
    2^53, which is the range the model is meant for. *)
Definition emitItem (marker itemText : jsstring) (st : jsstring * Z) : jsstring * Z :=
  let '(listMarkdown, currentNum) := st in
  if truthy (trim itemText) then
    let currentMarker := if JS.eqb marker (lit "1.") then ofZ currentNum ++ lit "." else marker in
    (listMarkdown ++ currentMarker ++ lit " " ++ trim itemText ++ [nl],
     if JS.eqb marker (lit "1.") then (currentNum + 1)%Z else currentNum)
  else st.

Fixpoint serializeList (listNode : Node) (marker : jsstring) (startNum : option Z)
  {struct listNode} : jsstring :=
  match listNode with
  | Text _ _ => []
  | Block _ _ items =>
      let fix eachItem (l : list Node) (st : jsstring * Z) : jsstring * Z :=
        match l with
        | [] => st
        | listItem :: r =>
            eachItem r
              match listItem with
              | Block list_item _ kids =>
                  let fix eachChild (cs : list Node) (itemText : jsstring) : jsstring :=
                    match cs with
                    | [] => itemText
                    | itemChild :: more =>
                        eachChild more
                          match itemChild with
                          | Block paragraph _ _ => itemText ++ nodeToText itemChild
                          | Block bullet_list _ _ =>
                              itemText ++ [nl] ++ indent (serializeList itemChild (lit "-") None)
                          | Block ordered_list _ _ =>
                              itemText ++ [nl] ++ indent (serializeList itemChild (lit "1.") None)
                          | _ => itemText
                          end
                    end in
                  emitItem marker (eachChild kids []) st
              | _ => st
              end
        end in
      trimEnd (fst (eachItem items ([], startOf startNum)))
  end.

(** [itemText] of a task item: its paragraphs only. *)
Definition taskItemText (kids : list Node) : jsstring :=
  fold_left (fun itemText itemChild =>
               match itemChild with
               | Block paragraph _ _ => itemText ++ nodeToText itemChild
               | _ => itemText
               end) kids [].

Definition taskStep (taskMarkdown : jsstring) (taskItem : Node) : jsstring :=
  match taskItem with
  | Block task_list_item a kids =>
      let checkboxSymbol := if checked a then lit "[x]" else lit "[ ]" in
      let itemText := taskItemText kids in
      if truthy (trim itemText)
      then taskMarkdown ++ lit "- " ++ checkboxSymbol ++ lit " " ++ trim itemText ++ [nl]
      else taskMarkdown
  | _ => taskMarkdown
  end.

Definition serializeTaskList (taskListNode : Node) : jsstring :=
  trimEnd (fold_left taskStep (children taskListNode) []).

(** The switch of [serializeToMarkdown]: the text of one top-level node. *)
Definition nodeMarkdown (node : Node) : jsstring :=
  match node with
  | Block paragraph _ _ => nodeToText node
  | Block heading a _ => repeat (lit "#") (level a) ++ lit " " ++ nodeToText node
  | Block blockquote _ _ => lit "> " ++ nodeToText node
  | Block code_block a _ =>
      let langPrefix := match language a with Some l => l | None => [] end in
      lit "```" ++ langPrefix ++ [nl] ++ textContent node ++ [nl] ++ lit "```"
  | Block bullet_list _ _ => serializeList node (lit "-") None
  | Block ordered_list a _ => serializeList node (lit "1.") (Some (orOne (order a)))
  | Block task_list _ _ => serializeTaskList node
  | Block task_list_item _ _ => []
  | Block list_item _ _ => []
  | Block horizontal_rule _ _ => lit "---"
  | _ => let text := nodeToText node in
         if truthy (trim text) then text else []
  end.

Definition isParagraph (node : Node) : bool :=
  match node with Block paragraph _ _ => true | _ => false end.

(** The body of [doc.forEach], on the pair [(markdown, isFirst)]. *)
Definition docStep (st : jsstring * bool) (node : Node) : jsstring * bool :=
  let '(markdown, isFirst) := st in
  let md := nodeMarkdown node in
  let markdown1 := if isFirst then markdown else markdown ++ [nl] in
  let markdown2 := if truthy md || isParagraph node then markdown1 ++ md else markdown1 in
  (markdown2, false).

Definition serializeToMarkdown (d : Node) : jsstring :=
  fst (fold_left docStep (children d) ([], true)).

End Serializer.

(* ================================================================= *)
(** ** Parser front end (SimpleMarkdownService.parseMarkdown) *)

Module Parser.

Definition hash : codeunit := 35.
Definition backtick : codeunit := 96.
Definition dash : codeunit := 45.
Definition asterisk : codeunit := 42.
Definition plusSign : codeunit := 43.
Definition lbracket : codeunit := 91.
Definition rbracket : codeunit := 93.
Definition lparen : codeunit := 40.
Definition rparen : codeunit := 41.
Definition greater : codeunit := 62.
Definition underscore : codeunit := 95.
Definition period : codeunit := 46.
Definition dquote : codeunit := 34.

(** Source pattern: "/^#{1,6}\s+/" *)
Definition reHeading : re := seq [Bol; Rep Greedy 1 (Some 6%nat) (just hash); plus space].
(** Source pattern: "/^#{1,6}/" *)
Definition reHashes : re := seq [Bol; Rep Greedy 1 (Some 6%nat) (just hash)].
(** Source pattern: "/^```/" *)
Definition reFence : re := seq [Bol; chars (lit "```")].
(** Source pattern: "/^-\s*\[\s*\]\s+/" *)
Definition reUnchecked : re :=
  seq [Bol; chr dash; star space; chr lbracket; star space; chr rbracket; plus space].
(** Source pattern: "/^-\s*\[x\]\s+/i" *)
Definition reChecked : re :=
  seq [Bol; chr dash; star space; chr lbracket;
       Chr (fun c => (c =? 120) || (c =? 88)); chr rbracket; plus space].
(** Source pattern: "/^\s*\d+\.\s+/" *)
Definition reOrdered : re := seq [Bol; star space; plus isDigit; chr period; plus space].
(** Source pattern: "/^\s*[-*+]\s+/" *)
Definition reUnordered : re :=
  seq [Bol; star space;
       Chr (fun c => (c =? dash) || (c =? asterisk) || (c =? plusSign)); plus space].
(** Source pattern: "/^>\s+/" *)
Definition reQuote : re := seq [Bol; chr greater; plus space].
(** Source pattern: "/^---+$/" *)
Definition reRule : re := seq [Bol; chr dash; chr dash; plus (just dash); Eol].

(** Source pattern: "/\[([^\]]+)\]\(([^)]+)\)/g"; the replacement is an [a]
    element with [$2] as its [href] and [$1] as its text. *)
Definition reLink : re :=
  seq [chr lbracket; Grp 1 (plus (except rbracket)); chr rbracket;
       chr lparen; Grp 2 (plus (except rparen)); chr rparen].
Definition tplLink : list piece :=
  [TLit (lit "<a href=" ++ [dquote]); TGrp 2; TLit (dquote :: lit ">"); TGrp 1; TLit (lit "</a>")].
(** Source pattern, each asterisk written \x2a: "/\x2a\x2a(.*?)\x2a\x2a/g" *)
Definition reStrongStar : re :=
  seq [chr asterisk; chr asterisk; Grp 1 (lazyStar dot); chr asterisk; chr asterisk].
(** Source pattern, each asterisk written \x2a:
    "/(?<!\x2a)\x2a([^\x2a]+)\x2a(?!\x2a)/g" *)
Definition reEmStar : re :=
  seq [NotBehind (just asterisk); chr asterisk; Grp 1 (plus (except asterisk));
       chr asterisk; NotAhead (just asterisk)].
(** Source pattern: "/__(.*?)__/g" *)
Definition reStrongUnderscore : re :=
  seq [chr underscore; chr underscore; Grp 1 (lazyStar dot); chr underscore; chr underscore].
(** Source pattern: "/(?<!_)_([^_]+)_(?!_)/g" *)
Definition reEmUnderscore : re :=
  seq [NotBehind (just underscore); chr underscore; Grp 1 (plus (except underscore));
       chr underscore; NotAhead (just underscore)].
(** Source pattern: "/`(.*?)`/g" *)
Definition reCode : re := seq [chr backtick; Grp 1 (lazyStar dot); chr backtick].

Definition tplStrong : list piece := [TLit (lit "<strong>"); TGrp 1; TLit (lit "</strong>")].
Definition tplEm : list piece := [TLit (lit "<em>"); TGrp 1; TLit (lit "</em>")].
Definition tplCode : list piece := [TLit (lit "<code>"); TGrp 1; TLit (lit "</code>")].

Definition processInlineMarkdown (text : jsstring) : jsstring :=
  replaceAll reCode tplCode
    (replaceAll reEmUnderscore tplEm
       (replaceAll reStrongUnderscore tplStrong
          (replaceAll reEmStar tplEm
             (replaceAll reStrongStar tplStrong
                (replaceAll reLink tplLink text))))).

(** What the [if]/[else if] chain of the line loop decides for one line. *)
Inductive LineClass : Type :=
| Blank
| Heading (level : nat) (text : jsstring)
| FenceOpen (lang : jsstring)
| TaskUnchecked (text : jsstring)
| TaskChecked (text : jsstring)
| OrderedItem (text : jsstring)
| UnorderedItem (text : jsstring)
| Quote (text : jsstring)
| Rule
| Para (line : jsstring).

Definition classify (line : jsstring) : LineClass :=
  let trimmedLine := trim line in
  if JS.eqb trimmedLine [] then Blank
  else if test reHeading trimmedLine then
    let level := match exec reHashes trimmedLine with
                 | Some m => length (matched m)
                 | None => 1%nat
                 end in
    Heading level (replace reHeading [] trimmedLine)
  else if test reFence trimmedLine then FenceOpen (replace reFence [] trimmedLine)
  else if test reUnchecked trimmedLine then TaskUnchecked (replace reUnchecked [] trimmedLine)
  else if test reChecked trimmedLine then TaskChecked (replace reChecked [] trimmedLine)
  else if test reOrdered trimmedLine then OrderedItem (replace reOrdered [] trimmedLine)
  else if test reUnordered trimmedLine then UnorderedItem (replace reUnordered [] trimmedLine)
  else if test reQuote trimmedLine then Quote (replace reQuote [] trimmedLine)
  else if test reRule trimmedLine then Rule
  else Para line.

Definition ofNat (n : nat) : jsstring := ofZ (Z.of_nat n).

(** The markup of a fenced block. *)
Definition preMarkup (lang : jsstring) (codeLines : list jsstring) : jsstring :=
  let langAttr := if truthy lang
                  then lit " data-language=" ++ [dquote] ++ lang ++ [dquote]
                  else [] in
  lit "<pre" ++ langAttr ++ lit "><code>" ++ join [nl] codeLines ++ lit "</code></pre>".

(** The markup appended for a line that does not open a fence. *)
Definition lineMarkup (c : LineClass) : jsstring :=
  match c with
  | Blank => lit "<p></p>"
  | Heading level text =>
      lit "<h" ++ ofNat level ++ lit ">" ++ processInlineMarkdown text
        ++ lit "</h" ++ ofNat level ++ lit ">"
  | FenceOpen lang => preMarkup lang []
  | TaskUnchecked text =>
      lit "<ul data-type=" ++ [dquote] ++ lit "taskList" ++ [dquote]
        ++ lit "><li data-type=" ++ [dquote] ++ lit "taskItem" ++ [dquote]
        ++ lit " data-checked=" ++ [dquote] ++ lit "false" ++ [dquote]
        ++ lit " class=" ++ [dquote] ++ lit "task-item-unchecked" ++ [dquote] ++ lit ">"
        ++ processInlineMarkdown text ++ lit "</li></ul>"
  | TaskChecked text =>
      lit "<ul data-type=" ++ [dquote] ++ lit "taskList" ++ [dquote]
        ++ lit "><li data-type=" ++ [dquote] ++ lit "taskItem" ++ [dquote]
        ++ lit " data-checked=" ++ [dquote] ++ lit "true" ++ [dquote]
        ++ lit " class=" ++ [dquote] ++ lit "task-item-checked" ++ [dquote] ++ lit ">"
        ++ processInlineMarkdown text ++ lit "</li></ul>"
  | OrderedItem text => lit "<ol><li>" ++ processInlineMarkdown text ++ lit "</li></ol>"
  | UnorderedItem text => lit "<ul><li>" ++ processInlineMarkdown text ++ lit "</li></ul>"
  | Quote text => lit "<blockquote>" ++ processInlineMarkdown text ++ lit "</blockquote>"
  | Rule => lit "<hr>"
  | Para line => lit "<p>" ++ processInlineMarkdown line ++ lit "</p>"
  end.

(** The [for] loop over [lines].  The inner [while] of the fence branch is
    [codeBlock]: it collects lines up to one whose trimmed text starts with
    three backticks, which the loop's own [i++] then passes over. *)
Fixpoint parseLines (lines : list jsstring) (html : jsstring) {struct lines} : jsstring :=
  match lines with
  | [] => html
  | line :: rest =>
      match classify line with
      | FenceOpen lang =>
          (fix codeBlock (ls : list jsstring) (codeLines : list jsstring) {struct ls} : jsstring :=
             match ls with
             | [] => html ++ preMarkup lang codeLines
             | l :: ls' =>
                 if startsWith (lit "```") (trim l)
                 then parseLines ls' (html ++ preMarkup lang codeLines)
                 else codeBlock ls' (codeLines ++ [l])
             end) rest []
      | c => parseLines rest (html ++ lineMarkup c)
      end
  end.

Definition buildMarkup (markdown : jsstring) : jsstring :=
  parseLines (split nl markdown) [].

(** The options object passed to [DOMPurify.sanitize]. *)
Record SanitizeConfig : Type := mkConfig {
  ALLOWED_TAGS : list jsstring;
  ALLOWED_ATTR : list jsstring;
  ALLOW_DATA_ATTR : bool
}.

Definition sanitizeConfig : SanitizeConfig :=
  mkConfig
    (map lit ["h1"; "h2"; "h3"; "h4"; "h5"; "h6"; "p"; "strong"; "em"; "code"; "pre";
              "ul"; "ol"; "li"; "blockquote"; "a"; "hr"])
    (map lit ["href"; "data-language"; "data-type"; "data-checked"; "class"])
    true.

(** Completion of a call that may throw. *)
Inductive Completion (A : Type) : Type :=
| Normal (v : A)
| Throw (error : jsstring).
Arguments Normal {A} v.
Arguments Throw {A} error.

Definition bind {A B : Type} (c : Completion A) (f : A -> Completion B) : Completion B :=
  match c with
  | Normal v => f v
  | Throw e => Throw e
  end.

(** [try { body } catch (error) { handler }]. *)
Definition tryCatch {A : Type} (body : Completion A) (handler : jsstring -> Completion A)
  : Completion A :=
  match body with
  | Normal v => Normal v
  | Throw e => handler e
  end.

Section ParseMarkdown.

(** The two collaborators: [DOMPurify.sanitize] and the materializer
    ([tempDiv.innerHTML = ...] followed by [DOMParser.fromSchema(schema).parse]).
    Either may throw.  What [sanitize] returns is only handed on to the
    materializer, so its type is left open. *)
Variable SanitizedMarkup : Type.
Variable sanitize : jsstring -> SanitizeConfig -> Completion SanitizedMarkup.
Variable materialize : SanitizedMarkup -> Completion Node.

(** The body of the [try] block. *)
Definition parseBody (markdown : jsstring) : Completion Node :=
  if negb (truthy markdown) then Normal createAndFill
  else
    let html := buildMarkup markdown in
    bind (sanitize html sanitizeConfig) (fun sanitizedHtml =>
    bind (materialize sanitizedHtml) (fun parsedDoc =>
    Normal parsedDoc)).

Definition parseMarkdown (markdown : jsstring) : Completion Node :=
  tryCatch (parseBody markdown) (fun _ => Normal createAndFill).

End ParseMarkdown.

End Parser.

(* ================================================================= *)
(** ** Live input rules (InputRulesService) *)

Module InputRules.

Import Parser.

Inductive MarkType : Type := strongType | emType | codeType | linkType.

(** Which node and mark types a schema declares. *)
Record Schema : Type := mkSchema {
  nodes : NodeType -> bool;
  marks : MarkType -> bool
}.

(** SimpleEditorSchema.ts declares every node and mark type of the model. *)
Definition simpleEditorSchema : Schema := mkSchema (fun _ => true) (fun _ => true).

(** The steps a rule's transaction is built from. *)
Inductive Step : Type :=
| Delete (from to : nat)
| SetBlockType (type : NodeType) (attrs : Attrs)
| Wrap (type : NodeType) (attrs : Attrs)
| InsertText (text : jsstring) (at_ : nat)
| AddMark (from to : nat) (mark : Mark)
| ReplaceWith (from to : nat) (text : jsstring)
| ReplaceRange (from to : nat) (slice : list Node).

Definition Transaction := list Step.

(** The function of [createInputRules] a rule comes from. *)
Inductive RuleGroup : Type :=
| HeadingRules | ListRules | CodeBlockRules | BlockquoteRules | MarkRules
| LinkRules | HorizontalRuleRules | ArrowRules | TaskListRules.

Record InputRule : Type := mkRule {
  group_ : RuleGroup;
  pattern : re;
  handler : captures -> nat -> nat -> Transaction
}.

(** [textblockTypeInputRule(regexp, nodeType, getAttrs)]. *)
Definition textblockTypeInputRule (g : RuleGroup) (regexp : re) (nodeType : NodeType)
  (getAttrs : captures -> Attrs) : InputRule :=
  mkRule g regexp (fun m start end_ => [Delete start end_; SetBlockType nodeType (getAttrs m)]).

(** [wrappingInputRule(regexp, nodeType, getAttrs)]. *)
Definition wrappingInputRule (g : RuleGroup) (regexp : re) (nodeType : NodeType)
  (getAttrs : captures -> Attrs) : InputRule :=
  mkRule g regexp (fun m start end_ => [Delete start end_; Wrap nodeType (getAttrs m)]).

(** Unary [+] on a string of decimal digits. *)
Definition toNumber (s : jsstring) : Z :=
  fold_left (fun acc c => (acc * 10 + Z.of_N (c - 48))%Z) s 0%Z.

Definition withLevel (n : nat) : Attrs := mkAttrs n None 1%Z false.
Definition withOrder (z : Z) : Attrs := mkAttrs 1 None z false.
Definition withLanguage (l : option jsstring) : Attrs := mkAttrs 1 l 1%Z false.
Definition withChecked (b : bool) : Attrs := mkAttrs 1 None 1%Z b.

(** Source pattern: "/^(#{1,6})\s$/" *)
Definition reHeadingRule : re :=
  seq [Bol; Grp 1 (Rep Greedy 1 (Some 6%nat) (just hash)); Chr space; Eol].

Definition createHeadingRules (schema : Schema) : list InputRule :=
  [textblockTypeInputRule HeadingRules reHeadingRule heading
     (fun m => withLevel (length (group 1 m)))].

(** Source pattern: "/^\s*([-+*])\s$/" *)
Definition reBulletRule : re :=
  seq [Bol; star space;
       Grp 1 (Chr (fun c => (c =? dash) || (c =? plusSign) || (c =? asterisk)));
       Chr space; Eol].
(** Source pattern: "/^\s*(\d+)\.\s$/" *)
Definition reOrderedRule : re :=
  seq [Bol; star space; Grp 1 (plus isDigit); chr period; Chr space; Eol].

Definition createListRules (schema : Schema) : list InputRule :=
  (if nodes schema bullet_list && nodes schema list_item
   then [wrappingInputRule ListRules reBulletRule bullet_list (fun _ => defaultAttrs)]
   else [])
  ++
  (if nodes schema ordered_list && nodes schema list_item
   then [wrappingInputRule ListRules reOrderedRule ordered_list
           (fun m => withOrder (toNumber (group 1 m)))]
   else []).

(** Source pattern, the asterisk after \S written {0,}: "/^```(\S{0,})\s$/" *)
Definition reCodeBlockRule : re :=
  seq [Bol; chars (lit "```"); Grp 1 (star nonSpace); Chr space; Eol].

Definition createCodeBlockRules (schema : Schema) : list InputRule :=
  if negb (nodes schema code_block) then []
  else [textblockTypeInputRule CodeBlockRules reCodeBlockRule code_block
          (fun m => withLanguage (if truthy (group 1 m) then Some (group 1 m) else None))].

(** Source pattern: "/^\s*>\s$/" *)
Definition reBlockquoteRule : re := seq [Bol; star space; chr greater; Chr space; Eol].

Definition createBlockquoteRules (schema : Schema) : list InputRule :=
  if negb (nodes schema blockquote) then []
  else [wrappingInputRule BlockquoteRules reBlockquoteRule blockquote (fun _ => defaultAttrs)].

(** [createMarkInputRule]: delete the match, insert the captured text, mark it. *)
Definition createMarkInputRule (regexp : re) (mark : Mark) : InputRule :=
  mkRule MarkRules regexp
    (fun m start end_ =>
       let captureGroup := group 1 m in
       [Delete start end_; InsertText captureGroup start;
        AddMark start (start + length captureGroup) mark]).

(** Source patterns, each asterisk written \x2a:
    "/\x2a\x2a([^\x2a]+)\x2a\x2a$/", "/__([^_]+)__$/",
    "/(?<!\x2a)\x2a([^\x2a]+)\x2a(?!\x2a)$/", "/(?<!_)_([^_]+)_(?!_)$/",
    "/`([^`]+)`$/" *)
Definition reStrongStarRule : re :=
  seq [chr asterisk; chr asterisk; Grp 1 (plus (except asterisk));
       chr asterisk; chr asterisk; Eol].
Definition reStrongUnderscoreRule : re :=
  seq [chr underscore; chr underscore; Grp 1 (plus (except underscore));
       chr underscore; chr underscore; Eol].
Definition reEmStarRule : re :=
  seq [NotBehind (just asterisk); chr asterisk; Grp 1 (plus (except asterisk));
       chr asterisk; NotAhead (just asterisk); Eol].
Definition reEmUnderscoreRule : re :=
  seq [NotBehind (just underscore); chr underscore; Grp 1 (plus (except underscore));
       chr underscore; NotAhead (just underscore); Eol].
Definition reCodeRule : re :=
  seq [chr backtick; Grp 1 (plus (except backtick)); chr backtick; Eol].

Definition createMarkRules (schema : Schema) : list InputRule :=
  (if marks schema strongType
   then [createMarkInputRule reStrongStarRule strong;
         createMarkInputRule reStrongUnderscoreRule strong]
   else [])
  ++
  (if marks schema emType
   then [createMarkInputRule reEmStarRule em;
         createMarkInputRule reEmUnderscoreRule em]
   else [])
  ++
  (if marks schema codeType
   then [createMarkInputRule reCodeRule code]
   else []).

(** Source patterns: "/\[([^\]]+)\]\(([^)]+)\)$/" and "/https?:\/\/[^\s]+$/" *)
Definition reLinkRule : re :=
  seq [chr lbracket; Grp 1 (plus (except rbracket)); chr rbracket;
       chr lparen; Grp 2 (plus (except rparen)); chr rparen; Eol].
Definition reAutoLinkRule : re :=
  seq [chars (lit "http"); Rep Greedy 0 (Some 1%nat) (just 115);
       chars (lit "://"); plus nonSpace; Eol].

Definition createLinkRules (schema : Schema) : list InputRule :=
  if negb (marks schema linkType) then []
  else
    [mkRule LinkRules reLinkRule
       (fun m start end_ =>
          let text := group 1 m in
          let href := group 2 m in
          [Delete start end_; InsertText text start;
           AddMark start (start + length text) (link href None)]);
     mkRule LinkRules reAutoLinkRule
       (fun m start end_ => [AddMark start end_ (link (group 0 m) None)])].

(** Source pattern: "/^(---|—-)$/"; the second alternative is an em dash,
    U+2014, and a hyphen. *)
Definition reHorizontalRule : re :=
  seq [Bol; Grp 1 (Alt (chars (lit "---")) (Seq (chr 8212) (chr dash))); Eol].

Definition createHorizontalRuleRules (schema : Schema) : list InputRule :=
  if negb (nodes schema horizontal_rule) then []
  else [mkRule HorizontalRuleRules reHorizontalRule
          (fun _ start end_ =>
             [ReplaceRange start end_
                [Block horizontal_rule defaultAttrs []; Block paragraph defaultAttrs []]])].

(** Source pattern: "/^\[\]\s$/" *)
Definition reTaskListRule : re := seq [Bol; chr lbracket; chr rbracket; Chr space; Eol].

Definition createTaskListRules (schema : Schema) : list InputRule :=
  if negb (nodes schema task_list) || negb (nodes schema task_list_item) then []
  else [wrappingInputRule TaskListRules reTaskListRule task_list (fun _ => withChecked false)].

(** Source patterns: "/->$/", "/<-$/" and "/banana$/". *)
Definition reRightArrow : re := seq [chars (lit "->"); Eol].
Definition reLeftArrow : re := seq [chars (lit "<-"); Eol].
Definition reBanana : re := seq [chars (lit "banana"); Eol].

(** U+2192, U+2190 and U+1F34C (a surrogate pair). *)
Definition rightArrow : jsstring := [8594].
Definition leftArrow : jsstring := [8592].
Definition bananaEmoji : jsstring := [55356; 57164].

Definition rightArrowRule : InputRule :=
  mkRule ArrowRules reRightArrow (fun _ start end_ => [ReplaceWith start end_ rightArrow]).
Definition leftArrowRule : InputRule :=
  mkRule ArrowRules reLeftArrow (fun _ start end_ => [ReplaceWith start end_ leftArrow]).
Definition bananaRule : InputRule :=
  mkRule ArrowRules reBanana (fun _ start end_ => [ReplaceWith start end_ bananaEmoji]).

Definition createArrowRules (schema : Schema) : list InputRule :=
  [rightArrowRule; leftArrowRule; bananaRule].

Definition createInputRules (schema : Schema) : list InputRule :=
  createHeadingRules schema
  ++ createListRules schema
  ++ createCodeBlockRules schema
  ++ createBlockquoteRules schema
  ++ createMarkRules schema
  ++ createLinkRules schema
  ++ createHorizontalRuleRules schema
  ++ createArrowRules schema
  ++ createTaskListRules schema.

(** [match[0]] is the whole match: group 0. *)
Definition allGroups (f : found) : captures := groups f ++ [(0%nat, matched f)].

(** Modelled from the spec: what one rule does with the text before the
    caret.  Rules are run by the editor library, which is not part of the
    repository; the rules are "evaluated against the text immediately
    preceding the caret after each keystroke" and "a firing replaces the
    matched span with its transformed structure and consumes any trigger
    characters".  The pattern is run against [textBefore], the typed
    character included, and the handler is given the span of the match in
    that text, from [index] to its end.  [keystroke] below is the call the
    library makes, with its limit on the text it hands over and the range
    in the document it passes on. *)
Definition fire (rule : InputRule) (textBefore : jsstring) : option Transaction :=
  match exec (pattern rule) textBefore with
  | Some f => Some (handler rule (allGroups f) (index f) (length textBefore))
  | None => None
  end.


(** The longest stretch of text before the caret that a rule is handed
    ([MAX_MATCH] of the editor library). *)
Definition MAX_MATCH : nat := 500.

(** The last [MAX_MATCH] code units of the text of the block before the
    caret. *)
Definition window (before : jsstring) : jsstring :=
  skipn (length before - MAX_MATCH) before.

(** Modelled from the spec: the call the host's keystroke dispatch makes for
    one rule ([inputRules] of the editor library, not part of the
    repository), in a text block that is not code.  [before] is the text of
    the block before the caret and [text] the text being typed, which is
    not in the document yet.  The pattern is run against the last
    [MAX_MATCH] code units of [before] followed by [text]; a match shorter
    than [text] is passed over.  The handler is given the range of the
    match in the document, which ends at the caret; positions are counted
    from the start of the block.  When the rule fires its transaction is
    dispatched in place of the insertion of [text]. *)
Definition keystroke (rule : InputRule) (before text : jsstring) : option Transaction :=
  let textBefore := window before ++ text in
  match exec (pattern rule) textBefore with
  | Some f =>
      if Nat.leb (length text) (length (matched f))
      then Some (handler rule (allGroups f)
                   (length before - (length (matched f) - length text)) (length before))
      else None
  | None => None
  end.

End InputRules.

(* ================================================================= *)
(** ** The materializer

    [DOMPurify.sanitize], the host's markup parser behind [innerHTML] and
    the editor library's [DOMParser.fromSchema(schema).parse] are
    collaborators outside the repository.  They are modelled here as the
    specification describes them: "an intermediate markup->tree materializer
    performing the sanitization pass", "an explicit allow-list tree walker
    operating directly on the parsed intermediate structure", building trees
    that satisfy the schema's content expressions by filling in minimal
    content.  Character references are not expanded.  White space in text
    is read as the editor library reads it: kept as it is under [pre],
    whose parse rule in SimpleEditorSchema.ts sets [preserveWhitespace] to
    ['full'], and normalised everywhere else, where no parse rule asks for
    it to be preserved. *)

Module Materializer.

Import Parser.

(** The parsed intermediate structure. *)
Inductive Dom : Type :=
| DText (data : jsstring)
| DElem (tag : jsstring) (attributes : list (jsstring * jsstring)) (childNodes : list Dom).

Inductive Token : Type :=
| TChar (c : codeunit)
| TStart (tag : jsstring) (attributes : list (jsstring * jsstring))
| TEnd (tag : jsstring).

Definition isLetter (c : codeunit) : bool :=
  ((65 <=? c) && (c <=? 90)) || ((97 <=? c) && (c <=? 122)).

Definition lower (c : codeunit) : codeunit :=
  if (65 <=? c) && (c <=? 90) then c + 32 else c.

(** A tag being read: end tag or start tag, name, attributes so far. *)
Record Tag : Type := mkTag {
  closing : bool;
  name : jsstring;
  attrs_ : list (jsstring * jsstring)
}.

Definition emitTag (t : Tag) : Token :=
  if closing t then TEnd (name t) else TStart (name t) (attrs_ t).

Definition addAttr (t : Tag) (n v : jsstring) : Tag :=
  mkTag (closing t) (name t) (attrs_ t ++ [(n, v)]).

Definition addName (t : Tag) (c : codeunit) : Tag :=
  mkTag (closing t) (name t ++ [lower c]) (attrs_ t).

Inductive LexState : Type :=
| Data
| LtSeen
| LtSlash
| TagName (t : Tag)
| BeforeAttr (t : Tag)
| AttrName (t : Tag) (n : jsstring)
| BeforeValue (t : Tag) (n : jsstring)
| ValueQuoted (t : Tag) (n : jsstring) (q : codeunit) (v : jsstring)
| ValueUnquoted (t : Tag) (n v : jsstring)
| Bogus.

Definition lessThan : codeunit := 60.
Definition slash : codeunit := 47.
Definition equals : codeunit := 61.
Definition squote : codeunit := 39.

(** Modelled from the spec: the tokenizer of the host's markup parser (behind
    [innerHTML] and inside the sanitizer), which is not part of the
    repository.  Tags, attributes with quoted or bare values, and text;
    markup declarations and stray end tags are passed over. *)
Fixpoint lex (st : LexState) (s : jsstring) {struct s} : list Token :=
  match s with
  | [] => match st with LtSeen => [TChar lessThan] | _ => [] end
  | c :: r =>
      match st with
      | Data => if c =? lessThan then lex LtSeen r else TChar c :: lex Data r
      | LtSeen =>
          if isLetter c then lex (TagName (mkTag false [lower c] [])) r
          else if c =? slash then lex LtSlash r
          else if (c =? 33) || (c =? 63) then lex Bogus r
          else if c =? lessThan then TChar lessThan :: lex LtSeen r
          else TChar lessThan :: TChar c :: lex Data r
      | LtSlash =>
          if isLetter c then lex (TagName (mkTag true [lower c] [])) r
          else if c =? greater then lex Data r
          else lex Bogus r
      | TagName t =>
          if isWhiteSpace c || (c =? slash) then lex (BeforeAttr t) r
          else if c =? greater then emitTag t :: lex Data r
          else lex (TagName (addName t c)) r
      | BeforeAttr t =>
          if isWhiteSpace c || (c =? slash) then lex (BeforeAttr t) r
          else if c =? greater then emitTag t :: lex Data r
          else lex (AttrName t [lower c]) r
      | AttrName t n =>
          if c =? equals then lex (BeforeValue t n) r
          else if isWhiteSpace c || (c =? slash) then lex (BeforeAttr (addAttr t n [])) r
          else if c =? greater then emitTag (addAttr t n []) :: lex Data r
          else lex (AttrName t (n ++ [lower c])) r
      | BeforeValue t n =>
          if isWhiteSpace c then lex (BeforeValue t n) r
          else if (c =? dquote) || (c =? squote) then lex (ValueQuoted t n c []) r
          else if c =? greater then emitTag (addAttr t n []) :: lex Data r
          else lex (ValueUnquoted t n [c]) r
      | ValueQuoted t n q v =>
          if c =? q then lex (BeforeAttr (addAttr t n v)) r
          else lex (ValueQuoted t n q (v ++ [c])) r
      | ValueUnquoted t n v =>
          if isWhiteSpace c then lex (BeforeAttr (addAttr t n v)) r
          else if c =? greater then emitTag (addAttr t n v) :: lex Data r
          else lex (ValueUnquoted t n (v ++ [c])) r
      | Bogus => if c =? greater then lex Data r else lex Bogus r
      end
  end.

(** An element still open: its children are kept newest first. *)
Record Frame : Type := mkFrame {
  ftag : jsstring;
  fattrs : list (jsstring * jsstring);
  fkids : list Dom
}.

Definition isVoid (tag : jsstring) : bool :=
  existsb (JS.eqb tag) (map lit ["hr"; "br"; "img"; "input"; "meta"; "link"]).

(** Appends a character to the newest child when that is text. *)
Definition pushChar (c : codeunit) (kids : list Dom) : list Dom :=
  match kids with
  | DText s :: r => DText (s ++ [c]) :: r
  | _ => DText [c] :: kids
  end.

(** The newest child of an open element is text. *)
Definition endsInText (kids : list Dom) : bool :=
  match kids with DText _ :: _ => true | _ => false end.

(** Closes open elements down to and including the nearest [tag]. *)
Fixpoint closeTo (tag : jsstring) (stack : list Frame) (kids : list Dom)
  : option (list Frame * list Dom) :=
  match stack with
  | [] => None
  | f :: below =>
      let done := DElem (ftag f) (fattrs f) (rev kids) in
      if JS.eqb (ftag f) tag then Some (below, done :: fkids f)
      else closeTo tag below (done :: fkids f)
  end.

(** Closes every element still open at the end of the input. *)
Fixpoint closeAll (stack : list Frame) (kids : list Dom) : list Dom :=
  match stack with
  | [] => rev kids
  | f :: below => closeAll below (DElem (ftag f) (fattrs f) (rev kids) :: fkids f)
  end.

(** Modelled from the spec: the tree construction of the host's markup
    parser, which is not part of the repository.  [stack] holds the open
    elements, innermost first, each with the children its parent had when it
    was opened; [kids] are the children of the innermost open element. *)
Fixpoint build (toks : list Token) (stack : list Frame) (kids : list Dom) : list Dom :=
  match toks with
  | [] => closeAll stack kids
  | TChar c :: r => build r stack (pushChar c kids)
  | TStart tag a :: r =>
      if isVoid tag then build r stack (DElem tag a [] :: kids)
      else build r (mkFrame tag a kids :: stack) []
  | TEnd tag :: r =>
      match closeTo tag stack kids with
      | Some (stack', kids') => build r stack' kids'
      | None => build r stack kids
      end
  end.

(** Modelled from the spec: "the parsed intermediate structure" of a markup
    string. *)
Definition parseMarkup (html : jsstring) : list Dom := build (lex Data html) [] [].

(** *** The allow-list walker *)

Definition dataPrefix : jsstring := lit "data-".

Definition allowedTag (cfg : SanitizeConfig) (tag : jsstring) : bool :=
  existsb (JS.eqb tag) (ALLOWED_TAGS cfg).

Definition isDataAttr (n : jsstring) : bool :=
  startsWith dataPrefix n && Nat.ltb (length dataPrefix) (length n).

Definition allowedAttr (cfg : SanitizeConfig) (n : jsstring) : bool :=
  existsb (JS.eqb n) (ALLOWED_ATTR cfg) || (ALLOW_DATA_ATTR cfg && isDataAttr n).

(** Elements whose content goes with them when they are dropped. *)
Definition dropsContent (tag : jsstring) : bool :=
  existsb (JS.eqb tag) (map lit ["script"; "style"; "iframe"; "noscript"; "template"]).

(** Modelled from the spec: the sanitizer ([DOMPurify.sanitize], not part of
    the repository) as "an explicit allow-list tree walker": "anything
    outside the allow-list is dropped silently".  A dropped element leaves
    its children in its place, unless it is one whose content is not text
    of the document. *)
Fixpoint sanitizeDom (cfg : SanitizeConfig) (d : Dom) : list Dom :=
  match d with
  | DText s => [DText s]
  | DElem tag a kids =>
      let kids' := (fix each (l : list Dom) : list Dom :=
                      match l with
                      | [] => []
                      | k :: r => sanitizeDom cfg k ++ each r
                      end) kids in
      if allowedTag cfg tag
      then [DElem tag (filter (fun nv => allowedAttr cfg (fst nv)) a) kids']
      else if dropsContent tag then [] else kids'
  end.

Definition sanitizeAll (cfg : SanitizeConfig) (ds : list Dom) : list Dom :=
  flat_map (sanitizeDom cfg) ds.

(** *** From sanitized markup to a document (the schema's parse rules) *)

Definition getAttribute (n : jsstring) (a : list (jsstring * jsstring)) : option jsstring :=
  match find (fun nv => JS.eqb (fst nv) n) a with
  | Some nv => Some (snd nv)
  | None => None
  end.

Definition hasValue (n v : jsstring) (a : list (jsstring * jsstring)) : bool :=
  match getAttribute n a with
  | Some x => JS.eqb x v
  | None => false
  end.

Inductive TagKind : Type :=
| KHeading (n : nat) | KParagraph | KBlockquote | KPre | KBulletList
| KOrderedList | KListItem | KRule | KStrong | KEm | KCode | KAnchor
| KBreak | KOther.

Definition tagKind (tag : jsstring) : TagKind :=
  if JS.eqb tag (lit "h1") then KHeading 1
  else if JS.eqb tag (lit "h2") then KHeading 2
  else if JS.eqb tag (lit "h3") then KHeading 3
  else if JS.eqb tag (lit "h4") then KHeading 4
  else if JS.eqb tag (lit "h5") then KHeading 5
  else if JS.eqb tag (lit "h6") then KHeading 6
  else if JS.eqb tag (lit "p") then KParagraph
  else if JS.eqb tag (lit "blockquote") then KBlockquote
  else if JS.eqb tag (lit "pre") then KPre
  else if JS.eqb tag (lit "ul") then KBulletList
  else if JS.eqb tag (lit "ol") then KOrderedList
  else if JS.eqb tag (lit "li") then KListItem
  else if JS.eqb tag (lit "hr") then KRule
  else if JS.eqb tag (lit "strong") || JS.eqb tag (lit "b") then KStrong
  else if JS.eqb tag (lit "em") || JS.eqb tag (lit "i") then KEm
  else if JS.eqb tag (lit "code") then KCode
  else if JS.eqb tag (lit "a") then KAnchor
  else if JS.eqb tag (lit "br") then KBreak
  else KOther.

Definition isBlockDom (d : Dom) : bool :=
  match d with
  | DText _ => false
  | DElem tag _ _ =>
      match tagKind tag with
      | KHeading _ | KParagraph | KBlockquote | KPre | KBulletList
      | KOrderedList | KListItem | KRule => true
      | _ => false
      end
  end.

(** The schema declares its marks in the order strong, em, code, link. *)
Definition rank (m : Mark) : nat :=
  match m with
  | strong => 0
  | em => 1
  | code => 2
  | link _ _ => 3
  end.

(** A mark set is kept in rank order with one mark of a type. *)
Fixpoint addToSet (m : Mark) (ms : list Mark) : list Mark :=
  match ms with
  | [] => [m]
  | x :: r =>
      if Nat.ltb (rank m) (rank x) then m :: ms
      else if Nat.eqb (rank m) (rank x) then m :: r
      else x :: addToSet m r
  end.

Definition optEqb (a b : option jsstring) : bool :=
  match a, b with
  | Some x, Some y => JS.eqb x y
  | None, None => true
  | _, _ => false
  end.

Definition markEqb (a b : Mark) : bool :=
  match a, b with
  | strong, strong | em, em | code, code => true
  | link h t, link h' t' => JS.eqb h h' && optEqb t t'
  | _, _ => false
  end.

Fixpoint sameMarks (a b : list Mark) : bool :=
  match a, b with
  | [], [] => true
  | x :: a', y :: b' => markEqb x y && sameMarks a' b'
  | _, _ => false
  end.

(** Adjacent text with the same marks is one text node. *)
Fixpoint joinText (l : list Node) : list Node :=
  match l with
  | [] => []
  | n :: r =>
      match n, joinText r with
      | Text s ms, Text s' ms' :: r' =>
          if sameMarks ms ms' then Text (s ++ s') ms :: r' else n :: Text s' ms' :: r'
      | _, r' => n :: r'
      end
  end.

Definition marksFor (tag : jsstring) (a : list (jsstring * jsstring)) (ms : list Mark)
  : list Mark :=
  match tagKind tag with
  | KStrong => addToSet strong ms
  | KEm => addToSet em ms
  | KCode => addToSet code ms
  | KAnchor => match getAttribute (lit "href") a with
               | Some h => addToSet (link h (getAttribute (lit "title") a)) ms
               | None => ms
               end
  | _ => ms
  end.

(** Modelled from the spec: inline content under the schema's parse rules
    (the editor library's [DOMParser], not part of the repository): text
    under the marks of the elements around it. *)
Fixpoint inlineOf (ms : list Mark) (d : Dom) : list Node :=
  match d with
  | DText s => match s with [] => [] | _ :: _ => [Text s ms] end
  | DElem tag a kids =>
      match tagKind tag with
      | KBreak => [Block hard_break defaultAttrs []]
      | _ =>
          (fix each (l : list Dom) : list Node :=
             match l with
             | [] => []
             | k :: r => inlineOf (marksFor tag a ms) k ++ each r
             end) kids
      end
  end.

(** The white space the editor library's parser normalises: blank, tab,
    line feed, carriage return and form feed. *)
Definition isBlankSpace (c : codeunit) : bool :=
  (c =? 32) || (c =? 9) || (c =? 10) || (c =? 13) || (c =? 12).

(** Every run of such white space becomes one blank; [inRun] holds inside a
    run. *)
Fixpoint collapse (inRun : bool) (s : jsstring) : jsstring :=
  match s with
  | [] => []
  | c :: r =>
      if isBlankSpace c
      then if inRun then collapse true r else 32 :: collapse true r
      else c :: collapse false r
  end.

(** A blank at the start of a text is dropped when nothing comes before the
    text in its block, or a line break, or text that ends in white space. *)
Definition dropsLeadingBlank (content : list Node) : bool :=
  match rev content with
  | [] => true
  | Text s _ :: _ => isBlankSpace (last s 0)
  | Block hard_break _ _ :: _ => true
  | Block _ _ _ :: _ => false
  end.

(** Modelled from the spec: one inline node added to the content of a
    block, as the editor library's [DOMParser] (not part of the repository)
    adds it when white space is not preserved.  [inline] holds when the
    block holds inline content by its type; in a block that does not, text
    of white space alone is passed over as long as no paragraph has been
    opened for inline content. *)
Definition addInline (inline : bool) (content : list Node) (n : Node) : list Node :=
  match n with
  | Text s ms =>
      if negb (inline || negb (Nat.eqb (length content) 0)) && forallb isBlankSpace s
      then content
      else
        let value := collapse false s in
        let value := match value with
                     | c :: r => if isBlankSpace c && dropsLeadingBlank content
                                 then r else value
                     | [] => []
                     end in
        match value with
        | [] => content
        | _ :: _ => content ++ [Text value ms]
        end
  | Block _ _ _ => content ++ [n]
  end.

(** What a block loses when it is finished: the white space that ends its
    last text, and that text itself when nothing else is in it. *)
Definition stripTrailing (content : list Node) : list Node :=
  match rev content with
  | Text s ms :: before =>
      match rev (dropWhile isBlankSpace (rev s)) with
      | [] => rev before
      | s' => rev (Text s' ms :: before)
      end
  | _ => content
  end.

(** Modelled from the spec: the inline content of one block, from the text
    and line breaks found for it in the markup. *)
Definition textblock (inline : bool) (found : list Node) : list Node :=
  joinText (stripTrailing (fold_left (addInline inline) found [])).

Definition inlines (kids : list Dom) : list Node :=
  textblock true (flat_map (inlineOf []) kids).

(** The text under a node, for [pre]. *)
Fixpoint domText (d : Dom) : jsstring :=
  match d with
  | DText s => s
  | DElem _ _ kids =>
      (fix each (l : list Dom) : jsstring :=
         match l with
         | [] => []
         | k :: r => domText k ++ each r
         end) kids
  end.

Definition emptyParagraph : Node := Block paragraph defaultAttrs [].

(** Pending inline content becomes one paragraph. *)
Definition flush (pending : list Node) : list Node :=
  match textblock false pending with
  | [] => []
  | l => [Block paragraph defaultAttrs l]
  end.

(** Content [paragraph block*]. *)
Definition fillItem (blocks : list Node) : list Node :=
  match blocks with
  | Block paragraph _ _ :: _ => blocks
  | _ => emptyParagraph :: blocks
  end.

(** Content [block+]. *)
Definition fillBlocks (blocks : list Node) : list Node :=
  match blocks with
  | [] => [emptyParagraph]
  | _ :: _ => blocks
  end.

Definition allDigits (s : jsstring) : bool := truthy s && forallb isDigit s.

Definition orderOf (a : list (jsstring * jsstring)) : Z :=
  match getAttribute (lit "start") a with
  | Some v => if allDigits v then InputRules.toNumber v else 1%Z
  | None => 1%Z
  end.

Definition languageOf (a : list (jsstring * jsstring)) : option jsstring :=
  match getAttribute (lit "data-language") a with
  | Some v => if truthy v then Some v else None
  | None => None
  end.

Definition isTaskList (a : list (jsstring * jsstring)) : bool :=
  hasValue (lit "data-type") (lit "taskList") a.
Definition isTaskItem (a : list (jsstring * jsstring)) : bool :=
  hasValue (lit "data-type") (lit "taskItem") a.
Definition isChecked (a : list (jsstring * jsstring)) : bool :=
  hasValue (lit "data-checked") (lit "true") a.

Definition itemNode (task : bool) (a : list (jsstring * jsstring)) (blocks : list Node) : Node :=
  if task
  then Block task_list_item (InputRules.withChecked (isChecked a)) (fillItem blocks)
  else Block list_item defaultAttrs (fillItem blocks).

Definition fillList (task : bool) (items : list Node) : list Node :=
  match items with
  | [] => [itemNode task [] []]
  | _ :: _ => items
  end.

(** Modelled from the spec: the block a markup element becomes under the
    schema's parse rules (the editor library's [DOMParser], not part of the
    repository), with content filled where the schema asks for it. *)
Fixpoint blockOf (d : Dom) : list Node :=
  match d with
  | DText _ => []
  | DElem tag a kids =>
      let blocks :=
        (fix blocks (l : list Dom) (pending : list Node) {struct l} : list Node :=
           match l with
           | [] => flush pending
           | k :: r =>
               if isBlockDom k then flush pending ++ blockOf k ++ blocks r []
               else blocks r (pending ++ inlineOf [] k)
           end) in
      let items :=
        (fix items (task : bool) (l : list Dom) {struct l} : list Node :=
           match l with
           | [] => []
           | k :: r =>
               match k with
               | DElem tag' a' kids' =>
                   match tagKind tag' with
                   | KListItem =>
                       (* an item of the enclosing list's kind *)
                       itemNode task a' (blocks kids' []) :: items task r
                   | _ => itemNode task [] (blocks [k] []) :: items task r
                   end
               | DText _ => itemNode task [] (blocks [k] []) :: items task r
               end
           end) in
      match tagKind tag with
      | KHeading n => [Block heading (InputRules.withLevel n) (inlines kids)]
      | KParagraph => [Block paragraph defaultAttrs (inlines kids)]
      | KBlockquote => [Block blockquote defaultAttrs (fillBlocks (blocks kids []))]
      | KPre =>
          [Block code_block (InputRules.withLanguage (languageOf a))
             match domText d with
             | [] => []
             | s => [Text s []]
             end]
      | KBulletList =>
          if isTaskList a
          then [Block task_list defaultAttrs (fillList true (items true kids))]
          else [Block bullet_list defaultAttrs (fillList false (items false kids))]
      | KOrderedList =>
          [Block ordered_list (InputRules.withOrder (orderOf a)) (fillList false (items false kids))]
      | KListItem =>
          (* an item met outside a list is wrapped in a list of its kind *)
          if isTaskItem a
          then [Block task_list defaultAttrs [itemNode true a (blocks kids [])]]
          else [Block bullet_list defaultAttrs [itemNode false a (blocks kids [])]]
      | KRule => [Block horizontal_rule defaultAttrs []]
      | _ => []
      end
  end.

(** Modelled from the spec: the blocks of a sequence of markup nodes; runs
    of inline content are gathered into paragraphs. *)
Fixpoint blocksOf (l : list Dom) (pending : list Node) {struct l} : list Node :=
  match l with
  | [] => flush pending
  | k :: r =>
      if isBlockDom k then flush pending ++ blockOf k ++ blocksOf r []
      else blocksOf r (pending ++ inlineOf [] k)
  end.

(** The items of a list, as [blockOf] makes them. *)
Fixpoint itemsOf (task : bool) (l : list Dom) {struct l} : list Node :=
  match l with
  | [] => []
  | k :: r =>
      match k with
      | DElem tag' a' kids' =>
          match tagKind tag' with
          | KListItem => itemNode task a' (blocksOf kids' []) :: itemsOf task r
          | _ => itemNode task [] (blocksOf [k] []) :: itemsOf task r
          end
      | DText _ => itemNode task [] (blocksOf [k] []) :: itemsOf task r
      end
  end.

(** Modelled from the spec: the document materialized from sanitized
    markup; content [block+] is filled as in [createAndFill]. *)
Definition toDocument (ds : list Dom) : Node :=
  Block doc defaultAttrs (fillBlocks (blocksOf ds [])).

(** The allow-list alone: the configuration without its data-attribute flag. *)
Definition strictConfig : SanitizeConfig :=
  mkConfig (ALLOWED_TAGS sanitizeConfig) (ALLOWED_ATTR sanitizeConfig) false.

(** Every element of [d] has a tag accepted by [tagOk] and only attributes
    whose names are accepted by [attrOk]. *)
Fixpoint onlyAllowed (tagOk attrOk : jsstring -> bool) (d : Dom) : bool :=
  match d with
  | DText _ => true
  | DElem tag a kids =>
      tagOk tag && forallb (fun nv => attrOk (fst nv)) a
      && (fix each (l : list Dom) : bool :=
            match l with
            | [] => true
            | k :: r => onlyAllowed tagOk attrOk k && each r
            end) kids
  end.

Definition listedTag (tag : jsstring) : bool :=
  existsb (JS.eqb tag)
    (map lit ["h1"; "h2"; "h3"; "h4"; "h5"; "h6"; "p"; "strong"; "em"; "code"; "pre";
              "ul"; "ol"; "li"; "blockquote"; "a"; "hr"]).

Definition listedAttr (n : jsstring) : bool :=
  existsb (JS.eqb n)
    (map lit ["href"; "data-language"; "data-type"; "data-checked"; "class"]).

(** The attributes the schema's parse rules read. *)
Definition readByRules (n : jsstring) : bool :=
  existsb (JS.eqb n)
    (map lit ["href"; "title"; "start"; "data-language"; "data-type"; "data-checked"]).

(** [d] with every attribute the parse rules do not read taken away. *)
Fixpoint restrict (d : Dom) : Dom :=
  match d with
  | DText s => DText s
  | DElem tag a kids =>
      DElem tag (filter (fun nv => readByRules (fst nv)) a)
        ((fix each (l : list Dom) : list Dom :=
            match l with
            | [] => []
            | k :: r => restrict k :: each r
            end) kids)
  end.

(** What [restrict] leaves unchanged of one markup node. *)
Definition content (d : Dom) : list Node :=
  match d with
  | DText _ => []
  | DElem _ _ kids => blocksOf kids []
  end.

Definition sameReading (d : Dom) : Prop :=
  (forall ms, inlineOf ms (restrict d) = inlineOf ms d)
  /\ blockOf (restrict d) = blockOf d
  /\ domText (restrict d) = domText d
  /\ isBlockDom (restrict d) = isBlockDom d
  /\ content (restrict d) = content d.

(** Induction on markup trees, through the lists of children. *)
Section DomInduction.

Variable P : Dom -> Prop.
Hypothesis text_case : forall s, P (DText s).
Hypothesis elem_case : forall tag a kids, Forall P kids -> P (DElem tag a kids).

Fixpoint Dom_induction (d : Dom) : P d :=
  match d with
  | DText s => text_case s
  | DElem tag a kids =>
      elem_case tag a kids
        ((fix each (l : list Dom) : Forall P l :=
            match l with
            | [] => Forall_nil P
            | k :: r => Forall_cons k (Dom_induction k) (each r)
            end) kids)
  end.

End DomInduction.

(** Modelled from the spec: the two collaborators of [parseMarkdown],
    [DOMPurify.sanitize] and the materializer; neither throws. *)
Definition sanitize (html : jsstring) (cfg : SanitizeConfig) : Completion (list Dom) :=
  Normal (sanitizeAll cfg (parseMarkup html)).

Definition materialize (sanitized : list Dom) : Completion Node :=
  Normal (toDocument sanitized).

End Materializer.

(* ================================================================= *)
(** ** The engine: parser and serializer together *)

Module Engine.

Definition parseCompletion (markdown : jsstring) : Parser.Completion Node :=
  Parser.parseMarkdown (list Materializer.Dom)
    Materializer.sanitize Materializer.materialize markdown.

(** The tree a caller of [parseMarkdown] receives. *)
Definition parse (markdown : jsstring) : Node :=
  match parseCompletion markdown with
  | Parser.Normal d => d
  | Parser.Throw _ => createAndFill
  end.

Definition serialize : Node -> jsstring := Serializer.serializeToMarkdown.

End Engine.

(* ================================================================= *)
(** ** The serializer's loops as folds *)

Module Loops.

Import Serializer.

(** What [nodeToText] appends for one child. *)
Definition childMarkdown (child : Node) : jsstring :=
  match child with
  | Text s ms => textToMarkdown s ms
  | Block _ _ _ => nodeToText child
  end.

(** The body of [listItem.forEach] in [serializeList]. *)
Definition childText (itemText : jsstring) (itemChild : Node) : jsstring :=
  match itemChild with
  | Block paragraph _ _ => itemText ++ nodeToText itemChild
  | Block bullet_list _ _ =>
      itemText ++ [nl] ++ indent (serializeList itemChild (lit "-") None)
  | Block ordered_list _ _ =>
      itemText ++ [nl] ++ indent (serializeList itemChild (lit "1.") None)
  | _ => itemText
  end.

(** [itemText] once the children of a list item have been visited. *)
Definition listItemText (kids : list Node) : jsstring := fold_left childText kids [].

(** The body of [listNode.forEach] in [serializeList]. *)
Definition itemStep (marker : jsstring) (st : jsstring * Z) (listItem : Node) : jsstring * Z :=
  match listItem with
  | Block list_item _ kids => emitItem marker (listItemText kids) st
  | _ => st
  end.

(** The flattened text of an item: the [itemText] its list's loop builds. *)
Definition flattened (item : Node) : jsstring :=
  match item with
  | Block list_item _ kids => listItemText kids
  | Block task_list_item _ kids => taskItemText kids
  | _ => []
  end.

Definition isListType (ty : NodeType) : bool :=
  match ty with
  | bullet_list | ordered_list | task_list => true
  | _ => false
  end.

Definition noLink (ms : list Mark) : bool := forallb (fun m => negb (isLink m)) ms.

(** The specification's words on inline rendering, written out: "all
    non-link marks (strong, em, code) wrap the literal text first", strong
    between two asterisks on either side, emphasis between single asterisks,
    code between backticks; the first mark held is the innermost.  The link
    mark is left to wrap last. *)
Fixpoint formattedText (text : jsstring) (marks : list Mark) : jsstring :=
  match marks with
  | [] => text
  | strong :: rest => formattedText ([42; 42] ++ text ++ [42; 42]) rest
  | em :: rest => formattedText ([42] ++ text ++ [42]) rest
  | code :: rest => formattedText ([96] ++ text ++ [96]) rest
  | link _ _ :: rest => formattedText text rest
  end.

(** A list item whose only text is blank, and an ordered list that starts
    at 3. *)
Definition blankItem : Node :=
  Block list_item defaultAttrs [Block paragraph defaultAttrs [Text (lit "  ") []]].

Definition orderedFromThree : Node :=
  Block ordered_list (mkAttrs 1 None 3%Z false)
    [Block list_item defaultAttrs [Block paragraph defaultAttrs [Text (lit "b") []]];
     Block list_item defaultAttrs [Block paragraph defaultAttrs [Text (lit "c") []]]].

End Loops.

(* ================================================================= *)
(** ** The line rules as a priority list

    The specification words the line scan as an ordered list of rules, the
    first one that applies deciding the line.  [classifyByPriority] follows
    those words, reading the shapes of the rules by hand with no pattern of
    the source; it is compared with [Parser.classify] below. *)

Module Priority.

Import Parser.

(** The specification's rules are read with readers: a reader is given a
    text and returns what is left of it behind what it reads, or nothing
    when the text does not open that way. *)
Definition Reader : Type := jsstring -> option jsstring.

Definition exactly (c : codeunit) : codeunit -> bool := fun x => x =? c.

(** One code unit of a kind. *)
Definition one (p : codeunit -> bool) : Reader :=
  fun s => match s with
           | c :: r => if p c then Some r else None
           | [] => None
           end.

(** All the code units of a kind that open the text, none included. *)
Definition any (p : codeunit -> bool) : Reader := fun s => Some (dropWhile p s).

(** The same, and at least one. *)
Definition some (p : codeunit -> bool) : Reader :=
  fun s => match one p s with
           | Some r => any p r
           | None => None
           end.

Definition andThen (a b : Reader) : Reader :=
  fun s => match a s with
           | Some r => b r
           | None => None
           end.

Infix ">>" := andThen (at level 61, left associativity).

(** The specification's shapes of the rules 2 to 9, written out and read on
    the trimmed line.  The space that ends a shape is white space of any
    length; the blanks shown inside the task markers may be missing or
    repeated. *)

(** Rule 2: one to six hash signs, then white space.  The level is the
    number of hash signs. *)
Definition headingOf (t : jsstring) : option (nat * jsstring) :=
  let level := length (takeWhile (exactly hash) t) in
  if Nat.leb 1 level && Nat.leb level 6
  then match some isWhiteSpace (dropWhile (exactly hash) t) with
       | Some text => Some (level, text)
       | None => None
       end
  else None.

(** Rule 3: three backticks; what follows on the line is the info string. *)
Definition fenceOf : Reader :=
  one (exactly backtick) >> one (exactly backtick) >> one (exactly backtick).

(** Rule 4: a hyphen and an empty pair of brackets, then white space. *)
Definition uncheckedOf : Reader :=
  one (exactly dash) >> any isWhiteSpace >> one (exactly lbracket) >> any isWhiteSpace
    >> one (exactly rbracket) >> some isWhiteSpace.

(** Rule 5: a hyphen and a pair of brackets around the letter x, small or
    capital, then white space. *)
Definition checkedOf : Reader :=
  one (exactly dash) >> any isWhiteSpace >> one (exactly lbracket)
    >> one (fun c => exactly 120 c || exactly 88 c) >> one (exactly rbracket)
    >> some isWhiteSpace.

(** Rule 6: digits, a period, white space. *)
Definition orderedOf : Reader := some isDigit >> one (exactly period) >> some isWhiteSpace.

(** Rule 7: a hyphen, an asterisk or a plus sign, then white space. *)
Definition unorderedOf : Reader :=
  one (fun c => exactly dash c || exactly asterisk c || exactly plusSign c)
    >> some isWhiteSpace.

(** Rule 8: a greater-than sign, then white space. *)
Definition quoteOf : Reader := one (exactly greater) >> some isWhiteSpace.

(** Rule 9: three hyphens or more and nothing else. *)
Definition isRule (t : jsstring) : bool := Nat.leb 3 (length t) && forallb (exactly dash) t.

(** A rule makes a class of the trimmed line, or does not apply. *)
Definition LineRule : Type := jsstring -> option LineClass.

Definition shape (read : Reader) (make : jsstring -> LineClass) : LineRule :=
  fun t => match read t with
           | Some text => Some (make text)
           | None => None
           end.

(** The specification's rules 1 to 9 in their order. *)
Definition lineRules : list LineRule :=
  [ fun t => match t with [] => Some Blank | _ :: _ => None end;
    fun t => match headingOf t with
             | Some (level, text) => Some (Heading level text)
             | None => None
             end;
    shape fenceOf FenceOpen;
    shape uncheckedOf TaskUnchecked;
    shape checkedOf TaskChecked;
    shape orderedOf OrderedItem;
    shape unorderedOf UnorderedItem;
    shape quoteOf Quote;
    fun t => if isRule t then Some Rule else None ].

Fixpoint firstMatching (rules : list LineRule) (t : jsstring) : option LineClass :=
  match rules with
  | [] => None
  | r :: rest => match r t with
                 | Some c => Some c
                 | None => firstMatching rest t
                 end
  end.

(** The specification's words on the line scan: the first rule that applies
    to the trimmed line decides; rule 10 makes any other line a paragraph of
    the line as it stands. *)
Definition classifyByPriority (line : jsstring) : LineClass :=
  match firstMatching lineRules (trim line) with
  | Some c => c
  | None => Para line
  end.

(** What a pattern without groups leaves when its reader leaves it. *)
Definition left (o : option jsstring) : option outcome :=
  match o with
  | Some r => Some (r, [])
  | None => None
  end.

(** Text that does not open with white space. *)
Definition opensDark (t : jsstring) : Prop :=
  match t with
  | c :: _ => isWhiteSpace c = false
  | [] => True
  end.

(** The inner [while] of the fence branch. *)
Definition codeBlock (lang html : jsstring) :=
  fix codeBlock (ls : list jsstring) (codeLines : list jsstring) {struct ls} : jsstring :=
    match ls with
    | [] => html ++ preMarkup lang codeLines
    | l :: ls' =>
        if startsWith (lit "```") (trim l)
        then parseLines ls' (html ++ preMarkup lang codeLines)
        else codeBlock ls' (codeLines ++ [l])
    end.

(** A line that ends a fenced block. *)
Definition closesFence (line : jsstring) : bool := startsWith (lit "```") (trim line).

End Priority.

(* ================================================================= *)
(** ** Markdown in the serializer's normal form

    One block after the other, written the way the serializer writes it.
    The text of a block is a sequence of segments: a run of text under any
    of the marks strong, emphasis and code (none, one, two or all three), by
    itself or as the text of a link, with regular text between any two
    segments that are not.  Plain characters are the printable characters of
    ASCII and the code units from U+00A1 on that are not white space,
    without the asterisk, the backtick, [<] and [&].  An opening bracket in
    a run is closed in the run, by a bracket that no parenthesis follows;
    the line holds one underscore at most.  A text has no blank at either
    end and no two blanks in a row, so that the white-space normalisation on
    the host's side has nothing to change; the address of a link is relative
    or starts with [http://] or [https://], and holds no [>], which the
    sanitizer would not let through after a closing bracket or two hyphens.
    A fenced block has
    a language tag of plain characters without blanks, quotes or [>], at
    least one line of code, and code of printable characters without [<]
    and [&]. *)

Module NormalForm.

Import Parser.

Definition blank : codeunit := 32.
Definition colon : codeunit := 58.

Definition printable (c : codeunit) : bool :=
  ((32 <=? c) && (c <=? 126))
  || ((161 <=? c) && (c <=? 65535) && negb (isWhiteSpace c)).

Definition plainChar (c : codeunit) : bool :=
  printable c
  && negb ((c =? asterisk) || (c =? backtick)
           || (c =? Materializer.lessThan) || (c =? 38)).

(** How often a code unit occurs in a text. *)
Definition occurrences (c : codeunit) (s : jsstring) : nat :=
  length (filter (fun x => x =? c) s).

Fixpoint noDoubleBlank (s : jsstring) : bool :=
  match s with
  | a :: r => match r with
              | b :: _ => negb ((a =? blank) && (b =? blank)) && noDoubleBlank r
              | [] => true
              end
  | [] => true
  end.

Definition plainText (s : jsstring) : bool :=
  forallb plainChar s
  && match s with [] => false | c :: _ => negb (c =? blank) end
  && negb (last s 0 =? blank)
  && noDoubleBlank s.

Definition langChar (c : codeunit) : bool :=
  plainChar c && negb (c =? blank) && negb (c =? dquote) && negb (c =? greater).

Definition codeChar (c : codeunit) : bool :=
  printable c && negb ((c =? Materializer.lessThan) || (c =? 38)).

Definition codeLine (s : jsstring) : bool :=
  forallb codeChar s && negb (Priority.closesFence s).

(** *** Text with inline marks *)

Inductive Style : Type :=
| Regular | Bold | Italic | Mono
| BoldItalic | BoldMono | ItalicMono | BoldItalicMono.

Definition isBold (style : Style) : bool :=
  match style with
  | Bold | BoldItalic | BoldMono | BoldItalicMono => true
  | _ => false
  end.

Definition isItalic (style : Style) : bool :=
  match style with
  | Italic | BoldItalic | ItalicMono | BoldItalicMono => true
  | _ => false
  end.

Definition isMono (style : Style) : bool :=
  match style with
  | Mono | BoldMono | ItalicMono | BoldItalicMono => true
  | _ => false
  end.

(** A run of text in one style, by itself or as the text of a link. *)
Inductive Segment : Type :=
| SText (style : Style) (t : jsstring)
| SLink (style : Style) (t href : jsstring).

Definition isPlainSegment (s : Segment) : bool :=
  match s with SText Regular _ => true | _ => false end.

(** A run as the serializer writes it: the asterisks of strong text next to
    the text, those of emphasis around them, the backticks outermost. *)
Definition wrap (style : Style) (t : jsstring) : jsstring :=
  match style with
  | Regular => t
  | Bold => lit "**" ++ t ++ lit "**"
  | Italic => lit "*" ++ t ++ lit "*"
  | Mono => lit "`" ++ t ++ lit "`"
  | BoldItalic => lit "***" ++ t ++ lit "***"
  | BoldMono => lit "`" ++ (lit "**" ++ t ++ lit "**") ++ lit "`"
  | ItalicMono => lit "`" ++ (lit "*" ++ t ++ lit "*") ++ lit "`"
  | BoldItalicMono => lit "`" ++ (lit "***" ++ t ++ lit "***") ++ lit "`"
  end.

Definition written (s : Segment) : jsstring :=
  match s with
  | SText style t => wrap style t
  | SLink style t href => lit "[" ++ wrap style t ++ lit "](" ++ href ++ lit ")"
  end.

Definition textOf (segs : list Segment) : jsstring := concat (map written segs).

(** The markup [processInlineMarkdown] makes of a run.  Of three asterisks
    the pass for strong text takes the first two and the first two that
    follow the text, so that the tags of a run that is strong and emphasised
    close in the order they opened. *)
Definition tagged (style : Style) (t : jsstring) : jsstring :=
  match style with
  | Regular => t
  | Bold => lit "<strong>" ++ t ++ lit "</strong>"
  | Italic => lit "<em>" ++ t ++ lit "</em>"
  | Mono => lit "<code>" ++ t ++ lit "</code>"
  | BoldItalic => lit "<strong><em>" ++ t ++ lit "</strong></em>"
  | BoldMono => lit "<code>" ++ (lit "<strong>" ++ t ++ lit "</strong>") ++ lit "</code>"
  | ItalicMono => lit "<code>" ++ (lit "<em>" ++ t ++ lit "</em>") ++ lit "</code>"
  | BoldItalicMono =>
      lit "<code>" ++ (lit "<strong><em>" ++ t ++ lit "</strong></em>") ++ lit "</code>"
  end.

Definition linkOpen (href : jsstring) : jsstring :=
  lit "<a href=" ++ [dquote] ++ href ++ [dquote] ++ lit ">".

Definition linkClose : jsstring := lit "</a>".

Definition markupOfSegment (s : Segment) : jsstring :=
  match s with
  | SText style t => tagged style t
  | SLink style t href => linkOpen href ++ tagged style t ++ linkClose
  end.

Definition markupOfText (segs : list Segment) : jsstring :=
  concat (map markupOfSegment segs).

(** The passes of [processInlineMarkdown] are numbered from 0: links,
    strong, emphasis, then (after the two passes for underscores) code.
    [starred] is what the asterisks of a run have become after the first
    [n] of these passes, [shell] what its backticks have become. *)
Definition starred (n : nat) (bold italic : bool) (t : jsstring) : jsstring :=
  match bold, italic with
  | false, false => t
  | true, false =>
      if Nat.ltb 1 n then lit "<strong>" ++ t ++ lit "</strong>"
      else lit "**" ++ t ++ lit "**"
  | false, true =>
      if Nat.ltb 2 n then lit "<em>" ++ t ++ lit "</em>"
      else lit "*" ++ t ++ lit "*"
  | true, true =>
      if Nat.ltb 2 n then lit "<strong><em>" ++ t ++ lit "</strong></em>"
      else if Nat.ltb 1 n then lit "<strong>*" ++ t ++ lit "</strong>*"
      else lit "***" ++ t ++ lit "***"
  end.

Definition shell (n : nat) (mono : bool) (x : jsstring) : jsstring :=
  if mono
  then if Nat.ltb 3 n then lit "<code>" ++ x ++ lit "</code>" else lit "`" ++ x ++ lit "`"
  else x.

(** A run and a segment after the first [n] of these passes. *)
Definition runAfter (n : nat) (style : Style) (t : jsstring) : jsstring :=
  shell n (isMono style) (starred n (isBold style) (isItalic style) t).

Definition after (n : nat) (s : Segment) : jsstring :=
  match s with
  | SText style t => runAfter n style t
  | SLink style t href =>
      if Nat.ltb 0 n then linkOpen href ++ runAfter n style t ++ linkClose
      else lit "[" ++ wrap style t ++ lit "](" ++ href ++ lit ")"
  end.

Definition hrefChar (c : codeunit) : bool :=
  plainChar c
  && negb ((c =? rparen) || (c =? dquote) || (c =? blank) || (c =? greater)).

Definition safeHref (href : jsstring) : bool :=
  truthy href && forallb hrefChar href
  && (forallb (except colon) href
      || startsWith (lit "http://") href || startsWith (lit "https://") href).

(** The text has a closing bracket, and the first one is the last code unit
    of the text or stands before a code unit other than an opening
    parenthesis. *)
Definition closedIn (s : jsstring) : bool :=
  match dropWhile (except rbracket) s with
  | [] => false
  | _ :: [] => true
  | _ :: d :: _ => negb (d =? lparen)
  end.

(** Every opening bracket of the text is closed in it, and not the way the
    text of a link is. *)
Fixpoint bracketsClosed (s : jsstring) : bool :=
  match s with
  | [] => true
  | c :: r => (if c =? lbracket then closedIn r else true) && bracketsClosed r
  end.

Definition opensBracket (s : jsstring) : bool :=
  match s with c :: _ => c =? lbracket | [] => false end.

Definition segmentOk (s : Segment) : bool :=
  match s with
  | SText Regular t => truthy t && forallb plainChar t && noDoubleBlank t && bracketsClosed t
  | SText _ t => plainText t && bracketsClosed t
  | SLink _ t href => plainText t && forallb (except rbracket) t && safeHref href
  end.

Definition opensWithLink (segs : list Segment) : bool :=
  match segs with SLink _ _ _ :: _ => true | _ => false end.

(** Plain text and marked runs take turns. *)
Fixpoint alternating (segs : list Segment) : bool :=
  match segs with
  | a :: r => match r with
              | b :: _ => xorb (isPlainSegment a) (isPlainSegment b) && alternating r
              | [] => true
              end
  | [] => true
  end.

Definition richText (segs : list Segment) : bool :=
  forallb segmentOk segs && alternating segs
  && match textOf segs with [] => false | c :: _ => negb (c =? blank) end
  && negb (last (textOf segs) 0 =? blank)
  && Nat.leb (occurrences underscore (textOf segs)) 1
  && (negb (opensBracket (textOf segs)) || opensWithLink segs).


(** The text of the node a segment becomes, and whether a blank opens or
    ends a text. *)
Definition runText (s : Segment) : jsstring :=
  match s with SText _ t | SLink _ t _ => t end.

Definition opensBlank (t : jsstring) : bool :=
  match t with c :: _ => c =? blank | [] => false end.

Definition endsBlank (t : jsstring) : bool := last t 0 =? blank.

(** *** Blocks *)

Inductive Line : Type :=
| LBlank
| LHeading (level : nat) (text : list Segment)
| LUnchecked (text : list Segment)
| LChecked (text : list Segment)
| LOrdered (text : list Segment)
| LBullet (text : list Segment)
| LQuote (text : list Segment)
| LRule
| LPara (text : list Segment)
| LCode (lang : jsstring) (body : list jsstring).

Definition fence : jsstring := lit "```".

(** The source lines of a block as the serializer writes them. *)
Definition linesOf (l : Line) : list jsstring :=
  match l with
  | LBlank => [[]]
  | LHeading n t => [JS.repeat (lit "#") n ++ lit " " ++ textOf t]
  | LUnchecked t => [lit "- [ ] " ++ textOf t]
  | LChecked t => [lit "- [x] " ++ textOf t]
  | LOrdered t => [lit "1. " ++ textOf t]
  | LBullet t => [lit "- " ++ textOf t]
  | LQuote t => [lit "> " ++ textOf t]
  | LRule => [lit "---"]
  | LPara t => [textOf t]
  | LCode lang body => (fence ++ lang) :: body ++ [fence]
  end.

Definition source (l : Line) : jsstring := join [nl] (linesOf l).

Definition isPara (c : LineClass) : bool :=
  match c with Para _ => true | _ => false end.

Definition wellFormed (l : Line) : bool :=
  match l with
  | LBlank | LRule => true
  | LHeading n t => Nat.leb 1 n && Nat.leb n 6 && richText t
  | LUnchecked t | LChecked t | LOrdered t | LQuote t => richText t
  | LBullet t => richText t && negb (opensWithLink t)
  | LPara t => richText t && isPara (classify (textOf t))
  | LCode lang body =>
      forallb langChar lang
      && match body with [] => false | _ :: _ => true end
      && forallb codeLine body
  end.

Definition markdownOf (ls : list Line) : jsstring := join [nl] (flat_map linesOf ls).

(** What the line loop decides for the first line of the block. *)
Definition classOf (l : Line) : LineClass :=
  match l with
  | LBlank => Blank
  | LHeading n t => Heading n (textOf t)
  | LUnchecked t => TaskUnchecked (textOf t)
  | LChecked t => TaskChecked (textOf t)
  | LOrdered t => OrderedItem (textOf t)
  | LBullet t => UnorderedItem (textOf t)
  | LQuote t => Quote (textOf t)
  | LRule => Rule
  | LPara t => Para (textOf t)
  | LCode lang _ => FenceOpen lang
  end.

(** The markup the line loop appends for the block. *)
Definition markupOf (l : Line) : jsstring :=
  match l with
  | LCode lang body => preMarkup lang body
  | _ => lineMarkup (classOf l)
  end.

Definition textDom (t : jsstring) : list Materializer.Dom :=
  match t with
  | [] => []
  | _ :: _ => [Materializer.DText t]
  end.

(** The markup node a run and a segment become. *)
Definition domOfRun (style : Style) (t : jsstring) : Materializer.Dom :=
  let elem := Materializer.DElem in
  let text := Materializer.DText in
  match style with
  | Regular => text t
  | Bold => elem (lit "strong") [] [text t]
  | Italic => elem (lit "em") [] [text t]
  | Mono => elem (lit "code") [] [text t]
  | BoldItalic => elem (lit "strong") [] [elem (lit "em") [] [text t]]
  | BoldMono => elem (lit "code") [] [elem (lit "strong") [] [text t]]
  | ItalicMono => elem (lit "code") [] [elem (lit "em") [] [text t]]
  | BoldItalicMono =>
      elem (lit "code") [] [elem (lit "strong") [] [elem (lit "em") [] [text t]]]
  end.

Definition domOfSegment (s : Segment) : Materializer.Dom :=
  match s with
  | SText style t => domOfRun style t
  | SLink style t href =>
      Materializer.DElem (lit "a") [(lit "href", href)] [domOfRun style t]
  end.

Definition domsOf (segs : list Segment) : list Materializer.Dom := map domOfSegment segs.

(** The markup element the block becomes. *)
Definition domOf (l : Line) : Materializer.Dom :=
  let elem := Materializer.DElem in
  match l with
  | LBlank => elem (lit "p") [] []
  | LHeading n t => elem (lit "h" ++ ofNat n) [] (domsOf t)
  | LUnchecked t =>
      elem (lit "ul") [(lit "data-type", lit "taskList")]
        [elem (lit "li") [(lit "data-type", lit "taskItem"); (lit "data-checked", lit "false");
                          (lit "class", lit "task-item-unchecked")] (domsOf t)]
  | LChecked t =>
      elem (lit "ul") [(lit "data-type", lit "taskList")]
        [elem (lit "li") [(lit "data-type", lit "taskItem"); (lit "data-checked", lit "true");
                          (lit "class", lit "task-item-checked")] (domsOf t)]
  | LOrdered t => elem (lit "ol") [] [elem (lit "li") [] (domsOf t)]
  | LBullet t => elem (lit "ul") [] [elem (lit "li") [] (domsOf t)]
  | LQuote t => elem (lit "blockquote") [] (domsOf t)
  | LRule => elem (lit "hr") [] []
  | LPara t => elem (lit "p") [] (domsOf t)
  | LCode lang body =>
      elem (lit "pre")
        (match lang with [] => [] | _ :: _ => [(lit "data-language", lang)] end)
        [elem (lit "code") [] (textDom (join [nl] body))]
  end.

Definition textNodes (t : jsstring) : list Node :=
  match t with
  | [] => []
  | _ :: _ => [Text t []]
  end.

Definition marksOf (style : Style) : list Mark :=
  match style with
  | Regular => []
  | Bold => [strong]
  | Italic => [em]
  | Mono => [code]
  | BoldItalic => [strong; em]
  | BoldMono => [strong; code]
  | ItalicMono => [em; code]
  | BoldItalicMono => [strong; em; code]
  end.

(** The text node a segment becomes. *)
Definition nodeOfSegment (s : Segment) : Node :=
  match s with
  | SText style t => Text t (marksOf style)
  | SLink style t href => Text t (marksOf style ++ [link href None])
  end.

Definition nodesOf (segs : list Segment) : list Node := map nodeOfSegment segs.

Definition textPara (t : list Segment) : Node := Block paragraph defaultAttrs (nodesOf t).

(** The node the block becomes. *)
Definition nodeOf (l : Line) : Node :=
  match l with
  | LBlank => Block paragraph defaultAttrs []
  | LHeading n t => Block heading (InputRules.withLevel n) (nodesOf t)
  | LUnchecked t =>
      Block task_list defaultAttrs
        [Block task_list_item (InputRules.withChecked false) [textPara t]]
  | LChecked t =>
      Block task_list defaultAttrs
        [Block task_list_item (InputRules.withChecked true) [textPara t]]
  | LOrdered t =>
      Block ordered_list (InputRules.withOrder 1) [Block list_item defaultAttrs [textPara t]]
  | LBullet t => Block bullet_list defaultAttrs [Block list_item defaultAttrs [textPara t]]
  | LQuote t => Block blockquote defaultAttrs [textPara t]
  | LRule => Block horizontal_rule defaultAttrs []
  | LPara t => textPara t
  | LCode lang body =>
      Block code_block
        (InputRules.withLanguage (match lang with [] => None | _ :: _ => Some lang end))
        (textNodes (join [nl] body))
  end.

(** What the line loop needs to know of the text of a line: it is not
    empty and [trim] leaves it as it is. *)
Record TextFacts (t : jsstring) : Prop := mkTextFacts {
  tf_nonempty : t <> [];
  tf_first : forall c r, t = c :: r -> isWhiteSpace c = false;
  tf_last : isWhiteSpace (last t 0) = false
}.

(** The position before a match is not an asterisk, and neither is what
    follows the match. *)
Definition calm (prev : option codeunit) : Prop :=
  match prev with
  | Some c => (c =? asterisk) = false
  | None => True
  end.

Definition opensCalm (rest : jsstring) : Prop :=
  match rest with
  | c :: _ => (c =? asterisk) = false
  | [] => True
  end.


End NormalForm.

(* ================================================================= *)
(** ** Bounds of a repetition *)

Module Bounds.

(** [n] repetitions do not exceed the upper bound of a quantifier. *)
Definition within (hi : option nat) (n : nat) : Prop :=
  match hi with Some h => (n <= h)%nat | None => True end.

(** The same as a test. *)
Definition upTo (hi : option nat) (n : nat) : bool :=
  match hi with Some h => Nat.leb n h | None => true end.

(** The continuation of a whole pattern. *)
Definition done : cont := fun _ s cs => Some (s, cs).

End Bounds.

(* ================================================================= *)
(** ** Detection of markdown syntax (SimpleMarkdownService.hasMarkdownSyntax) *)

Module Detector.

Import Parser.

(** [^] under the [m] flag: the start of the input or the position after a
    line terminator. *)
Definition lineStart : re := NotBehind (fun c => negb (isLineTerminator c)).

(** Source pattern: "/^#{1,6}\s+/m" *)
Definition reHeaders : re := seq [lineStart; Rep Greedy 1 (Some 6%nat) (just hash); plus space].
(** Source pattern, each asterisk written \x2a: "/\x2a\x2a.*?\x2a\x2a/" *)
Definition reBold : re :=
  seq [chr asterisk; chr asterisk; lazyStar dot; chr asterisk; chr asterisk].
(** Source pattern, each asterisk written \x2a:
    "/(?<!\x2a)\x2a[^\x2a]+\x2a(?!\x2a)/" *)
Definition reItalic : re :=
  seq [NotBehind (just asterisk); chr asterisk; plus (except asterisk);
       chr asterisk; NotAhead (just asterisk)].
(** Source pattern: "/`.*?`/" *)
Definition reInlineCode : re := seq [chr backtick; lazyStar dot; chr backtick].
(** Source pattern: "/^\> /m" *)
Definition reBlockquotes : re := seq [lineStart; chr greater; chr 32].
(** Source pattern: "/^\d+\.\s+/m" *)
Definition reOrderedLists : re := seq [lineStart; plus isDigit; chr period; plus space].
(** Source pattern: "/^[-*+]\s+/m" *)
Definition reUnorderedLists : re :=
  seq [lineStart;
       Chr (fun c => (c =? dash) || (c =? asterisk) || (c =? plusSign)); plus space].

Definition markdownPatterns : list re :=
  [reHeaders; reBold; reItalic; reInlineCode; reBlockquotes; reOrderedLists;
   reUnorderedLists].

Definition hasMarkdownSyntax (text : jsstring) : bool :=
  if negb (truthy text) then false
  else existsb (fun pattern => test pattern text) markdownPatterns.

(** The classes of lines that the line loop of the parser turns into a
    heading, a code block or a list item. *)
Definition isBlockLine (c : LineClass) : bool :=
  match c with
  | Heading _ _ | FenceOpen _ | OrderedItem _ | UnorderedItem _ => true
  | _ => false
  end.

End Detector.

(* ================================================================= *)
(** ** The editor component (SimpleProseMirrorEditor) *)

Module Editor.

(** [s.split(separator)] for a regular expression without groups.  The
    separator is tried at each position in turn; [piece] is the text since
    the last separator and [skip] counts the code units of the current
    separator still to pass over.  An empty match splits only between two
    code units. *)
Fixpoint splitFrom (r : re) (skip : nat) (prev : option codeunit) (piece : jsstring)
  (s : jsstring) {struct s} : list jsstring :=
  match s with
  | [] => [piece]
  | c :: s' =>
      match skip with
      | S n => splitFrom r n (Some c) piece s'
      | O =>
          match matchAt r prev s with
          | Some (rest, _) =>
              match length (consumed s rest) with
              | S n => piece :: splitFrom r n (Some c) [] s'
              | O => if truthy piece
                     then piece :: splitFrom r O (Some c) [c] s'
                     else splitFrom r O (Some c) [c] s'
              end
          | None => splitFrom r O (Some c) (piece ++ [c]) s'
          end
      end
  end.

Definition splitRe (r : re) (s : jsstring) : list jsstring :=
  match s with
  | [] => match matchAt r None [] with Some _ => [] | None => [[]] end
  | _ :: _ => splitFrom r O None [] s
  end.

(** Source pattern: "/\s+/" *)
Definition reSpaces : re := plus space.

(** [getWordCount]; [view] is the document of [viewRef.current], absent
    while the editor is not mounted. *)
Definition getWordCount (view : option Node) : nat :=
  match view with
  | None => 0%nat
  | Some d =>
      let text := textContent d in
      length (filter (fun word => Nat.ltb 0 (length word)) (splitRe reSpaces (trim text)))
  end.

(** The number of maximal stretches of code units other than white space;
    [inWord] tells whether the position before belongs to one. *)
Fixpoint stretches (inWord : bool) (s : jsstring) : nat :=
  match s with
  | [] => 0%nat
  | c :: r =>
      if isWhiteSpace c then stretches false r
      else ((if inWord then 0 else 1) + stretches true r)%nat
  end.

End Editor.

(* ================================================================= *)
(** ** Documents that serialize alike *)

Module Alike.

Import Serializer.

(** A task item without the children that are not paragraphs. *)
Definition paragraphsOnly (item : Node) : Node :=
  match item with
  | Block type a kids => Block type a (filter isParagraph kids)
  | Text _ _ => item
  end.

(** The paragraphs of [kidss], one for each list of children. *)
Definition paragraphsOf (a : Attrs) (kidss : list (list Node)) : list Node :=
  map (Block paragraph a) kidss.

End Alike.

(* ================================================================= *)
(** ** Nested lists *)

Module Nested.

Import JS Serializer NormalForm.

(** A list item that holds one paragraph. *)
Definition simpleItem (t : list Segment) : Node :=
  Block list_item defaultAttrs [textPara t].

(** A bullet list of one item: a paragraph, then a bullet list of items of
    one paragraph each. *)
Definition nestedList (p : list Segment) (qs : list (list Segment)) : Node :=
  Block bullet_list defaultAttrs
    [Block list_item defaultAttrs
       [textPara p; Block bullet_list defaultAttrs (map simpleItem qs)]].

(** One bullet list of one item for each text. *)
Definition flatLists (ts : list (list Segment)) : list Node :=
  map (fun t => Block bullet_list defaultAttrs [simpleItem t]) ts.

(** The marker [serializeList] is called with for a nested list. *)
Definition nestedMarker (type : NodeType) : jsstring :=
  match type with
  | bullet_list => lit "-"
  | _ => lit "1."
  end.

End Nested.

(* ################################################################# *)
(** * Properties *)

(* ================================================================= *)
(** ** Strings *)

Module JSFacts.

Lemma eqb_refl (s : jsstring) : JS.eqb s s = true.
Proof.
  induction s as [|c s IH]; simpl; [reflexivity|].
  now rewrite N.eqb_refl.
Qed.

Lemma eqb_eq (a b : jsstring) : JS.eqb a b = true <-> a = b.
Proof.
  revert b; induction a as [|x a IH]; intros [|y b]; simpl; split; intro H;
    try reflexivity; try discriminate.
  - apply andb_true_iff in H as [Hxy Hab].
    apply N.eqb_eq in Hxy. apply IH in Hab. now subst.
  - inversion H; subst. now rewrite N.eqb_refl, eqb_refl.
Qed.


Lemma join_cons (sep p : jsstring) (rest : list jsstring) :
  join sep (p :: rest) = p ++ concat (map (fun q => sep ++ q) rest).
Proof.
  revert p; induction rest as [|q rest IH]; intro p.
  - simpl. now rewrite app_nil_r.
  - change (join sep (p :: q :: rest)) with (p ++ sep ++ join sep (q :: rest)).
    rewrite IH. simpl. now rewrite <- !app_assoc.
Qed.

Lemma last_app_nonempty (pre t : jsstring) (d : codeunit) :
  t <> [] -> last (pre ++ t) d = last t d.
Proof.
  intro Ht. induction pre as [|x pre IH]; [reflexivity|].
  cbn [app]. destruct (pre ++ t) eqn:E.
  - destruct pre; [contradiction|discriminate].
  - exact IH.
Qed.

Lemma last_in (t : jsstring) (d : codeunit) : t <> [] -> In (last t d) t.
Proof.
  induction t as [|x t IH]; [contradiction|]. intros _.
  destruct t as [|y t]; [now left|].
  right. apply IH. discriminate.
Qed.

Lemma rev_last (s : jsstring) (d : codeunit) :
  s <> [] -> rev s = last s d :: rev (removelast s).
Proof.
  intro H. rewrite (app_removelast_last d H) at 1.
  now rewrite rev_app_distr.
Qed.

Lemma trimEnd_id (s : jsstring) :
  isWhiteSpace (last s 0) = false -> trimEnd s = s.
Proof.
  intro H. destruct s as [|c r] eqn:E; [reflexivity|]. rewrite <- E in *.
  assert (Hne : s <> []) by (subst; discriminate).
  unfold trimEnd. rewrite (rev_last s 0 Hne). cbn [dropWhile]. rewrite H.
  rewrite <- (rev_last s 0 Hne). apply rev_involutive.
Qed.

Lemma trim_id (c : codeunit) (r : jsstring) :
  isWhiteSpace c = false -> isWhiteSpace (last (c :: r) 0) = false ->
  trim (c :: r) = c :: r.
Proof.
  intros Hc Hl. unfold trim, trimStart. cbn [dropWhile]. rewrite Hc.
  now apply trimEnd_id.
Qed.

Lemma trimEnd_newline (s : jsstring) :
  isWhiteSpace (last s 0) = false -> s <> [] -> trimEnd (s ++ [nl]) = s.
Proof.
  intros H Hne. unfold trimEnd. rewrite rev_app_distr. cbn [rev app dropWhile].
  change (isWhiteSpace nl) with true. cbn iota.
  rewrite (rev_last s 0 Hne). cbn [dropWhile]. rewrite H.
  rewrite <- (rev_last s 0 Hne). apply rev_involutive.
Qed.

Lemma split_no_newline (s : jsstring) : noNewline s = true -> split nl s = [s].
Proof.
  induction s as [|c s IH]; [reflexivity|].
  unfold noNewline. cbn [forallb split]. intro H. apply andb_true_iff in H as [Hc H].
  apply negb_true_iff in Hc. rewrite Hc. now rewrite (IH H).
Qed.

Lemma split_line (p s : jsstring) :
  noNewline p = true -> split nl (p ++ nl :: s) = p :: split nl s.
Proof.
  induction p as [|c p IH]; intro H.
  - cbn [app split]. now rewrite N.eqb_refl.
  - unfold noNewline in H. cbn [forallb] in H. apply andb_true_iff in H as [Hc H].
    apply negb_true_iff in Hc. cbn [app split]. rewrite Hc. now rewrite (IH H).
Qed.

Lemma split_join (lines : list jsstring) :
  lines <> [] -> forallb noNewline lines = true -> split nl (join [nl] lines) = lines.
Proof.
  induction lines as [|p lines IH]; [contradiction|]. intros _ H.
  cbn [forallb] in H. apply andb_true_iff in H as [Hp H].
  destruct lines as [|q lines].
  - now apply split_no_newline.
  - change (join [nl] (p :: q :: lines)) with (p ++ nl :: join [nl] (q :: lines)).
    rewrite (split_line _ _ Hp). f_equal. apply IH; [discriminate|assumption].
Qed.



Lemma forallb_join (p : codeunit -> bool) (sep : jsstring) (parts : list jsstring) :
  forallb p sep = true -> forallb (forallb p) parts = true ->
  forallb p (join sep parts) = true.
Proof.
  intros Hsep. induction parts as [|a parts IH]; intro H; [reflexivity|].
  cbn [forallb] in H. apply andb_true_iff in H as [Ha H].
  destruct parts as [|b parts]; [exact Ha|].
  change (join sep (a :: b :: parts)) with (a ++ sep ++ join sep (b :: parts)).
  rewrite !forallb_app, Ha, Hsep. now rewrite (IH H).
Qed.

End JSFacts.

(* ================================================================= *)
(** ** Serializer *)

Module SerializerFacts.

Import Serializer Loops JSFacts.

Lemma nodeToText_fold (ty : NodeType) (a : Attrs) (kids : list Node) :
  nodeToText (Block ty a kids) = concat (map childMarkdown kids).
Proof.
  simpl.
  enough (H : forall acc,
             (fix each (l : list Node) (text : jsstring) {struct l} : jsstring :=
                match l with
                | [] => text
                | child :: r =>
                    each r (text ++ match child with
                                    | Text s ms => textToMarkdown s ms
                                    | Block _ _ _ => nodeToText child
                                    end)
                end) kids acc = acc ++ concat (map childMarkdown kids))
    by apply (H []).
  induction kids as [|k kids IH]; intro acc.
  - simpl. now rewrite app_nil_r.
  - rewrite IH. simpl. now rewrite <- app_assoc.
Qed.

Lemma nodeToText_app (ty : NodeType) (a : Attrs) (l1 l2 : list Node) :
  nodeToText (Block ty a (l1 ++ l2))
  = nodeToText (Block ty a l1) ++ nodeToText (Block ty a l2).
Proof. now rewrite !nodeToText_fold, map_app, concat_app. Qed.

Lemma find_first_link (ms1 ms2 : list Mark) (href : jsstring) (title : option jsstring) :
  noLink ms1 = true ->
  find isLink (ms1 ++ link href title :: ms2) = Some (link href title).
Proof.
  induction ms1 as [|m ms1 IH]; simpl; intro H; [reflexivity|].
  apply andb_true_iff in H as [Hm H].
  destruct (isLink m); [discriminate|]. now apply IH.
Qed.

Lemma filter_noLink (ms : list Mark) :
  noLink ms = true -> filter (fun m => negb (isLink m)) ms = ms.
Proof.
  induction ms as [|m ms IH]; simpl; intro H; [reflexivity|].
  apply andb_true_iff in H as [Hm H]. rewrite Hm. now rewrite IH.
Qed.

Lemma textToMarkdown_link (text : jsstring) (ms1 ms2 : list Mark)
  (href : jsstring) (title : option jsstring) :
  noLink ms1 = true -> noLink ms2 = true ->
  textToMarkdown text (ms1 ++ link href title :: ms2)
  = lit "[" ++ fold_left applyMark (ms1 ++ ms2) text ++ lit "](" ++ href ++ lit ")".
Proof.
  intros H1 H2. unfold textToMarkdown.
  rewrite (find_first_link _ _ _ _ H1).
  rewrite filter_app. simpl. now rewrite !filter_noLink.
Qed.

Lemma textToMarkdown_plain (text : jsstring) (ms : list Mark) :
  noLink ms = true -> textToMarkdown text ms = fold_left applyMark ms text.
Proof.
  intro H. unfold textToMarkdown. rewrite (filter_noLink _ H).
  replace (find isLink ms) with (@None Mark); [reflexivity|].
  symmetry. induction ms as [|m ms IH]; simpl in *; [reflexivity|].
  apply andb_true_iff in H as [Hm H]. destruct (isLink m); [discriminate|]. now apply IH.
Qed.

(** The document loop. *)

Lemma docStep_appends (markdown : jsstring) (isFirst : bool) (node : Node) :
  docStep (markdown, isFirst) node
  = ((if isFirst then markdown else markdown ++ [nl]) ++ nodeMarkdown node, false).
Proof.
  unfold docStep. f_equal.
  destruct (nodeMarkdown node) eqn:E; simpl; [|reflexivity].
  rewrite !app_nil_r. now destruct (isParagraph node).
Qed.

Lemma docLoop_rest (nodes : list Node) (markdown : jsstring) :
  fold_left docStep nodes (markdown, false)
  = (markdown ++ concat (map (fun n => [nl] ++ nodeMarkdown n) nodes), false).
Proof.
  revert markdown; induction nodes as [|n nodes IH]; intro markdown.
  - simpl. now rewrite app_nil_r.
  - cbn [fold_left]. rewrite docStep_appends, IH. simpl.
    now rewrite <- !app_assoc.
Qed.

Lemma serialize_children (nodes : list Node) :
  fst (fold_left docStep nodes ([], true)) = join [nl] (map nodeMarkdown nodes).
Proof.
  destruct nodes as [|n nodes]; [reflexivity|].
  cbn [fold_left]. rewrite docStep_appends, docLoop_rest. cbn [fst].
  rewrite map_cons, join_cons. now rewrite map_map.
Qed.

(** The list loops. *)

Lemma serializeList_unfold (ty : NodeType) (a : Attrs) (items : list Node)
  (marker : jsstring) (startNum : option Z) :
  serializeList (Block ty a items) marker startNum
  = trimEnd (fst (fold_left (itemStep marker) items ([], startOf startNum))).
Proof.
  cbn [serializeList]. do 2 f_equal.
Qed.

Lemma emitItem_blank (marker itemText : jsstring) (st : jsstring * Z) :
  trim itemText = [] -> emitItem marker itemText st = st.
Proof. intro H. unfold emitItem. destruct st. now rewrite H. Qed.

Lemma itemStep_blank (marker : jsstring) (st : jsstring * Z) (item : Node) :
  trim (flattened item) = [] -> itemStep marker st item = st.
Proof.
  destruct item as [|ty a kids]; [reflexivity|].
  destruct ty; try reflexivity.
  simpl. apply emitItem_blank.
Qed.

Lemma taskStep_blank (taskMarkdown : jsstring) (item : Node) :
  trim (flattened item) = [] -> taskStep taskMarkdown item = taskMarkdown.
Proof.
  destruct item as [|ty a kids]; [reflexivity|].
  destruct ty; try reflexivity.
  simpl. intro H. now rewrite H.
Qed.

Lemma fold_skip {S A : Type} (step : S -> A -> S) (x : A) (before after : list A) (st : S) :
  (forall s, step s x = s) ->
  fold_left step (before ++ x :: after) st = fold_left step (before ++ after) st.
Proof. intro H. rewrite !fold_left_app. cbn [fold_left]. now rewrite H. Qed.

Lemma fold_all_skipped {S A : Type} (step : S -> A -> S) (P : A -> Prop) (l : list A) (st : S) :
  (forall s x, P x -> step s x = s) -> Forall P l -> fold_left step l st = st.
Proof.
  intros H HF. induction HF as [|x l Hx _ IH]; [reflexivity|].
  cbn [fold_left]. now rewrite H.
Qed.

(** [nodeMarkdown] on the three list types. *)
Lemma nodeMarkdown_list (ty : NodeType) (a : Attrs) (items : list Node) :
  isListType ty = true ->
  nodeMarkdown (Block ty a items)
  = match ty with
    | task_list => trimEnd (fold_left taskStep items [])
    | ordered_list =>
        trimEnd (fst (fold_left (itemStep (lit "1.")) items ([], orOne (orOne (order a)))))
    | _ => trimEnd (fst (fold_left (itemStep (lit "-")) items ([], 1%Z)))
    end.
Proof.
  destruct ty; try discriminate; intros _; cbn [nodeMarkdown].
  - apply serializeList_unfold.
  - apply serializeList_unfold.
  - reflexivity.
Qed.

(** *** The claims on the serializer *)

Lemma formattedText_fold (ms : list Mark) (text : jsstring) :
  fold_left applyMark (filter (fun m => negb (isLink m)) ms) text = formattedText text ms.
Proof.
  revert text; induction ms as [|m ms IH]; intro text; [reflexivity|].
  destruct m; cbn [filter isLink negb fold_left applyMark formattedText]; apply IH.
Qed.

Lemma textToMarkdown_first_link (text : jsstring) (ms1 ms2 : list Mark)
  (href : jsstring) (title : option jsstring) :
  noLink ms1 = true ->
  textToMarkdown text (ms1 ++ link href title :: ms2)
  = lit "[" ++ formattedText text (ms1 ++ ms2) ++ lit "](" ++ href ++ lit ")".
Proof.
  intro H1. unfold textToMarkdown.
  rewrite (find_first_link _ _ _ _ H1), !formattedText_fold.
  f_equal. f_equal. rewrite <- !formattedText_fold, !filter_app. reflexivity.
Qed.

Lemma find_noLink (ms : list Mark) : noLink ms = true -> find isLink ms = None.
Proof.
  induction ms as [|m ms IH]; [reflexivity|]. cbn [noLink forallb find].
  intro H. apply andb_true_iff in H as [Hm H]. apply negb_true_iff in Hm.
  rewrite Hm. now apply IH.
Qed.

(** C5.  In [nodeToText] a text child is rendered inside out.  The marks
    other than the link wrap the literal text first, in the order they are
    held: strong puts two asterisks on either side, emphasis one asterisk,
    code a backtick.  The link mark wraps last, as [[formatted](href)],
    wherever it stands among the marks.  A strong text under a link is
    written [[**text**](href)], never [**[text](href)**]. *)
Theorem link_mark_wraps_last (ty : NodeType) (a : Attrs) (before after : list Node)
  (text href : jsstring) (title : option jsstring) (ms1 ms2 : list Mark) :
  noLink ms1 = true ->
  nodeToText (Block ty a (before ++ Text text (ms1 ++ link href title :: ms2) :: after))
  = nodeToText (Block ty a before)
    ++ (lit "[" ++ formattedText text (ms1 ++ ms2) ++ lit "](" ++ href ++ lit ")")
    ++ nodeToText (Block ty a after)
  /\ (noLink ms2 = true ->
      nodeToText (Block ty a (before ++ Text text (ms1 ++ ms2) :: after))
      = nodeToText (Block ty a before) ++ formattedText text (ms1 ++ ms2)
        ++ nodeToText (Block ty a after))
  /\ textToMarkdown text [strong] = lit "**" ++ text ++ lit "**"
  /\ textToMarkdown text [em] = lit "*" ++ text ++ lit "*"
  /\ textToMarkdown text [code] = lit "`" ++ text ++ lit "`"
  /\ textToMarkdown text [strong; em; code] = lit "`***" ++ text ++ lit "***`"
  /\ textToMarkdown text [strong; link href title]
     = lit "[**" ++ text ++ lit "**](" ++ href ++ lit ")"
  /\ textToMarkdown text [link href title; strong]
     = lit "[**" ++ text ++ lit "**](" ++ href ++ lit ")"
  /\ textToMarkdown text [em; link href title]
     = lit "[*" ++ text ++ lit "*](" ++ href ++ lit ")"
  /\ textToMarkdown text [code; link href title]
     = lit "[`" ++ text ++ lit "`](" ++ href ++ lit ")"
  /\ textToMarkdown text [strong; link href title]
     <> lit "**[" ++ text ++ lit "](" ++ href ++ lit ")**".
Proof.
  intro H1.
  assert (Hcut : forall child,
            nodeToText (Block ty a (before ++ child :: after))
            = nodeToText (Block ty a before) ++ childMarkdown child
              ++ nodeToText (Block ty a after)).
  { intro child. rewrite nodeToText_app.
    change (child :: after) with ([child] ++ after).
    rewrite nodeToText_app, (nodeToText_fold ty a [child]). cbn [map concat].
    now rewrite app_nil_r. }
  split; [|split].
  - rewrite Hcut. cbn [childMarkdown]. now rewrite textToMarkdown_first_link.
  - intro H2. rewrite Hcut. cbn [childMarkdown]. unfold textToMarkdown.
    assert (H12 : noLink (ms1 ++ ms2) = true).
    { unfold noLink. rewrite forallb_app. now apply andb_true_iff. }
    now rewrite (find_noLink _ H12), formattedText_fold.
  - unfold textToMarkdown. cbn [find filter isLink negb fold_left applyMark].
    repeat split; rewrite <- ?app_assoc; try reflexivity.
    cbn [lit String.length list_ascii_of_string map app]. discriminate.
Qed.

Lemma link_mark_wraps_last_witness :
  nodeToText (Block paragraph defaultAttrs
                [Text (lit "text") ([strong] ++ link (lit "href") None :: [])])
  = lit "[**text**](href)".
Proof.
  pose proof (link_mark_wraps_last paragraph defaultAttrs [] [] (lit "text") (lit "href")
                None [strong] [] eq_refl) as [H _].
  exact H.
Defined.

(** C8.  The serialized document is its top-level nodes' texts joined by
    single newlines: one newline between two consecutive nodes, none after
    the last one. *)
Theorem top_level_nodes_joined_by_newline (ty : NodeType) (a : Attrs)
  (first : Node) (middle : list Node) (last : Node) :
  serializeToMarkdown (Block ty a (first :: middle))
  = join [nl] (map nodeMarkdown (first :: middle))
  /\ serializeToMarkdown (Block ty a [last]) = nodeMarkdown last
  /\ serializeToMarkdown (Block ty a (first :: middle ++ [last]))
     = serializeToMarkdown (Block ty a (first :: middle)) ++ [nl] ++ nodeMarkdown last.
Proof.
  unfold serializeToMarkdown. cbn [children].
  rewrite !serialize_children. split; [reflexivity|]. split; [reflexivity|].
  rewrite !map_cons, !join_cons, map_app, map_app, concat_app. simpl.
  now rewrite app_nil_r, <- app_assoc.
Qed.

(** C10.  In a bullet, ordered or task list an item whose flattened text is
    empty or only white space leaves no line: the list serializes as if the
    item were not there, and a list of such items alone serializes to the
    empty string.  The same holds where [serializeList] is called on a
    nested list, whatever the marker and the start number. *)
Theorem blank_items_are_omitted (ty : NodeType) (a : Attrs) :
  isListType ty = true ->
  (forall before item after,
      trim (flattened item) = [] ->
      nodeMarkdown (Block ty a (before ++ item :: after))
      = nodeMarkdown (Block ty a (before ++ after)))
  /\ (forall items,
         Forall (fun item => trim (flattened item) = []) items ->
         nodeMarkdown (Block ty a items) = [])
  /\ (forall marker startNum before item after,
         trim (flattened item) = [] ->
         serializeList (Block ty a (before ++ item :: after)) marker startNum
         = serializeList (Block ty a (before ++ after)) marker startNum)
  /\ (forall marker startNum items,
         Forall (fun item => trim (flattened item) = []) items ->
         serializeList (Block ty a items) marker startNum = []).
Proof.
  intro Hty. split; [|split; [|split]].
  - intros before item after Hblank.
    rewrite !(nodeMarkdown_list _ _ _ Hty).
    destruct ty; try discriminate.
    + now rewrite (fold_skip (itemStep (lit "-")) item)
        by (intro s; now apply itemStep_blank).
    + now rewrite (fold_skip (itemStep (lit "1.")) item)
        by (intro s; now apply itemStep_blank).
    + now rewrite (fold_skip taskStep item)
        by (intro s; now apply taskStep_blank).
  - intros items Hall.
    rewrite (nodeMarkdown_list _ _ _ Hty).
    destruct ty; try discriminate.
    + rewrite (fold_all_skipped (itemStep (lit "-")) _ items _
                 (fun s x H => itemStep_blank _ s x H) Hall).
      reflexivity.
    + rewrite (fold_all_skipped (itemStep (lit "1.")) _ items _
                 (fun s x H => itemStep_blank _ s x H) Hall).
      reflexivity.
    + rewrite (fold_all_skipped taskStep _ items _
                 (fun s x H => taskStep_blank s x H) Hall).
      reflexivity.
  - intros marker startNum before item after Hblank.
    rewrite !serializeList_unfold.
    now rewrite (fold_skip (itemStep marker) item) by (intro s; now apply itemStep_blank).
  - intros marker startNum items Hall.
    rewrite serializeList_unfold.
    rewrite (fold_all_skipped (itemStep marker) _ items _
               (fun s x H => itemStep_blank _ s x H) Hall).
    reflexivity.
Qed.

Lemma blank_items_are_omitted_witness :
  nodeMarkdown (Block bullet_list defaultAttrs [blankItem; blankItem]) = [].
Proof.
  apply (proj2 (blank_items_are_omitted bullet_list defaultAttrs eq_refl)).
  repeat constructor.
Defined.

(** C7.  The numbering of a nested ordered list.  At the top level an
    ordered list is numbered from its [order] attribute; where it is the
    child of a list item, [serializeList] is called on it without a start
    number, and it is numbered from 1 whatever its attribute says.  For a
    nested list whose [order] is 3 the first item comes out numbered 1; the
    same list at the top level starts at 3. *)
Theorem nested_ordered_list_restarts_at_one :
  (forall a items,
      nodeMarkdown (Block ordered_list a items)
      = serializeList (Block ordered_list a items) (lit "1.") (Some (orOne (order a))))
  /\ (forall itemText a items,
         childText itemText (Block ordered_list a items)
         = itemText ++ [nl]
           ++ indent (serializeList (Block ordered_list defaultAttrs items) (lit "1.") None))
  /\ serializeToMarkdown
       (Block doc defaultAttrs
          [Block bullet_list defaultAttrs
             [Block list_item defaultAttrs
                [Block paragraph defaultAttrs [Text (lit "a") []]; orderedFromThree]]])
     = lit "- a" ++ [nl] ++ lit "  1. b" ++ [nl] ++ lit "  2. c"
  /\ serializeToMarkdown (Block doc defaultAttrs [orderedFromThree])
     = lit "3. b" ++ [nl] ++ lit "4. c".
Proof. repeat split; reflexivity. Qed.

End SerializerFacts.

(* ================================================================= *)
(** ** Parser front end *)

Module ParserFacts.

Import Parser Priority JSFacts.

Lemma classify_para_exact (line text : jsstring) :
  classify line = Para text -> text = line.
Proof.
  unfold classify.
  repeat match goal with
         | |- context [if ?b then _ else _] => destruct b; try discriminate
         end.
  congruence.
Qed.


Lemma parseLines_fence (line lang : jsstring) (rest : list jsstring) (html : jsstring) :
  classify line = FenceOpen lang ->
  parseLines (line :: rest) html = codeBlock lang html rest [].
Proof. intro H. cbn [parseLines]. now rewrite H. Qed.

Lemma parseLines_line (line : jsstring) (rest : list jsstring) (html : jsstring) :
  (forall lang, classify line <> FenceOpen lang) ->
  parseLines (line :: rest) html = parseLines rest (html ++ lineMarkup (classify line)).
Proof.
  intro H. cbn [parseLines].
  destruct (classify line) eqn:E; try reflexivity.
  now destruct (H lang).
Qed.

Lemma codeBlock_nil (lang html : jsstring) (acc : list jsstring) :
  codeBlock lang html [] acc = html ++ preMarkup lang acc.
Proof. reflexivity. Qed.

Lemma codeBlock_cons (lang html l : jsstring) (ls acc : list jsstring) :
  codeBlock lang html (l :: ls) acc
  = if closesFence l then parseLines ls (html ++ preMarkup lang acc)
    else codeBlock lang html ls (acc ++ [l]).
Proof. reflexivity. Qed.

Lemma codeBlock_closed (lang html : jsstring) (body : list jsstring) (closer : jsstring)
  (rest acc : list jsstring) :
  Forall (fun l => closesFence l = false) body ->
  closesFence closer = true ->
  codeBlock lang html (body ++ closer :: rest) acc
  = parseLines rest (html ++ preMarkup lang (acc ++ body)).
Proof.
  intros Hbody Hclose. revert acc.
  induction Hbody as [|l body Hl _ IH]; intro acc.
  - cbn [app]. rewrite codeBlock_cons, Hclose. now rewrite app_nil_r.
  - cbn [app]. rewrite codeBlock_cons, Hl, IH. now rewrite <- app_assoc.
Qed.

Lemma codeBlock_open (lang html : jsstring) (body acc : list jsstring) :
  Forall (fun l => closesFence l = false) body ->
  codeBlock lang html body acc = html ++ preMarkup lang (acc ++ body).
Proof.
  intros Hbody. revert acc.
  induction Hbody as [|l body Hl _ IH]; intro acc.
  - rewrite codeBlock_nil. now rewrite app_nil_r.
  - rewrite codeBlock_cons, Hl, IH. now rewrite <- app_assoc.
Qed.

(** C2.  Whatever the sanitizer and the materializer do, throwing
    included, [parseMarkdown] completes normally.  What it returns is the
    filled document of the schema, or the whole tree the materializer made
    of the sanitized markup of the whole input; when anything inside
    throws it is the filled document. *)
Theorem parseMarkdown_never_throws (SanitizedMarkup : Type)
  (sanitize : jsstring -> SanitizeConfig -> Completion SanitizedMarkup)
  (materialize : SanitizedMarkup -> Completion Node) (markdown : jsstring) :
  exists d : Node,
    parseMarkdown SanitizedMarkup sanitize materialize markdown = Normal d
    /\ (d = createAndFill
        \/ exists sanitized,
             sanitize (buildMarkup markdown) sanitizeConfig = Normal sanitized
             /\ materialize sanitized = Normal d)
    /\ (forall e, parseBody SanitizedMarkup sanitize materialize markdown = Throw e ->
                  d = createAndFill)
    /\ (forall e, sanitize (buildMarkup markdown) sanitizeConfig = Throw e ->
                  d = createAndFill)
    /\ (forall sanitized e,
           sanitize (buildMarkup markdown) sanitizeConfig = Normal sanitized ->
           materialize sanitized = Throw e -> d = createAndFill).
Proof.
  unfold parseMarkdown, parseBody, tryCatch, bind.
  destruct (truthy markdown); cbn [negb].
  2:{ exists createAndFill. repeat split; auto. }
  destruct (sanitize (buildMarkup markdown) sanitizeConfig) as [sm|e1] eqn:Es.
  2:{ exists createAndFill. repeat split; auto. }
  destruct (materialize sm) as [d|e2] eqn:Em.
  - exists d. split; [reflexivity|]. split; [right; now exists sm|].
    split; [discriminate|]. split; [discriminate|].
    intros sm' e Hs Hm. inversion Hs; subst. congruence.
  - exists createAndFill. repeat split; auto.
Qed.

End ParserFacts.

(* ================================================================= *)
(** ** Regular expressions *)

Module RegexFacts.

Import Bounds JSFacts.

Lemma startsWith_app (w s : jsstring) : startsWith w (w ++ s) = true.
Proof.
  induction w as [|c w IH]; simpl; [reflexivity|].
  now rewrite N.eqb_refl.
Qed.

Lemma startsWith_eq (w s : jsstring) :
  startsWith w s = true -> s = w ++ skipn (length w) s.
Proof.
  revert s; induction w as [|c w IH]; intros [|x s]; simpl; intro H;
    try discriminate; try reflexivity.
  apply andb_true_iff in H as [Hc H]. apply N.eqb_eq in Hc. subst.
  f_equal. now apply IH.
Qed.

Lemma startsWith_cons (c x : codeunit) (w s : jsstring) :
  startsWith (c :: w) (x :: s) = (c =? x) && startsWith w s.
Proof. reflexivity. Qed.

Lemma last_cons (d c : codeunit) (w : jsstring) : last (d :: w) c = last w d.
Proof.
  revert d c; induction w as [|e w IH]; intros d c; [reflexivity|].
  change (last (d :: e :: w) c) with (last (e :: w) c).
  change (last (e :: w) d) with (last (e :: w) d).
  now rewrite !IH.
Qed.

(** A literal word is read in one piece. *)
Lemma run_chars (c : codeunit) (w : jsstring) (prev : option codeunit) (s : jsstring)
  (cs : captures) (k : cont) :
  run (chars (c :: w)) prev s cs k
  = if startsWith (c :: w) s
    then k (Some (last w c)) (skipn (length (c :: w)) s) cs
    else None.
Proof.
  revert c prev s; induction w as [|d w IH]; intros c prev s.
  - destruct s as [|x s]; [reflexivity|].
    cbn. unfold just. rewrite (N.eqb_sym c x).
    destruct (x =? c) eqn:E; [|reflexivity].
    apply N.eqb_eq in E. now subst.
  - change (chars (c :: d :: w)) with (Seq (chr c) (chars (d :: w))).
    cbn [run chr]. destruct s as [|x s]; [reflexivity|].
    unfold just. rewrite startsWith_cons, (N.eqb_sym c x).
    destruct (x =? c) eqn:E; [|reflexivity].
    rewrite IH. cbn [andb]. rewrite last_cons.
    destruct (startsWith (d :: w) s); reflexivity.
Qed.

Lemma consumed_all (s : jsstring) : consumed s [] = s.
Proof. unfold consumed. cbn [length]. rewrite Nat.sub_0_r. apply firstn_all. Qed.

(** A word anchored at the end of the input matches that word alone. *)
Lemma matchAt_word_eol (c : codeunit) (w : jsstring) (prev : option codeunit) (s : jsstring) :
  matchAt (Seq (chars (c :: w)) Eol) prev s
  = if JS.eqb s (c :: w) then Some ([], []) else None.
Proof.
  unfold matchAt. cbn [run]. rewrite run_chars.
  destruct (startsWith (c :: w) s) eqn:E.
  - pose proof (startsWith_eq _ _ E) as Hs.
    destruct (skipn (length (c :: w)) s) as [|x r] eqn:Er.
    + rewrite app_nil_r in Hs. subst s. now rewrite eqb_refl.
    + destruct (JS.eqb s (c :: w)) eqn:Eq; [|reflexivity].
      apply eqb_eq in Eq. rewrite Eq in Er.
      rewrite skipn_all in Er. discriminate.
  - destruct (JS.eqb s (c :: w)) eqn:Eq; [|reflexivity].
    apply eqb_eq in Eq. subst s.
    rewrite <- (app_nil_r (c :: w)) in E at 2.
    now rewrite startsWith_app in E.
Qed.

Lemma search_word_eol (c : codeunit) (w before : jsstring) (prev : option codeunit) (idx : nat) :
  search (Seq (chars (c :: w)) Eol) prev (before ++ c :: w) idx
  = Some (mkFound (idx + length before) (c :: w) []).
Proof.
  revert prev idx; induction before as [|x before IH]; intros prev idx.
  - cbn [app]. destruct (c :: w) as [|c' w'] eqn:E; [discriminate|].
    cbn [search]. rewrite <- E. rewrite matchAt_word_eol, eqb_refl.
    rewrite consumed_all. cbn [length]. now rewrite Nat.add_0_r.
  - cbn [app search]. rewrite matchAt_word_eol.
    destruct (JS.eqb (x :: before ++ c :: w) (c :: w)) eqn:Eq.
    + apply eqb_eq in Eq. apply (f_equal (@length _)) in Eq.
      cbn [length] in Eq. rewrite length_app in Eq. cbn [length] in Eq. lia.
    + rewrite IH. cbn [length]. do 2 f_equal. lia.
Qed.

(** A greedy repetition that reads a whole run and then succeeds. *)
Lemma rep_greedy_max (lo : nat) (hi : option nat) (p : codeunit -> bool)
  (cs : captures) (k : cont) (ps rest : jsstring) (out : outcome) :
  forall (n : nat) (prev : option codeunit),
  forallb p ps = true ->
  (forall i, (i < length ps)%nat -> below hi (n + i) = true) ->
  (lo <= n + length ps)%nat ->
  match rest with [] => True | c :: _ => p c = false end ->
  k (lastRead ps prev) rest cs = Some out ->
  rep Greedy lo hi p cs k n prev (ps ++ rest) = Some out.
Proof.
  induction ps as [|x ps IH]; intros n prev Hall Hhi Hlo Hrest Hk.
  - cbn [app lastRead length] in *. rewrite Nat.add_0_r in Hlo.
    apply Nat.leb_le in Hlo.
    destruct rest as [|c r]; cbn [rep]; rewrite ?Hrest, Hlo; cbn; assumption.
  - cbn [app rep]. cbn [forallb] in Hall. apply andb_true_iff in Hall as [Hx Hall].
    rewrite Hx. rewrite <- (Nat.add_0_r n) at 1. rewrite (Hhi 0%nat) by (cbn; lia).
    cbn [andb].
    rewrite (IH (S n) (Some x)); [reflexivity|assumption| | |assumption|].
    + intros i Hi. replace (S n + i)%nat with (n + S i)%nat by lia.
      apply Hhi. cbn [length]. lia.
    + cbn [length] in Hlo. lia.
    + cbn [lastRead] in Hk. destruct ps as [|y ps]; [exact Hk|].
      cbn [lastRead]. now rewrite last_cons in Hk.
Qed.

Lemma repeat_all (c : codeunit) (n : nat) : forallb (just c) (JS.repeat [c] n) = true.
Proof.
  induction n as [|n IH]; [reflexivity|].
  cbn [JS.repeat app forallb]. unfold just at 1. now rewrite N.eqb_refl.
Qed.

Lemma repeat_length (c : codeunit) (n : nat) : length (JS.repeat [c] n) = n.
Proof. induction n as [|n IH]; [reflexivity|]. cbn [JS.repeat app length]. now rewrite IH. Qed.

Lemma consumed_app (pre s : jsstring) : consumed (pre ++ s) s = pre.
Proof.
  unfold consumed. rewrite length_app.
  replace (length pre + length s - length s)%nat with (length pre) by lia.
  rewrite firstn_app, firstn_all, Nat.sub_diag. cbn [firstn]. apply app_nil_r.
Qed.

Lemma search_anchored (b : re) (c : codeunit) (s : jsstring) (idx : nat) :
  search (Seq Bol b) (Some c) s idx = None.
Proof.
  revert c idx; induction s as [|x s IH]; intros c idx;
    cbn [search]; unfold matchAt; cbn [run]; [reflexivity|apply IH].
Qed.

Lemma exec_anchored (b : re) (s : jsstring) :
  exec (Seq Bol b) s
  = match matchAt (Seq Bol b) None s with
    | Some (s', cs) => Some (mkFound 0 (consumed s s') cs)
    | None => None
    end.
Proof.
  unfold exec. destruct s as [|x s]; cbn [search].
  - now destruct (matchAt (Seq Bol b) None []) as [[? ?]|].
  - destruct (matchAt (Seq Bol b) None (x :: s)) as [[? ?]|]; [reflexivity|].
    apply search_anchored.
Qed.

Lemma anchored_miss (b : re) (s : jsstring) :
  matchAt (Seq Bol b) None s = None -> test (Seq Bol b) s = false.
Proof. intro H. unfold test. now rewrite exec_anchored, H. Qed.

Lemma anchored_hit (b : re) (pre s : jsstring) (cs : captures) :
  matchAt (Seq Bol b) None (pre ++ s) = Some (s, cs) ->
  test (Seq Bol b) (pre ++ s) = true
  /\ replace (Seq Bol b) [] (pre ++ s) = s
  /\ exec (Seq Bol b) (pre ++ s) = Some (mkFound 0 pre cs).
Proof.
  intro H. unfold test, replace. rewrite exec_anchored, H, consumed_app.
  cbn [index matched groups firstn expand app Nat.add].
  split; [reflexivity|]. split; [|reflexivity].
  rewrite skipn_app, skipn_all, Nat.sub_diag. reflexivity.
Qed.

Lemma lastRead_cons (c : codeunit) (x : jsstring) (prev : option codeunit) :
  lastRead (c :: x) prev = lastRead x (Some c).
Proof. destruct x as [|y x]; [reflexivity|]. cbn [lastRead]. now rewrite last_cons. Qed.

Lemma lastRead_app (x y : jsstring) (prev : option codeunit) :
  lastRead (x ++ y) prev = lastRead y (lastRead x prev).
Proof.
  revert prev; induction x as [|c x IH]; intro prev; [reflexivity|].
  cbn [app]. now rewrite !lastRead_cons, IH.
Qed.

Lemma lastRead_snoc (x : jsstring) (c : codeunit) (prev : option codeunit) :
  lastRead (x ++ [c]) prev = Some c.
Proof. now rewrite lastRead_app. Qed.

(** A stretch without the character a pattern starts with is passed over. *)
Lemma replaceAll_passes (r : re) (tpl : list piece) (trigger : codeunit) (x rest : jsstring) :
  (forall prev c s, (c =? trigger) = false -> matchAt r prev (c :: s) = None) ->
  forallb (fun c => negb (c =? trigger)) x = true ->
  forall prev,
  replaceAllFrom r tpl 0 prev (x ++ rest) = x ++ replaceAllFrom r tpl 0 (lastRead x prev) rest.
Proof.
  intros Hcons. induction x as [|c x IH]; intros Hall prev; [reflexivity|].
  cbn [forallb] in Hall. apply andb_true_iff in Hall as [Hc Hall].
  apply negb_true_iff in Hc. cbn [app replaceAllFrom]. rewrite (Hcons _ _ _ Hc).
  now rewrite (IH Hall), lastRead_cons.
Qed.

Lemma replaceAll_step (r : re) (tpl : list piece) (prev : option codeunit)
  (c : codeunit) (s : jsstring) :
  matchAt r prev (c :: s) = None ->
  replaceAllFrom r tpl 0 prev (c :: s) = c :: replaceAllFrom r tpl 0 (Some c) s.
Proof. intro H. cbn [replaceAllFrom]. now rewrite H. Qed.

Lemma replaceAll_count (r : re) (tpl : list piece) (x rest : jsstring) :
  forall prev,
  replaceAllFrom r tpl (length x) prev (x ++ rest) = replaceAllFrom r tpl 0 (lastRead x prev) rest.
Proof.
  induction x as [|c x IH]; intro prev.
  - cbn [length app lastRead]. reflexivity.
  - cbn [length app replaceAllFrom]. now rewrite IH, lastRead_cons.
Qed.

(** A match is replaced and the search goes on behind it. *)
Lemma replaceAll_found (r : re) (tpl : list piece) (x rest : jsstring)
  (prev : option codeunit) (cs : captures) :
  x <> [] -> matchAt r prev (x ++ rest) = Some (rest, cs) ->
  replaceAllFrom r tpl 0 prev (x ++ rest)
  = expand tpl cs ++ replaceAllFrom r tpl 0 (lastRead x prev) rest.
Proof.
  destruct x as [|c x]; [contradiction|]. intros _ H.
  cbn [app replaceAllFrom] in *. rewrite H.
  change (c :: x ++ rest) with ((c :: x) ++ rest). rewrite consumed_app.
  cbn [length]. now rewrite replaceAll_count, lastRead_cons.
Qed.

(** A lazy repetition stops at the first place where what follows matches. *)
Lemma rep_lazy_first (p : codeunit -> bool) (cs : captures) (k : cont)
  (ps rest : jsstring) (out : outcome) :
  forall (n : nat) (prev : option codeunit),
  forallb p ps = true ->
  (forall prev' c s', In c ps -> k prev' (c :: s') cs = None) ->
  k (lastRead ps prev) rest cs = Some out ->
  rep Lazy 0 None p cs k n prev (ps ++ rest) = Some out.
Proof.
  induction ps as [|x ps IH]; intros n prev Hall Hfail Hk.
  - cbn [app lastRead] in *. destruct rest as [|c r]; cbn [rep Nat.leb]; now rewrite Hk.
  - cbn [app rep Nat.leb]. rewrite (Hfail prev x (ps ++ rest)) by now left.
    cbn [forallb] in Hall. apply andb_true_iff in Hall as [Hx Hall].
    rewrite Hx. cbn [below andb orElse].
    apply IH; [assumption| |].
    + intros prev' c s' Hin. apply Hfail. now right.
    + now rewrite <- lastRead_cons with (prev := prev).
Qed.

(** A greedy repetition before something that cannot begin with a code
    unit of its class reads the whole run or fails. *)
Lemma rep_greedy_whole (lo : nat) (hi : option nat) (p : codeunit -> bool)
  (cs : captures) (k : cont) :
  (forall prev c r, p c = true -> k prev (c :: r) cs = None) ->
  forall (s : jsstring) (n : nat) (prev : option codeunit),
  upTo hi n = true ->
  rep Greedy lo hi p cs k n prev s
  = if Nat.leb lo (n + length (takeWhile p s)) && upTo hi (n + length (takeWhile p s))
    then k (lastRead (takeWhile p s) prev) (dropWhile p s) cs
    else None.
Proof.
  intro Hk. induction s as [|c r IH]; intros n prev Hn.
  - cbn [rep takeWhile dropWhile length lastRead orElse]. rewrite Nat.add_0_r, Hn, andb_true_r.
    reflexivity.
  - cbn [rep takeWhile dropWhile]. destruct (p c) eqn:Ec.
    + rewrite (Hk prev c r Ec). cbn [andb length].
      replace (if Nat.leb lo n then None else None) with (@None outcome)
        by now destruct (Nat.leb lo n).
      rewrite lastRead_cons. replace (n + S (length (takeWhile p r)))%nat
        with (S n + length (takeWhile p r))%nat by lia.
      destruct (below hi n) eqn:Eb.
      * rewrite IH.
        -- now destruct (_ && _); [destruct (k _ _ _)|].
        -- destruct hi as [h|]; [|reflexivity]. cbn [below upTo] in *.
           apply Nat.ltb_lt in Eb. apply Nat.leb_le. lia.
      * destruct hi as [h|]; [|discriminate]. cbn [below upTo] in *.
        apply Nat.ltb_ge in Eb.
        replace (Nat.leb (S n + length (takeWhile p r)) h) with false
          by (symmetry; apply Nat.leb_gt; lia).
        now rewrite andb_false_r.
    + cbn [andb length lastRead orElse]. rewrite Nat.add_0_r, Hn, andb_true_r. reflexivity.
Qed.

(** The last repetition of a pattern reads the whole run. *)
Lemma rep_greedy_last (lo : nat) (p : codeunit -> bool) (cs : captures) :
  forall (s : jsstring) (n : nat) (prev : option codeunit),
  rep Greedy lo None p cs done n prev s
  = if Nat.leb lo (n + length (takeWhile p s)) then Some (dropWhile p s, cs) else None.
Proof.
  induction s as [|c r IH]; intros n prev.
  - cbn [rep takeWhile dropWhile length orElse]. now rewrite Nat.add_0_r.
  - cbn [rep takeWhile dropWhile below]. rewrite andb_true_r. destruct (p c) eqn:Ec.
    + rewrite IH. cbn [length].
      replace (n + S (length (takeWhile p r)))%nat
        with (S n + length (takeWhile p r))%nat by lia.
      destruct (Nat.leb lo (S n + length (takeWhile p r))) eqn:E; [reflexivity|].
      cbn [orElse]. apply Nat.leb_gt in E.
      replace (Nat.leb lo n) with false by (symmetry; apply Nat.leb_gt; lia). reflexivity.
    + cbn [length orElse]. now rewrite Nat.add_0_r.
Qed.

(** A lazy repetition stops at the first place where what follows matches,
    whatever the code units it passes over. *)
Lemma rep_lazy_exact (p : codeunit -> bool) (cs : captures) (k : cont)
  (ps rest : jsstring) (out : outcome) :
  forall (n : nat) (prev : option codeunit),
  forallb p ps = true ->
  (forall pre c suf prev', ps = pre ++ c :: suf -> k prev' (c :: suf ++ rest) cs = None) ->
  k (lastRead ps prev) rest cs = Some out ->
  rep Lazy 0 None p cs k n prev (ps ++ rest) = Some out.
Proof.
  induction ps as [|x ps IH]; intros n prev Hall Hfail Hk.
  - cbn [app lastRead] in *. destruct rest as [|c r]; cbn [rep Nat.leb]; now rewrite Hk.
  - cbn [app rep Nat.leb]. rewrite (Hfail [] x ps prev eq_refl).
    cbn [forallb] in Hall. apply andb_true_iff in Hall as [Hx Hall].
    rewrite Hx. cbn [below andb orElse].
    apply IH; [assumption| |].
    + intros pre c suf prev' E. apply (Hfail (x :: pre)). now rewrite E.
    + now rewrite lastRead_cons in Hk.
Qed.


End RegexFacts.

(* ================================================================= *)
(** ** Input rules *)

Module InputRulesFacts.

Import Parser InputRules RegexFacts.





(** C9.  Whatever the schema, the arrow group holds a third rule, after the
    two arrows, whose pattern is the word banana at the caret; run on a text
    that ends in that word it replaces exactly the word by the banana emoji,
    in a transaction of one step. *)
Theorem banana_rule_replaces_word (schema : Schema) (before : jsstring) :
  createArrowRules schema = [rightArrowRule; leftArrowRule; bananaRule]
  /\ In bananaRule (createInputRules schema)
  /\ group_ bananaRule = ArrowRules
  /\ fire bananaRule (before ++ lit "banana")
     = Some [ReplaceWith (length before) (length (before ++ lit "banana")) bananaEmoji]
  /\ bananaEmoji = [55356; 57164].
Proof.
  split; [reflexivity|]. split; [|split; [reflexivity|split; [|reflexivity]]].
  - unfold createInputRules. rewrite !in_app_iff.
    do 7 right. left. simpl. auto.
  - unfold fire, bananaRule, exec. cbn [pattern handler].
    unfold reBanana. cbn [seq].
    change (lit "banana") with (98 :: lit "anana").
    now rewrite search_word_eol.
Qed.

End InputRulesFacts.

(* ================================================================= *)
(** ** Materializer *)

Module MaterializerFacts.

Import Parser Materializer JSFacts.


Lemma sanitizeDom_elem (cfg : SanitizeConfig) (tag : jsstring)
  (a : list (jsstring * jsstring)) (kids : list Dom) :
  sanitizeDom cfg (DElem tag a kids)
  = if allowedTag cfg tag
    then [DElem tag (filter (fun nv => allowedAttr cfg (fst nv)) a) (sanitizeAll cfg kids)]
    else if dropsContent tag then [] else sanitizeAll cfg kids.
Proof. reflexivity. Qed.

Lemma onlyAllowed_elem (tagOk attrOk : jsstring -> bool) (tag : jsstring)
  (a : list (jsstring * jsstring)) (kids : list Dom) :
  onlyAllowed tagOk attrOk (DElem tag a kids)
  = tagOk tag && forallb (fun nv => attrOk (fst nv)) a
    && forallb (onlyAllowed tagOk attrOk) kids.
Proof. reflexivity. Qed.

Lemma restrict_elem (tag : jsstring) (a : list (jsstring * jsstring)) (kids : list Dom) :
  restrict (DElem tag a kids)
  = DElem tag (filter (fun nv => readByRules (fst nv)) a) (map restrict kids).
Proof. reflexivity. Qed.

Lemma inlineOf_elem (ms : list Mark) (tag : jsstring) (a : list (jsstring * jsstring))
  (kids : list Dom) :
  inlineOf ms (DElem tag a kids)
  = match tagKind tag with
    | KBreak => [Block hard_break defaultAttrs []]
    | _ => flat_map (inlineOf (marksFor tag a ms)) kids
    end.
Proof. reflexivity. Qed.

Lemma domText_elem (tag : jsstring) (a : list (jsstring * jsstring)) (kids : list Dom) :
  domText (DElem tag a kids) = concat (map domText kids).
Proof.
  cbn [domText]. induction kids as [|k kids IH]; [reflexivity|].
  cbn [map concat]. now rewrite <- IH.
Qed.

Lemma blockOf_elem (tag : jsstring) (a : list (jsstring * jsstring)) (kids : list Dom) :
  blockOf (DElem tag a kids)
  = match tagKind tag with
    | KHeading n => [Block heading (InputRules.withLevel n) (inlines kids)]
    | KParagraph => [Block paragraph defaultAttrs (inlines kids)]
    | KBlockquote => [Block blockquote defaultAttrs (fillBlocks (blocksOf kids []))]
    | KPre =>
        [Block code_block (InputRules.withLanguage (languageOf a))
           match domText (DElem tag a kids) with
           | [] => []
           | s => [Text s []]
           end]
    | KBulletList =>
        if isTaskList a
        then [Block task_list defaultAttrs (fillList true (itemsOf true kids))]
        else [Block bullet_list defaultAttrs (fillList false (itemsOf false kids))]
    | KOrderedList =>
        [Block ordered_list (InputRules.withOrder (orderOf a))
           (fillList false (itemsOf false kids))]
    | KListItem =>
        if isTaskItem a
        then [Block task_list defaultAttrs [itemNode true a (blocksOf kids [])]]
        else [Block bullet_list defaultAttrs [itemNode false a (blocksOf kids [])]]
    | KRule => [Block horizontal_rule defaultAttrs []]
    | _ => []
    end.
Proof. reflexivity. Qed.

(** *** What the walker lets through *)

Lemma forallb_filter_self {A : Type} (p : A -> bool) (l : list A) :
  forallb p (filter p l) = true.
Proof.
  induction l as [|x l IH]; simpl; [reflexivity|].
  destruct (p x) eqn:E; simpl; [now rewrite E|assumption].
Qed.

Lemma forallb_same {A : Type} (p q : A -> bool) (l : list A) :
  (forall x, p x = q x) -> forallb p l = forallb q l.
Proof.
  intro H. induction l as [|x l IH]; simpl; [reflexivity|]. now rewrite H, IH.
Qed.

Lemma sanitized_only_allowed (cfg : SanitizeConfig) (d : Dom) :
  forallb (onlyAllowed (allowedTag cfg) (allowedAttr cfg)) (sanitizeDom cfg d) = true.
Proof.
  induction d as [s|tag a kids IH] using Dom_induction; [reflexivity|].
  assert (Hkids : forallb (onlyAllowed (allowedTag cfg) (allowedAttr cfg))
                    (sanitizeAll cfg kids) = true).
  { unfold sanitizeAll. induction IH as [|k kids Hk _ IHk]; [reflexivity|].
    cbn [flat_map]. rewrite forallb_app. now rewrite Hk, IHk. }
  rewrite sanitizeDom_elem.
  destruct (allowedTag cfg tag) eqn:Et.
  - cbn [forallb]. rewrite onlyAllowed_elem, Et, Hkids.
    now rewrite (forallb_filter_self (fun nv => allowedAttr cfg (fst nv))).
  - destruct (dropsContent tag); [reflexivity|assumption].
Qed.

Lemma sanitizeAll_only_allowed (cfg : SanitizeConfig) (ds : list Dom) :
  forallb (onlyAllowed (allowedTag cfg) (allowedAttr cfg)) (sanitizeAll cfg ds) = true.
Proof.
  unfold sanitizeAll. induction ds as [|d ds IH]; [reflexivity|].
  cbn [flat_map]. rewrite forallb_app. now rewrite sanitized_only_allowed, IH.
Qed.

Lemma onlyAllowed_ext (t1 t2 a1 a2 : jsstring -> bool) (d : Dom) :
  (forall x, t1 x = t2 x) -> (forall x, a1 x = a2 x) ->
  onlyAllowed t1 a1 d = onlyAllowed t2 a2 d.
Proof.
  intros Ht Ha.
  induction d as [s|tag a kids IH] using Dom_induction; [reflexivity|].
  rewrite !onlyAllowed_elem, Ht. f_equal; [f_equal|].
  - apply forallb_same. intro nv. apply Ha.
  - induction IH as [|k kids Hk _ IHk]; [reflexivity|].
    cbn [forallb]. now rewrite Hk, IHk.
Qed.

Lemma strict_tags (tag : jsstring) : allowedTag strictConfig tag = listedTag tag.
Proof. reflexivity. Qed.

Lemma strict_attrs (n : jsstring) : allowedAttr strictConfig n = listedAttr n.
Proof. unfold allowedAttr. cbn [ALLOW_DATA_ATTR strictConfig andb]. apply orb_false_r. Qed.

Lemma strict_only_listed (ds : list Dom) :
  forallb (onlyAllowed listedTag listedAttr) (sanitizeAll strictConfig ds) = true.
Proof.
  rewrite <- (sanitizeAll_only_allowed strictConfig ds).
  apply forallb_same. intro d. symmetry.
  apply onlyAllowed_ext; [apply strict_tags|apply strict_attrs].
Qed.

(** *** Attributes the parse rules do not read make no difference *)

Lemma getAttribute_filter (ok : jsstring -> bool) (n : jsstring)
  (a : list (jsstring * jsstring)) :
  getAttribute n (filter (fun nv => ok (fst nv)) a)
  = if ok n then getAttribute n a else None.
Proof.
  unfold getAttribute.
  induction a as [|[m v] a IH]; cbn [filter find fst snd].
  - now destruct (ok n).
  - destruct (JS.eqb m n) eqn:E.
    + apply eqb_eq in E. subst m.
      destruct (ok n) eqn:En; cbn [find fst snd].
      * now rewrite eqb_refl.
      * exact IH.
    + destruct (ok m); cbn [find fst snd]; [rewrite E|]; exact IH.
Qed.

Lemma getAttribute_read (n : jsstring) (a : list (jsstring * jsstring)) :
  readByRules n = true ->
  getAttribute n (filter (fun nv => readByRules (fst nv)) a) = getAttribute n a.
Proof. intro H. now rewrite getAttribute_filter, H. Qed.

Section Restricted.

Variable a : list (jsstring * jsstring).
Let a' := filter (fun nv => readByRules (fst nv)) a.

Lemma marksFor_restrict (tag : jsstring) (ms : list Mark) :
  marksFor tag a' ms = marksFor tag a ms.
Proof.
  unfold marksFor, a'. destruct (tagKind tag); try reflexivity.
  now rewrite !getAttribute_read.
Qed.

Lemma languageOf_restrict : languageOf a' = languageOf a.
Proof. unfold languageOf, a'. now rewrite getAttribute_read. Qed.

Lemma orderOf_restrict : orderOf a' = orderOf a.
Proof. unfold orderOf, a'. now rewrite getAttribute_read. Qed.

Lemma isTaskList_restrict : isTaskList a' = isTaskList a.
Proof. unfold isTaskList, hasValue, a'. now rewrite getAttribute_read. Qed.

Lemma isTaskItem_restrict : isTaskItem a' = isTaskItem a.
Proof. unfold isTaskItem, hasValue, a'. now rewrite getAttribute_read. Qed.

Lemma itemNode_restrict (task : bool) (blocks : list Node) :
  itemNode task a' blocks = itemNode task a blocks.
Proof.
  unfold itemNode, isChecked, hasValue, a'. now rewrite getAttribute_read.
Qed.

End Restricted.


Lemma blocksOf_restrict (kids : list Dom) :
  Forall sameReading kids ->
  forall pending, blocksOf (map restrict kids) pending = blocksOf kids pending.
Proof.
  induction 1 as [|k kids (Hi & Hb & _ & Hk & _) _ IH]; intro pending; [reflexivity|].
  cbn [map blocksOf]. rewrite Hk, Hb, Hi, !IH. reflexivity.
Qed.

Lemma itemsOf_restrict (task : bool) (kids : list Dom) :
  Forall sameReading kids -> itemsOf task (map restrict kids) = itemsOf task kids.
Proof.
  induction 1 as [|k kids Hk _ IH]; [reflexivity|].
  pose proof (blocksOf_restrict [k] (Forall_cons _ Hk (Forall_nil _)) []) as H1.
  destruct Hk as (_ & _ & _ & _ & Hc).
  cbn [map] in *. destruct k as [s|tag a kids'].
  - cbn [restrict itemsOf]. now rewrite IH.
  - rewrite restrict_elem in *. cbn [itemsOf]. cbn [content] in Hc.
    destruct (tagKind tag); rewrite ?IH, ?H1, ?Hc, ?itemNode_restrict; reflexivity.
Qed.

Lemma restrict_same_reading (d : Dom) : sameReading d.
Proof.
  induction d as [s|tag a kids IH] using Dom_induction.
  - repeat split.
  - pose proof (blocksOf_restrict kids IH) as Hblocks.
    pose proof (fun task => itemsOf_restrict task kids IH) as Hitems.
    assert (Hinl : forall ms, flat_map (inlineOf ms) (map restrict kids)
                              = flat_map (inlineOf ms) kids).
    { intro ms. clear Hblocks Hitems.
      induction IH as [|k kids (Hi & _) _ IHk]; [reflexivity|].
      cbn [map flat_map]. now rewrite Hi, IHk. }
    assert (Htext : concat (map domText (map restrict kids)) = concat (map domText kids)).
    { clear Hblocks Hitems Hinl.
      induction IH as [|k kids (_ & _ & Ht & _) _ IHk]; [reflexivity|].
      cbn [map concat]. now rewrite Ht, IHk. }
    unfold sameReading. rewrite restrict_elem. repeat split.
    + intro ms. rewrite !inlineOf_elem.
      destruct (tagKind tag); rewrite ?marksFor_restrict; auto.
    + rewrite !blockOf_elem, !domText_elem, Htext.
      unfold inlines. rewrite Hinl, Hblocks, !Hitems.
      rewrite languageOf_restrict, orderOf_restrict, isTaskList_restrict,
        isTaskItem_restrict, !itemNode_restrict.
      reflexivity.
    + now rewrite !domText_elem.
    + cbn [content]. apply Hblocks.
Qed.

Lemma blocksOf_map_restrict (ds : list Dom) :
  blocksOf (map restrict ds) [] = blocksOf ds [].
Proof.
  apply blocksOf_restrict. apply Forall_forall. intros d _. apply restrict_same_reading.
Qed.

Lemma read_attrs_agree (n : jsstring) :
  readByRules n = true -> allowedAttr sanitizeConfig n = allowedAttr strictConfig n.
Proof.
  unfold readByRules. cbn [map existsb]. rewrite !orb_true_iff.
  intros [H|[H|[H|[H|[H|[H|H]]]]]]; try discriminate;
    apply eqb_eq in H; subst n; reflexivity.
Qed.

Lemma filter_read_agree (a : list (jsstring * jsstring)) :
  filter (fun nv => readByRules (fst nv))
    (filter (fun nv => allowedAttr sanitizeConfig (fst nv)) a)
  = filter (fun nv => readByRules (fst nv))
      (filter (fun nv => allowedAttr strictConfig (fst nv)) a).
Proof.
  induction a as [|[n v] a IH]; [reflexivity|].
  cbn [filter fst].
  destruct (readByRules n) eqn:E.
  - rewrite (read_attrs_agree _ E).
    destruct (allowedAttr strictConfig n); cbn [filter fst]; rewrite ?E, IH; reflexivity.
  - destruct (allowedAttr sanitizeConfig n), (allowedAttr strictConfig n);
      cbn [filter fst]; rewrite ?E; exact IH.
Qed.

Lemma sanitizeDom_restrict (d : Dom) :
  map restrict (sanitizeDom sanitizeConfig d) = map restrict (sanitizeDom strictConfig d).
Proof.
  induction d as [s|tag a kids IH] using Dom_induction; [reflexivity|].
  assert (Hkids : map restrict (sanitizeAll sanitizeConfig kids)
                  = map restrict (sanitizeAll strictConfig kids)).
  { unfold sanitizeAll. induction IH as [|k kids Hk _ IHk]; [reflexivity|].
    cbn [flat_map]. rewrite !map_app. now rewrite Hk, IHk. }
  rewrite !sanitizeDom_elem.
  change (allowedTag sanitizeConfig tag) with (allowedTag strictConfig tag).
  destruct (allowedTag strictConfig tag).
  - cbn [map]. rewrite !restrict_elem. now rewrite filter_read_agree, Hkids.
  - destruct (dropsContent tag); [reflexivity|assumption].
Qed.

Lemma sanitizeAll_restrict (ds : list Dom) :
  map restrict (sanitizeAll sanitizeConfig ds) = map restrict (sanitizeAll strictConfig ds).
Proof.
  unfold sanitizeAll. induction ds as [|d ds IH]; [reflexivity|].
  cbn [flat_map]. rewrite !map_app. now rewrite sanitizeDom_restrict, IH.
Qed.

Lemma toDocument_strict (ds : list Dom) :
  toDocument (sanitizeAll sanitizeConfig ds) = toDocument (sanitizeAll strictConfig ds).
Proof.
  unfold toDocument.
  rewrite <- (blocksOf_map_restrict (sanitizeAll sanitizeConfig ds)).
  rewrite <- (blocksOf_map_restrict (sanitizeAll strictConfig ds)).
  now rewrite sanitizeAll_restrict.
Qed.

(** C3.  The tree [parseMarkdown] returns is materialized from the markup
    that the allow-list by itself lets through: in that markup every
    element has one of the seventeen listed tags and every attribute one of
    the five listed names, so no other tag or attribute has any part in the
    tree.  A script element in a line leaves nothing of itself: the tree
    holds the text around it and the serialized output is that text. *)
Theorem only_listed_markup_is_materialized (markdown : jsstring) :
  Engine.parseCompletion markdown
  = Normal (if truthy markdown
            then toDocument (sanitizeAll strictConfig (parseMarkup (buildMarkup markdown)))
            else createAndFill)
  /\ forallb (onlyAllowed listedTag listedAttr)
       (sanitizeAll strictConfig (parseMarkup (buildMarkup markdown))) = true
  /\ listedTag (lit "script") = false
  /\ Engine.parse (lit "a<script>alert(1)</script>b")
     = Block doc defaultAttrs [Block paragraph defaultAttrs [Text (lit "ab") []]]
  /\ Engine.serialize (Engine.parse (lit "a<script>alert(1)</script>b")) = lit "ab"
  /\ Engine.serialize (Engine.parse (lit "<script>alert(1)</script>")) = [].
Proof.
  split; [|split; [apply strict_only_listed|repeat split]].
  unfold Engine.parseCompletion, parseMarkdown, parseBody, tryCatch, bind,
    Materializer.sanitize, Materializer.materialize.
  destruct (truthy markdown); cbn [negb]; [|reflexivity].
  now rewrite toDocument_strict.
Qed.

Lemma lex_text (t rest : jsstring) :
  forallb (fun c => negb (c =? lessThan)) t = true ->
  lex Data (t ++ rest) = map TChar t ++ lex Data rest.
Proof.
  induction t as [|c t IH]; intro H; [reflexivity|].
  cbn [forallb] in H. apply andb_true_iff in H as [Hc H]. apply negb_true_iff in Hc.
  cbn [app lex map]. rewrite Hc. now rewrite IH.
Qed.

Lemma build_more_text (t : jsstring) (toks : list Token) (stack : list Frame)
  (s : jsstring) (kids : list Dom) :
  build (map TChar t ++ toks) stack (DText s :: kids)
  = build toks stack (DText (s ++ t) :: kids).
Proof.
  revert s; induction t as [|c t IH]; intro s.
  - cbn [map app]. now rewrite app_nil_r.
  - cbn [map app build pushChar]. rewrite IH. now rewrite <- app_assoc.
Qed.

Lemma build_new_text (c : codeunit) (t : jsstring) (toks : list Token) (stack : list Frame)
  (kids : list Dom) :
  endsInText kids = false ->
  build (map TChar (c :: t) ++ toks) stack kids = build toks stack (DText (c :: t) :: kids).
Proof.
  intro H. cbn [map app build].
  assert (Hp : pushChar c kids = DText [c] :: kids).
  { destruct kids as [|[s|tag a k] kids]; [reflexivity|discriminate|reflexivity]. }
  rewrite Hp. apply build_more_text.
Qed.

Lemma build_text (c : codeunit) (t : jsstring) (toks : list Token) (stack : list Frame) :
  build (map TChar (c :: t) ++ toks) stack [] = build toks stack [DText (c :: t)].
Proof. now apply build_new_text. Qed.

Lemma lex_quoted (t : Tag) (n v value rest : jsstring) (q : codeunit) :
  forallb (fun c => negb (c =? q)) value = true ->
  lex (ValueQuoted t n q v) (value ++ q :: rest)
  = lex (BeforeAttr (addAttr t n (v ++ value))) rest.
Proof.
  revert v; induction value as [|c value IH]; intros v H.
  - cbn [app lex]. now rewrite N.eqb_refl, app_nil_r.
  - cbn [forallb] in H. apply andb_true_iff in H as [Hc H]. apply negb_true_iff in Hc.
    cbn [app lex]. rewrite Hc, (IH _ H). now rewrite <- app_assoc.
Qed.

Lemma sanitizeAll_one (cfg : SanitizeConfig) (d : Dom) :
  sanitizeAll cfg [d] = sanitizeDom cfg d.
Proof. unfold sanitizeAll. cbn [flat_map]. apply app_nil_r. Qed.

Lemma itemsOf_one (task : bool) (a : list (jsstring * jsstring)) (kids : list Dom) :
  itemsOf task [DElem (lit "li") a kids] = [itemNode task a (blocksOf kids [])].
Proof. reflexivity. Qed.

End MaterializerFacts.

(* ================================================================= *)
(** ** Round trip on the normal form *)

Module RoundTrip.

Import Parser Materializer NormalForm JSFacts RegexFacts Serializer SerializerFacts
  MaterializerFacts.

(** *** Plain characters and text *)

Lemma printable_bounds (c : codeunit) : printable c = true -> 32 <= c.
Proof.
  unfold printable. rewrite orb_true_iff, !andb_true_iff, !N.leb_le. lia.
Qed.

Lemma plain_printable (c : codeunit) : plainChar c = true -> printable c = true.
Proof. unfold plainChar. rewrite andb_true_iff. tauto. Qed.

Lemma plain_bounds (c : codeunit) : plainChar c = true -> 32 <= c.
Proof. intro H. now apply printable_bounds, plain_printable. Qed.

Lemma plain_not_special (c : codeunit) :
  plainChar c = true ->
  (c =? asterisk) = false /\ (c =? backtick) = false /\ (c =? lessThan) = false.
Proof.
  unfold plainChar. rewrite !andb_true_iff, negb_true_iff, !orb_false_iff.
  intros [_ H]. tauto.
Qed.

Lemma printable_space (c : codeunit) :
  printable c = true -> (c =? blank) = false -> isWhiteSpace c = false.
Proof.
  unfold printable. rewrite orb_true_iff, !andb_true_iff, negb_true_iff, !N.leb_le.
  intros [Hp|[_ Hp]] Hb; [|exact Hp]. apply N.eqb_neq in Hb. unfold blank in Hb.
  unfold isWhiteSpace.
  repeat match goal with
         | |- context [?a =? ?b] => destruct (N.eqb_spec a b); try lia
         | |- context [?a <=? ?b] => destruct (N.leb_spec a b); try lia
         end.
  all: try reflexivity.
Qed.

Lemma plainText_facts (t : jsstring) :
  plainText t = true -> forallb plainChar t = true /\ t <> [].
Proof.
  unfold plainText. rewrite !andb_true_iff, !negb_true_iff.
  intros [[[Hall Hfirst] _] _]. split; [assumption|].
  destruct t; [discriminate|discriminate].
Qed.

(** The text of a line that starts and ends in a printable character other
    than the blank. *)
Lemma printable_facts (t : jsstring) :
  forallb printable t = true ->
  match t with [] => false | c :: _ => negb (c =? blank) end = true ->
  negb (last t 0 =? blank) = true ->
  TextFacts t.
Proof.
  intros Hall Hfirst Hlast. apply negb_true_iff in Hlast.
  assert (Hne : t <> []) by (destruct t; [discriminate|discriminate]).
  split; [assumption| |].
  - intros c r ->. cbn [forallb] in Hall. apply andb_true_iff in Hall as [Hc _].
    apply negb_true_iff in Hfirst. now apply printable_space.
  - apply printable_space; [|assumption].
    rewrite forallb_forall in Hall. apply Hall. now apply last_in.
Qed.

(** *** [trim] *)

Lemma trim_prefixed (c : codeunit) (pre t : jsstring) :
  isWhiteSpace c = false -> TextFacts t ->
  trim ((c :: pre) ++ t) = (c :: pre) ++ t.
Proof.
  intros Hc [Hne _ Hl]. cbn [app]. apply trim_id; [assumption|].
  change (c :: pre ++ t) with ((c :: pre) ++ t).
  now rewrite last_app_nonempty.
Qed.

Lemma trim_text (t : jsstring) : TextFacts t -> trim t = t.
Proof.
  intros [Hne Hf Hl]. destruct t as [|c r]; [contradiction|].
  apply trim_id; [|assumption]. exact (Hf c r eq_refl).
Qed.

(** *** The line loop on a line of the normal form *)

Ltac line_patterns :=
  unfold reHeading, reHashes, reFence, reUnchecked, reChecked, reOrdered,
    reUnordered, reQuote, reRule; cbn [seq].

(** Runs a pattern on a line whose first characters are known. *)
Ltac run_pattern :=
  unfold matchAt; line_patterns;
  repeat (simpl; unfold space, just, except, nonSpace;
          repeat match goal with
                 | H : _ = false |- _ => rewrite H
                 end);
  try reflexivity.

(** Settles the first test left in the chain that misses. *)
Ltac miss :=
  match goal with
  | |- (if test ?r ?s then _ else _) = _ =>
      let H := fresh in
      assert (H : test r s = false)
        by (line_patterns; apply anchored_miss; run_pattern);
      rewrite H; clear H; cbn iota
  end.

(** Settles the test that hits, on a line [pre ++ rest]. *)
Ltac hit pre rest :=
  match goal with
  | |- (if test ?r _ then _ else _) = _ =>
      let H := fresh in
      assert (H : matchAt r None (pre ++ rest) = Some (rest, [])) by run_pattern;
      revert H; line_patterns; intro H;
      let Ht := fresh in
      let Hr := fresh in
      destruct (anchored_hit _ pre rest [] H) as (Ht & Hr & _);
      cbn [app lit] in Ht, Hr; cbn [app lit];
      rewrite Ht, Hr; clear H Ht Hr; cbn iota
  end.

(** The first character of the text of a line, and the line trimmed. *)
Ltac open_text F t pre c r :=
  let Htrim := fresh in
  unfold classify;
  match goal with
  | |- context [trim ?line] =>
      assert (Htrim : trim line = line)
        by (apply (trim_prefixed (hd 0 pre) (tl pre)); auto; reflexivity);
      rewrite Htrim; clear Htrim
  end;
  let Hne := fresh in let Hf := fresh in
  destruct F as [Hne Hf _]; destruct t as [|c r]; [contradiction|];
  let Hws := fresh "Hws" in
  pose proof (Hf c r eq_refl) as Hws; clear Hf Hne;
  cbn [app lit JS.repeat]; cbn [JS.eqb]; cbn iota.

Lemma classify_unchecked (t : jsstring) :
  TextFacts t -> classify (lit "- [ ] " ++ t) = TaskUnchecked t.
Proof.
  intros F. open_text F t (lit "- [ ] ") c r.
  miss. miss. hit (lit "- [ ] ") (c :: r). reflexivity.
Qed.

Lemma classify_checked (t : jsstring) :
  TextFacts t -> classify (lit "- [x] " ++ t) = TaskChecked t.
Proof.
  intros F. open_text F t (lit "- [x] ") c r.
  miss. miss. miss. hit (lit "- [x] ") (c :: r). reflexivity.
Qed.

Lemma classify_ordered (t : jsstring) :
  TextFacts t -> classify (lit "1. " ++ t) = OrderedItem t.
Proof.
  intros F. open_text F t (lit "1. ") c r.
  do 4 miss. hit (lit "1. ") (c :: r). reflexivity.
Qed.

Lemma classify_bullet (t : jsstring) :
  TextFacts t -> (forall c r, t = c :: r -> (c =? lbracket) = false) ->
  classify (lit "- " ++ t) = UnorderedItem t.
Proof.
  intros F Hopen. open_text F t (lit "- ") c r.
  pose proof (Hopen c r eq_refl) as Hbr. clear Hopen.
  do 5 miss. hit (lit "- ") (c :: r). reflexivity.
Qed.

Lemma classify_quote (t : jsstring) :
  TextFacts t -> classify (lit "> " ++ t) = Quote t.
Proof.
  intros F. open_text F t (lit "> ") c r.
  do 6 miss. hit (lit "> ") (c :: r). reflexivity.
Qed.

Lemma classify_heading (n : nat) (t : jsstring) :
  (1 <= n <= 6)%nat -> TextFacts t ->
  classify (JS.repeat (lit "#") n ++ lit " " ++ t) = Heading n t.
Proof.
  intros Hn F. set (hashes := JS.repeat (lit "#") n).
  assert (Hlen : length hashes = n) by apply repeat_length.
  assert (Hall : forallb (just hash) hashes = true) by apply repeat_all.
  assert (Htrim : trim (hashes ++ lit " " ++ t) = hashes ++ lit " " ++ t).
  { destruct n as [|n]; [lia|].
    rewrite (app_assoc hashes (lit " ") t).
    now apply (trim_prefixed 35 (JS.repeat (lit "#") n ++ lit " ")). }
  unfold classify. rewrite Htrim. clear Htrim.
  destruct F as [Hne Hf _]. destruct t as [|c r]; [contradiction|].
  pose proof (Hf c r eq_refl) as Hws. clear Hf Hne.
  assert (Hne : JS.eqb (hashes ++ lit " " ++ c :: r) [] = false).
  { destruct n; [lia|]. reflexivity. }
  rewrite Hne. clear Hne.
  assert (H1 : matchAt reHeading None (hashes ++ lit " " ++ c :: r) = Some (c :: r, [])).
  { unfold matchAt, reHeading. cbn [seq run].
    apply rep_greedy_max; try assumption.
    - intros i Hi. cbn [below]. apply Nat.ltb_lt. lia.
    - lia.
    - reflexivity.
    - simpl. unfold space. rewrite Hws. reflexivity. }
  assert (H2 : matchAt reHashes None (hashes ++ lit " " ++ c :: r)
               = Some (lit " " ++ c :: r, [])).
  { unfold matchAt, reHashes. cbn [seq run].
    apply rep_greedy_max; try assumption.
    - intros i Hi. cbn [below]. apply Nat.ltb_lt. lia.
    - lia.
    - reflexivity.
    - reflexivity. }
  revert H1 H2. line_patterns. intros H1 H2.
  rewrite (app_assoc hashes (lit " ") (c :: r)) in H1 |- *.
  destruct (anchored_hit _ _ _ _ H1) as (Ht & Hr & _).
  rewrite Ht, Hr.
  rewrite <- (app_assoc hashes (lit " ") (c :: r)).
  destruct (anchored_hit _ _ _ _ H2) as (_ & _ & He).
  rewrite He. cbn [matched]. now rewrite Hlen.
Qed.

Lemma classify_para (t : jsstring) : isPara (classify t) = true -> classify t = Para t.
Proof.
  destruct (classify t) eqn:E; try discriminate. intros _.
  now rewrite (ParserFacts.classify_para_exact _ _ E).
Qed.

Lemma lang_facts (lang : jsstring) :
  forallb langChar lang = true ->
  forallb plainChar lang = true
  /\ forallb (fun c => negb (c =? dquote)) lang = true
  /\ isWhiteSpace (last (fence ++ lang) 0) = false.
Proof.
  intro H.
  assert (Hc : forall c, In c lang ->
                 plainChar c = true /\ (c =? blank) = false /\ (c =? dquote) = false).
  { intros c Hc. rewrite forallb_forall in H. specialize (H c Hc).
    unfold langChar in H. rewrite !andb_true_iff, !negb_true_iff in H. tauto. }
  split; [|split].
  - apply forallb_forall. intros c Hin. now destruct (Hc c Hin).
  - apply forallb_forall. intros c Hin. destruct (Hc c Hin) as (_ & _ & Hq). now rewrite Hq.
  - destruct lang as [|x lang]; [reflexivity|].
    rewrite last_app_nonempty by discriminate.
    destruct (Hc (last (x :: lang) 0)) as (Hp & Hb & _).
    + apply last_in. discriminate.
    + apply printable_space; [now apply plain_printable|assumption].
Qed.

Lemma classify_fence (lang : jsstring) :
  forallb langChar lang = true -> classify (fence ++ lang) = FenceOpen lang.
Proof.
  intro H. destruct (lang_facts lang H) as (_ & _ & Hl).
  unfold classify.
  assert (Htrim : trim (fence ++ lang) = fence ++ lang) by (now apply trim_id).
  rewrite Htrim. clear Htrim. cbn [fence app lit JS.eqb]. cbn iota.
  miss. hit (lit "```") lang. reflexivity.
Qed.

(** *** Text with inline marks *)

(** What [segmentOk] gives about the texts of a segment. *)
Lemma segment_texts (s : Segment) :
  segmentOk s = true ->
  match s with
  | SText _ t => forallb plainChar t = true /\ t <> []
  | SLink _ t href =>
      (forallb plainChar t = true /\ t <> [])
      /\ forallb (except rbracket) t = true
      /\ (forallb plainChar href = true /\ href <> [])
      /\ forallb (except rparen) href = true
      /\ forallb (except dquote) href = true
  end.
Proof.
  destruct s as [style t|style t href]; cbn [segmentOk].
  - destruct style; try (rewrite andb_true_iff; intros [H _]; now apply plainText_facts).
    rewrite !andb_true_iff. intros [[[H1 H2] _] _]. split; [assumption|].
    destruct t; [discriminate|discriminate].
  - unfold safeHref. rewrite !andb_true_iff. intros [[Ht Hb] [[Hne Hh] _]].
    split; [now apply plainText_facts|]. split; [assumption|].
    assert (Hc : forall c, In c href ->
                   plainChar c = true /\ (c =? rparen) = false /\ (c =? dquote) = false).
    { intros c Hc. rewrite forallb_forall in Hh. specialize (Hh c Hc).
      unfold hrefChar in Hh. rewrite andb_true_iff, negb_true_iff, !orb_false_iff in Hh. tauto. }
    repeat split.
    + apply forallb_forall. intros c Hin. now destruct (Hc c Hin).
    + destruct href; [discriminate|discriminate].
    + apply forallb_forall. intros c Hin. destruct (Hc c Hin) as (_ & H & _).
      unfold except. now rewrite H.
    + apply forallb_forall. intros c Hin. destruct (Hc c Hin) as (_ & _ & H).
      unfold except. now rewrite H.
Qed.

Lemma plain_all_printable (t : jsstring) :
  forallb plainChar t = true -> forallb printable t = true.
Proof.
  intro H. apply forallb_forall. intros c Hc. rewrite forallb_forall in H.
  now apply plain_printable, H.
Qed.

Lemma wrap_printable (style : Style) (t : jsstring) :
  forallb plainChar t = true -> forallb printable (wrap style t) = true.
Proof.
  intro H. apply plain_all_printable in H.
  destruct style; cbn [wrap]; rewrite ?forallb_app, ?andb_true_iff; repeat split;
    first [reflexivity | assumption].
Qed.

Lemma written_printable (s : Segment) :
  segmentOk s = true -> forallb printable (written s) = true.
Proof.
  intro Hs. pose proof (segment_texts s Hs) as Ht.
  destruct s as [style t|style t href]; cbn [written].
  - destruct Ht as [Hall _]. now apply wrap_printable.
  - destruct Ht as ([Hall _] & _ & [Hall' _] & _).
    rewrite !forallb_app, !andb_true_iff. repeat split;
      first [reflexivity | now apply wrap_printable | now apply plain_all_printable].
Qed.

Lemma text_printable (segs : list Segment) :
  forallb segmentOk segs = true -> forallb printable (textOf segs) = true.
Proof.
  unfold textOf. induction segs as [|s segs IH]; intro H; [reflexivity|].
  cbn [forallb] in H. apply andb_true_iff in H as [Hs H].
  cbn [map concat]. rewrite forallb_app, (written_printable s Hs). now apply IH.
Qed.

Lemma rich_facts (segs : list Segment) :
  richText segs = true ->
  forallb segmentOk segs = true /\ alternating segs = true /\ TextFacts (textOf segs).
Proof.
  unfold richText. rewrite !andb_true_iff. intros [[[[[Hok Halt] Hfirst] Hlast] _] _].
  split; [assumption|]. split; [assumption|].
  apply printable_facts; [now apply text_printable|assumption..].
Qed.

Lemma rich_underscores (segs : list Segment) :
  richText segs = true -> (occurrences underscore (textOf segs) <= 1)%nat.
Proof.
  unfold richText. rewrite !andb_true_iff. intros [[_ H] _]. now apply Nat.leb_le.
Qed.

Lemma segment_brackets (style : Style) (t : jsstring) :
  segmentOk (SText style t) = true -> bracketsClosed t = true.
Proof.
  cbn [segmentOk]. destruct style; rewrite !andb_true_iff; tauto.
Qed.

Lemma rich_nonempty (segs : list Segment) : richText segs = true -> segs <> [].
Proof.
  intros H ->. unfold richText in H. cbn in H. discriminate.
Qed.

(** A text that does not open with a link does not open with a bracket. *)
Lemma opens_without_bracket (segs : list Segment) :
  richText segs = true -> opensWithLink segs = false ->
  forall c r, textOf segs = c :: r -> (c =? lbracket) = false.
Proof.
  unfold richText. rewrite !andb_true_iff, orb_true_iff.
  intros [_ [H|H]] Hopen c r E; [|congruence].
  apply negb_true_iff in H. now rewrite E in H.
Qed.

Lemma classify_first (l : Line) :
  wellFormed l = true -> classify (hd [] (linesOf l)) = classOf l.
Proof.
  destruct l as [|n t|t|t|t|t|t| |t|lang body];
    cbn [wellFormed linesOf classOf hd]; rewrite ?andb_true_iff.
  - reflexivity.
  - intros [[H1 H2] H3]. apply Nat.leb_le in H1, H2.
    apply classify_heading; [lia|]. now apply rich_facts.
  - intro H. now apply classify_unchecked, rich_facts.
  - intro H. now apply classify_checked, rich_facts.
  - intro H. now apply classify_ordered, rich_facts.
  - intros [H Hopen]. apply negb_true_iff in Hopen.
    destruct (rich_facts t H) as (Hok & _ & F).
    apply classify_bullet; [assumption|]. now apply opens_without_bracket.
  - intro H. now apply classify_quote, rich_facts.
  - reflexivity.
  - intros [_ H]. now apply classify_para.
  - intros [[H _] _]. now apply classify_fence.
Qed.

(** *** Inline substitution *)

Lemma plain_calm (c : codeunit) : plainChar c = true -> (c =? asterisk) = false.
Proof. intro H. now destruct (plain_not_special c H). Qed.

Lemma lastRead_plain (t : jsstring) (prev : option codeunit) :
  forallb plainChar t = true -> t <> [] -> calm (lastRead t prev).
Proof.
  intros H Hne. destruct t as [|c t]; [contradiction|]. cbn [lastRead calm].
  rewrite forallb_forall in H. apply plain_calm, H.
  rewrite <- (last_cons c 0). apply last_in. discriminate.
Qed.

Lemma printable_line (c : codeunit) : printable c = true -> isLineTerminator c = false.
Proof.
  intro H. destruct (isLineTerminator c) eqn:E; [|reflexivity].
  assert (Hb : (c =? blank) = false).
  { unfold isLineTerminator in E. rewrite !orb_true_iff, !N.eqb_eq in E.
    apply N.eqb_neq. unfold blank. lia. }
  pose proof (printable_space c H Hb) as Hs. unfold isLineTerminator in E.
  rewrite !orb_true_iff, !N.eqb_eq in E.
  destruct E as [[[-> | ->] | ->] | ->]; discriminate Hs.
Qed.

Lemma plain_dot (t : jsstring) : forallb plainChar t = true -> forallb dot t = true.
Proof.
  intro H. apply forallb_forall. intros c Hc. rewrite forallb_forall in H.
  unfold dot. now rewrite (printable_line c (plain_printable c (H c Hc))).
Qed.

Lemma plain_except (x : codeunit) (t : jsstring) :
  plainChar x = false -> forallb plainChar t = true -> forallb (except x) t = true.
Proof.
  intros Hx H. apply forallb_forall. intros c Hc. rewrite forallb_forall in H.
  specialize (H c Hc). unfold except. apply negb_true_iff, N.eqb_neq. intros ->.
  congruence.
Qed.

Lemma match_strong (t rest : jsstring) (prev : option codeunit) :
  forallb plainChar t = true ->
  matchAt reStrongStar prev (lit "**" ++ t ++ lit "**" ++ rest) = Some (rest, [(1%nat, t)]).
Proof.
  intro H. unfold matchAt, reStrongStar. cbn [seq run chr lit app]. cbn.
  apply rep_lazy_first.
  - now apply plain_dot.
  - intros prev' c s' Hin. rewrite forallb_forall in H.
    unfold just. now rewrite (plain_calm c (H c Hin)).
  - cbn. now rewrite consumed_app.
Qed.

(** Of three asterisks before a text the pass for strong text takes the
    first two, and the third with the text. *)
Lemma match_strong_em (t rest : jsstring) (prev : option codeunit) :
  forallb plainChar t = true -> t <> [] ->
  matchAt reStrongStar prev (lit "***" ++ t ++ lit "**" ++ rest)
  = Some (rest, [(1%nat, lit "*" ++ t)]).
Proof.
  intros H Hne. unfold matchAt, reStrongStar. cbn [seq run chr lit app]. cbn -[rep consumed].
  change (42 :: t ++ 42 :: 42 :: rest) with ((42 :: t) ++ 42 :: 42 :: rest).
  apply rep_lazy_exact.
  - cbn [forallb]. now rewrite (plain_dot t H).
  - intros pre c suf prev' E. unfold just.
    destruct pre as [|x pre]; cbn [app] in E; injection E as <- E.
    + subst suf. destruct t as [|x t]; [contradiction|].
      cbn [forallb] in H. apply andb_true_iff in H as [Hx _].
      cbn [app]. now rewrite (plain_calm x Hx).
    + subst t. rewrite forallb_app in H. apply andb_true_iff in H as [_ H].
      cbn [forallb] in H. apply andb_true_iff in H as [Hc _].
      now rewrite (plain_calm c Hc).
  - cbn -[consumed].
    change (42 :: t ++ 42 :: 42 :: rest) with ((42 :: t) ++ 42 :: 42 :: rest).
    now rewrite consumed_app.
Qed.

(** A stretch between two backticks that holds none. *)
Lemma match_code (g rest : jsstring) (prev : option codeunit) :
  forallb dot g = true -> forallb (except backtick) g = true ->
  matchAt reCode prev (lit "`" ++ g ++ lit "`" ++ rest) = Some (rest, [(1%nat, g)]).
Proof.
  intros Hd H. unfold matchAt, reCode. cbn [seq run chr lit app]. cbn.
  apply rep_lazy_first.
  - assumption.
  - intros prev' c s' Hin. rewrite forallb_forall in H. specialize (H c Hin).
    unfold except in H. apply negb_true_iff in H. unfold just.
    change 96 with backtick. now rewrite H.
  - cbn. now rewrite consumed_app.
Qed.

(** A stretch between two asterisks that holds none. *)
Lemma match_em (g rest : jsstring) (prev : option codeunit) :
  forallb (except asterisk) g = true -> g <> [] -> calm prev -> opensCalm rest ->
  matchAt reEmStar prev (lit "*" ++ g ++ lit "*" ++ rest) = Some (rest, [(1%nat, g)]).
Proof.
  intros H Hne Hprev Hrest. unfold matchAt, reEmStar. cbn [seq run chr lit app].
  assert (Hb : match prev with
               | Some c => if just asterisk c then true else false
               | None => false
               end = false).
  { destruct prev as [c|]; [|reflexivity]. cbn in Hprev. unfold just. now rewrite Hprev. }
  destruct prev as [c|]; [destruct (just asterisk c); [discriminate|]|]; cbn.
  all: apply rep_greedy_max;
    [ assumption
    | reflexivity
    | destruct g; [contradiction|cbn [length]; lia]
    | reflexivity
    | cbn; rewrite consumed_app; destruct rest as [|x rest]; [reflexivity|];
      cbn in Hrest; unfold just; now rewrite Hrest ].
Qed.

Lemma match_link (t href rest : jsstring) (prev : option codeunit) :
  t <> [] -> href <> [] ->
  forallb (except rbracket) t = true -> forallb (except rparen) href = true ->
  matchAt reLink prev (lit "[" ++ t ++ lit "](" ++ href ++ lit ")" ++ rest)
  = Some (rest, [(2%nat, href); (1%nat, t)]).
Proof.
  intros Ht Hu Hall Hall'. unfold matchAt, reLink. cbn [seq run chr lit app]. cbn.
  apply rep_greedy_max;
    [ assumption | reflexivity | destruct t; [contradiction|cbn [length]; lia]
    | reflexivity | ].
  cbn. rewrite consumed_app.
  apply rep_greedy_max;
    [ assumption | reflexivity | destruct href; [contradiction|cbn [length]; lia]
    | reflexivity | ].
  cbn. now rewrite consumed_app.
Qed.

Lemma strong_needs_two (prev : option codeunit) (s : jsstring) :
  opensCalm s -> matchAt reStrongStar prev (asterisk :: s) = None.
Proof.
  intro H. unfold matchAt, reStrongStar. cbn [seq run chr].
  destruct s as [|c s]; [reflexivity|]. cbn in *. unfold just. now rewrite H.
Qed.

Ltac no_match :=
  intros; unfold matchAt, reLink, reStrongStar, reEmStar, reStrongUnderscore,
    reEmUnderscore, reCode; cbn [seq run chr];
  repeat match goal with
         | |- context [match ?p with Some _ => _ | None => _ end] =>
             is_var p; destruct p
         end;
  unfold just in *;
  repeat match goal with
         | H : (_ =? _) = false |- _ => rewrite H
         | |- context [if ?b then None else _] => destruct b
         end;
  reflexivity.

(** A text of literal and plain stretches is free of a character that is
    not plain. *)
Ltac free :=
  unfold linkOpen, linkClose;
  rewrite ?forallb_app; rewrite ?andb_true_iff; repeat split;
  first [ reflexivity | apply plain_except; [reflexivity|assumption] ].

Ltac stage :=
  unfold runAfter, shell, starred; cbn [isBold isItalic isMono Nat.ltb Nat.leb].

(** Two texts of the same stretches, however they are put together. *)
Ltac same_text :=
  rewrite <- ?app_assoc; cbn [app lit];
  repeat match goal with
         | |- _ :: _ = _ :: _ => f_equal
         | |- _ ++ _ = _ ++ _ => f_equal
         end;
  match goal with
  | |- replaceAllFrom _ _ _ _ _ = replaceAllFrom _ _ _ _ _ => f_equal
  | _ => idtac
  end;
  rewrite ?lastRead_cons, ?lastRead_app; reflexivity.

(** *** The passes on one run

    [Hctx] is what surrounds a run that is not plain text. *)

Lemma wrap_except (x : codeunit) (style : Style) (t : jsstring) :
  plainChar x = true -> forallb (except x) t = true ->
  forallb (except x) (wrap style t) = true.
Proof.
  intros Hx H.
  assert (Hd : forall c, plainChar c = false -> except x c = true).
  { intros c Hc. unfold except. apply negb_true_iff, N.eqb_neq. intros ->. congruence. }
  destruct style; cbn [wrap]; rewrite ?forallb_app, ?H; cbn [lit forallb];
    rewrite ?Hd by reflexivity; reflexivity.
Qed.

Lemma runAfter_written (style : Style) (t : jsstring) :
  runAfter 0 style t = wrap style t /\ runAfter 1 style t = wrap style t
  /\ runAfter 4 style t = tagged style t.
Proof. destruct style; repeat split; reflexivity. Qed.

(** What follows does not open with a parenthesis. *)
Definition opensNoParen (rest : jsstring) : Prop :=
  match rest with
  | c :: _ => (c =? lparen) = false
  | [] => True
  end.

Lemma dropWhile_stops (p : codeunit -> bool) (s rest : jsstring) (d : codeunit)
  (tail : jsstring) :
  dropWhile p s = d :: tail ->
  dropWhile p (s ++ rest) = d :: tail ++ rest.
Proof.
  induction s as [|c s IH]; [discriminate|]. cbn [dropWhile app].
  destruct (p c); [exact IH|]. intro E. injection E as <- <-. reflexivity.
Qed.

(** A bracket that is closed the way [closedIn] says opens no link. *)
Lemma bracket_opens_nothing (r rest : jsstring) (prev : option codeunit) :
  closedIn r = true -> opensNoParen rest ->
  matchAt reLink prev (lbracket :: r ++ rest) = None.
Proof.
  intros Hc Hrest. unfold matchAt, reLink. cbn [seq run chr plus]. unfold just at 1.
  rewrite N.eqb_refl. rewrite rep_greedy_whole; [| |reflexivity].
  - cbn [Bounds.upTo]. rewrite andb_true_r.
    destruct (Nat.leb 1 _); [|reflexivity]. unfold closedIn in Hc.
    destruct (dropWhile (except rbracket) r) as [|d tail] eqn:E; [discriminate|].
    rewrite (dropWhile_stops _ _ rest _ _ E). cbn [run chr]. unfold just.
    destruct (d =? rbracket); [|reflexivity].
    destruct tail as [|x tail]; cbn [app].
    + destruct rest as [|x rest]; [reflexivity|]. cbn in Hrest. now rewrite Hrest.
    + apply negb_true_iff in Hc. now rewrite Hc.
  - intros prev' c r' Hx. cbn [run chr]. unfold just, except in *.
    apply negb_true_iff in Hx. now rewrite Hx.
Qed.

(** The pass for links leaves a text with closed brackets as it is. *)
Lemma link_idle (x rest : jsstring) :
  bracketsClosed x = true -> opensNoParen rest ->
  forall prev,
  replaceAllFrom reLink tplLink 0 prev (x ++ rest)
  = x ++ replaceAllFrom reLink tplLink 0 (lastRead x prev) rest.
Proof.
  intros Hx Hrest. induction x as [|c x IH]; intro prev; [reflexivity|].
  cbn [bracketsClosed] in Hx. apply andb_true_iff in Hx as [Hc Hx].
  cbn [app]. rewrite replaceAll_step.
  - now rewrite (IH Hx), lastRead_cons.
  - destruct (c =? lbracket) eqn:E.
    + apply N.eqb_eq in E. subst c. now apply bracket_opens_nothing.
    + unfold matchAt, reLink. cbn [seq run chr]. unfold just. now rewrite E.
Qed.

Lemma run_link (style : Style) (t rest : jsstring) (prev : option codeunit) :
  bracketsClosed t = true -> (style = Regular -> opensNoParen rest) ->
  replaceAllFrom reLink tplLink 0 prev (runAfter 0 style t ++ rest)
  = runAfter 1 style t ++ replaceAllFrom reLink tplLink 0 (lastRead (runAfter 0 style t) prev) rest.
Proof.
  intros Hb Hrest.
  assert (Hpass : forall x r p, forallb (fun c => negb (c =? lbracket)) x = true ->
            replaceAllFrom reLink tplLink 0 p (x ++ r)
            = x ++ replaceAllFrom reLink tplLink 0 (lastRead x p) r).
  { intros x r p Hx. apply (replaceAll_passes reLink tplLink lbracket); [no_match|exact Hx]. }
  destruct style; stage; rewrite <- ?app_assoc;
    repeat first [ rewrite Hpass by reflexivity
                 | rewrite (link_idle t) by (assumption || reflexivity || now apply Hrest) ];
    same_text.
Qed.

(** A pass over a run between two backticks, from what it does to the run. *)
Lemma pass_in_backticks (r : re) (tpl : list piece) (trigger : codeunit)
  (x y rest : jsstring) (prev : option codeunit) :
  (forall prev c s, (c =? trigger) = false -> matchAt r prev (c :: s) = None) ->
  (backtick =? trigger) = false ->
  (forall prev' rest', calm prev' -> opensCalm rest' ->
     replaceAllFrom r tpl 0 prev' (x ++ rest')
     = y ++ replaceAllFrom r tpl 0 (lastRead x prev') rest') ->
  replaceAllFrom r tpl 0 prev ((lit "`" ++ x ++ lit "`") ++ rest)
  = (lit "`" ++ y ++ lit "`")
    ++ replaceAllFrom r tpl 0 (lastRead (lit "`" ++ x ++ lit "`") prev) rest.
Proof.
  intros Hr Hb Hx.
  assert (Htick : forallb (fun c => negb (c =? trigger)) (lit "`") = true).
  { cbn [lit forallb]. change (N_of_ascii "`") with backtick. now rewrite Hb. }
  rewrite <- !app_assoc.
  rewrite (replaceAll_passes r tpl trigger _ _ Hr Htick). f_equal.
  rewrite Hx by reflexivity. f_equal.
  rewrite (replaceAll_passes r tpl trigger _ _ Hr Htick). f_equal.
  now rewrite !lastRead_app.
Qed.

Lemma starred_strong (b i : bool) (t rest : jsstring) (prev : option codeunit) :
  forallb plainChar t = true -> t <> [] ->
  (b || i = true -> calm prev /\ opensCalm rest) ->
  replaceAllFrom reStrongStar tplStrong 0 prev (starred 1 b i t ++ rest)
  = starred 2 b i t
    ++ replaceAllFrom reStrongStar tplStrong 0 (lastRead (starred 1 b i t) prev) rest.
Proof.
  intros Hall Hne Hctx. destruct b, i; unfold starred; cbn [Nat.ltb Nat.leb].
  - (* strong and emphasised: the third asterisk of the end is left over *)
    destruct Hctx as [_ Hrest]; [reflexivity|].
    replace ((lit "***" ++ t ++ lit "***") ++ rest)
      with ((lit "***" ++ t ++ lit "**") ++ lit "*" ++ rest)
      by (cbn [lit app]; rewrite <- !app_assoc; reflexivity).
    rewrite (replaceAll_found _ _ _ _ _ [(1%nat, lit "*" ++ t)]).
    + cbn [lit app]. rewrite replaceAll_step by now apply strong_needs_two.
      cbn [expand tplStrong group Nat.eqb lit app]. same_text.
    + discriminate.
    + rewrite <- !app_assoc. now apply match_strong_em.
  - rewrite (replaceAll_found _ _ _ _ _ [(1%nat, t)]).
    + cbn. rewrite <- !app_assoc. reflexivity.
    + discriminate.
    + rewrite <- !app_assoc. now apply match_strong.
  - (* an emphasised run: neither of its asterisks is followed by another *)
    destruct Hctx as [_ Hrest]; [reflexivity|].
    rewrite <- !app_assoc. cbn [lit app].
    rewrite replaceAll_step.
    2:{ apply strong_needs_two. destruct t as [|c t]; [contradiction|].
        cbn [app opensCalm]. cbn [forallb] in Hall. apply andb_true_iff in Hall as [Hc _].
        now apply plain_calm. }
    f_equal.
    rewrite (replaceAll_passes reStrongStar tplStrong asterisk); [| no_match | free].
    f_equal. rewrite replaceAll_step by now apply strong_needs_two.
    f_equal. f_equal. symmetry. apply (lastRead_snoc (_ :: t)).
  - apply (replaceAll_passes reStrongStar tplStrong asterisk); [no_match | free].
Qed.

Lemma starred_em (b i : bool) (t rest : jsstring) (prev : option codeunit) :
  forallb plainChar t = true -> t <> [] ->
  (b || i = true -> calm prev /\ opensCalm rest) ->
  replaceAllFrom reEmStar tplEm 0 prev (starred 2 b i t ++ rest)
  = starred 3 b i t ++ replaceAllFrom reEmStar tplEm 0 (lastRead (starred 2 b i t) prev) rest.
Proof.
  intros Hall Hne Hctx. destruct b, i; unfold starred; cbn [Nat.ltb Nat.leb].
  - (* the asterisk left over by the pass for strong text ends the match *)
    destruct Hctx as [_ Hrest]; [reflexivity|].
    replace ((lit "<strong>*" ++ t ++ lit "</strong>*") ++ rest)
      with (lit "<strong>" ++ (lit "*" ++ (t ++ lit "</strong>") ++ lit "*") ++ rest)
      by (cbn [lit app]; rewrite <- !app_assoc; reflexivity).
    rewrite (replaceAll_passes reEmStar tplEm asterisk); [| no_match | reflexivity].
    rewrite (replaceAll_found _ _ _ _ _ [(1%nat, t ++ lit "</strong>")]).
    + cbn [expand tplEm group Nat.eqb]. same_text.
    + discriminate.
    + set (g := t ++ lit "</strong>"). rewrite <- !app_assoc. apply match_em.
      * unfold g. rewrite forallb_app. now rewrite (plain_except asterisk t eq_refl Hall).
      * unfold g. destruct t; [contradiction|discriminate].
      * reflexivity.
      * exact Hrest.
  - apply (replaceAll_passes reEmStar tplEm asterisk); [no_match | free].
  - destruct Hctx as [Hprev Hrest]; [reflexivity|].
    rewrite (replaceAll_found _ _ _ _ _ [(1%nat, t)]).
    + cbn. rewrite <- !app_assoc. reflexivity.
    + discriminate.
    + rewrite <- !app_assoc. apply match_em; try assumption.
      now apply plain_except.
  - apply (replaceAll_passes reEmStar tplEm asterisk); [no_match | free].
Qed.

Lemma marked_style (style : Style) :
  style <> Regular -> isMono style = false -> isBold style || isItalic style = true.
Proof. destruct style; intros H E; try reflexivity; try discriminate. now destruct H. Qed.

Lemma run_strong (style : Style) (t rest : jsstring) (prev : option codeunit) :
  forallb plainChar t = true -> t <> [] ->
  (style <> Regular -> calm prev /\ opensCalm rest) ->
  replaceAllFrom reStrongStar tplStrong 0 prev (runAfter 1 style t ++ rest)
  = runAfter 2 style t
    ++ replaceAllFrom reStrongStar tplStrong 0 (lastRead (runAfter 1 style t) prev) rest.
Proof.
  intros Hall Hne Hctx. unfold runAfter, shell. cbn [Nat.ltb Nat.leb].
  destruct (isMono style) eqn:Em.
  - apply (pass_in_backticks reStrongStar tplStrong asterisk); [no_match|reflexivity|].
    intros prev' rest' Hp Hr. apply starred_strong; auto.
  - apply starred_strong; auto. intro Hm. apply Hctx.
    intros ->. discriminate.
Qed.

Lemma run_em (style : Style) (t rest : jsstring) (prev : option codeunit) :
  forallb plainChar t = true -> t <> [] ->
  (style <> Regular -> calm prev /\ opensCalm rest) ->
  replaceAllFrom reEmStar tplEm 0 prev (runAfter 2 style t ++ rest)
  = runAfter 3 style t ++ replaceAllFrom reEmStar tplEm 0 (lastRead (runAfter 2 style t) prev) rest.
Proof.
  intros Hall Hne Hctx. unfold runAfter, shell. cbn [Nat.ltb Nat.leb].
  destruct (isMono style) eqn:Em.
  - apply (pass_in_backticks reEmStar tplEm asterisk); [no_match|reflexivity|].
    intros prev' rest' Hp Hr. apply starred_em; auto.
  - apply starred_em; auto. intro Hm. apply Hctx.
    intros ->. discriminate.
Qed.

(** The markup between the backticks of a run holds no backtick and no end
    of line. *)
Lemma starred_code (b i : bool) (t : jsstring) :
  forallb plainChar t = true ->
  forallb dot (starred 3 b i t) = true
  /\ forallb (except backtick) (starred 3 b i t) = true
  /\ starred 4 b i t = starred 3 b i t.
Proof.
  intro Hall. pose proof (plain_dot t Hall) as Hd.
  pose proof (plain_except backtick t eq_refl Hall) as He.
  destruct b, i; unfold starred; cbn [Nat.ltb Nat.leb];
    rewrite ?forallb_app, ?Hd, ?He; repeat split; reflexivity.
Qed.

Lemma run_code (style : Style) (t rest : jsstring) (prev : option codeunit) :
  forallb plainChar t = true -> t <> [] ->
  (style <> Regular -> calm prev /\ opensCalm rest) ->
  replaceAllFrom reCode tplCode 0 prev (runAfter 3 style t ++ rest)
  = runAfter 4 style t ++ replaceAllFrom reCode tplCode 0 (lastRead (runAfter 3 style t) prev) rest.
Proof.
  intros Hall Hne Hctx. unfold runAfter, shell. cbn [Nat.ltb Nat.leb].
  destruct (starred_code (isBold style) (isItalic style) t Hall) as (Hd & He & ->).
  destruct (isMono style) eqn:Em.
  - rewrite (replaceAll_found _ _ _ _ _ [(1%nat, starred 3 (isBold style) (isItalic style) t)]).
    + cbn. rewrite <- !app_assoc. reflexivity.
    + discriminate.
    + rewrite <- !app_assoc. now apply match_code.
  - apply (replaceAll_passes reCode tplCode backtick); [no_match|exact He].
Qed.

(** The two passes for underscores find nothing to rewrite in a text with
    one underscore at most: a match holds two. *)
Lemma occurrences_app (c : codeunit) (x y : jsstring) :
  occurrences c (x ++ y) = (occurrences c x + occurrences c y)%nat.
Proof. unfold occurrences. now rewrite filter_app, length_app. Qed.

Lemma occurrences_cons (c d : codeunit) (x : jsstring) :
  occurrences c (d :: x) = ((if N.eqb d c then 1 else 0) + occurrences c x)%nat.
Proof. unfold occurrences. cbn [filter]. now destruct (d =? c). Qed.

Lemma occurrences_dropWhile (c : codeunit) (p : codeunit -> bool) (s : jsstring) :
  (occurrences c (dropWhile p s) <= occurrences c s)%nat.
Proof.
  induction s as [|d s IH]; [reflexivity|]. cbn [dropWhile].
  destruct (p d); [|reflexivity]. rewrite occurrences_cons. lia.
Qed.

Lemma strong_underscore_needs_two (prev : option codeunit) (u : jsstring) :
  (occurrences underscore u <= 1)%nat -> matchAt reStrongUnderscore prev u = None.
Proof.
  intro H. unfold matchAt, reStrongUnderscore. cbn [seq run chr]. unfold just.
  destruct u as [|c1 u]; [reflexivity|]. destruct (c1 =? underscore) eqn:E1; [|reflexivity].
  destruct u as [|c2 u]; [reflexivity|]. destruct (c2 =? underscore) eqn:E2; [|reflexivity].
  rewrite !occurrences_cons, E1, E2 in H. lia.
Qed.

Lemma em_underscore_needs_two (prev : option codeunit) (u : jsstring) :
  (occurrences underscore u <= 1)%nat -> matchAt reEmUnderscore prev u = None.
Proof.
  intro H.
  assert (Hu : match u with
               | c :: s' =>
                   if just underscore c
                   then rep Greedy 1 None (except underscore) []
                          (fun prev' s'' cs' =>
                             run (Seq (chr underscore) (NotAhead (just underscore)))
                               prev' s'' ((1%nat, consumed s' s'') :: cs')
                               (fun _ s0 cs0 => Some (s0, cs0)))
                          0 (Some c) s'
                   else None
               | [] => None
               end = None).
  { destruct u as [|c s']; [reflexivity|]. unfold just.
    destruct (c =? underscore) eqn:E1; [|reflexivity].
    rewrite rep_greedy_whole; [| |reflexivity].
    - cbn [Bounds.upTo andb]. rewrite andb_true_r.
      destruct (Nat.leb 1 _); [|reflexivity]. cbn [run chr].
      pose proof (occurrences_dropWhile underscore (except underscore) s') as Hd.
      destruct (dropWhile (except underscore) s') as [|c2 r2]; [reflexivity|].
      unfold just. destruct (c2 =? underscore) eqn:E2; [|reflexivity].
      rewrite !occurrences_cons, ?E1, ?E2 in *. lia.
    - intros prev' c' r Hc. cbn [run chr]. unfold just, except in *.
      apply negb_true_iff in Hc. now rewrite Hc. }
  unfold matchAt, reEmUnderscore. cbn [seq run chr plus].
  destruct prev as [c|]; [destruct (just underscore c); [reflexivity|]|]; exact Hu.
Qed.

Lemma replaceAll_quiet (r : re) (tpl : list piece) (c : codeunit) (text : jsstring) :
  (forall prev u, (occurrences c u <= 1)%nat -> matchAt r prev u = None) ->
  (occurrences c text <= 1)%nat ->
  forall prev, replaceAllFrom r tpl 0 prev text = text.
Proof.
  intro Hr. induction text as [|d text IH]; intros H prev; cbn [replaceAllFrom].
  - now rewrite (Hr prev [] H).
  - rewrite (Hr prev (d :: text) H). f_equal. apply IH.
    rewrite occurrences_cons in H. lia.
Qed.

(** *** The passes on one segment *)

Lemma lastRead_linkOpen (href : jsstring) (prev : option codeunit) :
  lastRead (linkOpen href) prev = Some greater.
Proof. unfold linkOpen. now rewrite !lastRead_app. Qed.

(** A pass that rewrites runs, on a run inside the markup of a link. *)
Lemma pass_inside_link (r : re) (tpl : list piece) (trigger : codeunit) (n m : nat) :
  (forall prev c s, (c =? trigger) = false -> matchAt r prev (c :: s) = None) ->
  (forall href, forallb plainChar href = true ->
                forallb (fun c => negb (c =? trigger)) (linkOpen href) = true) ->
  forallb (fun c => negb (c =? trigger)) linkClose = true ->
  (forall style t rest prev,
      forallb plainChar t = true -> t <> [] ->
      (style <> Regular -> calm prev /\ opensCalm rest) ->
      replaceAllFrom r tpl 0 prev (runAfter n style t ++ rest)
      = runAfter m style t ++ replaceAllFrom r tpl 0 (lastRead (runAfter n style t) prev) rest) ->
  forall style t href rest prev,
  forallb plainChar t = true -> t <> [] -> forallb plainChar href = true ->
  replaceAllFrom r tpl 0 prev ((linkOpen href ++ runAfter n style t ++ linkClose) ++ rest)
  = (linkOpen href ++ runAfter m style t ++ linkClose)
    ++ replaceAllFrom r tpl 0
         (lastRead (linkOpen href ++ runAfter n style t ++ linkClose) prev) rest.
Proof.
  intros Hr Hopen Hclose Hrun style t href rest prev Hall Hne Hall'.
  rewrite <- !app_assoc.
  rewrite (replaceAll_passes r tpl trigger _ _ Hr (Hopen href Hall')). f_equal.
  rewrite Hrun; [|assumption|assumption|].
  - f_equal. rewrite (replaceAll_passes r tpl trigger _ _ Hr Hclose). f_equal.
    now rewrite !lastRead_app.
  - intros _. rewrite lastRead_linkOpen. split; reflexivity.
Qed.

Lemma plain_context (s : Segment) (prev : option codeunit) (rest : jsstring) :
  (isPlainSegment s = false -> calm prev /\ opensCalm rest) ->
  match s with
  | SText style _ => style <> Regular -> calm prev /\ opensCalm rest
  | SLink _ _ _ => True
  end.
Proof.
  intro H. destruct s as [style t|]; [|exact I].
  intro Hne. apply H. now destruct style.
Qed.

Lemma pass_link (s : Segment) (prev : option codeunit) (rest : jsstring) :
  segmentOk s = true ->
  (isPlainSegment s = false -> calm prev /\ opensCalm rest) ->
  (isPlainSegment s = true -> opensNoParen rest) ->
  replaceAllFrom reLink tplLink 0 prev (after 0 s ++ rest)
  = after 1 s ++ replaceAllFrom reLink tplLink 0 (lastRead (after 0 s) prev) rest.
Proof.
  intros Hs Hctx Hparen. pose proof (segment_texts s Hs) as Ht.
  destruct s as [style t|style t href]; cbn [after Nat.ltb Nat.leb].
  - apply run_link; [now apply (segment_brackets style)|].
    intros ->. now apply Hparen.
  - destruct Ht as ([Hall Hne] & Hb & [Hall' Hne'] & Hp & _).
    assert (Hw : wrap style t <> []) by (destruct style, t; try discriminate; contradiction).
    rewrite (replaceAll_found _ _ _ _ _ [(2%nat, href); (1%nat, wrap style t)]).
    + destruct (runAfter_written style t) as (_ & -> & _).
      unfold linkOpen, linkClose. cbn [expand tplLink group Nat.eqb]. same_text.
    + discriminate.
    + rewrite <- !app_assoc. apply match_link; try assumption.
      apply wrap_except; [reflexivity|assumption].
Qed.

Lemma pass_strong (s : Segment) (prev : option codeunit) (rest : jsstring) :
  segmentOk s = true ->
  (isPlainSegment s = false -> calm prev /\ opensCalm rest) ->
  replaceAllFrom reStrongStar tplStrong 0 prev (after 1 s ++ rest)
  = after 2 s ++ replaceAllFrom reStrongStar tplStrong 0 (lastRead (after 1 s) prev) rest.
Proof.
  intros Hs Hctx. pose proof (segment_texts s Hs) as Ht. apply plain_context in Hctx.
  destruct s as [style t|style t href]; cbn [after Nat.ltb Nat.leb].
  - destruct Ht as [Hall Hne]. now apply run_strong.
  - destruct Ht as ([Hall Hne] & _ & [Hall' _] & _).
    apply (pass_inside_link reStrongStar tplStrong asterisk 1 2); try assumption;
      [no_match | intros; free | reflexivity | apply run_strong].
Qed.

Lemma pass_em (s : Segment) (prev : option codeunit) (rest : jsstring) :
  segmentOk s = true ->
  (isPlainSegment s = false -> calm prev /\ opensCalm rest) ->
  replaceAllFrom reEmStar tplEm 0 prev (after 2 s ++ rest)
  = after 3 s ++ replaceAllFrom reEmStar tplEm 0 (lastRead (after 2 s) prev) rest.
Proof.
  intros Hs Hctx. pose proof (segment_texts s Hs) as Ht. apply plain_context in Hctx.
  destruct s as [style t|style t href]; cbn [after Nat.ltb Nat.leb].
  - destruct Ht as [Hall Hne]. now apply run_em.
  - destruct Ht as ([Hall Hne] & _ & [Hall' _] & _).
    apply (pass_inside_link reEmStar tplEm asterisk 2 3); try assumption;
      [no_match | intros; free | reflexivity | apply run_em].
Qed.

Lemma pass_code (s : Segment) (prev : option codeunit) (rest : jsstring) :
  segmentOk s = true ->
  (isPlainSegment s = false -> calm prev /\ opensCalm rest) ->
  replaceAllFrom reCode tplCode 0 prev (after 3 s ++ rest)
  = after 4 s ++ replaceAllFrom reCode tplCode 0 (lastRead (after 3 s) prev) rest.
Proof.
  intros Hs Hctx. pose proof (segment_texts s Hs) as Ht. apply plain_context in Hctx.
  destruct s as [style t|style t href]; cbn [after Nat.ltb Nat.leb].
  - destruct Ht as [Hall Hne]. now apply run_code.
  - destruct Ht as ([Hall Hne] & _ & [Hall' _] & _).
    apply (pass_inside_link reCode tplCode backtick 3 4); try assumption;
      [no_match | intros; free | reflexivity | apply run_code].
Qed.

(** Each pass over a sequence of segments, from what it does to one. *)
Lemma pass_all (r : re) (tpl : list piece) (f g : Segment -> jsstring) :
  (forall t, f (SText Regular t) = t) ->
  (forall prev, matchAt r prev [] = None) ->
  (forall b rest, isPlainSegment b = false -> opensNoParen (f b ++ rest)) ->
  (forall s prev rest, segmentOk s = true ->
      (isPlainSegment s = false -> calm prev /\ opensCalm rest) ->
      (isPlainSegment s = true -> opensNoParen rest) ->
      replaceAllFrom r tpl 0 prev (f s ++ rest)
      = g s ++ replaceAllFrom r tpl 0 (lastRead (f s) prev) rest) ->
  forall segs prev,
  forallb segmentOk segs = true -> alternating segs = true ->
  match segs with s :: _ => isPlainSegment s = false -> calm prev | [] => True end ->
  replaceAllFrom r tpl 0 prev (concat (map f segs)) = concat (map g segs).
Proof.
  intros Hplain Hnil Hopen Hseg.
  induction segs as [|s segs IH]; intros prev Hok Halt Hprev.
  - cbn. now rewrite Hnil.
  - cbn [forallb] in Hok. apply andb_true_iff in Hok as [Hs Hok].
    assert (Halt' : alternating segs = true).
    { cbn [alternating] in Halt. destruct segs; [reflexivity|].
      now apply andb_true_iff in Halt as [_ Halt]. }
    cbn [map concat]. rewrite Hseg; [f_equal; apply IH; try assumption| assumption | |].
    3:{ intro Hp. destruct segs as [|b segs]; [exact I|].
        cbn [alternating] in Halt. apply andb_true_iff in Halt as [Hx _].
        rewrite Hp in Hx. cbn [xorb] in Hx. apply negb_true_iff in Hx.
        cbn [map concat]. now apply Hopen. }
    + destruct segs as [|b segs]; [exact I|]. intro Hb.
      cbn [alternating] in Halt. apply andb_true_iff in Halt as [Hx _].
      rewrite Hb in Hx. destruct s as [[| | | | | | |] t|]; try discriminate.
      rewrite Hplain. apply segment_texts in Hs as [Hall Hne].
      now apply lastRead_plain.
    + intro Hm. split; [now apply Hprev|].
      destruct segs as [|b segs]; [exact I|].
      cbn [alternating] in Halt. apply andb_true_iff in Halt as [Hx _].
      rewrite Hm in Hx. destruct b as [[| | | | | | |] t|]; try discriminate.
      cbn [map concat]. rewrite Hplain.
      cbn [forallb] in Hok. apply andb_true_iff in Hok as [Hb _].
      apply segment_texts in Hb as [Hall Hne].
      destruct t as [|c t]; [contradiction|]. cbn [app opensCalm].
      cbn [forallb] in Hall. apply andb_true_iff in Hall as [Hc _].
      now apply plain_calm.
Qed.

Lemma after_every (s : Segment) : after 4 s = markupOfSegment s.
Proof. destruct s as [style t|style t href]; destruct style; reflexivity. Qed.

Lemma after_plain (n : nat) (t : jsstring) : after n (SText Regular t) = t.
Proof. reflexivity. Qed.

(** The passes before those for underscores bring no underscore in. *)
Lemma after_underscores (s : Segment) :
  occurrences underscore (after 3 s) = occurrences underscore (written s).
Proof.
  destruct s as [style t|style t href]; destruct style;
    cbn [after written wrap Nat.ltb Nat.leb]; unfold linkOpen, linkClose; stage;
    rewrite ?occurrences_app; cbn [lit occurrences filter length app]; cbn; lia.
Qed.

Lemma text_underscores (segs : list Segment) :
  occurrences underscore (concat (map (after 3) segs))
  = occurrences underscore (textOf segs).
Proof.
  unfold textOf. induction segs as [|s segs IH]; [reflexivity|].
  cbn [map concat]. now rewrite !occurrences_app, after_underscores, IH.
Qed.

(** A segment that is not plain text does not open with a parenthesis. *)
Lemma after_opens (n : nat) (b : Segment) (rest : jsstring) :
  isPlainSegment b = false -> opensNoParen (after n b ++ rest).
Proof.
  destruct b as [style t|style t href]; cbn [after isPlainSegment];
    unfold runAfter, shell, starred, linkOpen;
    destruct style; cbn [isBold isItalic isMono]; intro H; try discriminate H;
    repeat match goal with
           | |- context [Nat.ltb ?a n] => destruct (Nat.ltb a n)
           end;
    reflexivity.
Qed.

Lemma inline_segments (segs : list Segment) :
  forallb segmentOk segs = true -> alternating segs = true ->
  (occurrences underscore (textOf segs) <= 1)%nat ->
  processInlineMarkdown (textOf segs) = markupOfText segs.
Proof.
  intros Hok Halt Hus. rewrite <- text_underscores in Hus.
  unfold processInlineMarkdown, textOf, markupOfText, replaceAll.
  assert (Hstart : match segs with
                   | s :: _ => isPlainSegment s = false -> calm None
                   | [] => True
                   end) by (destruct segs; [exact I|intros _; exact I]).
  rewrite (map_ext written (after 0))
    by (intros [style t|style t href]; destruct style; reflexivity).
  rewrite (pass_all reLink tplLink (after 0) (after 1));
    [| apply after_plain | no_match | apply after_opens | apply pass_link | assumption.. ].
  rewrite (pass_all reStrongStar tplStrong (after 1) (after 2));
    [| apply after_plain | no_match | apply after_opens
     | intros; now apply pass_strong | assumption.. ].
  rewrite (pass_all reEmStar tplEm (after 2) (after 3));
    [| apply after_plain | no_match | apply after_opens
     | intros; now apply pass_em | assumption.. ].
  rewrite (replaceAll_quiet reStrongUnderscore tplStrong underscore);
    [| intros; now apply strong_underscore_needs_two | exact Hus].
  rewrite (replaceAll_quiet reEmUnderscore tplEm underscore);
    [| intros; now apply em_underscore_needs_two | exact Hus].
  rewrite (pass_all reCode tplCode (after 3) (after 4));
    [| apply after_plain | no_match | apply after_opens
     | intros; now apply pass_code | assumption.. ].
  f_equal. apply map_ext, after_every.
Qed.

(** *** The materializer on the markup of a line *)

Lemma plain_no_lt (t : jsstring) :
  forallb plainChar t = true -> forallb (fun c => negb (c =? lessThan)) t = true.
Proof.
  intro H. apply forallb_forall. intros c Hc. rewrite forallb_forall in H.
  destruct (plain_not_special c (H c Hc)) as (_ & _ & Hlt). now rewrite Hlt.
Qed.

(** No emphasis is open: an end tag of emphasis closes nothing. *)
Definition noEmOpen (stack : list Frame) : Prop :=
  forall kids, closeTo (lit "em") stack kids = None.

Lemma noEmOpen_push (tag : jsstring) (a : list (jsstring * jsstring)) (kids : list Dom)
  (stack : list Frame) :
  JS.eqb tag (lit "em") = false -> noEmOpen stack -> noEmOpen (mkFrame tag a kids :: stack).
Proof. intros Ht H kids'. cbn [closeTo ftag]. rewrite Ht. apply H. Qed.

Lemma read_run (style : Style) (t rest : jsstring) (stack : list Frame) (kids : list Dom) :
  forallb plainChar t = true -> t <> [] -> noEmOpen stack ->
  (style = Regular -> endsInText kids = false) ->
  build (lex Data (tagged style t ++ rest)) stack kids
  = build (lex Data rest) stack (domOfRun style t :: kids).
Proof.
  intros Hall Hne Hem Hk.
  assert (Hcode : noEmOpen (mkFrame (lit "code") [] kids :: stack))
    by now apply noEmOpen_push.
  destruct style; cbn [tagged domOfRun].
  1:{ rewrite (lex_text t _ (plain_no_lt t Hall)).
      destruct t as [|c t]; [contradiction|]. now apply build_new_text, Hk. }
  all: rewrite <- !app_assoc; simpl;
    rewrite (lex_text t _ (plain_no_lt t Hall));
    (destruct t as [|c t]; [contradiction|]); rewrite build_text; simpl;
    rewrite ?Hem, ?Hcode; reflexivity.
Qed.

Lemma read_segment (s : Segment) (rest : jsstring) (stack : list Frame) (kids : list Dom) :
  segmentOk s = true -> noEmOpen stack ->
  (isPlainSegment s = true -> endsInText kids = false) ->
  build (lex Data (markupOfSegment s ++ rest)) stack kids
  = build (lex Data rest) stack (domOfSegment s :: kids).
Proof.
  intros Hs Hem Hk. pose proof (segment_texts s Hs) as Ht.
  destruct s as [style t|style t href]; cbn [markupOfSegment domOfSegment].
  - destruct Ht as [Hall Hne]. apply read_run; try assumption.
    intros ->. now apply Hk.
  - destruct Ht as ([Hall Hne] & Hb & [Hall' Hne'] & Hp & Hq).
    unfold linkOpen, linkClose. rewrite <- !app_assoc. cbn [app lit].
    change (href ++ [dquote] ++ lit ">" ++ tagged style t ++ lit "</a>" ++ rest)
      with (href ++ dquote :: lit ">" ++ tagged style t ++ lit "</a>" ++ rest).
    simpl lex. rewrite (lex_quoted _ _ _ href _ dquote Hq).
    simpl. rewrite (read_run style t _ _ [] Hall Hne); [reflexivity| |reflexivity].
    now apply noEmOpen_push.
Qed.

Lemma alternating_tail (s : Segment) (segs : list Segment) :
  alternating (s :: segs) = true -> alternating segs = true.
Proof.
  cbn [alternating]. destruct segs; [reflexivity|].
  intro H. now apply andb_true_iff in H as [_ H].
Qed.

Lemma read_segments (segs : list Segment) (rest : jsstring) (stack : list Frame) :
  noEmOpen stack ->
  forall kids,
  forallb segmentOk segs = true -> alternating segs = true ->
  match segs with s :: _ => isPlainSegment s = true -> endsInText kids = false | [] => True end ->
  build (lex Data (markupOfText segs ++ rest)) stack kids
  = build (lex Data rest) stack (rev (domsOf segs) ++ kids).
Proof.
  intro Hem. induction segs as [|s segs IH]; intros kids Hok Halt Hk; [reflexivity|].
  cbn [forallb] in Hok. apply andb_true_iff in Hok as [Hs Hok].
  unfold markupOfText, domsOf in *. cbn [map concat rev]. rewrite <- !app_assoc.
  rewrite (read_segment s _ stack kids Hs Hem Hk).
  rewrite IH; [reflexivity|assumption|now apply alternating_tail in Halt|].
  destruct segs as [|b segs]; [exact I|]. intro Hb.
  cbn [alternating] in Halt. apply andb_true_iff in Halt as [Hx _].
  rewrite Hb in Hx.
  destruct s as [[| | | | | | |] t|[| | | | | | |] t href]; try discriminate; reflexivity.
Qed.

(** The markup of a text read as the content of an element just opened. *)
Lemma read_text (segs : list Segment) (rest : jsstring) (stack : list Frame) :
  richText segs = true -> noEmOpen stack ->
  build (lex Data (markupOfText segs ++ rest)) stack []
  = build (lex Data rest) stack (rev (domsOf segs)).
Proof.
  intros H Hem. destruct (rich_facts segs H) as (Hok & Halt & _).
  rewrite (read_segments segs rest stack Hem [] Hok Halt); [now rewrite app_nil_r|].
  now destruct segs.
Qed.

Lemma code_no_lt (body : list jsstring) :
  forallb codeLine body = true ->
  forallb (fun c => negb (c =? lessThan)) (join [nl] body) = true.
Proof.
  intro H. apply forallb_join; [reflexivity|].
  apply forallb_forall. intros b Hb. rewrite forallb_forall in H. specialize (H b Hb).
  unfold codeLine in H. apply andb_true_iff in H as [H _].
  apply forallb_forall. intros c Hc. rewrite forallb_forall in H. specialize (H c Hc).
  unfold codeChar in H. rewrite !andb_true_iff, negb_true_iff, orb_false_iff in H.
  apply negb_true_iff. tauto.
Qed.

Lemma read_code (lang : jsstring) (body : list jsstring) (rest : jsstring) (kids : list Dom) :
  wellFormed (LCode lang body) = true ->
  build (lex Data (preMarkup lang body ++ rest)) [] kids
  = build (lex Data rest) [] (domOf (LCode lang body) :: kids).
Proof.
  cbn [wellFormed]. rewrite !andb_true_iff. intros [[Hlang _] Hbody].
  destruct (lang_facts lang Hlang) as (_ & Hq & _).
  pose proof (code_no_lt body Hbody) as Hlt.
  unfold preMarkup. cbn [domOf]. set (text := join [nl] body) in *.
  destruct lang as [|x lang'] eqn:E.
  - cbn [truthy]. rewrite <- ?app_assoc. simpl.
    rewrite (lex_text text _ Hlt).
    destruct text as [|c r]; [reflexivity|].
    rewrite build_text. reflexivity.
  - cbn [truthy]. rewrite <- E in *. clear E.
    rewrite <- ?app_assoc. cbn [app lit].
    change (lang ++ [dquote] ++ lit "><code>" ++ text ++ lit "</code></pre>" ++ rest)
      with (lang ++ dquote :: lit "><code>" ++ text ++ lit "</code></pre>" ++ rest).
    simpl lex. rewrite (lex_quoted _ _ _ lang _ dquote Hq).
    simpl. rewrite (lex_text text _ Hlt).
    destruct text as [|c r]; [reflexivity|].
    rewrite build_text. reflexivity.
Qed.

(** Reads the markup of one line: the open tags by computation, the text by
    [read_text], the close tags by computation. *)
Ltac read_markup H :=
  let Hok := fresh "Hok" in
  let Halt := fresh "Halt" in
  destruct (rich_facts _ H) as (Hok & Halt & _);
  unfold markupOf, lineMarkup, classOf;
  rewrite (inline_segments _ Hok Halt (rich_underscores _ H));
  rewrite <- ?app_assoc; simpl;
  rewrite (read_text _ _ _ H) by (intro; reflexivity); simpl;
  rewrite ?rev_involutive; reflexivity.

Lemma read_line (l : Line) (rest : jsstring) (kids : list Dom) :
  wellFormed l = true ->
  build (lex Data (markupOf l ++ rest)) [] kids
  = build (lex Data rest) [] (domOf l :: kids).
Proof.
  destruct l as [|n t|t|t|t|t|t| |t|lang body];
    try (apply read_code);
    cbn [wellFormed]; rewrite ?andb_true_iff.
  - reflexivity.
  - intros [[H1 H2] F]. apply Nat.leb_le in H1, H2.
    destruct n as [|[|[|[|[|[|[|n]]]]]]]; try lia; read_markup F.
  - intro F. read_markup F.
  - intro F. read_markup F.
  - intro F. read_markup F.
  - intros [F _]. read_markup F.
  - intro F. read_markup F.
  - reflexivity.
  - intros [F _]. read_markup F.
Qed.

Lemma sanitize_segments (segs : list Segment) :
  sanitizeAll sanitizeConfig (domsOf segs) = domsOf segs.
Proof.
  induction segs as [|s segs IH]; [reflexivity|].
  unfold sanitizeAll, domsOf in *. cbn [map flat_map]. rewrite IH.
  destruct s as [[| | | | | | |] t|[| | | | | | |] t href]; reflexivity.
Qed.

Ltac walk :=
  repeat (rewrite sanitizeDom_elem || rewrite sanitizeAll_one || rewrite sanitize_segments);
  reflexivity.

Lemma sanitize_line (l : Line) :
  wellFormed l = true -> sanitizeDom sanitizeConfig (domOf l) = [domOf l].
Proof.
  intro H.
  destruct l as [|n t|t|t|t|t|t| |t|lang body]; cbn [domOf]; try reflexivity; try walk.
  - cbn [wellFormed] in H. rewrite !andb_true_iff in H. destruct H as [[H1 H2] _].
    apply Nat.leb_le in H1, H2.
    destruct n as [|[|[|[|[|[|[|n]]]]]]]; try lia; walk.
  - destruct lang; destruct (join [nl] body); reflexivity.
Qed.

Lemma inline_segment (s : Segment) :
  segmentOk s = true ->
  inlineOf [] (domOfSegment s) = [nodeOfSegment s] /\ isBlockDom (domOfSegment s) = false.
Proof.
  intro Hs. pose proof (segment_texts s Hs) as Ht.
  assert (Hne : match s with SText _ t | SLink _ t _ => t <> [] end)
    by (destruct s; tauto).
  destruct s as [style t|style t href]; destruct style;
    (destruct t as [|c t]; [contradiction|]);
    split; reflexivity.
Qed.

Lemma inline_nodes (segs : list Segment) (pending : list Node) :
  forallb segmentOk segs = true ->
  flat_map (inlineOf []) (domsOf segs) = nodesOf segs
  /\ blocksOf (domsOf segs) pending = flush (pending ++ nodesOf segs).
Proof.
  revert pending; induction segs as [|s segs IH]; intros pending Hok.
  - split; [reflexivity|]. cbn. now rewrite app_nil_r.
  - cbn [forallb] in Hok. apply andb_true_iff in Hok as [Hs Hok].
    destruct (inline_segment s Hs) as [Hi Hb].
    unfold domsOf, nodesOf in *. cbn [map flat_map blocksOf]. rewrite Hi, Hb.
    destruct (IH (pending ++ [nodeOfSegment s]) Hok) as [H1 H2].
    rewrite H1, H2. split; [reflexivity|]. now rewrite <- app_assoc.
Qed.

Lemma joinText_segments (segs : list Segment) :
  alternating segs = true -> joinText (nodesOf segs) = nodesOf segs.
Proof.
  induction segs as [|s segs IH]; intro Halt; [reflexivity|].
  pose proof (alternating_tail _ _ Halt) as Halt'.
  unfold nodesOf in *. cbn [map joinText]. rewrite (IH Halt').
  destruct segs as [|b segs]; [now destruct s|].
  cbn [alternating] in Halt. apply andb_true_iff in Halt as [Hx _].
  destruct s as [style t|style t href], b as [style' t'|style' t' href'];
    destruct style, style';
    try discriminate; reflexivity.
Qed.

(** *** White space in the text of a line

    The text of a line in normal form holds no white space that the
    materializer would change: single blanks only, none at the start or at
    the end of the block, and none on both sides of the border of two
    runs. *)

Lemma plain_blank (c : codeunit) : plainChar c = true -> isBlankSpace c = (c =? blank).
Proof.
  intro H. apply plain_bounds in H. unfold isBlankSpace, blank.
  repeat match goal with
         | |- context [?a =? ?b] => destruct (N.eqb_spec a b); try lia
         end.
  all: reflexivity.
Qed.

Lemma collapse_plain (t : jsstring) :
  forallb plainChar t = true -> noDoubleBlank t = true ->
  forall inRun, (inRun = true -> opensBlank t = false) -> collapse inRun t = t.
Proof.
  induction t as [|c t IH]; intros Hall Hdb inRun Hrun; [reflexivity|].
  cbn [forallb] in Hall. apply andb_true_iff in Hall as [Hc Hall].
  assert (Hdb' : noDoubleBlank t = true /\ ((c =? blank) = true -> opensBlank t = false)).
  { cbn [noDoubleBlank] in Hdb. destruct t as [|d t]; [split; [reflexivity|reflexivity]|].
    apply andb_true_iff in Hdb as [H1 H2]. split; [exact H2|].
    intro E. rewrite E in H1. cbn [andb negb opensBlank] in *.
    now apply negb_true_iff in H1. }
  destruct Hdb' as [Hdb' Hnext].
  cbn [collapse]. rewrite (plain_blank c Hc).
  destruct (c =? blank) eqn:E.
  - destruct inRun; [specialize (Hrun eq_refl); cbn [opensBlank] in Hrun; congruence|].
    apply N.eqb_eq in E. subst c. f_equal. apply IH; auto.
  - f_equal. apply IH; auto.
Qed.

Lemma segment_spacing (s : Segment) :
  segmentOk s = true ->
  forallb plainChar (runText s) = true /\ noDoubleBlank (runText s) = true
  /\ runText s <> []
  /\ (isPlainSegment s = false ->
      opensBlank (runText s) = false /\ endsBlank (runText s) = false).
Proof.
  assert (Hplain : forall t, plainText t = true ->
            forallb plainChar t = true /\ noDoubleBlank t = true /\ t <> []
            /\ opensBlank t = false /\ endsBlank t = false).
  { intros t H. unfold plainText in H. rewrite !andb_true_iff, !negb_true_iff in H.
    destruct H as [[[H1 H2] H3] H4]. repeat split; auto.
    - intros ->. discriminate.
    - destruct t; [discriminate|]. cbn [opensBlank]. now apply negb_true_iff. }
  destruct s as [style t|style t href]; cbn [segmentOk runText isPlainSegment].
  - destruct style;
      try (rewrite andb_true_iff; intros [H _];
           destruct (Hplain t H) as (? & ? & ? & ? & ?); repeat split; now auto).
    rewrite !andb_true_iff. intros [[[H1 H2] H3] _]. repeat split; auto; try discriminate.
    intros ->. discriminate.
  - rewrite !andb_true_iff. intros [[H _] _].
    destruct (Hplain t H) as (? & ? & ? & ? & ?). repeat split; auto.
Qed.

Lemma node_of_segment (s : Segment) :
  exists ms, nodeOfSegment s = Text (runText s) ms.
Proof. destruct s; eexists; reflexivity. Qed.

Lemma dropsLeadingBlank_snoc (content : list Node) (t : jsstring) (ms : list Mark) :
  dropsLeadingBlank (content ++ [Text t ms]) = isBlankSpace (last t 0).
Proof. unfold dropsLeadingBlank. now rewrite rev_app_distr. Qed.

Lemma last_plain (t : jsstring) :
  forallb plainChar t = true -> t <> [] -> isBlankSpace (last t 0) = endsBlank t.
Proof.
  intros H Hne. unfold endsBlank. apply plain_blank.
  rewrite forallb_forall in H. apply H. now apply last_in.
Qed.

(** A node added to the content of a block as it stands. *)
Lemma addInline_segment (inline : bool) (content : list Node) (s : Segment) :
  segmentOk s = true ->
  (opensBlank (runText s) = true -> dropsLeadingBlank content = false) ->
  addInline inline content (nodeOfSegment s) = content ++ [nodeOfSegment s].
Proof.
  intros Hs Hlead. destruct (segment_spacing s Hs) as (Hall & Hdb & Hne & _).
  destruct (node_of_segment s) as [ms ->]. remember (runText s) as t eqn:Et. clear Et.
  assert (Hc : collapse false t = t) by (apply collapse_plain; auto; discriminate).
  cbn [addInline]. rewrite Hc.
  destruct t as [|c r]; [contradiction|].
  assert (Hfirst : isBlankSpace c = (c =? blank)).
  { apply plain_blank. cbn [forallb] in Hall. now apply andb_true_iff in Hall as [Hall _]. }
  cbn [opensBlank] in Hlead.
  assert (Hskip : negb (inline || negb (Nat.eqb (length content) 0))
                  && forallb isBlankSpace (c :: r) = false).
  { destruct content as [|n content]; [|now rewrite orb_true_r].
    cbn [forallb]. rewrite Hfirst.
    destruct (c =? blank) eqn:Eo; [now specialize (Hlead eq_refl)|].
    now rewrite andb_false_r. }
  rewrite Hskip, Hfirst.
  destruct (c =? blank) eqn:Eo; [rewrite (Hlead eq_refl)|]; reflexivity.
Qed.

Lemma fold_segments (inline : bool) (segs : list Segment) :
  forall content,
  forallb segmentOk segs = true -> alternating segs = true ->
  match segs with
  | s :: _ => opensBlank (runText s) = true -> dropsLeadingBlank content = false
  | [] => True
  end ->
  fold_left (addInline inline) (nodesOf segs) content = content ++ nodesOf segs.
Proof.
  induction segs as [|s segs IH]; intros content Hok Halt Hlead.
  - cbn. now rewrite app_nil_r.
  - cbn [forallb] in Hok. apply andb_true_iff in Hok as [Hs Hok].
    unfold nodesOf in *. cbn [map fold_left].
    rewrite (addInline_segment inline content s Hs Hlead).
    rewrite IH; [now rewrite <- app_assoc|assumption|now apply alternating_tail in Halt|].
    destruct segs as [|b segs]; [exact I|]. intro Hb.
    destruct (node_of_segment s) as [ms ->]. rewrite dropsLeadingBlank_snoc.
    destruct (segment_spacing s Hs) as (Hall & _ & Hne & Hmarked).
    rewrite (last_plain _ Hall Hne).
    cbn [alternating] in Halt. apply andb_true_iff in Halt as [Hx _].
    destruct (isPlainSegment s) eqn:Ep; [|now apply Hmarked].
    cbn [xorb] in Hx. apply negb_true_iff in Hx.
    cbn [forallb] in Hok. apply andb_true_iff in Hok as [Hb' _].
    destruct (segment_spacing b Hb') as (_ & _ & _ & Hmarked').
    destruct (Hmarked' Hx) as [Ho _]. congruence.
Qed.

Lemma last_concat (parts : list jsstring) (t : jsstring) :
  t <> [] -> last (concat (parts ++ [t])) 0 = last t 0.
Proof.
  intro Hne. rewrite concat_app. cbn [concat]. rewrite app_nil_r.
  now apply last_app_nonempty.
Qed.

(** The first and the last character of a text are those of its first and
    last node. *)
Lemma text_ends (segs : list Segment) :
  richText segs = true ->
  match segs with s :: _ => opensBlank (runText s) = false | [] => True end
  /\ endsBlank (runText (last segs (SText Regular []))) = false.
Proof.
  intro H. pose proof H as H'. unfold richText in H'.
  rewrite !andb_true_iff, !negb_true_iff in H'.
  destruct H' as [[[[[Hok _] Hfirst] Hlast] _] _].
  split.
  - destruct segs as [|s segs]; [exact I|].
    cbn [forallb] in Hok. apply andb_true_iff in Hok as [Hs _].
    destruct (segment_spacing s Hs) as (_ & _ & Hne & Hmarked).
    destruct (isPlainSegment s) eqn:Ep; [|now apply Hmarked].
    destruct s as [[| | | | | | |] t|]; try discriminate. cbn [runText] in *.
    unfold textOf in Hfirst. cbn [map concat written wrap] in Hfirst.
    destruct t as [|c t]; [contradiction|]. cbn [app] in Hfirst.
    apply negb_true_iff in Hfirst. exact Hfirst.
  - pose proof (rich_nonempty segs H) as Hne.
    destruct (exists_last Hne) as (front & s & ->). rewrite last_last.
    rewrite forallb_app in Hok. apply andb_true_iff in Hok as [_ Hs].
    cbn [forallb] in Hs. apply andb_true_iff in Hs as [Hs _].
    destruct (segment_spacing s Hs) as (_ & _ & Hnes & Hmarked).
    destruct (isPlainSegment s) eqn:Ep; [|now apply Hmarked].
    destruct s as [[| | | | | | |] t|]; try discriminate. cbn [runText] in *.
    unfold textOf in Hlast. rewrite map_app in Hlast. cbn [map written wrap] in Hlast.
    rewrite (last_concat _ t Hnes) in Hlast. exact Hlast.
Qed.

Lemma stripTrailing_segments (segs : list Segment) :
  richText segs = true -> stripTrailing (nodesOf segs) = nodesOf segs.
Proof.
  intro H. destruct (text_ends segs H) as [_ Hend].
  destruct (rich_facts segs H) as (Hok & _ & _).
  pose proof (rich_nonempty segs H) as Hne.
  destruct (exists_last Hne) as (front & s & ->). rewrite last_last in Hend.
  rewrite forallb_app in Hok. apply andb_true_iff in Hok as [_ Hs].
  cbn [forallb] in Hs. apply andb_true_iff in Hs as [Hs _].
  destruct (segment_spacing s Hs) as (Hall & _ & Hnes & _).
  unfold nodesOf, stripTrailing. rewrite map_app, rev_app_distr. cbn [map rev app].
  destruct (node_of_segment s) as [ms ->].
  assert (Hkeep : dropWhile isBlankSpace (rev (runText s)) = rev (runText s)).
  { rewrite (rev_last _ 0 Hnes). cbn [dropWhile].
    now rewrite (last_plain _ Hall Hnes), Hend. }
  rewrite Hkeep, rev_involutive.
  destruct (runText s) eqn:E; [contradiction|].
  cbn [rev]. now rewrite rev_involutive.
Qed.

Lemma textblock_segments (inline : bool) (segs : list Segment) :
  richText segs = true -> textblock inline (nodesOf segs) = nodesOf segs.
Proof.
  intro H. destruct (rich_facts segs H) as (Hok & Halt & _).
  destruct (text_ends segs H) as [Hstart _].
  unfold textblock. rewrite (fold_segments inline segs [] Hok Halt).
  - cbn [app]. now rewrite (stripTrailing_segments segs H), (joinText_segments segs Halt).
  - destruct segs; [exact I|]. intro Hb. congruence.
Qed.

(** The nodes of a text, as the content of a heading or a paragraph and as
    the content of an item or a quotation. *)
Lemma text_nodes (segs : list Segment) :
  richText segs = true ->
  inlines (domsOf segs) = nodesOf segs /\ blocksOf (domsOf segs) [] = [textPara segs].
Proof.
  intro H. destruct (rich_facts segs H) as (Hok & Halt & _).
  destruct (inline_nodes segs [] Hok) as [H1 H2].
  unfold inlines. rewrite H1, H2, (textblock_segments true segs H).
  split; [reflexivity|]. cbn [app]. unfold flush, textPara.
  rewrite (textblock_segments false segs H).
  pose proof (rich_nonempty segs H) as Hne. now destruct segs.
Qed.

Ltac to_blocks H :=
  let Hi := fresh "Hi" in
  let Hb := fresh "Hb" in
  destruct (text_nodes _ H) as [Hi Hb];
  split; [reflexivity|];
  cbn [domOf nodeOf]; rewrite blockOf_elem;
  rewrite ?itemsOf_one, ?Hi, ?Hb; reflexivity.

Lemma block_line (l : Line) :
  wellFormed l = true -> isBlockDom (domOf l) = true /\ blockOf (domOf l) = [nodeOf l].
Proof.
  destruct l as [|n t|t|t|t|t|t| |t|lang body]; cbn [wellFormed]; rewrite ?andb_true_iff.
  - split; reflexivity.
  - intros [[H1 H2] F]. apply Nat.leb_le in H1, H2.
    destruct n as [|[|[|[|[|[|[|n]]]]]]]; try lia; to_blocks F.
  - intro F. to_blocks F.
  - intro F. to_blocks F.
  - intro F. to_blocks F.
  - intros [F _]. to_blocks F.
  - intro F. to_blocks F.
  - split; reflexivity.
  - intros [F _]. to_blocks F.
  - intros _. cbn [domOf nodeOf].
    destruct lang; destruct (join [nl] body); split; try reflexivity;
      simpl; rewrite ?app_nil_r; reflexivity.
Qed.

(** *** The serializer on the node of a line *)

Lemma nodeToText_segments (type : NodeType) (a : Attrs) (segs : list Segment) :
  nodeToText (Block type a (nodesOf segs)) = textOf segs.
Proof.
  rewrite nodeToText_fold. unfold nodesOf, textOf. rewrite map_map. f_equal.
  apply map_ext. intros [[| | | | | | |] t|[| | | | | | |] t href]; cbn;
    rewrite ?app_nil_r, <- ?app_assoc; reflexivity.
Qed.

Lemma item_text (segs : list Segment) :
  Loops.listItemText [textPara segs] = textOf segs
  /\ taskItemText [textPara segs] = textOf segs.
Proof.
  unfold Loops.listItemText, taskItemText, textPara. cbn [fold_left Loops.childText app].
  now rewrite nodeToText_segments.
Qed.


Lemma truthy_text (t : jsstring) : TextFacts t -> truthy t = true.
Proof. intros [Hne _ _]. destruct t; [contradiction|reflexivity]. Qed.




(** *** The whole round trip *)

Lemma printable_no_newline (t : jsstring) : forallb printable t = true -> noNewline t = true.
Proof.
  intro H. apply forallb_forall. intros c Hc. rewrite forallb_forall in H.
  pose proof (printable_bounds c (H c Hc)) as Hb. apply negb_true_iff, N.eqb_neq.
  unfold nl. lia.
Qed.

Lemma code_no_newline (t : jsstring) : forallb codeChar t = true -> noNewline t = true.
Proof.
  intro H. apply printable_no_newline. apply forallb_forall. intros c Hc.
  rewrite forallb_forall in H. specialize (H c Hc). unfold codeChar in H.
  now apply andb_true_iff in H as [H _].
Qed.

Lemma noNewline_app (a b : jsstring) :
  noNewline a = true -> noNewline b = true -> noNewline (a ++ b) = true.
Proof. intros Ha Hb. unfold noNewline. rewrite forallb_app. now apply andb_true_iff. Qed.

Lemma lines_no_newline (l : Line) :
  wellFormed l = true -> forallb noNewline (linesOf l) = true.
Proof.
  assert (Htext : forall pre t, noNewline pre = true -> richText t = true ->
                                forallb noNewline [pre ++ textOf t] = true).
  { intros pre t Hpre F. destruct (rich_facts t F) as (Hok & _).
    cbn [forallb]. rewrite noNewline_app; auto using printable_no_newline, text_printable. }
  destruct l as [|n t|t|t|t|t|t| |t|lang body]; cbn [wellFormed linesOf];
    rewrite ?andb_true_iff; try (intro F; now apply Htext); try reflexivity.
  - intros [_ F]. rewrite app_assoc. apply Htext; [|assumption].
    apply noNewline_app; [|reflexivity].
    clear. induction n as [|n IH]; [reflexivity|]. cbn [JS.repeat]. now apply noNewline_app.
  - intros [F _]. now apply (Htext []).
  - intros [[Hlang _] Hbody]. cbn [forallb]. apply andb_true_iff. split.
    + apply noNewline_app; [reflexivity|].
      apply printable_no_newline, plain_all_printable. now destruct (lang_facts lang Hlang).
    + rewrite forallb_app. cbn [forallb]. rewrite andb_true_r.
      apply forallb_forall. intros b Hb. rewrite forallb_forall in Hbody.
      specialize (Hbody b Hb). unfold codeLine in Hbody.
      apply andb_true_iff in Hbody as [Hbody _]. now apply code_no_newline.
Qed.

Lemma linesOf_nonempty (l : Line) : linesOf l <> [].
Proof. destruct l; discriminate. Qed.

Lemma parseLines_block (l : Line) (rest : list jsstring) (html : jsstring) :
  wellFormed l = true ->
  parseLines (linesOf l ++ rest) html = parseLines rest (html ++ markupOf l).
Proof.
  intro H. pose proof (classify_first l H) as Hc.
  destruct l as [|n t|t|t|t|t|t| |t|lang body];
    try (cbn [linesOf app hd] in *; rewrite ParserFacts.parseLines_line;
         [now rewrite Hc | intros lang E; rewrite Hc in E; discriminate]).
  cbn [linesOf hd classOf] in Hc. cbn [linesOf markupOf app].
  rewrite <- app_assoc. cbn [app].
  cbn [wellFormed] in H. rewrite !andb_true_iff in H. destruct H as [_ Hbody].
  rewrite (ParserFacts.parseLines_fence _ _ _ _ Hc).
  apply ParserFacts.codeBlock_closed; [|reflexivity].
  apply Forall_forall. intros b Hb. rewrite forallb_forall in Hbody.
  specialize (Hbody b Hb). unfold codeLine in Hbody.
  apply andb_true_iff in Hbody as [_ Hbody]. now apply negb_true_iff.
Qed.

Lemma parseLines_normal (ls : list Line) (html : jsstring) :
  forallb wellFormed ls = true ->
  parseLines (flat_map linesOf ls) html = html ++ concat (map markupOf ls).
Proof.
  revert html; induction ls as [|l ls IH]; intros html H.
  - cbn. now rewrite app_nil_r.
  - cbn [forallb] in H. apply andb_true_iff in H as [Hl H].
    cbn [flat_map map concat]. rewrite (parseLines_block l _ _ Hl), (IH _ H).
    now rewrite <- app_assoc.
Qed.

Lemma parseMarkup_normal (ls : list Line) (kids : list Dom) :
  forallb wellFormed ls = true ->
  build (lex Data (concat (map markupOf ls))) [] kids = rev kids ++ map domOf ls.
Proof.
  revert kids; induction ls as [|l ls IH]; intros kids H.
  - cbn. now rewrite app_nil_r.
  - cbn [forallb] in H. apply andb_true_iff in H as [Hl H].
    cbn [map concat]. rewrite (read_line l _ kids Hl), (IH _ H).
    cbn [rev]. now rewrite <- app_assoc.
Qed.

Lemma sanitize_normal (ls : list Line) :
  forallb wellFormed ls = true ->
  sanitizeAll sanitizeConfig (map domOf ls) = map domOf ls.
Proof.
  induction ls as [|l ls IH]; intro H; [reflexivity|].
  cbn [forallb] in H. apply andb_true_iff in H as [Hl H].
  unfold sanitizeAll in *. cbn [map flat_map]. now rewrite (sanitize_line l Hl), (IH H).
Qed.

Lemma blocksOf_normal (ls : list Line) :
  forallb wellFormed ls = true -> blocksOf (map domOf ls) [] = map nodeOf ls.
Proof.
  induction ls as [|l ls IH]; intro H; [reflexivity|].
  cbn [forallb] in H. apply andb_true_iff in H as [Hl H].
  destruct (block_line l Hl) as [Hb Hn].
  cbn [map blocksOf]. now rewrite Hb, Hn, (IH H).
Qed.



(** The tree the parser makes of a text in normal form. *)
Lemma parse_tree (ls : list Line) :
  forallb wellFormed ls = true -> truthy (markdownOf ls) = true ->
  Engine.parse (markdownOf ls) = Block doc defaultAttrs (map nodeOf ls).
Proof.
  intros H Ht. unfold Engine.parse, Engine.parseCompletion, parseMarkdown, parseBody,
    tryCatch, bind, Materializer.sanitize, Materializer.materialize.
  rewrite Ht. cbn [negb].
  assert (Hne : ls <> []) by (intros ->; discriminate).
  unfold buildMarkup, markdownOf, parseMarkup.
  rewrite split_join.
  - rewrite (parseLines_normal ls [] H). cbn [app].
    rewrite (parseMarkup_normal ls [] H). cbn [rev app].
    rewrite (sanitize_normal ls H). unfold toDocument.
    rewrite (blocksOf_normal ls H).
    destruct ls; [contradiction|reflexivity].
  - destruct ls as [|l ls]; [contradiction|]. cbn [flat_map].
    pose proof (linesOf_nonempty l). destruct (linesOf l); [contradiction|discriminate].
  - rewrite forallb_forall. intros x Hx. apply in_flat_map in Hx as (l & Hl & Hx).
    rewrite forallb_forall in H. pose proof (lines_no_newline l (H l Hl)) as Hn.
    rewrite forallb_forall in Hn. now apply Hn.
Qed.


(** *** The claim on the round trip *)




End RoundTrip.

(* ================================================================= *)
(** ** What a match has read *)

Module RegexSound.

Import Bounds JSFacts RegexFacts.

(** What a repetition that succeeds has read. *)
Lemma rep_sound (q : quant) (lo : nat) (hi : option nat) (p : codeunit -> bool)
  (cs : captures) (k : cont) (out : outcome) :
  forall (s : jsstring) (n : nat) (prev : option codeunit),
  within hi n ->
  rep q lo hi p cs k n prev s = Some out ->
  exists ps rest,
    s = ps ++ rest /\ forallb p ps = true /\ (lo <= n + length ps)%nat
    /\ within hi (n + length ps)
    /\ k (lastRead ps prev) rest cs = Some out.
Proof.
  assert (Hstop : forall s n prev,
            within hi n ->
            (if Nat.leb lo n then k prev s cs else None) = Some out ->
            exists ps rest,
              s = ps ++ rest /\ forallb p ps = true /\ (lo <= n + length ps)%nat
              /\ within hi (n + length ps)
              /\ k (lastRead ps prev) rest cs = Some out).
  { intros s n prev Hn H. destruct (Nat.leb lo n) eqn:E; [|discriminate].
    apply Nat.leb_le in E. exists [], s. cbn [app forallb length lastRead].
    rewrite Nat.add_0_r. repeat split; assumption. }
  induction s as [|c s IH]; intros n prev Hn H.
  - apply Hstop; [assumption|]. cbn [rep] in H. destruct q; cbn [orElse] in H.
    + exact H.
    + destruct (if Nat.leb lo n then k prev [] cs else None); [exact H|discriminate].
  - cbn [rep] in H.
    assert (Hmore : (if p c && below hi n then rep q lo hi p cs k (S n) (Some c) s else None)
                    = Some out ->
                    exists ps rest,
                      c :: s = ps ++ rest /\ forallb p ps = true
                      /\ (lo <= n + length ps)%nat
                      /\ within hi (n + length ps)
                      /\ k (lastRead ps prev) rest cs = Some out).
    { intro Hm. destruct (p c && below hi n) eqn:E; [|discriminate].
      apply andb_true_iff in E as [Hc Hb].
      assert (Hn' : within hi (S n)).
      { destruct hi as [h|]; [|exact I]. cbn in *. apply Nat.ltb_lt in Hb. lia. }
      destruct (IH _ _ Hn' Hm) as (ps & rest & -> & Hall & Hlo & Hhi & Hk).
      exists (c :: ps), rest. cbn [app forallb length]. rewrite Hc, lastRead_cons.
      replace (n + S (length ps))%nat with (S n + length ps)%nat by lia.
      repeat split; try assumption. }
    destruct q; unfold orElse in H.
    + destruct (if p c && below hi n then _ else None) eqn:E.
      * apply Hmore. congruence.
      * now apply Hstop.
    + destruct (if Nat.leb lo n then _ else None) eqn:E.
      * apply Hstop; [assumption|]. congruence.
      * now apply Hmore.
Qed.

(** A successful run hands a suffix of its input to its continuation, with
    the code unit before it. *)
Lemma run_sound (r : re) :
  forall prev s cs k out,
  run r prev s cs k = Some out ->
  exists pre s' cs', s = pre ++ s' /\ k (lastRead pre prev) s' cs' = Some out.
Proof.
  induction r as [|p|a IHa b IHb|a IHa b IHb|q lo hi p|i a IHa| | |p|p];
    intros prev s cs k out H; cbn [run] in H.
  - now exists [], s, cs.
  - destruct s as [|c s]; [discriminate|]. destruct (p c); [|discriminate].
    now exists [c], s, cs.
  - destruct (IHa _ _ _ _ _ H) as (pre1 & s1 & cs1 & -> & H1).
    destruct (IHb _ _ _ _ _ H1) as (pre2 & s2 & cs2 & -> & H2).
    exists (pre1 ++ pre2), s2, cs2. now rewrite app_assoc, lastRead_app.
  - unfold orElse in H. destruct (run a prev s cs k) eqn:E.
    + rewrite H in E. now apply (IHa _ _ _ _ _ E).
    + now apply (IHb _ _ _ _ _ H).
  - assert (Hn : within hi 0) by (destruct hi; cbn; [lia|exact I]).
    destruct (rep_sound _ _ _ _ _ _ _ _ _ _ Hn H) as (ps & rest & -> & _ & _ & _ & Hk).
    now exists ps, rest, cs.
  - destruct (IHa _ _ _ _ _ H) as (pre1 & s1 & cs1 & -> & H1).
    now exists pre1, s1, ((i, consumed (pre1 ++ s1) s1) :: cs1).
  - destruct prev; [discriminate|]. now exists [], s, cs.
  - destruct s; [|discriminate]. now exists [], [], cs.
  - exists [], s, cs. split; [reflexivity|].
    destruct prev as [c|]; [destruct (p c); [discriminate|]|]; exact H.
  - exists [], s, cs. split; [reflexivity|].
    destruct s as [|c s]; [|destruct (p c); [discriminate|]]; exact H.
Qed.

(** Where [search] finds a match, the pattern matches at that place. *)
Lemma search_sound (r : re) :
  forall s prev idx f,
  search r prev s idx = Some f ->
  exists pre u rest,
    s = pre ++ u /\ matchAt r (lastRead pre prev) u = Some (rest, groups f)
    /\ index f = (idx + length pre)%nat /\ matched f = consumed u rest.
Proof.
  induction s as [|c s IH]; intros prev idx f H; cbn [search] in H.
  - destruct (matchAt r prev []) as [[rest cs]|] eqn:E; [|discriminate].
    injection H as <-. exists [], [], rest. cbn. repeat split; auto.
  - destruct (matchAt r prev (c :: s)) as [[rest cs]|] eqn:E.
    + injection H as <-. exists [], (c :: s), rest. cbn. repeat split; auto.
    + destruct (IH _ _ _ H) as (pre & u & rest & -> & Hm & Hi & Hc).
      exists (c :: pre), u, rest. cbn [app length]. rewrite lastRead_cons.
      repeat split; auto. lia.
Qed.

(** The search passes over a stretch where no attempt succeeds. *)
Lemma search_passes (r : re) (x rest : jsstring) :
  forall prev idx,
  (forall pre u, x = pre ++ u -> u <> [] ->
                 matchAt r (lastRead pre prev) (u ++ rest) = None) ->
  search r prev (x ++ rest) idx = search r (lastRead x prev) rest (idx + length x).
Proof.
  induction x as [|c x IH]; intros prev idx H.
  - cbn [app length lastRead]. now rewrite Nat.add_0_r.
  - cbn [app search].
    pose proof (H [] (c :: x) eq_refl) as H0. cbn [lastRead app] in H0.
    rewrite H0 by discriminate.
    rewrite IH, lastRead_cons; [cbn [length]; f_equal; lia|].
    intros pre u -> Hu. rewrite <- (lastRead_cons c pre prev). now apply (H (c :: pre) u).
Qed.

(** A match somewhere is found, or an earlier one is. *)
Lemma search_complete (r : re) (pre u : jsstring) :
  forall prev idx,
  matchAt r (lastRead pre prev) u <> None ->
  search r prev (pre ++ u) idx <> None.
Proof.
  induction pre as [|c pre IH]; intros prev idx H.
  - cbn [app lastRead] in *. destruct u as [|x u]; cbn [search];
      destruct (matchAt r prev _) as [[? ?]|]; congruence.
  - cbn [app search]. destruct (matchAt r prev (c :: pre ++ u)) as [[? ?]|]; [discriminate|].
    apply IH. now rewrite <- (lastRead_cons c pre prev).
Qed.


End RegexSound.

(* ================================================================= *)
(** ** The input rules one by one *)

Module RuleFacts.

Import Bounds Parser InputRules JSFacts RegexFacts RegexSound.

Lemma run_chr (p : codeunit -> bool) (prev : option codeunit) (s : jsstring)
  (cs : captures) (k : cont) (out : outcome) :
  run (Chr p) prev s cs k = Some out ->
  exists c s', s = c :: s' /\ p c = true /\ k (Some c) s' cs = Some out.
Proof.
  cbn [run]. destruct s as [|c s]; [discriminate|].
  destruct (p c) eqn:E; [|discriminate]. intro H. now exists c, s.
Qed.

Lemma run_rep (q : quant) (lo : nat) (hi : option nat) (p : codeunit -> bool)
  (prev : option codeunit) (s : jsstring) (cs : captures) (k : cont) (out : outcome) :
  run (Rep q lo hi p) prev s cs k = Some out ->
  exists ps rest,
    s = ps ++ rest /\ forallb p ps = true /\ (lo <= length ps)%nat
    /\ within hi (length ps)
    /\ k (lastRead ps prev) rest cs = Some out.
Proof.
  cbn [run]. intro H. apply rep_sound in H; [exact H|].
  destruct hi; cbn; [lia|exact I].
Qed.

Lemma run_eol (prev : option codeunit) (s : jsstring) (cs : captures) (k : cont)
  (out : outcome) :
  run Eol prev s cs k = Some out -> s = [] /\ k prev [] cs = Some out.
Proof. cbn [run]. destruct s; [now split|discriminate]. Qed.

(** An anchored rule looks at the whole text before the caret. *)
Lemma fire_anchored (g : RuleGroup) (b : re) (h : captures -> nat -> nat -> Transaction)
  (textBefore : jsstring) :
  fire (mkRule g (Seq Bol b) h) textBefore
  = match matchAt (Seq Bol b) None textBefore with
    | Some (s', cs) =>
        Some (h (cs ++ [(0%nat, consumed textBefore s')]) 0%nat (length textBefore))
    | None => None
    end.
Proof.
  unfold fire. cbn [pattern handler]. rewrite exec_anchored.
  now destruct (matchAt (Seq Bol b) None textBefore) as [[s' cs]|].
Qed.

Lemma window_start (before : jsstring) :
  (length before - length (window before) = length before - MAX_MATCH)%nat.
Proof. unfold window. rewrite length_skipn. lia. Qed.

Lemma window_short (before : jsstring) :
  (length before <= MAX_MATCH)%nat -> window before = before.
Proof.
  intro H. unfold window. replace (length before - MAX_MATCH)%nat with 0%nat by lia.
  reflexivity.
Qed.

(** An anchored rule looks at the whole text it is handed. *)
Lemma keystroke_anchored (g : RuleGroup) (b : re) (h : captures -> nat -> nat -> Transaction)
  (before text : jsstring) :
  keystroke (mkRule g (Seq Bol b) h) before text
  = match matchAt (Seq Bol b) None (window before ++ text) with
    | Some (s', cs) =>
        let m := consumed (window before ++ text) s' in
        if Nat.leb (length text) (length m)
        then Some (h (cs ++ [(0%nat, m)]) (length before - (length m - length text))%nat
                     (length before))
        else None
    | None => None
    end.
Proof.
  unfold keystroke. cbn [pattern handler]. rewrite exec_anchored.
  now destruct (matchAt (Seq Bol b) None (window before ++ text)) as [[s' cs]|].
Qed.

(** When the match is the whole text handed over, the range given to the
    handler starts [MAX_MATCH] code units before the caret, or at the start
    of the block when the block is shorter. *)
Lemma keystroke_whole (g : RuleGroup) (b : re) (h : captures -> nat -> nat -> Transaction)
  (before text : jsstring) (cs : captures) :
  matchAt (Seq Bol b) None (window before ++ text) = Some ([], cs) ->
  keystroke (mkRule g (Seq Bol b) h) before text
  = Some (h (cs ++ [(0%nat, window before ++ text)]) (length before - MAX_MATCH)%nat
            (length before)).
Proof.
  intro H. rewrite keystroke_anchored, H. cbn zeta. rewrite consumed_all, length_app.
  replace (Nat.leb (length text) (length (window before) + length text)) with true
    by (symmetry; apply Nat.leb_le; lia).
  replace (length (window before) + length text - length text)%nat
    with (length (window before)) by lia.
  now rewrite window_start.
Qed.

Lemma keystroke_silent (g : RuleGroup) (b : re) (h : captures -> nat -> nat -> Transaction)
  (before text : jsstring) :
  matchAt (Seq Bol b) None (window before ++ text) = None ->
  keystroke (mkRule g (Seq Bol b) h) before text = None.
Proof. intro H. now rewrite keystroke_anchored, H. Qed.


Lemma handed_text (before body : jsstring) (tail : jsstring) (c : codeunit) :
  window before = body ++ tail -> window before ++ [c] = body ++ tail ++ [c].
Proof. intros ->. now rewrite <- app_assoc. Qed.

Lemma repeat_just (c : codeunit) (ps : jsstring) :
  forallb (just c) ps = true -> ps = JS.repeat [c] (length ps).
Proof.
  induction ps as [|x ps IH]; [reflexivity|]. cbn [forallb length JS.repeat app].
  intro H. apply andb_true_iff in H as [Hx H]. apply N.eqb_eq in Hx. subst x.
  f_equal. now apply IH.
Qed.

Lemma space_not_hash (c : codeunit) : isWhiteSpace c = true -> just hash c = false.
Proof.
  intro H. unfold just. destruct (c =? hash) eqn:E; [|reflexivity].
  apply N.eqb_eq in E. subst c. discriminate.
Qed.

(** X1.  The heading rule fires exactly when the text before the caret is one to
    six hashes and one white-space character; the block becomes a heading
    whose level is the number of hashes. *)
Theorem heading_rule_fires_on_one_to_six_hashes (textBefore : jsstring) (tr : Transaction) :
  map (fun rule => fire rule textBefore) (createHeadingRules simpleEditorSchema) = [Some tr]
  <-> exists n c,
        (1 <= n <= 6)%nat /\ isWhiteSpace c = true
        /\ textBefore = JS.repeat [hash] n ++ [c]
        /\ tr = [Delete 0 (n + 1); SetBlockType heading (withLevel n)].
Proof.
  unfold createHeadingRules, textblockTypeInputRule, reHeadingRule.
  cbn [seq map]. rewrite fire_anchored. split.
  - destruct (matchAt _ None textBefore) as [[s' cs]|] eqn:E; [|discriminate].
    intro H. injection H as <-.
    unfold matchAt in E. cbn [run] in E.
    apply run_rep in E as (ps & rest & -> & Hall & Hlo & Hhi & E).
    cbn beta in E. destruct rest as [|c rest]; [discriminate|].
    destruct (space c) eqn:Hc; [|discriminate].
    destruct rest as [|x rest]; [|discriminate].
    injection E as <- <-. cbn [within] in Hhi.
    exists (length ps), c. split; [lia|]. split; [exact Hc|].
    split; [now rewrite <- repeat_just|].
    cbn [app group Nat.eqb]. rewrite consumed_app, length_app. reflexivity.
  - intros (n & c & Hn & Hc & -> & ->).
    unfold matchAt. cbn [run].
    erewrite rep_greedy_max; cycle 1.
    + apply repeat_all.
    + intros i Hi. rewrite repeat_length in Hi. cbn [below Nat.add]. apply Nat.ltb_lt. lia.
    + rewrite repeat_length. lia.
    + now apply space_not_hash.
    + cbn beta. unfold space. rewrite Hc. reflexivity.
    + cbn [app group Nat.eqb]. rewrite consumed_app, length_app, repeat_length. reflexivity.
Qed.

Lemma space_range (c : codeunit) : isWhiteSpace c = true -> c <= 32 \/ 160 <= c.
Proof.
  unfold isWhiteSpace. rewrite !orb_true_iff, andb_true_iff, !N.eqb_eq, !N.leb_le. lia.
Qed.

Lemma digit_range (c : codeunit) : isDigit c = true -> 48 <= c <= 57.
Proof. unfold isDigit. rewrite andb_true_iff, !N.leb_le. lia. Qed.

(** Two ways to cut a text after a run of a class end at the same place. *)
Lemma first_break (p : codeunit -> bool) (x y r r' : jsstring) (a b : codeunit) :
  forallb p x = true -> forallb p y = true -> p a = false -> p b = false ->
  x ++ a :: r = y ++ b :: r' -> x = y /\ a = b /\ r = r'.
Proof.
  revert y; induction x as [|c x IH]; intros [|d y] Hx Hy Ha Hb H; cbn [app forallb] in *.
  - injection H as -> ->. auto.
  - injection H as -> _. apply andb_true_iff in Hy as [Hd _]. congruence.
  - injection H as -> _. apply andb_true_iff in Hx as [Hc _]. congruence.
  - injection H as -> H. apply andb_true_iff in Hx as [_ Hx].
    apply andb_true_iff in Hy as [_ Hy].
    destruct (IH _ Hx Hy Ha Hb H) as (-> & -> & ->). auto.
Qed.

Lemma head_class (p : codeunit -> bool) (s rest : jsstring) :
  forallb p s = true -> s <> [] ->
  match s ++ rest with [] => False | c :: _ => p c = true end.
Proof.
  destruct s as [|c s]; [contradiction|]. cbn [forallb app].
  intros H _. now apply andb_true_iff in H as [H _].
Qed.

(** X2.  The number rule of the list group on a keystroke.  When the text
    handed to the rule (the last 500 code units before the caret) is
    optional white space, digits and a period, and a white-space character
    is typed, the rule deletes the handed text and wraps the block in an
    ordered list that starts at the number typed.  The bullet rule stays
    silent. *)
Theorem ordered_list_rule_starts_at_typed_number (before ws ds : jsstring) (c : codeunit) :
  window before = ws ++ ds ++ [period] ->
  forallb isWhiteSpace ws = true ->
  forallb isDigit ds = true -> ds <> [] -> (length ds <= 15)%nat ->
  isWhiteSpace c = true ->
  map (fun rule => keystroke rule before [c]) (createListRules simpleEditorSchema)
  = [None;
     Some [Delete (length before - MAX_MATCH) (length before);
           Wrap ordered_list (withOrder (toNumber ds))]].
Proof.
  intros Hw Hws Hds Hne _ Hc.
  apply (handed_text _ _ _ c) in Hw. rewrite <- app_assoc in Hw. cbn [app] in Hw.
  unfold createListRules, wrappingInputRule, reBulletRule, reOrderedRule.
  cbn [simpleEditorSchema nodes andb app seq map].
  assert (Hd : match ds ++ [period; c] with
               | [] => False | d :: _ => isDigit d = true end)
    by now apply head_class.
  destruct (ds ++ [period; c]) as [|d tail] eqn:Etail; [contradiction|].
  apply digit_range in Hd.
  assert (Hsp : space d = false).
  { unfold space. destruct (isWhiteSpace d) eqn:E; [|reflexivity].
    apply space_range in E. lia. }
  f_equal; [|f_equal].
  - apply keystroke_silent. rewrite Hw.
    destruct (matchAt _ None _) as [[s' cs]|] eqn:E; [exfalso|reflexivity].
    unfold matchAt in E. cbn [run] in E.
    apply run_rep in E as (ps & rest & Hcut & Hall & _ & _ & E). cbn beta in E.
    destruct rest as [|m rest]; [discriminate|].
    destruct ((m =? dash) || (m =? plusSign) || (m =? asterisk)) eqn:Hm; [|discriminate].
    assert (Hm' : space m = false).
    { unfold space. destruct (isWhiteSpace m) eqn:E'; [|reflexivity].
      apply space_range in E'. rewrite !orb_true_iff, !N.eqb_eq in Hm.
      unfold dash, plusSign, asterisk in Hm. lia. }
    symmetry in Hcut.
    destruct (first_break space _ _ _ _ _ _ Hall Hws Hm' Hsp Hcut) as (_ & -> & _).
    rewrite !orb_true_iff, !N.eqb_eq in Hm. unfold dash, plusSign, asterisk in Hm. lia.
  - erewrite keystroke_whole; cycle 1.
    + rewrite Hw. unfold matchAt. cbn [run plus star].
      erewrite rep_greedy_max; cycle 1.
      * exact Hws.
      * reflexivity.
      * lia.
      * exact Hsp.
      * cbn beta. rewrite <- Etail. erewrite rep_greedy_max; cycle 1.
        -- exact Hds.
        -- reflexivity.
        -- destruct ds; [contradiction|]. cbn [length]. lia.
        -- reflexivity.
        -- cbn beta. cbn [run chr]. unfold just, space. rewrite N.eqb_refl, Hc. reflexivity.
        -- reflexivity.
      * reflexivity.
    + cbn [group Nat.eqb app]. now rewrite consumed_app.
Qed.

Lemma ordered_list_rule_starts_at_typed_number_witness :
  map (fun rule => keystroke rule (lit " 12.") [32]) (createListRules simpleEditorSchema)
  = [None; Some [Delete 0 4; Wrap ordered_list (withOrder 12)]].
Proof.
  apply (ordered_list_rule_starts_at_typed_number (lit " 12.") (lit " ") (lit "12") 32);
    try reflexivity; [discriminate | cbn; lia].
Defined.

(** X3.  The bullet rule of the list group on a keystroke.  When the text
    handed to the rule (the last 500 code units before the caret) is
    optional white space and one of the three markers, and a white-space
    character is typed, the rule deletes the handed text and wraps the block
    in a bullet list.  The number rule stays silent. *)
Theorem bullet_list_rule_fires_on_marker (before ws : jsstring) (m c : codeunit) :
  window before = ws ++ [m] ->
  forallb isWhiteSpace ws = true ->
  m = dash \/ m = plusSign \/ m = asterisk ->
  isWhiteSpace c = true ->
  map (fun rule => keystroke rule before [c]) (createListRules simpleEditorSchema)
  = [Some [Delete (length before - MAX_MATCH) (length before);
           Wrap bullet_list defaultAttrs]; None].
Proof.
  intros Hw Hws Hm Hc.
  apply (handed_text _ _ _ c) in Hw. cbn [app] in Hw.
  unfold createListRules, wrappingInputRule, reBulletRule, reOrderedRule.
  cbn [simpleEditorSchema nodes andb app seq map].
  assert (Hsp : space m = false) by (destruct Hm as [->|[->| ->]]; reflexivity).
  f_equal; [|f_equal].
  - erewrite keystroke_whole; [reflexivity|].
    rewrite Hw. unfold matchAt. cbn [run plus star].
    erewrite rep_greedy_max; cycle 1.
    + exact Hws.
    + reflexivity.
    + lia.
    + exact Hsp.
    + cbn beta. cbn [run]. unfold space.
      replace ((m =? dash) || (m =? plusSign) || (m =? asterisk)) with true
        by (destruct Hm as [->|[->| ->]]; reflexivity).
      rewrite Hc. reflexivity.
    + reflexivity.
  - apply keystroke_silent. rewrite Hw.
    destruct (matchAt _ None _) as [[s' cs]|] eqn:E; [exfalso|reflexivity].
    unfold matchAt in E. cbn [run] in E.
    apply run_rep in E as (ps & rest & Hcut & Hall & _ & _ & E). cbn beta in E.
    fold (run (plus isDigit)) in E.
    apply run_rep in E as (ds & rest' & -> & Hds & Hlo & _ & _).
    destruct ds as [|d ds]; [cbn in Hlo; lia|].
    cbn [forallb] in Hds. apply andb_true_iff in Hds as [Hd _].
    apply digit_range in Hd.
    assert (Hd' : space d = false).
    { unfold space. destruct (isWhiteSpace d) eqn:E'; [|reflexivity].
      apply space_range in E'. lia. }
    symmetry in Hcut. cbn [app] in Hcut.
    destruct (first_break space _ _ _ _ _ _ Hall Hws Hd' Hsp Hcut) as (_ & -> & _).
    unfold dash, plusSign, asterisk in Hm. lia.
Qed.

Lemma bullet_list_rule_fires_on_marker_witness :
  map (fun rule => keystroke rule (lit "  *") [32]) (createListRules simpleEditorSchema)
  = [Some [Delete 0 3; Wrap bullet_list defaultAttrs]; None].
Proof.
  apply (bullet_list_rule_fires_on_marker (lit "  *") (lit "  ") asterisk 32); auto.
Defined.

Lemma nonSpace_space (c : codeunit) : isWhiteSpace c = true -> nonSpace c = false.
Proof. unfold nonSpace. now intros ->. Qed.

(** X4.  The code block rule on a keystroke.  When the text handed to the
    rule (the last 500 code units before the caret) is three backticks and
    a word without white space, and a white-space character is typed, the
    rule deletes the handed text and turns the block into a code block whose
    language is the word, or null when the word is empty. *)
Theorem code_block_rule_reads_language (before lang : jsstring) (c : codeunit) :
  window before = lit "```" ++ lang ->
  forallb nonSpace lang = true -> isWhiteSpace c = true ->
  map (fun rule => keystroke rule before [c]) (createCodeBlockRules simpleEditorSchema)
  = [Some [Delete (length before - MAX_MATCH) (length before);
           SetBlockType code_block
             (withLanguage match lang with [] => None | _ :: _ => Some lang end)]].
Proof.
  intros Hw Hlang Hc.
  apply (handed_text _ _ _ c) in Hw.
  unfold createCodeBlockRules, textblockTypeInputRule, reCodeBlockRule.
  cbn [simpleEditorSchema nodes negb seq map].
  erewrite keystroke_whole; cycle 1.
  - rewrite Hw. unfold matchAt. cbn [run star].
    change (lit "```") with (backtick :: lit "``") at 1.
    rewrite run_chars.
    change (backtick :: lit "``") with (lit "```"). rewrite startsWith_app.
    change (length (lit "```")) with 3%nat.
    change (skipn 3 (lit "```" ++ lang ++ [c])) with (lang ++ [c]).
    erewrite rep_greedy_max; cycle 1.
    + exact Hlang.
    + reflexivity.
    + lia.
    + now apply nonSpace_space.
    + cbn beta. cbn [run]. unfold space. rewrite Hc. reflexivity.
    + reflexivity.
  - cbn [group Nat.eqb app]. rewrite consumed_app. now destruct lang.
Qed.

Lemma code_block_rule_reads_language_witness :
  map (fun rule => keystroke rule (lit "```rust") [32])
      (createCodeBlockRules simpleEditorSchema)
  = [Some [Delete 0 7; SetBlockType code_block (withLanguage (Some (lit "rust")))]].
Proof.
  apply (code_block_rule_reads_language (lit "```rust") (lit "rust") 32); reflexivity.
Defined.

(** X5.  The blockquote rule on a keystroke fires exactly when the text
    handed to it (the last 500 code units before the caret, then the typed
    text) is optional white space, a greater-than sign and one white-space
    character; it deletes what was handed of the block and wraps the
    block in a blockquote. *)
Theorem blockquote_rule_fires_on_marker (before text : jsstring) (tr : Transaction) :
  map (fun rule => keystroke rule before text) (createBlockquoteRules simpleEditorSchema)
  = [Some tr]
  <-> exists ws c,
        forallb isWhiteSpace ws = true /\ isWhiteSpace c = true
        /\ window before ++ text = ws ++ [greater; c]
        /\ tr = [Delete (length before - MAX_MATCH) (length before);
                 Wrap blockquote defaultAttrs].
Proof.
  unfold createBlockquoteRules, wrappingInputRule, reBlockquoteRule.
  cbn [simpleEditorSchema nodes negb seq map]. split.
  - destruct (matchAt (Seq Bol (Seq (star space) (Seq (chr greater) (Seq (Chr space) Eol))))
                None (window before ++ text)) as [[s' cs]|] eqn:E.
    + pose proof E as E'. unfold matchAt in E. cbn [run] in E.
      apply run_rep in E as (ps & rest & Hcut & Hall & _ & _ & E). cbn beta in E.
      apply run_chr in E as (g & rest' & -> & Hg & E).
      destruct rest' as [|c rest]; [discriminate|].
      destruct (space c) eqn:Hc; [|discriminate].
      destruct rest as [|x rest]; [|discriminate].
      injection E as <- <-.
      apply N.eqb_eq in Hg. subst g.
      rewrite (keystroke_whole _ _ _ _ _ _ E'). intro H. injection H as <-.
      exists ps, c. auto.
    + now rewrite (keystroke_silent _ _ _ _ _ E).
  - intros (ws & c & Hws & Hc & Hw & ->).
    erewrite keystroke_whole; [reflexivity|].
    rewrite Hw. unfold matchAt. cbn [run star].
    erewrite rep_greedy_max; cycle 1.
    + exact Hws.
    + reflexivity.
    + lia.
    + reflexivity.
    + cbn beta. cbn [run chr]. unfold space. rewrite Hc. reflexivity.
    + reflexivity.
Qed.


(** X6.  The task list rule fires exactly on an opening and a closing bracket and
    one white-space character, typed at the start of the block; the new task
    is unchecked. *)
Theorem task_list_rule_fires_on_brackets (textBefore : jsstring) (tr : Transaction) :
  map (fun rule => fire rule textBefore) (createTaskListRules simpleEditorSchema)
  = [Some tr]
  <-> exists c,
        isWhiteSpace c = true /\ textBefore = [lbracket; rbracket; c]
        /\ tr = [Delete 0 3; Wrap task_list (withChecked false)].
Proof.
  unfold createTaskListRules, wrappingInputRule, reTaskListRule.
  cbn [simpleEditorSchema nodes negb orb seq map]. rewrite fire_anchored. split.
  - destruct (matchAt _ None textBefore) as [[s' cs]|] eqn:E; [|discriminate].
    intro H. injection H as <-.
    unfold matchAt in E. cbn [run] in E.
    apply run_chr in E as (a & r1 & -> & Ha & E).
    apply run_chr in E as (b & r2 & -> & Hb & E).
    destruct r2 as [|c rest]; [discriminate|].
    destruct (space c) eqn:Hc; [|discriminate].
    destruct rest as [|x rest]; [|discriminate].
    apply N.eqb_eq in Ha, Hb. subst a b.
    exists c. auto.
  - intros (c & Hc & -> & ->).
    unfold matchAt. cbn [run chr]. unfold space. rewrite Hc. reflexivity.
Qed.

Lemma run_seq (a b : re) (prev : option codeunit) (s : jsstring) (cs : captures) (k : cont) :
  run (Seq a b) prev s cs k = run a prev s cs (fun prev' s' cs' => run b prev' s' cs' k).
Proof. reflexivity. Qed.

Lemma run_class_eol (p : codeunit -> bool) (prev : option codeunit) (s : jsstring)
  (cs : captures) (k : cont) (out : outcome) :
  run (Seq (Chr p) Eol) prev s cs k = Some out -> exists c, s = [c] /\ p c = true.
Proof.
  rewrite run_seq. intro H. apply run_chr in H as (c & s' & -> & Hc & H).
  apply run_eol in H as [-> _]. now exists c.
Qed.

(** Every rule a schema gets is a rule of the full schema. *)
Lemma rules_of_any_schema (schema : Schema) (rule : InputRule) :
  In rule (createInputRules schema) -> In rule (createInputRules simpleEditorSchema).
Proof.
  unfold createInputRules. rewrite !in_app_iff.
  intros [H|[H|[H|[H|[H|[H|[H|[H|H]]]]]]]].
  - left. exact H.
  - right; left. unfold createListRules in *. rewrite in_app_iff in *.
    cbn [simpleEditorSchema nodes andb].
    destruct H as [H|H]; [left|right];
      match type of H with In _ (if ?b then _ else _) => destruct b end;
      solve [exact H | contradiction].
  - do 2 right; left. unfold createCodeBlockRules in *.
    destruct (nodes schema code_block); [exact H|contradiction].
  - do 3 right; left. unfold createBlockquoteRules in *.
    destruct (nodes schema blockquote); [exact H|contradiction].
  - do 4 right; left. unfold createMarkRules in *. rewrite !in_app_iff in *.
    cbn [simpleEditorSchema marks].
    destruct H as [H|[H|H]]; [left|right; left|right; right];
      match type of H with In _ (if ?b then _ else _) => destruct b end;
      solve [exact H | contradiction].
  - do 5 right; left. unfold createLinkRules in *.
    destruct (marks schema linkType); [exact H|contradiction].
  - do 6 right; left. unfold createHorizontalRuleRules in *.
    destruct (nodes schema horizontal_rule); [exact H|contradiction].
  - do 7 right; left. exact H.
  - do 8 right. unfold createTaskListRules in *.
    destruct (nodes schema task_list), (nodes schema task_list_item);
      solve [exact H | contradiction].
Qed.

Ltac to_end E :=
  repeat first
    [ apply run_class_eol in E
    | rewrite run_seq in E;
      apply run_sound in E as (? & ? & ? & ? & E); subst; cbn beta in E ].

Lemma run_class_eol_rest (p : codeunit -> bool) (prev : option codeunit) (s : jsstring)
  (cs : captures) (rest : jsstring) (cs' : captures) :
  run (Seq (Chr p) Eol) prev s cs (fun _ s' cs => Some (s', cs)) = Some (rest, cs') ->
  exists c, s = [c] /\ p c = true /\ rest = [].
Proof.
  rewrite run_seq. intro H. apply run_chr in H as (c & s' & -> & Hc & H).
  apply run_eol in H as [-> H]. injection H as <- _. now exists c.
Qed.

Ltac to_caret E :=
  repeat first
    [ apply run_class_eol_rest in E
    | rewrite run_seq in E;
      apply run_sound in E as (? & ? & ? & ? & E); subst; cbn beta in E ].

(** X7.  The rules that change the block (heading, list, code block,
    blockquote, task list) fire on a keystroke only when the whole text
    handed to them matches (the last 500 code units before the caret, then
    the typed text) and its last character is white space.  What they
    delete ends at the caret and starts 500 code units before it, or at the
    beginning of the block when the block is shorter. *)
Theorem block_rules_fire_after_white_space (schema : Schema) (rule : InputRule)
  (before text : jsstring) (tr : Transaction) :
  In rule (createInputRules schema) ->
  In (group_ rule)
     [HeadingRules; ListRules; CodeBlockRules; BlockquoteRules; TaskListRules] ->
  keystroke rule before text = Some tr ->
  exists body c steps,
    window before ++ text = body ++ [c] /\ isWhiteSpace c = true
    /\ tr = Delete (length before - MAX_MATCH) (length before) :: steps.
Proof.
  intros Hin Hg Hfire. apply rules_of_any_schema in Hin.
  cbn in Hin.
  repeat (destruct Hin as [Hin|Hin]; [subst rule|]); try contradiction;
    cbn [group_ textblockTypeInputRule wrappingInputRule] in Hg;
    try (cbn in Hg; repeat (destruct Hg as [Hg|Hg]; try discriminate); contradiction).
  all: unfold textblockTypeInputRule, wrappingInputRule in Hfire.
  all: match type of Hfire with
       | keystroke (mkRule ?g (Seq Bol ?b) ?h) _ _ = _ =>
           destruct (matchAt (Seq Bol b) None (window before ++ text))
             as [[s' cs]|] eqn:E;
           [|rewrite (keystroke_silent g b h _ _ E) in Hfire; discriminate]
       end.
  all: pose proof E as E'; unfold matchAt in E.
  all: remember (window before ++ text) as handed eqn:Eh in E.
  all: revert Eh; to_caret E.
  all: destruct E as (c & -> & Hc & ->); intro Eh.
  all: match type of Hfire with
       | keystroke (mkRule ?g (Seq Bol ?b) ?h) _ _ = _ =>
           rewrite (keystroke_whole g b h _ _ _ E') in Hfire
       end.
  all: injection Hfire as <-.
  all: eexists; exists c; eexists.
  all: split; [rewrite <- Eh, ?app_assoc; reflexivity|split; [exact Hc|reflexivity]].
Qed.

Lemma block_rules_fire_after_white_space_witness :
  exists body c steps,
    window (lit "##") ++ lit " " = body ++ [c] /\ isWhiteSpace c = true
    /\ [Delete 0 2; SetBlockType heading (withLevel 2)]
       = Delete (length (lit "##") - MAX_MATCH) (length (lit "##")) :: steps.
Proof.
  apply (block_rules_fire_after_white_space simpleEditorSchema
           (textblockTypeInputRule HeadingRules reHeadingRule heading
              (fun m => withLevel (length (group 1 m))))).
  - left. reflexivity.
  - left. reflexivity.
  - reflexivity.
Defined.

(** *** Mark rules *)

Ltac chr_in H a u Ha :=
  rewrite ?run_seq in H; apply run_chr in H as (a & u & -> & Ha & H); cbn beta in H.
Ltac rep_in H x r Hx Hlo :=
  rewrite ?run_seq in H; cbn [run] in H;
  apply run_rep in H as (x & r & -> & Hx & Hlo & _ & H); cbn beta in H.

Lemma except_self (c : codeunit) : except c c = false.
Proof. unfold except. now rewrite N.eqb_refl. Qed.

Lemma just_self (c : codeunit) : just c c = true.
Proof. unfold just. apply N.eqb_refl. Qed.

Lemma forallb_rev (p : codeunit -> bool) (s : jsstring) :
  forallb p s = true -> forallb p (rev s) = true.
Proof.
  rewrite !forallb_forall. intros H x Hx. apply H. now apply in_rev.
Qed.








(** The leftmost match is the last stretch when no earlier attempt succeeds. *)
Lemma exec_last (r : re) (before m : jsstring) (cs : captures) :
  (forall pre u, before = pre ++ u -> u <> [] ->
                 matchAt r (lastRead pre None) (u ++ m) = None) ->
  matchAt r (lastRead before None) m = Some ([], cs) ->
  exec r (before ++ m) = Some (mkFound (length before) m cs).
Proof.
  intros Hearly Hm. unfold exec. rewrite search_passes by exact Hearly.
  destruct m as [|x m]; cbn [search]; rewrite Hm; cbn [Nat.add];
    now rewrite consumed_all.
Qed.

Lemma exec_none (r : re) (s : jsstring) :
  (forall pre u, s = pre ++ u -> matchAt r (lastRead pre None) u = None) ->
  exec r s = None.
Proof.
  intro H. unfold exec. destruct (search r None s 0) as [f|] eqn:E; [|reflexivity].
  apply search_sound in E as (pre & u & rest & Hs & Hm & _).
  rewrite (H _ _ Hs) in Hm. discriminate.
Qed.

(** A pattern whose matches end in one code unit finds nothing in a text
    that ends in another. *)
Lemma silent (r : re) (d e : codeunit) (body : jsstring) :
  (forall prev u out, matchAt r prev u = Some out -> exists v, u = v ++ [d]) ->
  d <> e -> exec r (body ++ [e]) = None.
Proof.
  intros Hend Hde. apply exec_none. intros pre u Hs.
  destruct (matchAt r (lastRead pre None) u) as [out|] eqn:E; [exfalso|reflexivity].
  apply Hend in E as (v & ->). rewrite app_assoc in Hs.
  apply app_inj_tail in Hs as [_ Hs]. congruence.
Qed.






















(** *** Link rules *)



Lemma nonSpace_app (x y : jsstring) :
  forallb nonSpace (x ++ y) = true -> forallb nonSpace x = true /\ forallb nonSpace y = true.
Proof. rewrite forallb_app. apply andb_true_iff. Qed.

Lemma word_shape (w : jsstring) (prev : option codeunit) (s : jsstring) (cs : captures)
  (k : cont) (out : outcome) :
  w <> [] -> run (chars w) prev s cs k = Some out ->
  exists s', s = w ++ s' /\ k (lastRead w prev) s' cs = Some out.
Proof.
  destruct w as [|c w]; [contradiction|]. intros _. rewrite run_chars.
  destruct (startsWith (c :: w) s) eqn:E; [|discriminate].
  intro H. exists (skipn (length (c :: w)) s). split; [now apply startsWith_eq|].
  exact H.
Qed.

Lemma run_word (w rest : jsstring) (prev : option codeunit) (cs : captures) (k : cont) :
  w <> [] -> run (chars w) prev (w ++ rest) cs k = k (lastRead w prev) rest cs.
Proof.
  destruct w as [|c w]; [contradiction|]. intros _.
  rewrite run_chars, startsWith_app, skipn_app, skipn_all, Nat.sub_diag.
  reflexivity.
Qed.

(** What the address rule matches is free of white space. *)
Lemma auto_link_shape (prev : option codeunit) (u rest : jsstring) (cs : captures) :
  matchAt reAutoLinkRule prev u = Some (rest, cs) -> forallb nonSpace u = true.
Proof.
  unfold matchAt, reAutoLinkRule. cbn [seq]. intro H.
  rewrite run_seq in H. apply word_shape in H as (s1 & -> & H); [|discriminate].
  cbn beta in H. rewrite run_seq in H.
  apply run_rep in H as (ps & s2 & -> & Hps & _ & _ & H). cbn beta in H.
  rewrite run_seq in H. apply word_shape in H as (s3 & -> & H); [|discriminate].
  cbn beta in H. rewrite run_seq in H.
  apply run_rep in H as (x & s4 & -> & Hx & _ & _ & H). cbn beta in H.
  apply run_eol in H as [-> _].
  rewrite !forallb_app, Hx. cbn [forallb andb].
  replace (forallb nonSpace ps) with true; [reflexivity|].
  symmetry. rewrite forallb_forall in Hps |- *. intros c Hc.
  apply Hps in Hc. apply N.eqb_eq in Hc. now subst c.
Qed.

(** Where the address rule matches in the handed text. *)
Lemma auto_link_found (pre scheme x : jsstring) :
  (forall b c, pre = b ++ [c] -> isWhiteSpace c = true) ->
  scheme = lit "http" \/ scheme = lit "https" ->
  x <> [] -> forallb nonSpace x = true ->
  exec reAutoLinkRule (pre ++ scheme ++ lit "://" ++ x)
  = Some (mkFound (length pre) (scheme ++ lit "://" ++ x) []).
Proof.
  intros Hb Hs Hne Hx. apply exec_last.
  - intros pre' u -> Hu.
    destruct (matchAt _ _ _) as [[rest cs]|] eqn:E; [exfalso|reflexivity].
    apply auto_link_shape in E. apply nonSpace_app in E as [E _].
    destruct u as [|y u] using rev_ind; [contradiction|].
    apply nonSpace_app in E as [_ E]. cbn [forallb] in E. unfold nonSpace in E.
    rewrite (Hb (pre' ++ u) y) in E by now rewrite app_assoc.
    discriminate.
  - assert (Hgo : forall prev ps,
              ps = [] \/ ps = [115] ->
              matchAt reAutoLinkRule prev (lit "http" ++ ps ++ lit "://" ++ x)
              = Some ([], [])).
    { intros prev ps Hps. unfold matchAt, reAutoLinkRule. cbn [seq].
      rewrite run_seq, run_word by discriminate.
      rewrite run_seq. cbn [run].
      erewrite rep_greedy_max; cycle 1.
      - destruct Hps as [-> | ->]; reflexivity.
      - intros i Hi. destruct Hps as [-> | ->]; cbn in Hi; [lia|].
        assert (i = 0)%nat as -> by lia. reflexivity.
      - lia.
      - reflexivity.
      - cbn beta. rewrite run_word by discriminate. cbn [run plus].
        rewrite <- (app_nil_r x) at 1.
        erewrite rep_greedy_max; cycle 1;
          [ exact Hx | reflexivity | destruct x; [contradiction|cbn [length]; lia]
          | exact I | reflexivity | ].
        reflexivity.
      - reflexivity. }
    destruct Hs as [-> | ->].
    + apply (Hgo _ []). now left.
    + apply (Hgo _ [115]). now right.
Qed.

(** X13.  The address rule on a keystroke.  The text handed to the rule ends in
    an address begun at the start of that text or after white space: http or
    https, a colon, two slashes and maybe more, free of white space.  When
    another character that is not white space is typed, the rule fires: it
    links what is already in the block of the address, from its first
    character to the caret, to the address with the typed character added.
    Its transaction holds this one step: nothing is deleted and the typed
    character is not inserted. *)
Theorem auto_link_rule_links_typed_address (before pre scheme y : jsstring) (c : codeunit) :
  window before = pre ++ scheme ++ lit "://" ++ y ->
  (forall b d, pre = b ++ [d] -> isWhiteSpace d = true) ->
  scheme = lit "http" \/ scheme = lit "https" ->
  forallb nonSpace y = true -> nonSpace c = true ->
  nth_error
    (map (fun rule => keystroke rule before [c]) (createLinkRules simpleEditorSchema)) 1
  = Some (Some [AddMark (length before - length (scheme ++ lit "://" ++ y))
                  (length before)
                  (link (scheme ++ lit "://" ++ y ++ [c]) None)]).
Proof.
  intros Hw Hb Hs Hy Hc.
  unfold createLinkRules. cbn [simpleEditorSchema marks negb map nth_error].
  unfold keystroke. cbn [pattern handler].
  assert (Hhanded : window before ++ [c] = pre ++ scheme ++ lit "://" ++ y ++ [c]).
  { rewrite Hw. now rewrite <- !app_assoc. }
  rewrite Hhanded, (auto_link_found pre scheme (y ++ [c]) Hb Hs).
  - cbn [matched allGroups groups app group Nat.eqb index].
    replace (Nat.leb (length [c]) (length (scheme ++ lit "://" ++ y ++ [c]))) with true
      by (symmetry; apply Nat.leb_le; rewrite !length_app; cbn [length]; lia).
    replace (length (scheme ++ lit "://" ++ y ++ [c]) - length [c])%nat
      with (length (scheme ++ lit "://" ++ y)); [reflexivity|].
    rewrite !length_app. cbn [length]. lia.
  - destruct y; discriminate.
  - rewrite forallb_app, Hy. cbn [forallb]. now rewrite Hc.
Qed.

Lemma auto_link_rule_links_typed_address_witness :
  nth_error
    (map (fun rule => keystroke rule (lit "at https://a.io/") [120])
         (createLinkRules simpleEditorSchema)) 1
  = Some (Some [AddMark 3 16 (link (lit "https://a.io/x") None)]).
Proof.
  apply (auto_link_rule_links_typed_address (lit "at https://a.io/") (lit "at ")
           (lit "https") (lit "a.io/") 120);
    [reflexivity | | now right | reflexivity | reflexivity].
  intros b d H. apply (f_equal (@rev _)) in H. rewrite rev_app_distr in H.
  cbn in H. injection H as <- _. reflexivity.
Defined.

(** *** Horizontal rule and arrows *)

(** X14.  The horizontal rule fires exactly when the text from the start of the
    block to the caret is three hyphens, or an em dash and a hyphen; it
    replaces them by a rule and an empty paragraph.  A fourth hyphen, or any
    text before or after, keeps it silent. *)
Theorem horizontal_rule_fires_on_three_hyphens (textBefore : jsstring) (tr : Transaction) :
  map (fun rule => fire rule textBefore) (createHorizontalRuleRules simpleEditorSchema)
  = [Some tr]
  <-> (textBefore = lit "---" \/ textBefore = [8212; dash])
      /\ tr = [ReplaceRange 0 (length textBefore)
                 [Block horizontal_rule defaultAttrs []; Block paragraph defaultAttrs []]].
Proof.
  unfold createHorizontalRuleRules, reHorizontalRule.
  cbn [simpleEditorSchema nodes negb seq map]. rewrite fire_anchored. split.
  - destruct (matchAt _ None textBefore) as [[s' cs]|] eqn:E; [|discriminate].
    intro H. injection H as <-. split; [|reflexivity].
    unfold matchAt in E. cbn [run] in E.
    unfold orElse in E.
    destruct (run (chars (lit "---")) None textBefore [] _) as [out|] eqn:E1.
    + left. apply word_shape in E1 as (r & -> & E1); [|discriminate].
      destruct r; [|discriminate]. now rewrite app_nil_r.
    + right. apply run_chr in E as (a & r & -> & Ha & E).
      apply run_chr in E as (b & r' & -> & Hb & E).
      destruct r'; [|discriminate]. apply N.eqb_eq in Ha, Hb. now subst.
  - intros [[-> | ->] ->]; reflexivity.
Qed.

Lemma word_ends (c : codeunit) (w : jsstring) (prev : option codeunit) (u : jsstring)
  (out : outcome) :
  matchAt (Seq (chars (c :: w)) Eol) prev u = Some out -> exists v, u = v ++ [last w c].
Proof.
  rewrite matchAt_word_eol. destruct (JS.eqb u (c :: w)) eqn:E; [|discriminate].
  intros _. apply eqb_eq in E. subst u.
  destruct (exists_last (l := c :: w)) as (v & y & Hv); [discriminate|].
  exists v. rewrite <- (last_cons c c w), Hv. now rewrite last_last.
Qed.

(** X15.  The arrow rules: a hyphen and a greater-than sign that end at the caret
    are replaced by a rightwards arrow, a less-than sign and a hyphen by a
    leftwards arrow, wherever they come in the block; the other rules of
    the group stay silent. *)
Theorem arrow_rules_replace_ascii_arrows (schema : Schema) (before : jsstring) :
  map (fun rule => fire rule (before ++ lit "->")) (createArrowRules schema)
  = [Some [ReplaceWith (length before) (length before + 2) [8594]]; None; None]
  /\ map (fun rule => fire rule (before ++ lit "<-")) (createArrowRules schema)
     = [None; Some [ReplaceWith (length before) (length before + 2) [8592]]; None].
Proof.
  assert (Hcut : forall a b, before ++ [a; b] = (before ++ [a]) ++ [b])
    by (intros; now rewrite <- app_assoc).
  assert (Hlen : forall a b, length (before ++ [a; b]) = (length before + 2)%nat)
    by (intros; now rewrite length_app).
  unfold createArrowRules, rightArrowRule, leftArrowRule, bananaRule, fire.
  cbn [map pattern handler]. unfold reRightArrow, reLeftArrow, reBanana. cbn [seq].
  split.
  - assert (H1 : exec (Seq (chars (lit "->")) Eol) (before ++ lit "->")
                 = Some (mkFound (length before) (lit "->") []))
      by (unfold exec; apply (search_word_eol dash (lit ">"))).
    assert (H2 : exec (Seq (chars (lit "<-")) Eol) (before ++ lit "->") = None).
    { change (lit "->") with [dash; greater]. rewrite Hcut.
      apply (silent _ dash greater); [apply (word_ends 60 [dash])|discriminate]. }
    assert (H3 : exec (Seq (chars (lit "banana")) Eol) (before ++ lit "->") = None).
    { change (lit "->") with [dash; greater]. rewrite Hcut.
      apply (silent _ 97 greater); [apply (word_ends 98 (lit "anana"))|discriminate]. }
    rewrite H1, H2, H3. cbn [index]. change (lit "->") with [dash; greater].
    now rewrite Hlen.
  - assert (H1 : exec (Seq (chars (lit "<-")) Eol) (before ++ lit "<-")
                 = Some (mkFound (length before) (lit "<-") []))
      by (unfold exec; apply (search_word_eol 60 (lit "-"))).
    assert (H2 : exec (Seq (chars (lit "->")) Eol) (before ++ lit "<-") = None).
    { change (lit "<-") with [60; dash]. rewrite Hcut.
      apply (silent _ greater dash); [apply (word_ends dash [greater])|discriminate]. }
    assert (H3 : exec (Seq (chars (lit "banana")) Eol) (before ++ lit "<-") = None).
    { change (lit "<-") with [60; dash]. rewrite Hcut.
      apply (silent _ 97 dash); [apply (word_ends 98 (lit "anana"))|discriminate]. }
    rewrite H1, H2, H3. cbn [index]. change (lit "<-") with [60; dash].
    now rewrite Hlen.
Qed.

End RuleFacts.

(* ================================================================= *)
(** ** The detector of markdown syntax *)

Module DetectorFacts.

Import Bounds Parser Detector JSFacts RegexFacts RegexSound RuleFacts.

(** A repetition succeeds when some number of repetitions leads to success. *)
Lemma rep_some (q : quant) (lo : nat) (hi : option nat) (p : codeunit -> bool)
  (cs : captures) (k : cont) (ps rest : jsstring) :
  forall (n : nat) (prev : option codeunit),
  forallb p ps = true ->
  (forall i, (i < length ps)%nat -> below hi (n + i) = true) ->
  (lo <= n + length ps)%nat ->
  k (lastRead ps prev) rest cs <> None ->
  rep q lo hi p cs k n prev (ps ++ rest) <> None.
Proof.
  induction ps as [|x ps IH]; intros n prev Hall Hhi Hlo Hk.
  - cbn [app lastRead length] in *. rewrite Nat.add_0_r in Hlo.
    apply Nat.leb_le in Hlo.
    destruct rest as [|c r]; cbn [rep]; rewrite Hlo; unfold orElse.
    + destruct q; destruct (k prev [] cs); congruence.
    + destruct q.
      * destruct (if p c && below hi n then _ else None); [discriminate|exact Hk].
      * destruct (k prev (c :: r) cs); [discriminate|contradiction].
  - cbn [app rep]. cbn [forallb] in Hall. apply andb_true_iff in Hall as [Hx Hall].
    assert (Hb : below hi n = true).
    { rewrite <- (Nat.add_0_r n). apply Hhi. cbn [length]. lia. }
    rewrite Hx, Hb. cbn [andb].
    assert (Hmore : rep q lo hi p cs k (S n) (Some x) (ps ++ rest) <> None).
    { apply IH; [assumption| | |].
      - intros i Hi. replace (S n + i)%nat with (n + S i)%nat by lia.
        apply Hhi. cbn [length]. lia.
      - cbn [length] in Hlo. lia.
      - now rewrite <- (lastRead_cons x ps prev). }
    unfold orElse. destruct q.
    + destruct (rep Greedy lo hi p cs k (S n) (Some x) (ps ++ rest)); congruence.
    + destruct (if Nat.leb lo n then _ else None); [discriminate|exact Hmore].
Qed.

Lemma test_found (r : re) (pre u : jsstring) :
  matchAt r (lastRead pre None) u <> None -> test r (pre ++ u) = true.
Proof.
  intro H. unfold test, exec.
  pose proof (search_complete r pre u None 0%nat H) as Hs.
  now destruct (search r None (pre ++ u) 0).
Qed.

Lemma test_anchored (b : re) (s : jsstring) :
  test (Seq Bol b) s = true -> matchAt (Seq Bol b) None s <> None.
Proof.
  unfold test. rewrite exec_anchored.
  destruct (matchAt (Seq Bol b) None s) as [[? ?]|]; [discriminate|discriminate].
Qed.

Lemma reported (pattern : re) (text : jsstring) :
  In pattern markdownPatterns -> test pattern text = true ->
  hasMarkdownSyntax text = true.
Proof.
  intros Hin Ht. unfold hasMarkdownSyntax.
  destruct text as [|c text].
  - exfalso. unfold test, exec in Ht. cbn [search] in Ht.
    cbn in Hin.
    repeat (destruct Hin as [Hin|Hin]; [subst pattern; discriminate|]). contradiction.
  - cbn [truthy negb]. apply existsb_exists. now exists pattern.
Qed.

Lemma run_notBehind (p : codeunit -> bool) (prev : option codeunit) (s : jsstring)
  (cs : captures) (k : cont) (out : outcome) :
  run (NotBehind p) prev s cs k = Some out ->
  match prev with Some d => p d = false | None => True end /\ k prev s cs = Some out.
Proof.
  cbn [run]. destruct prev as [d|]; [|now split].
  destruct (p d); [discriminate|now split].
Qed.

Lemma test_sound (r : re) (s : jsstring) :
  test r s = true ->
  exists pre u out, s = pre ++ u /\ matchAt r (lastRead pre None) u = Some out.
Proof.
  unfold test, exec. destruct (search r None s 0) as [f|] eqn:E; [|discriminate].
  intros _. apply search_sound in E as (pre & u & rest & Hs & Hm & _).
  now exists pre, u, (rest, groups f).
Qed.

(** X16.  Whatever the bold, italic and code patterns of the parser match (the
    ones written with asterisks and backticks), the detector reports. *)
Theorem detector_reports_inline_marks (text : jsstring) :
  test reStrongStar text = true \/ test reEmStar text = true \/ test reCode text = true ->
  hasMarkdownSyntax text = true.
Proof.
  intros [H|[H|H]]; apply test_sound in H as (pre & u & [rest cs] & -> & H).
  - apply (reported reBold); [unfold markdownPatterns; cbn [In]; tauto|]. apply test_found.
    unfold matchAt, reStrongStar in H. cbn [seq] in H.
    chr_in H a u1 Ha. chr_in H b u2 Hb.
    rewrite run_seq in H. cbn [run] in H.
    apply run_rep in H as (x & r & -> & Hx & _ & _ & H). cbn beta in H.
    chr_in H a' r1 Ha'. chr_in H b' r2 Hb'.
    unfold matchAt, reBold. cbn [seq run chr lazyStar]. rewrite Ha, Hb.
    apply rep_some; [exact Hx|reflexivity|lia|].
    rewrite Ha', Hb'. discriminate.
  - apply (reported reItalic); [unfold markdownPatterns; cbn [In]; tauto|]. apply test_found.
    unfold matchAt, reEmStar in H. cbn [seq] in H.
    rewrite run_seq in H. apply run_notBehind in H as [Hprev H].
    chr_in H a u1 Ha.
    rewrite run_seq in H. cbn [run] in H.
    apply run_rep in H as (x & r & -> & Hx & Hlo & _ & H). cbn beta in H.
    apply run_chr in H as (a' & r1 & -> & Ha' & H). cbn beta in H.
    assert (Hahead : match r1 with [] => true | z :: _ => negb (just asterisk z) end = true).
    { destruct r1 as [|z r1]; [reflexivity|].
      destruct (just asterisk z); [discriminate|reflexivity]. }
    unfold matchAt, reItalic. cbn [seq run chr plus].
    replace (match lastRead pre None with
             | Some c => if just asterisk c then None else _
             | None => _
             end)
      with (rep Greedy 1 None (except asterisk) []
              (fun prev' s' cs' =>
                 match s' with
                 | [] => None
                 | c :: s'0 =>
                     if just asterisk c
                     then match s'0 with
                          | [] => Some (s'0, cs')
                          | c0 :: _ => if just asterisk c0 then None else Some (s'0, cs')
                          end
                     else None
                 end) 0 (Some a) (x ++ a' :: r1)).
    + apply rep_some; [exact Hx|reflexivity|exact Hlo|].
      rewrite Ha'. destruct r1 as [|z r1]; [discriminate|].
      cbn in Hahead. destruct (just asterisk z); discriminate.
    + rewrite Ha. destruct (lastRead pre None) as [d|]; [|reflexivity].
      now rewrite Hprev.
  - apply (reported reInlineCode); [unfold markdownPatterns; cbn [In]; tauto|]. apply test_found.
    unfold matchAt, reCode in H. cbn [seq] in H.
    chr_in H a u1 Ha.
    rewrite run_seq in H. cbn [run] in H.
    apply run_rep in H as (x & r & -> & Hx & _ & _ & H). cbn beta in H.
    chr_in H a' r1 Ha'.
    unfold matchAt, reInlineCode. cbn [seq run chr lazyStar]. rewrite Ha.
    apply rep_some; [exact Hx|reflexivity|lia|].
    rewrite Ha'. discriminate.
Qed.

Lemma detector_reports_inline_marks_witness :
  hasMarkdownSyntax (lit "some `code` here") = true.
Proof.
  apply (detector_reports_inline_marks (lit "some `code` here")).
  right; right. reflexivity.
Defined.

(** *** What the detector passes over *)

Lemma run_lineStart (prev : option codeunit) (s : jsstring) (cs : captures) (k : cont)
  (out : outcome) :
  run lineStart prev s cs k = Some out ->
  match prev with Some d => isLineTerminator d = true | None => True end
  /\ k prev s cs = Some out.
Proof.
  unfold lineStart. intro H. apply run_notBehind in H as [Hp H]. split; [|exact H].
  destruct prev as [d|]; [|exact I]. now apply negb_false_iff in Hp.
Qed.

Lemma test_absent (r : re) (bad : codeunit -> bool) (text : jsstring) :
  (forall prev u out, matchAt r prev u = Some out -> exists c, In c u /\ bad c = true) ->
  forallb (fun c => negb (bad c)) text = true ->
  test r text = false.
Proof.
  intros Hbad Hall. unfold test. rewrite exec_none; [reflexivity|].
  intros pre u ->. destruct (matchAt r (lastRead pre None) u) as [out|] eqn:E;
    [exfalso|reflexivity].
  apply Hbad in E as (c & Hin & Hc).
  rewrite forallb_forall in Hall. specialize (Hall c).
  rewrite Hc in Hall. discriminate Hall. apply in_or_app. now right.
Qed.

(** What each pattern of the detector reads first. *)
Lemma openers (prev : option codeunit) (u : jsstring) (out : outcome) :
  (matchAt reHeaders prev u = Some out -> exists r, u = hash :: r)
  /\ (matchAt reBold prev u = Some out -> exists r, u = asterisk :: r)
  /\ (matchAt reItalic prev u = Some out -> exists r, u = asterisk :: r)
  /\ (matchAt reInlineCode prev u = Some out -> exists r, u = backtick :: r)
  /\ (matchAt reBlockquotes prev u = Some out -> exists r, u = greater :: r)
  /\ (matchAt reOrderedLists prev u = Some out ->
      exists ds r, ds <> [] /\ forallb isDigit ds = true /\ u = ds ++ period :: r)
  /\ (matchAt reUnorderedLists prev u = Some out ->
      exists m w r,
        u = m :: w :: r /\ (m = dash \/ m = asterisk \/ m = plusSign)
        /\ isWhiteSpace w = true
        /\ match prev with Some d => isLineTerminator d = true | None => True end).
Proof.
  unfold matchAt, reHeaders, reBold, reItalic, reInlineCode, reBlockquotes,
    reOrderedLists, reUnorderedLists. cbn [seq].
  repeat split; intro H.
  - rewrite run_seq in H. apply run_lineStart in H as [_ H].
    rewrite run_seq in H. apply run_rep in H as (ps & r & -> & Hps & Hlo & _ & _).
    destruct ps as [|c ps]; [cbn in Hlo; lia|]. cbn [forallb] in Hps.
    apply andb_true_iff in Hps as [Hc _]. apply N.eqb_eq in Hc. subst c.
    now exists (ps ++ r).
  - chr_in H a r Ha. apply N.eqb_eq in Ha. subst a. now exists r.
  - rewrite run_seq in H. apply run_notBehind in H as [_ H].
    chr_in H a r Ha. apply N.eqb_eq in Ha. subst a. now exists r.
  - chr_in H a r Ha. apply N.eqb_eq in Ha. subst a. now exists r.
  - rewrite run_seq in H. apply run_lineStart in H as [_ H].
    chr_in H a r Ha. apply N.eqb_eq in Ha. subst a. now exists r.
  - rewrite run_seq in H. apply run_lineStart in H as [_ H].
    rewrite run_seq in H. apply run_rep in H as (ds & r & -> & Hds & Hlo & _ & H).
    cbn beta in H. chr_in H a r' Ha. apply N.eqb_eq in Ha. subst a.
    exists ds, r'. repeat split; auto. intros ->. cbn in Hlo. lia.
  - rewrite run_seq in H. apply run_lineStart in H as [Hprev H].
    chr_in H m r Hm.
    apply run_rep in H as (ps & r' & -> & Hps & Hlo & _ & _).
    destruct ps as [|w ps]; [cbn in Hlo; lia|]. cbn [forallb] in Hps.
    apply andb_true_iff in Hps as [Hw _].
    exists m, w, (ps ++ r'). repeat split; auto.
    rewrite !orb_true_iff, !N.eqb_eq in Hm. tauto.
Qed.

Lemma in_app_cons (c : codeunit) (x r : jsstring) : In c (x ++ c :: r).
Proof. apply in_or_app. right. now left. Qed.

(** X17.  Text without a hash, an asterisk, a backtick, a greater-than sign, a
    hyphen or a plus sign, and without a digit or without a period, is never
    reported.  Links and emphasis written with underscores, which the parser
    turns into marks, are among such text. *)
Theorem detector_ignores_text_without_markers (text : jsstring) :
  forallb (fun c => negb ((c =? hash) || (c =? asterisk) || (c =? backtick)
                          || (c =? greater) || (c =? dash) || (c =? plusSign))) text
  = true ->
  forallb (fun c => negb (isDigit c)) text = true
  \/ forallb (fun c => negb (c =? period)) text = true ->
  hasMarkdownSyntax text = false.
Proof.
  intros Hall Hnum. unfold hasMarkdownSyntax.
  destruct (truthy text); [|reflexivity]. cbn [negb].
  assert (Hone : forall pattern c0,
            (c0 =? hash) || (c0 =? asterisk) || (c0 =? backtick)
            || (c0 =? greater) || (c0 =? dash) || (c0 =? plusSign) = true ->
            (forall prev u out, matchAt pattern prev u = Some out -> exists r, u = c0 :: r) ->
            test pattern text = false).
  { intros pattern c0 Hc0 Hopen.
    apply (test_absent _ (fun c => (c =? hash) || (c =? asterisk) || (c =? backtick)
                                   || (c =? greater) || (c =? dash) || (c =? plusSign)));
      [|exact Hall].
    intros prev u out H. apply Hopen in H as (r & ->). exists c0. split; [now left|exact Hc0]. }
  cbn [existsb markdownPatterns].
  rewrite (Hone reHeaders hash) by (reflexivity || intros prev u out; apply openers).
  rewrite (Hone reBold asterisk) by (reflexivity || intros prev u out; apply openers).
  rewrite (Hone reItalic asterisk) by (reflexivity || intros prev u out; apply openers).
  rewrite (Hone reInlineCode backtick) by (reflexivity || intros prev u out; apply openers).
  rewrite (Hone reBlockquotes greater) by (reflexivity || intros prev u out; apply openers).
  assert (H7 : test reUnorderedLists text = false).
  { apply (test_absent _ (fun c => (c =? hash) || (c =? asterisk) || (c =? backtick)
                                   || (c =? greater) || (c =? dash) || (c =? plusSign)));
      [|exact Hall].
    intros prev u out H. apply openers in H as (m & w & r & -> & Hm & _).
    exists m. split; [now left|]. destruct Hm as [->|[->| ->]]; reflexivity. }
  assert (H6 : test reOrderedLists text = false).
  { destruct Hnum as [Hd|Hp].
    - apply (test_absent _ isDigit); [|exact Hd].
      intros prev u out H. apply openers in H as (ds & r & Hne & Hds & ->).
      destruct ds as [|d ds]; [contradiction|]. exists d. split; [now left|].
      cbn [forallb] in Hds. now apply andb_true_iff in Hds as [Hd' _].
    - apply (test_absent _ (fun c => c =? period)); [|exact Hp].
      intros prev u out H. apply openers in H as (ds & r & _ & _ & ->).
      exists period. split; [apply in_app_cons|reflexivity]. }
  rewrite H6, H7. reflexivity.
Qed.

Lemma detector_ignores_text_without_markers_witness :
  hasMarkdownSyntax (lit "see [the docs](http://a.io) and __read__ them.") = false.
Proof.
  apply (detector_ignores_text_without_markers
           (lit "see [the docs](http://a.io) and __read__ them."));
    [reflexivity|now left].
Defined.

(** *** Horizontal rules *)

Lemma take_drop (p : codeunit -> bool) (s : jsstring) :
  s = takeWhile p s ++ dropWhile p s /\ forallb p (takeWhile p s) = true.
Proof.
  induction s as [|c s [IH1 IH2]]; [now split|]. cbn [takeWhile dropWhile].
  destruct (p c) eqn:E; [|now split]. cbn [app forallb]. rewrite E, IH2.
  split; [now rewrite <- IH1|reflexivity].
Qed.

(** A line is its trimmed text between two stretches of white space. *)
Lemma trim_cut (s : jsstring) :
  exists a b,
    s = a ++ trim s ++ b /\ forallb isWhiteSpace a = true /\ forallb isWhiteSpace b = true.
Proof.
  unfold trim, trimStart, trimEnd.
  destruct (take_drop isWhiteSpace s) as [H1 H2].
  destruct (take_drop isWhiteSpace (rev (dropWhile isWhiteSpace s))) as [H3 H4].
  exists (takeWhile isWhiteSpace s),
         (rev (takeWhile isWhiteSpace (rev (dropWhile isWhiteSpace s)))).
  split; [|split; [exact H2|now apply forallb_rev]].
  rewrite <- rev_app_distr, <- H3, rev_involutive. exact H1.
Qed.

Lemma classify_rule (line : jsstring) :
  classify line = Rule -> test reRule (trim line) = true.
Proof.
  unfold classify.
  repeat match goal with
         | |- context [if ?b then _ else _] =>
             let E := fresh in destruct b eqn:E; try discriminate
         end.
  reflexivity.
Qed.

Lemma rule_shape (s : jsstring) :
  test reRule s = true ->
  exists ds, s = dash :: dash :: ds /\ ds <> [] /\ forallb (just dash) ds = true.
Proof.
  intro H. apply test_anchored in H.
  destruct (matchAt _ None s) as [out|] eqn:E; [clear H|contradiction].
  unfold matchAt, reRule in E. cbn [seq] in E. rewrite run_seq in E. cbn [run] in E.
  chr_in E a r Ha. chr_in E b r' Hb.
  rewrite ?run_seq in E. apply run_rep in E as (ds & r2 & -> & Hds & Hlo & _ & E).
  cbn beta in E. destruct r2; [|discriminate].
  apply N.eqb_eq in Ha, Hb. subst. exists ds. rewrite app_nil_r.
  repeat split; auto. intros ->. cbn in Hlo. lia.
Qed.

Lemma all_last (c : codeunit) (ps : jsstring) (prev : option codeunit) :
  forallb (just c) ps = true -> ps <> [] -> lastRead ps prev = Some c.
Proof.
  intros H Hne. destruct ps as [|y ps] using rev_ind; [contradiction|].
  rewrite lastRead_snoc. rewrite forallb_app in H.
  apply andb_true_iff in H as [_ H]. cbn in H. rewrite andb_true_r in H.
  apply N.eqb_eq in H. now subst.
Qed.

Lemma suffix_class (p : codeunit -> bool) (x pre u : jsstring) :
  forallb p x = true -> x = pre ++ u ->
  forallb p pre = true /\ forallb p u = true.
Proof. intros H ->. rewrite forallb_app in H. now apply andb_true_iff in H. Qed.

Lemma marker_not_space (m : codeunit) :
  m = dash \/ m = asterisk \/ m = plusSign -> isWhiteSpace m = false.
Proof. intros [->|[->| ->]]; reflexivity. Qed.

(** The list pattern of the detector finds nothing in a line of hyphens. *)
Lemma hyphens_are_no_item (a ds b : jsstring) :
  forallb isWhiteSpace a = true -> forallb isWhiteSpace b = true ->
  forallb (just dash) ds = true ->
  test reUnorderedLists (a ++ (dash :: dash :: ds) ++ b) = false.
Proof.
  intros Ha Hb Hds. unfold test, exec.
  assert (Hws : forall x rest prev pre u,
            forallb isWhiteSpace x = true -> x = pre ++ u -> u <> [] ->
            matchAt reUnorderedLists prev (u ++ rest) = None).
  { intros x rest prev pre u Hx Hcut Hu.
    destruct (matchAt _ _ _) as [out|] eqn:E; [exfalso|reflexivity].
    apply openers in E as (m & w & r & E & Hm & _).
    destruct (suffix_class _ _ _ _ Hx Hcut) as [_ Hu'].
    destruct u as [|c u]; [contradiction|]. cbn [app] in E. injection E as -> _.
    cbn [forallb] in Hu'. apply andb_true_iff in Hu' as [Hc _].
    now rewrite (marker_not_space m Hm) in Hc. }
  rewrite search_passes by (intros pre u Hcut Hu; now apply (Hws a _ _ pre u)).
  rewrite search_passes.
  - rewrite <- (app_nil_r b).
    rewrite search_passes by (intros pre u Hcut Hu; now apply (Hws b _ _ pre u)).
    cbn [search].
    destruct (matchAt _ _ []) as [out|] eqn:E; [exfalso|reflexivity].
    apply openers in E as (m & w & r & E & _). discriminate.
  - intros pre u Hcut Hu.
    destruct (matchAt _ _ _) as [out|] eqn:E; [exfalso|reflexivity].
    apply openers in E as (m & w & r & E & Hm & Hw & Hprev).
    destruct pre as [|y pre].
    + cbn [app] in Hcut. subst u. cbn [app] in E. injection E as _ <- _.
      discriminate.
    + assert (Hall : forallb (just dash) (dash :: dash :: ds) = true)
        by (cbn [forallb]; now rewrite Hds).
      destruct (suffix_class _ _ _ _ Hall Hcut) as [Hpre _].
      rewrite (all_last dash) in Hprev by (assumption || discriminate).
      discriminate.
Qed.

(** X18.  A line the parser turns into a horizontal rule is never reported. *)
Theorem detector_ignores_horizontal_rules (line : jsstring) :
  classify line = Rule -> hasMarkdownSyntax line = false.
Proof.
  intro H. apply classify_rule in H. apply rule_shape in H as (ds & Ht & _ & Hds).
  destruct (trim_cut line) as (a & b & Hline & Ha & Hb). rewrite Ht in Hline.
  assert (Hall : forallb (fun c => isWhiteSpace c || (c =? dash)) line = true).
  { rewrite Hline, !forallb_app. cbn [forallb].
    rewrite !andb_true_iff. repeat split.
    - rewrite forallb_forall in Ha |- *. intros c Hc. now rewrite (Ha c Hc).
    - rewrite forallb_forall in Hds |- *. intros c Hc. apply Hds in Hc.
      unfold just in Hc. rewrite Hc. apply orb_true_r.
    - rewrite forallb_forall in Hb |- *. intros c Hc. now rewrite (Hb c Hc). }
  assert (Hone : forall pattern (bad : codeunit -> bool),
            (forall c, bad c = true -> isWhiteSpace c || (c =? dash) = false) ->
            (forall prev u out, matchAt pattern prev u = Some out ->
                                exists c r, u = c :: r /\ bad c = true) ->
            test pattern line = false).
  { intros pattern bad Hbad Hopen. apply (test_absent _ bad).
    - intros prev u out E. apply Hopen in E as (c & r & -> & Hc).
      exists c. split; [now left|exact Hc].
    - rewrite forallb_forall in Hall |- *. intros c Hc. specialize (Hall c Hc).
      destruct (bad c) eqn:E; [|reflexivity]. apply Hbad in E. congruence. }
  assert (Hsym : forall c0, 33 <= c0 <= 126 -> c0 <> dash ->
                 forall c, (c =? c0) = true -> isWhiteSpace c || (c =? dash) = false).
  { intros c0 Hr Hd c Hc. apply N.eqb_eq in Hc. subst c.
    apply orb_false_iff. split.
    - destruct (isWhiteSpace c0) eqn:E; [|reflexivity]. apply space_range in E. lia.
    - now apply N.eqb_neq. }
  unfold hasMarkdownSyntax. destruct (truthy line); [|reflexivity].
  cbn [negb existsb markdownPatterns].
  rewrite (Hone reHeaders (fun c => c =? hash))
    by (first [apply Hsym; [unfold hash, asterisk, backtick, greater; lia|discriminate]
              | intros prev u out E; apply openers in E as (r & ->);
                exists hash, r; split; reflexivity]).
  rewrite (Hone reBold (fun c => c =? asterisk))
    by (first [apply Hsym; [unfold hash, asterisk, backtick, greater; lia|discriminate]
              | intros prev u out E; apply openers in E as (r & ->);
                exists asterisk, r; split; reflexivity]).
  rewrite (Hone reItalic (fun c => c =? asterisk))
    by (first [apply Hsym; [unfold hash, asterisk, backtick, greater; lia|discriminate]
              | intros prev u out E; apply openers in E as (r & ->);
                exists asterisk, r; split; reflexivity]).
  rewrite (Hone reInlineCode (fun c => c =? backtick))
    by (first [apply Hsym; [unfold hash, asterisk, backtick, greater; lia|discriminate]
              | intros prev u out E; apply openers in E as (r & ->);
                exists backtick, r; split; reflexivity]).
  rewrite (Hone reBlockquotes (fun c => c =? greater))
    by (first [apply Hsym; [unfold hash, asterisk, backtick, greater; lia|discriminate]
              | intros prev u out E; apply openers in E as (r & ->);
                exists greater, r; split; reflexivity]).
  rewrite (Hone reOrderedLists isDigit).
  - rewrite Hline. now rewrite hyphens_are_no_item.
  - intros c Hc. apply digit_range in Hc. apply orb_false_iff. split.
    + destruct (isWhiteSpace c) eqn:E; [|reflexivity]. apply space_range in E. lia.
    + apply N.eqb_neq. unfold dash. lia.
  - intros prev u out E. apply openers in E as (ds' & r & Hne & Hd & ->).
    destruct ds' as [|d ds']; [contradiction|]. exists d, (ds' ++ period :: r).
    split; [reflexivity|]. cbn [forallb] in Hd. now apply andb_true_iff in Hd as [Hd _].
Qed.

Lemma detector_ignores_horizontal_rules_witness :
  hasMarkdownSyntax (lit " ----- ") = false.
Proof. apply (detector_ignores_horizontal_rules (lit " ----- ")). reflexivity. Defined.

(** *** Lines of blocks *)

Lemma join_split (s : jsstring) : join [nl] (split nl s) = s.
Proof.
  induction s as [|c s IH]; [reflexivity|]. cbn [split].
  destruct (c =? nl) eqn:Ec.
  - apply N.eqb_eq in Ec. subst c.
    destruct (split nl s) as [|h t] eqn:Es.
    + destruct s; cbn in Es; [discriminate|].
      destruct (_ =? _); [discriminate|]. destruct (split nl s); discriminate.
    + change (join [nl] ([] :: h :: t)) with ([] ++ [nl] ++ join [nl] (h :: t)).
      now rewrite IH.
  - destruct (split nl s) as [|h t] eqn:Es.
    + destruct s; cbn in Es; [discriminate|].
      destruct (_ =? _); [discriminate|]. destruct (split nl s); discriminate.
    + rewrite <- IH. rewrite !join_cons. reflexivity.
Qed.

(** A line of a text lies in it after a newline, or at its start. *)
Lemma line_in_text (text line : jsstring) :
  In line (split nl text) ->
  exists pre post,
    text = pre ++ line ++ post /\ (pre = [] \/ exists p, pre = p ++ [nl]).
Proof.
  intro Hin. rewrite <- (join_split text). revert Hin.
  generalize (split nl text) as parts. clear text.
  induction parts as [|p rest IH]; [contradiction|].
  intros [<-|Hin].
  - exists [], (concat (map (fun q => [nl] ++ q) rest)).
    split; [now rewrite join_cons|now left].
  - destruct (IH Hin) as (pre & post & Hj & Hpre).
    destruct rest as [|q rest]; [contradiction|].
    change (join [nl] (p :: q :: rest)) with (p ++ [nl] ++ join [nl] (q :: rest)).
    rewrite Hj. exists (p ++ [nl] ++ pre), post. split; [now rewrite <- !app_assoc|].
    right. destruct Hpre as [->|(p' & ->)].
    + exists p. now rewrite app_nil_r.
    + exists (p ++ [nl] ++ p'). now rewrite <- !app_assoc.
Qed.

Lemma lineStart_passes (pre s : jsstring) (cs : captures) (k : cont) :
  pre = [] \/ (exists p, pre = p ++ [nl]) ->
  run lineStart (lastRead pre None) s cs k = k (lastRead pre None) s cs.
Proof.
  intros [->|(p & ->)]; [reflexivity|]. now rewrite lastRead_snoc.
Qed.

(** A line without white space at its start is its trimmed text and a
    stretch of white space. *)
Lemma trim_cut_start (s : jsstring) :
  trimStart s = s -> exists b, s = trim s ++ b.
Proof.
  intro H. unfold trim. rewrite H. unfold trimEnd.
  destruct (take_drop isWhiteSpace (rev s)) as [H1 _].
  exists (rev (takeWhile isWhiteSpace (rev s))).
  now rewrite <- rev_app_distr, <- H1, rev_involutive.
Qed.

Lemma dropWhile_head (p : codeunit -> bool) (s : jsstring) (c : codeunit) (r : jsstring) :
  dropWhile p s = c :: r -> p c = false.
Proof.
  induction s as [|x s IH]; [discriminate|]. cbn [dropWhile].
  destruct (p x) eqn:E; [exact IH|]. intro H. injection H as <- _. exact E.
Qed.

(** Trimmed text does not begin with white space. *)
Lemma trim_head (s : jsstring) (c : codeunit) (r : jsstring) :
  trim s = c :: r -> isWhiteSpace c = false.
Proof.
  unfold trim, trimStart. intro H.
  destruct (dropWhile isWhiteSpace s) as [|d t] eqn:E; [discriminate|].
  pose proof (dropWhile_head _ _ _ _ E) as Hd.
  unfold trimEnd in H.
  destruct (take_drop isWhiteSpace (rev (d :: t))) as [H1 _].
  apply (f_equal (@rev _)) in H1. rewrite rev_involutive, rev_app_distr in H1.
  rewrite H in H1. cbn [app] in H1. injection H1 as -> _. exact Hd.
Qed.

Lemma space_digit (c : codeunit) : isDigit c = true -> isWhiteSpace c = false.
Proof.
  intro H. apply digit_range in H. destruct (isWhiteSpace c) eqn:E; [|reflexivity].
  apply space_range in E. lia.
Qed.

(** X19.  In a text, a line without white space at its start that the parser
    turns into a heading, a code block or an item of an ordered or unordered
    list makes the detector report the text. *)
Theorem detector_reports_block_lines (text line : jsstring) :
  In line (split nl text) ->
  trimStart line = line ->
  isBlockLine (classify line) = true ->
  hasMarkdownSyntax text = true.
Proof.
  intros Hin Hstart Hclass.
  destruct (line_in_text _ _ Hin) as (pre & post & -> & Hpre).
  destruct (trim_cut_start _ Hstart) as (b & Hline).
  unfold classify in Hclass.
  destruct (JS.eqb (trim line) []); [discriminate|].
  destruct (test reHeading (trim line)) eqn:E1;
    [|destruct (test reFence (trim line)) eqn:E2;
      [|destruct (test reUnchecked (trim line)); [discriminate|];
        destruct (test reChecked (trim line)); [discriminate|];
        destruct (test reOrdered (trim line)) eqn:E3;
        [|destruct (test reUnordered (trim line)) eqn:E4;
          [|destruct (test reQuote (trim line)); [discriminate|];
            destruct (test reRule (trim line)); discriminate]]]];
    clear Hclass.
  - apply (reported reHeaders); [unfold markdownPatterns; cbn [In]; tauto|]. apply test_found.
    apply test_anchored in E1.
    destruct (matchAt _ None (trim line)) as [out|] eqn:E; [clear E1|contradiction].
    unfold matchAt, reHeading in E. cbn [seq] in E. rewrite run_seq in E. cbn [run] in E.
    rewrite ?run_seq in E. apply run_rep in E as (ps & r & Ht & Hps & Hlo & Hhi & E).
    cbn beta in E. apply run_rep in E as (ps2 & r2 & -> & Hps2 & Hlo2 & _ & _).
    rewrite Hline, Ht, <- !app_assoc.
    unfold matchAt, reHeaders. cbn [seq]. rewrite run_seq, lineStart_passes by exact Hpre.
    cbn [run plus]. apply rep_some; [exact Hps| |exact Hlo|].
    + intros i Hi. cbn [within] in Hhi. cbn [below Nat.add]. apply Nat.ltb_lt. lia.
    + apply rep_some; [exact Hps2|reflexivity|exact Hlo2|discriminate].
  - apply (reported reInlineCode); [unfold markdownPatterns; cbn [In]; tauto|]. apply test_found.
    apply test_anchored in E2.
    destruct (matchAt _ None (trim line)) as [out|] eqn:E; [clear E2|contradiction].
    unfold matchAt, reFence in E. cbn [seq] in E. rewrite run_seq in E. cbn [run] in E.
    apply word_shape in E as (r & Ht & _); [|discriminate].
    rewrite Hline, Ht, <- !app_assoc.
    unfold matchAt, reInlineCode. cbn [seq run chr lazyStar app lit].
    change (N_of_ascii "`") with backtick. rewrite !just_self.
    change (backtick :: backtick :: r ++ b ++ post)
      with ([] ++ backtick :: backtick :: r ++ b ++ post).
    apply rep_some; [reflexivity|reflexivity|lia|].
    cbn [lastRead]. rewrite just_self. discriminate.
  - apply (reported reOrderedLists); [unfold markdownPatterns; cbn [In]; tauto|]. apply test_found.
    apply test_anchored in E3.
    destruct (matchAt _ None (trim line)) as [out|] eqn:E; [clear E3|contradiction].
    unfold matchAt, reOrdered in E. cbn [seq] in E. rewrite run_seq in E. cbn [run] in E.
    rewrite ?run_seq in E. apply run_rep in E as (ps0 & r0 & Ht & Hps0 & _ & _ & E).
    cbn beta in E. rewrite ?run_seq in E.
    apply run_rep in E as (ds & r1 & -> & Hds & Hlo & _ & E). cbn beta in E.
    chr_in E a r2 Ha. apply N.eqb_eq in Ha. subst a.
    apply run_rep in E as (ps2 & r3 & -> & Hps2 & Hlo2 & _ & _).
    assert (ps0 = []) as ->.
    { destruct ps0 as [|c ps0]; [reflexivity|exfalso].
      cbn [app] in Ht. apply trim_head in Ht. cbn [forallb] in Hps0.
      apply andb_true_iff in Hps0 as [Hc _]. unfold space in Hc. congruence. }
    cbn [app] in Ht. rewrite Hline, Ht, <- !app_assoc. cbn [app]. rewrite <- ?app_assoc.
    unfold matchAt, reOrderedLists. cbn [seq].
    rewrite run_seq, lineStart_passes by exact Hpre.
    cbn [run plus chr]. apply rep_some; [exact Hds|reflexivity|exact Hlo|].
    cbn [app]. rewrite just_self.
    apply rep_some; [exact Hps2|reflexivity|exact Hlo2|discriminate].
  - apply (reported reUnorderedLists); [unfold markdownPatterns; cbn [In]; tauto|].
    apply test_found.
    apply test_anchored in E4.
    destruct (matchAt _ None (trim line)) as [out|] eqn:E; [clear E4|contradiction].
    unfold matchAt, reUnordered in E. cbn [seq] in E. rewrite run_seq in E. cbn [run] in E.
    rewrite ?run_seq in E. apply run_rep in E as (ps0 & r0 & Ht & Hps0 & _ & _ & E).
    cbn beta in E. destruct r0 as [|m r1]; [discriminate|].
    destruct ((m =? dash) || (m =? asterisk) || (m =? plusSign)) eqn:Hm; [|discriminate].
    apply run_rep in E as (ps2 & r3 & -> & Hps2 & Hlo2 & _ & _).
    assert (ps0 = []) as ->.
    { destruct ps0 as [|c ps0]; [reflexivity|exfalso].
      cbn [app] in Ht. apply trim_head in Ht. cbn [forallb] in Hps0.
      apply andb_true_iff in Hps0 as [Hc _]. unfold space in Hc. congruence. }
    cbn [app] in Ht. rewrite Hline, Ht, <- !app_assoc. cbn [app]. rewrite <- ?app_assoc.
    unfold matchAt, reUnorderedLists. cbn [seq].
    rewrite run_seq, lineStart_passes by exact Hpre.
    cbn [run plus app]. rewrite Hm.
    apply rep_some; [exact Hps2|reflexivity|exact Hlo2|discriminate].
Qed.

Lemma detector_reports_block_lines_witness :
  hasMarkdownSyntax (lit "intro" ++ [nl] ++ lit "3. third  " ++ [nl] ++ lit "end") = true.
Proof.
  apply (detector_reports_block_lines _ (lit "3. third  "));
    [right; left; reflexivity|reflexivity|reflexivity].
Defined.

End DetectorFacts.

(* ================================================================= *)
(** ** Inline passes *)

Module InlineFacts.

Import Parser JSFacts RegexFacts RegexSound RuleFacts.

(** A pass whose pattern opens with a code unit the text does not hold
    leaves the text as it is. *)
Lemma pass_idle (r : re) (tpl : list piece) (trigger : codeunit) (text : jsstring) :
  (forall prev c s, (c =? trigger) = false -> matchAt r prev (c :: s) = None) ->
  (forall prev, matchAt r prev [] = None) ->
  forallb (fun c => negb (c =? trigger)) text = true ->
  replaceAll r tpl text = text.
Proof.
  intros Hcons Hnil Hall. unfold replaceAll.
  rewrite <- (app_nil_r text) at 1.
  rewrite (replaceAll_passes r tpl trigger text [] Hcons Hall).
  cbn [replaceAllFrom]. rewrite Hnil. apply app_nil_r.
Qed.

Ltac opens_with :=
  intros prev c s Hc; unfold matchAt, reLink, reStrongStar, reEmStar, reStrongUnderscore,
    reEmUnderscore, reCode; cbn [seq run chr]; unfold just; rewrite ?Hc;
  first [reflexivity | destruct prev as [d|]; [destruct (d =? _)|]; reflexivity].

Ltac needs_input :=
  intros prev; unfold matchAt, reLink, reStrongStar, reEmStar, reStrongUnderscore,
    reEmUnderscore, reCode; cbn [seq run chr];
  first [reflexivity | destruct prev as [d|]; [destruct (just _ d)|]; reflexivity].

(** X20.  Text without an opening bracket, an asterisk, an underscore or a
    backtick goes through the inline passes unchanged: nothing in it is
    escaped or rewritten, angle brackets and ampersands included. *)
Theorem inline_passes_keep_text_without_markers (text : jsstring) :
  forallb (fun c => negb ((c =? lbracket) || (c =? asterisk) || (c =? underscore)
                          || (c =? backtick))) text = true ->
  processInlineMarkdown text = text.
Proof.
  intro H.
  assert (Hone : forall trigger,
            trigger = lbracket \/ trigger = asterisk \/ trigger = underscore
            \/ trigger = backtick ->
            forallb (fun c => negb (c =? trigger)) text = true).
  { intros trigger Ht. rewrite forallb_forall in H |- *. intros c Hc.
    specialize (H c Hc). rewrite negb_true_iff, !orb_false_iff in H.
    destruct H as [[[H1 H2] H3] H4].
    destruct Ht as [->|[->|[->| ->]]]; now rewrite negb_true_iff. }
  unfold processInlineMarkdown.
  rewrite (pass_idle reLink tplLink lbracket text); [|opens_with|needs_input|auto].
  rewrite (pass_idle reStrongStar tplStrong asterisk text);
    [|opens_with|needs_input|auto].
  rewrite (pass_idle reEmStar tplEm asterisk text); [|opens_with|needs_input|auto].
  rewrite (pass_idle reStrongUnderscore tplStrong underscore text);
    [|opens_with|needs_input|auto 6].
  rewrite (pass_idle reEmUnderscore tplEm underscore text);
    [|opens_with|needs_input|auto 6].
  apply (pass_idle reCode tplCode backtick text); [opens_with|needs_input|auto 6].
Qed.

Lemma inline_passes_keep_text_without_markers_witness :
  processInlineMarkdown (lit "<b onclick=x>1 & 2</b>") = lit "<b onclick=x>1 & 2</b>".
Proof.
  apply (inline_passes_keep_text_without_markers (lit "<b onclick=x>1 & 2</b>")).
  reflexivity.
Defined.

(** X21.  A link becomes an anchor whose address is the text between the
    parentheses, copied as it stands: quotes and angle brackets in it are
    not escaped. *)
Theorem link_address_is_copied_verbatim (t href : jsstring) :
  t <> [] ->
  forallb (fun c => negb ((c =? rbracket) || (c =? asterisk) || (c =? underscore)
                          || (c =? backtick))) t = true ->
  href <> [] ->
  forallb (fun c => negb ((c =? rparen) || (c =? asterisk) || (c =? underscore)
                          || (c =? backtick))) href = true ->
  processInlineMarkdown ([lbracket] ++ t ++ [rbracket; lparen] ++ href ++ [rparen])
  = lit "<a href=" ++ [dquote] ++ href ++ [dquote] ++ lit ">" ++ t ++ lit "</a>".
Proof.
  intros Hne Ht Hne' Hh.
  assert (Hsplit : forall (s : jsstring) (a : codeunit),
            forallb (fun c => negb ((c =? a) || (c =? asterisk) || (c =? underscore)
                                    || (c =? backtick))) s = true ->
            forallb (except a) s = true
            /\ forallb (fun c => negb (c =? asterisk)) s = true
            /\ forallb (fun c => negb (c =? underscore)) s = true
            /\ forallb (fun c => negb (c =? backtick)) s = true).
  { intros s a H. rewrite !forallb_forall in *.
    repeat split; intros c Hc; specialize (H c Hc);
      rewrite negb_true_iff, !orb_false_iff in H; unfold except;
      rewrite negb_true_iff; tauto. }
  destruct (Hsplit _ _ Ht) as (Ht1 & Ht2 & Ht3 & Ht4).
  destruct (Hsplit _ _ Hh) as (Hh1 & Hh2 & Hh3 & Hh4).
  unfold processInlineMarkdown.
  assert (H1 : replaceAll reLink tplLink
                 ([lbracket] ++ t ++ [rbracket; lparen] ++ href ++ [rparen])
               = lit "<a href=" ++ [dquote] ++ href ++ [dquote] ++ lit ">" ++ t
                   ++ lit "</a>").
  { unfold replaceAll.
    rewrite <- (app_nil_r ([lbracket] ++ t ++ [rbracket; lparen] ++ href ++ [rparen])).
    rewrite (replaceAll_found reLink tplLink _ [] None [(2%nat, href); (1%nat, t)]).
    - cbn [replaceAllFrom lastRead app].
      assert (Hnil : forall prev, matchAt reLink prev [] = None) by needs_input.
      rewrite Hnil. cbn [expand tplLink group Nat.eqb].
      rewrite <- !app_assoc, !app_nil_r. reflexivity.
    - discriminate.
    - rewrite app_nil_r. unfold matchAt, reLink. cbn [seq app run chr plus].
      rewrite just_self.
      erewrite rep_greedy_max; cycle 1.
      + exact Ht1.
      + reflexivity.
      + destruct t; [contradiction|cbn [length]; lia].
      + apply except_self.
      + cbn beta. rewrite !just_self.
        erewrite rep_greedy_max; cycle 1.
        * exact Hh1.
        * reflexivity.
        * destruct href; [contradiction|cbn [length]; lia].
        * apply except_self.
        * cbn beta. rewrite just_self. reflexivity.
        * reflexivity.
      + now rewrite !consumed_app. }
  rewrite H1.
  set (out := lit "<a href=" ++ [dquote] ++ href ++ [dquote] ++ lit ">" ++ t ++ lit "</a>").
  assert (Hout : forall trigger,
            trigger = asterisk \/ trigger = underscore \/ trigger = backtick ->
            forallb (fun c => negb (c =? trigger)) out = true).
  { intros trigger Hc. unfold out. rewrite !forallb_app.
    change (@forallb N) with (@forallb codeunit) in *.
    destruct Hc as [->|[->| ->]]; rewrite ?Ht2, ?Ht3, ?Ht4, ?Hh2, ?Hh3, ?Hh4;
      reflexivity. }
  rewrite (pass_idle reStrongStar tplStrong asterisk out);
    [|opens_with|needs_input|auto].
  rewrite (pass_idle reEmStar tplEm asterisk out); [|opens_with|needs_input|auto].
  rewrite (pass_idle reStrongUnderscore tplStrong underscore out);
    [|opens_with|needs_input|auto].
  rewrite (pass_idle reEmUnderscore tplEm underscore out);
    [|opens_with|needs_input|auto].
  apply (pass_idle reCode tplCode backtick out); [opens_with|needs_input|auto].
Qed.

Lemma link_address_is_copied_verbatim_witness :
  processInlineMarkdown (lit "[x](a" ++ [dquote] ++ lit " b=" ++ [dquote] ++ lit "<c)")
  = lit "<a href=" ++ [dquote] ++ lit "a" ++ [dquote] ++ lit " b=" ++ [dquote]
      ++ lit "<c" ++ [dquote] ++ lit ">x</a>".
Proof.
  apply (link_address_is_copied_verbatim
           (lit "x") (lit "a" ++ [dquote] ++ lit " b=" ++ [dquote] ++ lit "<c"));
    solve [discriminate | reflexivity].
Defined.

End InlineFacts.

(* ================================================================= *)
(** ** Lines of the parser *)

Module LineFacts.

Import Bounds Parser JSFacts RegexFacts RegexSound RuleFacts DetectorFacts.

Lemma takeWhile_head (p : codeunit -> bool) (c : codeunit) (s : jsstring) :
  p c = true -> takeWhile p (c :: s) <> [].
Proof. intro H. cbn [takeWhile]. now rewrite H. Qed.

Lemma dropWhile_rest (p : codeunit -> bool) (s : jsstring) :
  match dropWhile p s with [] => True | c :: _ => p c = false end.
Proof.
  destruct (dropWhile p s) as [|c r] eqn:E; [exact I|]. now apply dropWhile_head in E.
Qed.

Lemma dropWhile_again (p : codeunit -> bool) (s : jsstring) :
  dropWhile p (dropWhile p s) = dropWhile p s.
Proof.
  pose proof (dropWhile_rest p s) as H. destruct (dropWhile p s) as [|c r]; [reflexivity|].
  cbn [dropWhile]. now rewrite H.
Qed.

(** Trimmed text does not end in white space. *)
Lemma trim_last (s x : jsstring) (c : codeunit) :
  trim s = x ++ [c] -> isWhiteSpace c = false.
Proof.
  unfold trim, trimEnd. intro H. apply (f_equal (@rev _)) in H.
  rewrite rev_involutive, rev_app_distr in H. cbn [rev app] in H.
  now apply dropWhile_head in H.
Qed.

(** X22.  A line is a heading only when its trimmed text is one to six hashes,
    white space and a text that is not empty; the level is the number of
    hashes and the text starts after the white space.  Seven hashes, or
    hashes alone, do not make a heading. *)
Theorem heading_lines_have_one_to_six_hashes (line t : jsstring) (n : nat) :
  classify line = Heading n t ->
  (1 <= n <= 6)%nat /\ t <> [] /\ trimStart t = t
  /\ exists ws,
       ws <> [] /\ forallb isWhiteSpace ws = true
       /\ trim line = JS.repeat [hash] n ++ ws ++ t.
Proof.
  unfold classify. destruct (JS.eqb (trim line) []); [discriminate|].
  destruct (test reHeading (trim line)) eqn:E1.
  2:{ repeat match goal with
             | |- context [if ?b then _ else _] => destruct b; try discriminate
             end. }
  intro H. injection H as Hn Ht.
  apply test_anchored in E1.
  destruct (matchAt _ None (trim line)) as [out|] eqn:E; [clear E1|contradiction].
  unfold matchAt, reHeading in E. cbn [seq] in E. rewrite run_seq in E. cbn [run] in E.
  rewrite ?run_seq in E. apply run_rep in E as (ps & r & Htl & Hps & Hlo & Hhi & E).
  cbn beta in E. apply run_rep in E as (ps2 & r2 & -> & Hps2 & Hlo2 & _ & _).
  cbn [within] in Hhi.
  destruct ps2 as [|c ps2]; [cbn in Hlo2; lia|].
  cbn [forallb] in Hps2. apply andb_true_iff in Hps2 as [Hc _].
  destruct (take_drop space ((c :: ps2) ++ r2)) as [Hcut Hw].
  set (w := takeWhile space ((c :: ps2) ++ r2)) in *.
  set (tail := dropWhile space ((c :: ps2) ++ r2)) in *.
  assert (Hwne : w <> []) by (apply takeWhile_head; exact Hc).
  assert (Hfirst : match w ++ tail with [] => True | x :: _ => just hash x = false end).
  { rewrite <- Hcut. cbn [app]. now apply space_not_hash. }
  rewrite Hcut in Htl.
  assert (H1 : matchAt reHeading None ((ps ++ w) ++ tail) = Some (tail, [])).
  { rewrite <- app_assoc. unfold matchAt, reHeading. cbn [seq run plus].
    apply rep_greedy_max; [exact Hps| |exact Hlo|exact Hfirst|].
    - intros i Hi. cbn [below Nat.add]. apply Nat.ltb_lt. lia.
    - apply rep_greedy_max; [exact Hw|reflexivity| |apply dropWhile_rest|reflexivity].
      destruct w; [contradiction|cbn [length]; lia]. }
  assert (H2 : matchAt reHashes None (ps ++ w ++ tail) = Some (w ++ tail, [])).
  { unfold matchAt, reHashes. cbn [seq run].
    apply rep_greedy_max; [exact Hps| |exact Hlo|exact Hfirst|reflexivity].
    intros i Hi. cbn [below Nat.add]. apply Nat.ltb_lt. lia. }
  unfold reHeading, reHashes in *. cbn [seq] in *.
  destruct (anchored_hit _ _ _ _ H1) as (_ & Hr & _).
  destruct (anchored_hit _ _ _ _ H2) as (_ & _ & He).
  rewrite Htl in Ht, Hn. rewrite He in Hn. cbn [matched] in Hn.
  rewrite app_assoc, Hr in Ht. subst n t.
  split; [lia|]. split; [|split].
  - intros Htail. rewrite Htail, app_nil_r in Htl.
    destruct w as [|y w] using rev_ind; [contradiction|].
    rewrite app_assoc in Htl. apply trim_last in Htl.
    rewrite forallb_app in Hw. apply andb_true_iff in Hw as [_ Hw].
    cbn in Hw. unfold space in Hw. rewrite Htl in Hw. discriminate.
  - apply dropWhile_again.
  - exists w. split; [exact Hwne|]. split; [exact Hw|].
    now rewrite <- (repeat_just hash ps Hps).
Qed.

Lemma heading_lines_have_one_to_six_hashes_witness :
  (1 <= 3 <= 6)%nat /\ lit "Title" <> [] /\ trimStart (lit "Title") = lit "Title"
  /\ exists ws,
       ws <> [] /\ forallb isWhiteSpace ws = true
       /\ trim (lit "  ###   Title ") = JS.repeat [hash] 3 ++ ws ++ lit "Title".
Proof.
  apply (heading_lines_have_one_to_six_hashes (lit "  ###   Title ")). reflexivity.
Defined.

(** X23.  The parser drops the number of an ordered item: whatever digits open
    the line, the markup is a list of one item holding the text, with no
    trace of the number. *)
Theorem ordered_lines_lose_their_number (ds ws t : jsstring) :
  ds <> [] -> forallb isDigit ds = true ->
  ws <> [] -> forallb isWhiteSpace ws = true ->
  t <> [] -> isWhiteSpace (hd 0 t) = false -> isWhiteSpace (last t 0) = false ->
  lineMarkup (classify (ds ++ [period] ++ ws ++ t))
  = lit "<ol><li>" ++ processInlineMarkdown t ++ lit "</li></ol>".
Proof.
  intros Hds Hdig Hws Hsp Ht Hfirst Hlast.
  destruct ds as [|d ds]; [contradiction|]. cbn [forallb] in Hdig.
  apply andb_true_iff in Hdig as [Hd Hdig].
  pose proof (space_digit d Hd) as Hdsp. apply digit_range in Hd.
  assert (Hh : (d =? hash) = false) by (apply N.eqb_neq; unfold hash; lia).
  assert (Hb : (d =? backtick) = false) by (apply N.eqb_neq; unfold backtick; lia).
  assert (Hm : (d =? dash) = false) by (apply N.eqb_neq; unfold dash; lia).
  assert (Hb' : (d =? 96) = false) by exact Hb.
  set (line := (d :: ds) ++ [period] ++ ws ++ t).
  assert (Htrim : trim line = line).
  { unfold line. cbn [app]. apply trim_id; [exact Hdsp|].
    replace (d :: ds ++ period :: ws ++ t) with ((d :: ds ++ period :: ws) ++ t)
      by (cbn [app]; now rewrite <- app_assoc).
    now rewrite last_app_nonempty. }
  assert (Hhit : matchAt reOrdered None (((d :: ds) ++ [period] ++ ws) ++ t) = Some (t, [])).
  { rewrite <- !app_assoc. unfold matchAt, reOrdered. cbn [seq run star plus].
    change ((d :: ds) ++ [period] ++ ws ++ t) with ([] ++ (d :: ds) ++ [period] ++ ws ++ t).
    apply rep_greedy_max; [reflexivity|reflexivity|lia|exact Hdsp|].
    cbn [lastRead].
    apply rep_greedy_max;
      [cbn [forallb]; rewrite Hdig; apply andb_true_iff; split;
       [unfold isDigit; apply andb_true_iff; split; apply N.leb_le; lia|reflexivity]
      |reflexivity|cbn [length]; lia|reflexivity|].
    cbn [app run chr]. rewrite just_self.
    apply rep_greedy_max; [exact Hsp|reflexivity| | |reflexivity].
    - destruct ws; [contradiction|cbn [length]; lia].
    - destruct t as [|c t]; [contradiction|exact Hfirst]. }
  unfold classify. rewrite Htrim. unfold line at 1. cbn [app JS.eqb]. cbn iota.
  assert (H1 : test reHeading line = false).
  { unfold reHeading. cbn [seq]. apply anchored_miss.
    unfold matchAt, line. cbn [app run rep]. unfold just. rewrite Hh. reflexivity. }
  assert (H2 : test reFence line = false).
  { unfold reFence. cbn [seq]. apply anchored_miss.
    unfold matchAt, line. cbn [app run]. change (lit "```") with (backtick :: lit "``").
    rewrite run_chars. cbn [startsWith]. rewrite N.eqb_sym, Hb. reflexivity. }
  assert (H3 : test reUnchecked line = false).
  { unfold reUnchecked. cbn [seq]. apply anchored_miss.
    unfold matchAt, line. cbn [app run chr]. unfold just. rewrite Hm. reflexivity. }
  assert (H4 : test reChecked line = false).
  { unfold reChecked. cbn [seq]. apply anchored_miss.
    unfold matchAt, line. cbn [app run chr]. unfold just. rewrite Hm. reflexivity. }
  fold line. rewrite H1, H2, H3, H4.
  unfold reOrdered in *. cbn [seq] in *. unfold line.
  rewrite !app_assoc in *.
  destruct (anchored_hit _ _ _ _ Hhit) as (Ht' & Hr & _).
  rewrite Ht', Hr. reflexivity.
Qed.

Lemma ordered_lines_lose_their_number_witness :
  lineMarkup (classify (lit "42.  answer")) = lit "<ol><li>answer</li></ol>".
Proof.
  apply (ordered_lines_lose_their_number (lit "42") (lit "  ") (lit "answer"));
    solve [discriminate | reflexivity].
Defined.

Lemma dropWhile_app (p : codeunit -> bool) (ws s : jsstring) :
  forallb p ws = true -> dropWhile p (ws ++ s) = dropWhile p s.
Proof.
  induction ws as [|c ws IH]; [reflexivity|]. cbn [forallb app dropWhile].
  intro H. apply andb_true_iff in H as [Hc H]. rewrite Hc. now apply IH.
Qed.

(** X24.  White space before a line changes nothing but the text of a paragraph:
    the two spaces the serializer puts before the lines of a nested list
    are passed over, and the line is classified like a line of the outer
    list. *)
Theorem indentation_is_ignored (ws line : jsstring) :
  forallb isWhiteSpace ws = true ->
  (forall text, classify line <> Para text) ->
  classify (ws ++ line) = classify line.
Proof.
  intros Hws Hpara.
  assert (Htrim : trim (ws ++ line) = trim line).
  { unfold trim, trimStart. now rewrite dropWhile_app. }
  revert Hpara. unfold classify. rewrite Htrim.
  repeat match goal with
         | |- context [if ?b then _ else _] => destruct b; [reflexivity|]
         end.
  intro H. now destruct (H line).
Qed.

Lemma indentation_is_ignored_witness :
  classify (lit "  " ++ lit "- nested") = classify (lit "- nested").
Proof.
  apply (indentation_is_ignored (lit "  ") (lit "- nested")); [reflexivity|].
  intros text H. discriminate H.
Defined.

End LineFacts.

(* ================================================================= *)
(** ** The priority list of the line rules *)

Module PriorityFacts.

Import Bounds Parser Priority NormalForm JSFacts RegexFacts RegexSound RuleFacts
  DetectorFacts LineFacts.

Lemma some_run (p : codeunit -> bool) (s : jsstring) :
  some p s = if Nat.leb 1 (length (takeWhile p s)) then Some (dropWhile p s) else None.
Proof.
  unfold some, one, any. destruct s as [|c r]; [reflexivity|].
  cbn [takeWhile dropWhile]. now destruct (p c).
Qed.


Lemma class_apart (p : codeunit -> bool) (c d : codeunit) :
  p c = true -> p d = false -> (c =? d) = false.
Proof.
  intros Hc Hd. destruct (c =? d) eqn:E; [|reflexivity].
  apply N.eqb_eq in E. subst. congruence.
Qed.

Ltac apart p :=
  intros; cbn beta iota; unfold just, exactly;
  match goal with
  | H : p ?c = true |- context [?c =? ?d] => rewrite (class_apart p c d H eq_refl)
  end; reflexivity.

Lemma unchecked_reads (t : jsstring) : matchAt reUnchecked None t = left (uncheckedOf t).
Proof.
  unfold matchAt, reUnchecked, uncheckedOf, andThen, one, any.
  cbn [seq run chr star plus]. unfold space, just, exactly.
  destruct t as [|c t]; [reflexivity|]. destruct (c =? dash); [|reflexivity].
  rewrite rep_greedy_whole; [|apart isWhiteSpace|reflexivity]. cbn [Nat.leb upTo andb].
  destruct (dropWhile isWhiteSpace t) as [|c2 t2]; [reflexivity|].
  destruct (c2 =? lbracket); [|reflexivity].
  rewrite rep_greedy_whole; [|apart isWhiteSpace|reflexivity]. cbn [Nat.leb upTo andb].
  destruct (dropWhile isWhiteSpace t2) as [|c3 t3]; [reflexivity|].
  destruct (c3 =? rbracket); [|reflexivity].
  change (fun (_ : option codeunit) (s' : jsstring) (cs : captures) => Some (s', cs)) with done.
  rewrite rep_greedy_last, some_run. cbn [Nat.add]. now destruct (Nat.leb 1 _).
Qed.


Lemma checked_reads (t : jsstring) : matchAt reChecked None t = left (checkedOf t).
Proof.
  unfold matchAt, reChecked, checkedOf, andThen, one, any.
  cbn [seq run chr star plus]. unfold space, just, exactly.
  destruct t as [|c t]; [reflexivity|]. destruct (c =? dash); [|reflexivity].
  rewrite rep_greedy_whole; [|apart isWhiteSpace|reflexivity]. cbn [Nat.leb upTo andb].
  destruct (dropWhile isWhiteSpace t) as [|c2 t2]; [reflexivity|].
  destruct (c2 =? lbracket); [|reflexivity].
  destruct t2 as [|c3 t3]; [reflexivity|].
  destruct ((c3 =? 120) || (c3 =? 88)); [|reflexivity].
  destruct t3 as [|c4 t4]; [reflexivity|].
  destruct (c4 =? rbracket); [|reflexivity].
  change (fun (_ : option codeunit) (s' : jsstring) (cs : captures) => Some (s', cs)) with done.
  rewrite rep_greedy_last, some_run. cbn [Nat.add]. now destruct (Nat.leb 1 _).
Qed.

Lemma star_idle (t : jsstring) (cs : captures) (k : cont) :
  opensDark t -> rep Greedy 0 None isWhiteSpace cs k 0 None t = k None t cs.
Proof.
  destruct t as [|c t]; cbn [opensDark rep Nat.leb orElse]; [reflexivity|].
  now intros ->.
Qed.

Lemma ordered_reads (t : jsstring) :
  opensDark t -> matchAt reOrdered None t = left (orderedOf t).
Proof.
  intro Ht. unfold matchAt, reOrdered, orderedOf, andThen.
  cbn [seq run chr star plus]. unfold space. rewrite (star_idle _ _ _ Ht).
  rewrite rep_greedy_whole; [|apart isDigit|reflexivity]. cbn [upTo Nat.add].
  rewrite andb_true_r, some_run.
  destruct (Nat.leb 1 (length (takeWhile isDigit t))); [|reflexivity].
  unfold one at 1. unfold just, exactly.
  destruct (dropWhile isDigit t) as [|c2 t2]; [reflexivity|].
  destruct (c2 =? period); [|reflexivity].
  change (fun (_ : option codeunit) (s' : jsstring) (cs : captures) => Some (s', cs)) with done.
  rewrite rep_greedy_last, some_run. cbn [Nat.add]. now destruct (Nat.leb 1 _).
Qed.

Lemma unordered_reads (t : jsstring) :
  opensDark t -> matchAt reUnordered None t = left (unorderedOf t).
Proof.
  intro Ht. unfold matchAt, reUnordered, unorderedOf, andThen.
  cbn [seq run chr star plus]. unfold space. rewrite (star_idle _ _ _ Ht).
  unfold one at 1. unfold exactly.
  destruct t as [|c t]; [reflexivity|].
  destruct ((c =? dash) || (c =? asterisk) || (c =? plusSign)); [|reflexivity].
  change (fun (_ : option codeunit) (s' : jsstring) (cs : captures) => Some (s', cs)) with done.
  rewrite rep_greedy_last, some_run. cbn [Nat.add]. now destruct (Nat.leb 1 _).
Qed.

Lemma quote_reads (t : jsstring) : matchAt reQuote None t = left (quoteOf t).
Proof.
  unfold matchAt, reQuote, quoteOf, andThen.
  cbn [seq run chr star plus]. unfold space, just.
  unfold one at 1. unfold exactly.
  destruct t as [|c t]; [reflexivity|].
  destruct (c =? greater); [|reflexivity].
  change (fun (_ : option codeunit) (s' : jsstring) (cs : captures) => Some (s', cs)) with done.
  rewrite rep_greedy_last, some_run. cbn [Nat.add]. now destruct (Nat.leb 1 _).
Qed.

Lemma fence_reads (t : jsstring) : matchAt reFence None t = left (fenceOf t).
Proof.
  unfold matchAt, reFence, fenceOf, andThen, one, exactly.
  cbn [seq run chr chars lit]. unfold just.
  change (N_of_ascii "`") with backtick.
  destruct t as [|c1 t]; [reflexivity|]. destruct (c1 =? backtick); [|reflexivity].
  destruct t as [|c2 t]; [reflexivity|]. destruct (c2 =? backtick); [|reflexivity].
  destruct t as [|c3 t]; [reflexivity|]. now destruct (c3 =? backtick).
Qed.

Lemma heading_reads (t : jsstring) :
  matchAt reHeading None t
  = match headingOf t with
    | Some (_, text) => Some (text, [])
    | None => None
    end.
Proof.
  unfold matchAt, reHeading, headingOf.
  cbn [seq run chr star plus]. unfold space.
  change (fun (_ : option codeunit) (s' : jsstring) (cs : captures) => Some (s', cs)) with done.
  rewrite rep_greedy_whole; [| |reflexivity].
  - cbn [upTo Nat.add]. fold (exactly hash).
    destruct (Nat.leb 1 _ && Nat.leb _ 6); [|reflexivity].
    rewrite rep_greedy_last, some_run. cbn [Nat.add]. now destruct (Nat.leb 1 _).
  - intros prev c r Hc. cbn [rep Nat.leb orElse].
    destruct (isWhiteSpace c) eqn:E; [|reflexivity].
    rewrite (space_not_hash c E) in Hc. discriminate.
Qed.


Lemma dropWhile_all (p : codeunit -> bool) (s : jsstring) :
  forallb p s = match dropWhile p s with [] => true | _ :: _ => false end.
Proof.
  induction s as [|c s IH]; [reflexivity|]. cbn [forallb dropWhile].
  now destruct (p c).
Qed.

Lemma takeWhile_all (p : codeunit -> bool) (s : jsstring) :
  dropWhile p s = [] -> takeWhile p s = s.
Proof.
  intro H. destruct (take_drop p s) as [E _]. rewrite H, app_nil_r in E. now symmetry.
Qed.

Lemma test_anchored_at (b : re) (t : jsstring) :
  test (Seq Bol b) t
  = match matchAt (Seq Bol b) None t with Some _ => true | None => false end.
Proof.
  unfold test. rewrite exec_anchored. now destruct (matchAt _ None t) as [[? ?]|].
Qed.

(** A pattern anchored at the start finds what its reader reads. *)
Lemma anchored_reads (b : re) (t : jsstring) (o : option jsstring) :
  matchAt (Seq Bol b) None t = left o ->
  match o with
  | Some r => test (Seq Bol b) t = true /\ replace (Seq Bol b) [] t = r
  | None => test (Seq Bol b) t = false
  end.
Proof.
  destruct o as [r|]; cbn [left]; intro H; [|now apply anchored_miss].
  pose proof H as H'. unfold matchAt in H'.
  apply run_sound in H' as (pre & s' & cs' & -> & E). injection E as -> _.
  destruct (anchored_hit _ _ _ _ H) as (H1 & H2 & _). now split.
Qed.

Lemma rule_reads (t : jsstring) : test reRule t = isRule t.
Proof.
  unfold reRule. cbn [seq]. rewrite test_anchored_at.
  unfold matchAt, isRule. cbn [run chr plus]. unfold just.
  destruct t as [|c1 t]; [reflexivity|]. cbn [forallb]. unfold exactly at 1.
  destruct (c1 =? dash); [|now rewrite andb_false_r].
  destruct t as [|c2 t]; [reflexivity|]. cbn [forallb]. unfold exactly at 1.
  destruct (c2 =? dash); [|now rewrite andb_false_r].
  rewrite rep_greedy_whole; [| |reflexivity].
  - cbn [upTo Nat.add andb length Nat.leb]. rewrite andb_true_r.
    fold (exactly dash). rewrite (dropWhile_all (exactly dash) t).
    destruct (dropWhile (exactly dash) t) as [|d r] eqn:E.
    + rewrite (takeWhile_all _ _ E). now destruct (length t).
    + rewrite andb_false_r. now destruct (length (takeWhile (exactly dash) t)).
  - reflexivity.
Qed.

Lemma heading_level (t text : jsstring) (level : nat) :
  headingOf t = Some (level, text) ->
  match exec reHashes t with
  | Some m => length (matched m)
  | None => 1%nat
  end = level.
Proof.
  unfold headingOf. destruct (Nat.leb 1 _ && Nat.leb _ 6) eqn:E; [|discriminate].
  destruct (some isWhiteSpace _); [|discriminate]. intro H. injection H as <- _.
  apply andb_true_iff in E as [E1 E2]. apply Nat.leb_le in E1, E2.
  destruct (take_drop (exactly hash) t) as [Ecut Hall].
  assert (Hm : matchAt reHashes None (takeWhile (exactly hash) t ++ dropWhile (exactly hash) t)
               = Some (dropWhile (exactly hash) t, [])).
  { unfold matchAt, reHashes. cbn [seq run].
    apply rep_greedy_max; [exact Hall| |exact E1|apply dropWhile_rest|reflexivity].
    intros i Hi. cbn [below Nat.add]. apply Nat.ltb_lt. lia. }
  unfold reHashes in *. cbn [seq] in *.
  destruct (anchored_hit _ _ _ _ Hm) as (_ & _ & He).
  rewrite <- Ecut in He. now rewrite He.
Qed.

(** Trimmed text does not open with white space. *)
Lemma trim_dark (line : jsstring) : opensDark (trim line).
Proof.
  destruct (trim line) as [|c r] eqn:E; [exact I|]. cbn [opensDark].
  now apply (trim_head line c r).
Qed.

Ltac read_by L t E :=
  let H := fresh "H" in
  pose proof L as H; cbn [seq] in H;
  match type of H with
  | matchAt _ None t = left ?o =>
      destruct o eqn:E;
      [apply (anchored_reads _ _ (Some _)) in H as [-> ->]; try reflexivity
      |apply (anchored_reads _ _ None) in H as ->]
  end.

(** The chain of the line loop is the priority list of the
    specification. *)
Lemma classify_priority (line : jsstring) : classify line = classifyByPriority line.
Proof.
  unfold classify, classifyByPriority, lineRules, firstMatching, shape.
  pose proof (trim_dark line) as Hd. destruct (trim line) as [|c r]; [reflexivity|].
  cbn [JS.eqb]. remember (c :: r) as t eqn:Et. clear Et c r. cbn iota.
  pose proof (heading_reads t) as Hh. unfold reHeading in *. cbn [seq] in *.
  destruct (headingOf t) as [[level text]|] eqn:Eh.
  { apply (anchored_reads _ _ (Some text)) in Hh as [-> ->].
    now rewrite (heading_level _ _ _ Eh). }
  apply (anchored_reads _ _ None) in Hh as ->.
  unfold reFence, reUnchecked, reChecked, reOrdered, reUnordered, reQuote.
  cbn [seq].
  read_by (fence_reads t) t E3.
  read_by (unchecked_reads t) t E4.
  read_by (checked_reads t) t E5.
  read_by (ordered_reads t Hd) t E6.
  read_by (unordered_reads t Hd) t E7.
  read_by (quote_reads t) t E8.
  rewrite rule_reads. now destruct (isRule t).
Qed.


Lemma source_alone (l : Line) : markdownOf [l] = source l.
Proof. unfold markdownOf, source. cbn [flat_map]. now rewrite app_nil_r. Qed.

(** C4.  The line loop decides each line by the first rule of the priority
    list that applies to its trimmed text, in the order blank, heading,
    fence, unchecked task, checked task, ordered item, unordered item,
    blockquote, rule, and otherwise takes the line for a paragraph.  The
    parser makes of a block in normal form the node of its rule: an empty
    paragraph, a heading of the level, a task list of one unchecked or
    checked item, an ordered or a bullet list of one item, a blockquote, a
    horizontal rule, a paragraph, a code block of the lines up to the
    closing fence.  A line that opens a fence takes the following lines
    verbatim up to the first closing fence, or up to the end of the input
    when there is none.  The markup of a paragraph holds the line as it
    stands, but the tree does not: of the line with two blanks between
    [a] and [b] the paragraph keeps one. *)
Theorem lines_classified_by_first_matching_rule :
  (forall line, classify line = classifyByPriority line)
  /\ (forall l, wellFormed l = true ->
        classify (hd [] (linesOf l)) = classOf l
        /\ (truthy (source l) = true ->
            Engine.parse (source l) = Block doc defaultAttrs [nodeOf l]))
  /\ (forall line rest html lang body closer,
        classify line = FenceOpen lang ->
        Forall (fun l => closesFence l = false) body ->
        closesFence closer = true ->
        parseLines (line :: body ++ closer :: rest) html
        = parseLines rest (html ++ preMarkup lang body))
  /\ (forall line html lang body,
        classify line = FenceOpen lang ->
        Forall (fun l => closesFence l = false) body ->
        parseLines (line :: body) html = html ++ preMarkup lang body)
  /\ (forall line rest html text,
        classify line = Para text ->
        text = line
        /\ parseLines (line :: rest) html
           = parseLines rest (html ++ lit "<p>" ++ processInlineMarkdown line ++ lit "</p>"))
  /\ classify (lit "a  b") = Para (lit "a  b")
  /\ buildMarkup (lit "a  b") = lit "<p>a  b</p>"
  /\ Engine.parse (lit "a  b")
     = Block doc defaultAttrs [Block paragraph defaultAttrs [Text (lit "a b") []]]
  /\ Engine.parse (lit "a  b")
     <> Block doc defaultAttrs [Block paragraph defaultAttrs [Text (lit "a  b") []]].
Proof.
  split; [exact classify_priority|]. split; [|split; [|split; [|split]]].
  - intros l H. split; [now apply RoundTrip.classify_first|].
    intro Ht. rewrite <- source_alone in *.
    apply (RoundTrip.parse_tree [l]); [cbn [forallb]; now rewrite H|exact Ht].
  - intros line rest html lang body closer Hopen Hbody Hclose.
    rewrite (ParserFacts.parseLines_fence _ _ _ _ Hopen).
    now rewrite ParserFacts.codeBlock_closed.
  - intros line html lang body Hopen Hbody.
    rewrite (ParserFacts.parseLines_fence _ _ _ _ Hopen).
    now rewrite ParserFacts.codeBlock_open.
  - intros line rest html text H.
    pose proof (ParserFacts.classify_para_exact _ _ H) as ->. split; [reflexivity|].
    rewrite ParserFacts.parseLines_line by (intros lang E; congruence).
    now rewrite H.
  - repeat split; try (vm_compute; reflexivity). vm_compute. discriminate.
Qed.

Lemma lines_classified_by_first_matching_rule_witness :
  classify (lit "- [ ] a  b") = TaskUnchecked (lit "a  b")
  /\ Engine.parse (lit "## a")
     = Block doc defaultAttrs [Block heading (InputRules.withLevel 2) [Text (lit "a") []]]
  /\ parseLines [lit "```js"; lit " x"; lit "```"; lit "y"] []
     = lit "<pre data-language=" ++ [dquote] ++ lit "js" ++ [dquote]
         ++ lit "><code> x</code></pre><p>y</p>"
  /\ parseLines [lit "```"; lit "x"; lit "y"] []
     = lit "<pre><code>x" ++ [nl] ++ lit "y</code></pre>"
  /\ parseLines [lit " a  b "] [] = lit "<p> a  b </p>".
Proof.
  destruct lines_classified_by_first_matching_rule as (H1 & H2 & H3 & H4 & H5 & _).
  split; [rewrite H1; reflexivity|].
  split; [exact (proj2 (H2 (LHeading 2 [SText Regular (lit "a")]) eq_refl) eq_refl)|].
  split; [|split].
  - apply (H3 (lit "```js") [lit "y"] [] (lit "js") [lit " x"] (lit "```"));
      [reflexivity| |reflexivity].
    repeat constructor.
  - apply (H4 (lit "```") [] [] [lit "x"; lit "y"]); [reflexivity|].
    repeat constructor.
  - exact (proj2 (H5 (lit " a  b ") [] [] (lit " a  b ") eq_refl)).
Defined.

End PriorityFacts.

(* ================================================================= *)
(** ** Word count *)

Module EditorFacts.

Import Editor JSFacts RegexFacts RegexSound RuleFacts DetectorFacts LineFacts.

Lemma spaces_match (prev : option codeunit) (c : codeunit) (s : jsstring) :
  matchAt reSpaces prev (c :: s)
  = if isWhiteSpace c then Some (dropWhile isWhiteSpace s, []) else None.
Proof.
  unfold matchAt, reSpaces. cbn [run plus].
  destruct (isWhiteSpace c) eqn:Hc.
  - destruct (take_drop isWhiteSpace s) as [Hcut Hall].
    rewrite Hcut at 1.
    change (c :: takeWhile isWhiteSpace s ++ dropWhile isWhiteSpace s)
      with ((c :: takeWhile isWhiteSpace s) ++ dropWhile isWhiteSpace s).
    apply rep_greedy_max.
    + cbn [forallb]. unfold space at 1. now rewrite Hc.
    + reflexivity.
    + cbn [length]. lia.
    + apply dropWhile_rest.
    + reflexivity.
  - cbn [rep]. unfold space. rewrite Hc. reflexivity.
Qed.

Lemma skip_over (r : re) (x rest piece : jsstring) :
  forall prev,
  splitFrom r (length x) prev piece (x ++ rest)
  = splitFrom r 0 (lastRead x prev) piece rest.
Proof.
  induction x as [|c x IH]; intro prev.
  - cbn [length app lastRead]. destruct rest; reflexivity.
  - cbn [length app splitFrom]. now rewrite IH, lastRead_cons.
Qed.

Lemma stretches_leading (b : bool) (ws s : jsstring) :
  forallb isWhiteSpace ws = true -> ws <> [] ->
  stretches b (ws ++ s) = stretches false s.
Proof.
  revert b; induction ws as [|c ws IH]; intros b H Hne; [contradiction|].
  cbn [forallb] in H. apply andb_true_iff in H as [Hc H].
  cbn [app stretches]. rewrite Hc.
  destruct ws as [|d ws]; [reflexivity|]. apply IH; [exact H|discriminate].
Qed.

Lemma stretches_dropWhile (s : jsstring) :
  stretches false (dropWhile isWhiteSpace s) = stretches false s.
Proof.
  induction s as [|c s IH]; [reflexivity|]. cbn [dropWhile stretches].
  destruct (isWhiteSpace c) eqn:Hc; [exact IH|]. cbn [stretches]. now rewrite Hc.
Qed.

Lemma stretches_trailing (b : bool) (s ws : jsstring) :
  forallb isWhiteSpace ws = true -> stretches b (s ++ ws) = stretches b s.
Proof.
  intro H. revert b; induction s as [|c s IH]; intro b.
  - cbn [app]. induction ws as [|d ws IHw]; [reflexivity|].
    cbn [forallb] in H. apply andb_true_iff in H as [Hd H].
    cbn [stretches]. rewrite Hd. destruct ws as [|e ws]; [reflexivity|].
    specialize (IHw H). cbn [stretches] in IHw |- *.
    cbn [forallb] in H. apply andb_true_iff in H as [He _]. rewrite He in *.
    exact IHw.
  - cbn [app stretches]. destruct (isWhiteSpace c); now rewrite IH.
Qed.

(** The pieces that are not empty, counted. *)
Lemma pieces_counted (n : nat) :
  forall (s piece : jsstring) (prev : option codeunit),
  (length s <= n)%nat ->
  length (filter (fun word => Nat.ltb 0 (length word)) (splitFrom reSpaces 0 prev piece s))
  = ((if truthy piece then 1 else 0) + stretches (truthy piece) s)%nat.
Proof.
  induction n as [|n IH]; intros s piece prev Hlen.
  - destruct s; [|cbn in Hlen; lia]. cbn [splitFrom filter stretches].
    destruct piece; reflexivity.
  - destruct s as [|c s]; [destruct piece; reflexivity|].
    cbn [length] in Hlen. cbn [splitFrom]. rewrite spaces_match.
    cbn [stretches]. destruct (isWhiteSpace c) eqn:Hc.
    + destruct (take_drop isWhiteSpace s) as [Hcut _].
      assert (Hcons : consumed (c :: s) (dropWhile isWhiteSpace s)
                      = c :: takeWhile isWhiteSpace s).
      { rewrite Hcut at 1.
        change (c :: takeWhile isWhiteSpace s ++ dropWhile isWhiteSpace s)
          with ((c :: takeWhile isWhiteSpace s) ++ dropWhile isWhiteSpace s).
        apply consumed_app. }
      rewrite Hcons. cbn [length].
      assert (Hskip : splitFrom reSpaces (length (takeWhile isWhiteSpace s)) (Some c) [] s
                      = splitFrom reSpaces 0
                          (lastRead (takeWhile isWhiteSpace s) (Some c)) []
                          (dropWhile isWhiteSpace s)).
      { rewrite <- skip_over. now rewrite <- Hcut. }
      rewrite Hskip.
      assert (Hshort : (length (dropWhile isWhiteSpace s) <= n)%nat).
      { apply (f_equal (@length _)) in Hcut. rewrite length_app in Hcut. lia. }
      destruct piece as [|y piece]; cbn [filter length Nat.ltb Nat.leb truthy];
        rewrite IH by exact Hshort; cbn [truthy]; now rewrite stretches_dropWhile.
    + rewrite IH by lia.
      assert (Ht : truthy (piece ++ [c]) = true) by (destruct piece; reflexivity).
      rewrite Ht. destruct (truthy piece); reflexivity.
Qed.

Lemma words_counted (text : jsstring) :
  length (filter (fun word => Nat.ltb 0 (length word)) (splitRe reSpaces (trim text)))
  = stretches false text.
Proof.
  destruct (trim_cut text) as (a & b & Hcut & Ha & Hb).
  assert (Hs : stretches false text = stretches false (trim text)).
  { rewrite Hcut at 1. rewrite app_assoc, stretches_trailing by exact Hb.
    destruct a as [|x a]; [reflexivity|].
    apply stretches_leading; [exact Ha|discriminate]. }
  rewrite Hs. unfold splitRe. destruct (trim text) as [|c s] eqn:E; [reflexivity|].
  now rewrite (pieces_counted (length (c :: s))).
Qed.

(** X25.  The word count is the number of maximal stretches of code units other
    than white space in the text content of the document; it is zero while
    the editor is not mounted. *)
Theorem word_count_counts_stretches (d : Node) :
  getWordCount None = 0%nat
  /\ getWordCount (Some d) = stretches false (textContent d).
Proof. split; [reflexivity|]. unfold getWordCount. apply words_counted. Qed.

Lemma textContent_blocks (t : NodeType) (a : Attrs) (kids : list Node) :
  textContent (Block t a kids) = concat (map textContent kids).
Proof.
  cbn [textContent]. induction kids as [|k kids IH]; [reflexivity|].
  cbn [map concat]. now rewrite IH.
Qed.

Lemma stretches_word (s : jsstring) :
  forallb nonSpace s = true -> stretches true s = 0%nat.
Proof.
  induction s as [|c s IH]; [reflexivity|]. cbn [forallb stretches].
  intro H. apply andb_true_iff in H as [Hc H]. unfold nonSpace in Hc.
  apply negb_true_iff in Hc. rewrite Hc. now rewrite IH.
Qed.

(** X26.  Blocks are not separated in the text content: a document whose blocks
    each hold text without white space counts as one word, however many
    blocks there are. *)
Theorem word_count_joins_blocks (a : Attrs) (blocks : list Node) :
  blocks <> [] ->
  Forall (fun b => textContent b <> [] /\ forallb nonSpace (textContent b) = true) blocks ->
  getWordCount (Some (Block doc a blocks)) = 1%nat.
Proof.
  intros Hne Hall. unfold getWordCount. rewrite words_counted, textContent_blocks.
  destruct blocks as [|b blocks]; [contradiction|].
  inversion Hall as [|? ? [Hb1 Hb2] Hrest]; subst.
  cbn [map concat].
  assert (Htail : forallb nonSpace (concat (map textContent blocks)) = true).
  { clear Hall Hne. induction Hrest as [|k blocks [_ Hk] _ IH]; [reflexivity|].
    cbn [map concat]. now rewrite forallb_app, Hk, IH. }
  destruct (textContent b) as [|c s]; [contradiction|].
  cbn [forallb] in Hb2. apply andb_true_iff in Hb2 as [Hc Hs].
  cbn [app stretches]. unfold nonSpace in Hc. apply negb_true_iff in Hc. rewrite Hc.
  rewrite stretches_word; [reflexivity|]. now rewrite forallb_app, Hs, Htail.
Qed.

Lemma word_count_joins_blocks_witness :
  getWordCount
    (Some (Block doc defaultAttrs
             [Block paragraph defaultAttrs [Text (lit "one") []];
              Block paragraph defaultAttrs [Text (lit "two") []];
              Block paragraph defaultAttrs [Text (lit "three") []]]))
  = 1%nat.
Proof.
  apply (word_count_joins_blocks defaultAttrs); [discriminate|].
  repeat constructor; discriminate.
Defined.

End EditorFacts.

(* ================================================================= *)
(** ** Documents that serialize alike *)

Module AlikeFacts.

Import Serializer Loops Alike JSFacts SerializerFacts.

Lemma taskItemText_from (kids : list Node) (acc : jsstring) :
  fold_left (fun itemText itemChild =>
               match itemChild with
               | Block paragraph _ _ => itemText ++ nodeToText itemChild
               | _ => itemText
               end) kids acc
  = fold_left (fun itemText itemChild =>
                 match itemChild with
                 | Block paragraph _ _ => itemText ++ nodeToText itemChild
                 | _ => itemText
                 end) (filter isParagraph kids) acc.
Proof.
  revert acc; induction kids as [|k kids IH]; intro acc; [reflexivity|].
  cbn [fold_left filter].
  destruct k as [s ms|ty a c]; [apply IH|].
  destruct ty; cbn [isParagraph]; apply IH.
Qed.

Lemma taskStep_paragraphs (taskMarkdown : jsstring) (item : Node) :
  taskStep taskMarkdown (paragraphsOnly item) = taskStep taskMarkdown item.
Proof.
  destruct item as [s ms|ty a kids]; [reflexivity|].
  destruct ty; try reflexivity.
  cbn [paragraphsOnly taskStep]. unfold taskItemText.
  now rewrite <- taskItemText_from.
Qed.

(** X27.  A task list is serialized from the paragraphs of its items alone: a
    list or any other block nested in a task item leaves no trace in the
    markdown. *)
Theorem task_items_keep_their_paragraphs_only (a : Attrs) (items : list Node) :
  nodeMarkdown (Block task_list a items)
  = nodeMarkdown (Block task_list a (map paragraphsOnly items)).
Proof.
  cbn [nodeMarkdown]. unfold serializeTaskList. cbn [children]. f_equal.
  generalize (@nil codeunit) as acc.
  induction items as [|item items IH]; intro acc; [reflexivity|].
  cbn [map fold_left]. now rewrite taskStep_paragraphs, IH.
Qed.

(** X28.  The paragraphs of a blockquote are written one after the other with
    nothing between them: the blockquote serializes like one that holds a
    single paragraph with all their children. *)
Theorem blockquote_paragraphs_run_together (a b : Attrs) (kidss : list (list Node)) :
  nodeMarkdown (Block blockquote a (paragraphsOf b kidss))
  = nodeMarkdown (Block blockquote a [Block paragraph b (concat kidss)]).
Proof.
  cbn [nodeMarkdown]. f_equal. rewrite !nodeToText_fold. cbn [map concat].
  rewrite app_nil_r. cbn [childMarkdown]. rewrite nodeToText_fold.
  unfold paragraphsOf. induction kidss as [|kids kidss IH]; [reflexivity|].
  cbn [map concat]. rewrite map_app, concat_app, <- IH.
  cbn [childMarkdown]. now rewrite nodeToText_fold.
Qed.

End AlikeFacts.

(* ================================================================= *)
(** ** Nested lists on the way out and back *)

Module NestedFacts.

Import JS Parser Serializer Loops NormalForm Nested JSFacts SerializerFacts ParserFacts
  RoundTrip LineFacts.

Lemma trimEnd_last (s : jsstring) : isWhiteSpace (last (trimEnd s) 0) = false.
Proof.
  destruct (trimEnd s) as [|c r] eqn:E; [reflexivity|].
  assert (Hne : c :: r <> []) by discriminate.
  rewrite (app_removelast_last 0 Hne) in E.
  unfold trimEnd in E. apply (f_equal (@rev _)) in E.
  rewrite rev_involutive, rev_app_distr in E. cbn [rev app] in E.
  now apply DetectorFacts.dropWhile_head in E.
Qed.

Lemma trimEnd_spaces (s ws : jsstring) :
  forallb isWhiteSpace ws = true -> trimEnd (s ++ ws) = trimEnd s.
Proof.
  intro H. unfold trimEnd. rewrite rev_app_distr. f_equal.
  apply dropWhile_app. now apply RuleFacts.forallb_rev.
Qed.

Lemma serializeList_last (n : Node) (marker : jsstring) (startNum : option Z) :
  isWhiteSpace (last (serializeList n marker startNum) 0) = false.
Proof.
  destruct n as [s ms|ty a items]; [reflexivity|].
  rewrite serializeList_unfold. apply trimEnd_last.
Qed.

Lemma split_nonempty (s : jsstring) : split nl s <> [].
Proof.
  induction s as [|c s IH]; [discriminate|]. cbn [split].
  destruct (c =? nl); [discriminate|]. destruct (split nl s); discriminate.
Qed.

Lemma split_last_part (s : jsstring) :
  s <> [] -> isWhiteSpace (last s 0) = false -> last (split nl s) [] <> [].
Proof.
  induction s as [|c s IH]; [contradiction|]. intros _ Hl.
  destruct s as [|d s].
  - cbn [last] in Hl. cbn [split]. destruct (c =? nl) eqn:E.
    + apply N.eqb_eq in E. subst c. discriminate Hl.
    + discriminate.
  - assert (IH' : last (split nl (d :: s)) [] <> []) by (apply IH; [discriminate|exact Hl]).
    pose proof (split_nonempty (d :: s)) as Hne.
    remember (d :: s) as r. cbn [split].
    destruct (split nl r) as [|h t]; [contradiction|].
    destruct (c =? nl); [exact IH'|].
    destruct t as [|h' t]; [discriminate|exact IH'].
Qed.

Lemma join_nonempty (sep : jsstring) (parts : list jsstring) :
  last parts [] <> [] -> join sep parts <> [].
Proof.
  induction parts as [|p parts IH]; [intro H; now destruct H|].
  destruct parts as [|q parts]; [auto|].
  intro H. change (join sep (p :: q :: parts)) with (p ++ sep ++ join sep (q :: parts)).
  specialize (IH H). intro E. apply app_eq_nil in E as [_ E].
  apply app_eq_nil in E as [_ E]. contradiction.
Qed.

Lemma last_join (sep : jsstring) (parts : list jsstring) (d : codeunit) :
  last parts [] <> [] -> last (join sep parts) d = last (last parts []) d.
Proof.
  induction parts as [|p parts IH]; [intro H; now destruct H|].
  destruct parts as [|q parts]; [reflexivity|].
  intro H. change (join sep (p :: q :: parts)) with (p ++ sep ++ join sep (q :: parts)).
  rewrite app_assoc, last_app_nonempty; [|now apply join_nonempty].
  now apply IH.
Qed.

Lemma last_map_part {A B : Type} (f : A -> B) (parts : list A) (d : A) (e : B) :
  parts <> [] -> last (map f parts) e = f (last parts d).
Proof.
  induction parts as [|p parts IH]; [contradiction|]. intros _.
  destruct parts as [|q parts]; [reflexivity|].
  change (last (map f (p :: q :: parts)) e) with (last (map f (q :: parts)) e).
  now rewrite IH.
Qed.

(** The last character of an indented text is the last character of the
    text. *)
Lemma indent_last (body : jsstring) :
  body <> [] -> isWhiteSpace (last body 0) = false -> last (indent body) 0 = last body 0.
Proof.
  intros Hne Hl. pose proof (split_last_part body Hne Hl) as Hp.
  pose proof (split_nonempty body) as Hs.
  unfold indent. rewrite last_join.
  - rewrite (last_map_part _ _ [] _ Hs), last_app_nonempty by exact Hp.
    pose proof (last_join [nl] (split nl body) 0 Hp) as H.
    rewrite DetectorFacts.join_split in H. symmetry. exact H.
  - rewrite (last_map_part _ _ [] _ Hs). discriminate.
Qed.

Lemma indent_lines (lines : list jsstring) :
  lines <> [] -> forallb noNewline lines = true ->
  indent (join [nl] lines) = join [nl] (map (fun line => lit "  " ++ line) lines).
Proof. intros Hne H. unfold indent. now rewrite split_join. Qed.

(** What the loop over the children of an item trims. *)
Lemma nested_item_text (t body : jsstring) :
  TextFacts t -> isWhiteSpace (last body 0) = false ->
  trim (t ++ [nl] ++ indent body) = t ++ (if truthy body then [nl] ++ indent body else [])
  /\ isWhiteSpace (last (t ++ (if truthy body then [nl] ++ indent body else [])) 0) = false.
Proof.
  intros F Hl. pose proof F as [Hne Hf Hlast].
  destruct body as [|c r] eqn:E.
  - cbn [truthy]. rewrite app_nil_r. split; [|exact Hlast].
    unfold trim, trimStart. destruct t as [|x t']; [contradiction|].
    cbn [app dropWhile]. rewrite (Hf x t' eq_refl).
    change (trimEnd ((x :: t') ++ [nl; 32; 32]) = x :: t').
    rewrite trimEnd_spaces by reflexivity. now apply trimEnd_id.
  - rewrite <- E in *. assert (Hb : body <> []) by (subst; discriminate).
    replace (truthy body) with true by (subst; reflexivity).
    assert (Hi : indent body <> []).
    { unfold indent. apply join_nonempty.
      rewrite (last_map_part _ _ [] _ (split_nonempty body)). discriminate. }
    assert (Hend : last (t ++ [nl] ++ indent body) 0 = last body 0).
    { rewrite app_assoc, last_app_nonempty by exact Hi. now apply indent_last. }
    split; [|now rewrite Hend].
    destruct t as [|x t']; [contradiction|]. cbn [app].
    apply trim_id; [exact (Hf x t' eq_refl)|].
    change (x :: t' ++ nl :: indent body) with ((x :: t') ++ [nl] ++ indent body).
    now rewrite Hend.
Qed.

(** The loop of [serializeList] on an item that holds a paragraph and a
    nested list. *)
Lemma nested_item_step (inner : NodeType) (a b c : Attrs) (marker acc : jsstring) (n : Z)
  (kids items : list Node) :
  TextFacts (nodeToText (Block paragraph a kids)) ->
  inner = bullet_list \/ inner = ordered_list ->
  let text := nodeToText (Block paragraph a kids) in
  let nested := Block inner c items in
  let body := serializeList nested (nestedMarker inner) None in
  let written := text ++ (if truthy body then [nl] ++ indent body else []) in
  itemStep marker (acc, n) (Block list_item b [Block paragraph a kids; nested])
  = (acc ++ (if JS.eqb marker (lit "1.") then ofZ n ++ lit "." else marker)
         ++ lit " " ++ written ++ [nl],
     if JS.eqb marker (lit "1.") then (n + 1)%Z else n)
  /\ isWhiteSpace (last written 0) = false /\ written <> [].
Proof.
  intros F Hinner text nested body written.
  assert (Hl : isWhiteSpace (last body 0) = false) by apply serializeList_last.
  destruct (nested_item_text text body F Hl) as [Htrim Hlast].
  assert (Htext : listItemText [Block paragraph a kids; nested]
                  = text ++ [nl] ++ indent body).
  { unfold listItemText. cbn [fold_left childText app]. subst nested body.
    destruct Hinner as [-> | ->]; reflexivity. }
  assert (Hne : written <> []).
  { subst written. pose proof F as [Hp _ _]. fold text in Hp.
    destruct text; [contradiction|discriminate]. }
  split; [|split; [exact Hlast|exact Hne]].
  cbn [itemStep]. rewrite Htext. unfold emitItem. rewrite Htrim. fold written.
  replace (truthy written) with true by (destruct written; [contradiction|reflexivity]).
  reflexivity.
Qed.



Lemma nested_list_shape (type inner : NodeType) (a b c : Attrs)
  (marker : jsstring) (startNum : option Z) (p : list Segment) (items : list Node) :
  richText p = true ->
  inner = bullet_list \/ inner = ordered_list ->
  let nested := Block inner c items in
  let body := serializeList nested (nestedMarker inner) None in
  serializeList (Block type a [Block list_item b [textPara p; nested]]) marker startNum
  = (if JS.eqb marker (lit "1.") then ofZ (startOf startNum) ++ lit "." else marker)
    ++ lit " " ++ textOf p ++ (if truthy body then [nl] ++ indent body else []).
Proof.
  intros H Hinner nested body. destruct (rich_facts p H) as (_ & _ & F).
  rewrite <- (nodeToText_segments paragraph defaultAttrs p) in F.
  destruct (nested_item_step inner defaultAttrs b c marker [] (startOf startNum)
              (nodesOf p) items F Hinner) as (Hstep & Hlast & Hne).
  rewrite nodeToText_segments in Hstep, Hlast, Hne.
  subst nested. rewrite serializeList_unfold. unfold textPara.
  change (fold_left (itemStep marker)
            [Block list_item b [Block paragraph defaultAttrs (nodesOf p); Block inner c items]]
            ([], startOf startNum))
    with (itemStep marker ([], startOf startNum)
            (Block list_item b
               [Block paragraph defaultAttrs (nodesOf p); Block inner c items])).
  etransitivity; [apply (f_equal (fun st => trimEnd (fst st))); exact Hstep|].
  cbn [fst]. fold body in Hlast, Hne.
  set (m := if JS.eqb marker (lit "1.") then _ else _).
  set (written := textOf p ++ _) in *.
  change (trimEnd (m ++ lit " " ++ written ++ [nl]) = m ++ lit " " ++ written).
  replace (m ++ lit " " ++ written ++ [nl]) with ((m ++ lit " " ++ written) ++ [nl])
    by now rewrite <- !app_assoc.
  apply trimEnd_newline.
  - now rewrite app_assoc, last_app_nonempty.
  - destruct m; discriminate.
Qed.

(** A list of items of one paragraph each. *)
Lemma simple_items_fold (qs : list (list Segment)) (acc : jsstring) (n : Z) :
  forallb richText qs = true ->
  fold_left (itemStep (lit "-")) (map simpleItem qs) (acc, n)
  = (acc ++ concat (map (fun q => (lit "- " ++ textOf q) ++ [nl]) qs), n).
Proof.
  revert acc; induction qs as [|q qs IH]; intros acc H.
  - cbn. now rewrite app_nil_r.
  - cbn [forallb] in H. apply andb_true_iff in H as [Hq H].
    destruct (rich_facts q Hq) as (_ & _ & F).
    assert (Hstep : itemStep (lit "-") (acc, n) (simpleItem q)
                    = (acc ++ (lit "- " ++ textOf q) ++ [nl], n)).
    { unfold simpleItem. cbn [itemStep]. destruct (item_text q) as [-> _].
      unfold emitItem. rewrite (trim_text _ F), (truthy_text _ F).
      change (JS.eqb (lit "-") (lit "1.")) with false. cbn iota.
      now rewrite <- !app_assoc. }
    cbn [map fold_left]. rewrite Hstep, (IH _ H). cbn [concat].
    now rewrite <- !app_assoc.
Qed.

Lemma concat_lines (lines : list jsstring) :
  lines <> [] -> concat (map (fun l => l ++ [nl]) lines) = join [nl] lines ++ [nl].
Proof.
  induction lines as [|l lines IH]; [contradiction|]. intros _.
  destruct lines as [|k lines]; [cbn; now rewrite app_nil_r|].
  change (join [nl] (l :: k :: lines)) with (l ++ [nl] ++ join [nl] (k :: lines)).
  cbn [map concat] in *. rewrite IH by discriminate. now rewrite <- !app_assoc.
Qed.

Lemma simple_items (type : NodeType) (a : Attrs) (qs : list (list Segment)) :
  forallb richText qs = true ->
  serializeList (Block type a (map simpleItem qs)) (lit "-") None
  = join [nl] (map (fun q => lit "- " ++ textOf q) qs).
Proof.
  intro H. rewrite serializeList_unfold, (simple_items_fold qs [] _ H). cbn [fst app].
  destruct qs as [|q qs]; [reflexivity|].
  rewrite <- (map_map (fun q => lit "- " ++ textOf q) (fun l => l ++ [nl])).
  rewrite concat_lines by discriminate.
  set (lines := map _ (q :: qs)).
  assert (Hlast : last lines [] <> [] /\ isWhiteSpace (last (last lines []) 0) = false).
  { subst lines. rewrite (last_map_part _ (q :: qs) [] []) by discriminate.
    assert (Hin : In (last (q :: qs) []) (q :: qs)).
    { clear. revert q. induction qs as [|k qs IH]; intro q; [now left|].
      right. apply IH. }
    rewrite forallb_forall in H. destruct (rich_facts _ (H _ Hin)) as (_ & _ & [Hne _ Hl]).
    split; [discriminate|]. now rewrite last_app_nonempty. }
  destruct Hlast as [Hne Hl].
  apply trimEnd_newline; [now rewrite last_join|now apply join_nonempty].
Qed.

Lemma bullet_no_newline (q : list Segment) :
  richText q = true -> noNewline (lit "- " ++ textOf q) = true.
Proof.
  intro H. destruct (rich_facts q H) as (Hok & _).
  apply noNewline_app; [reflexivity|].
  now apply printable_no_newline, text_printable.
Qed.

(** The lines of a nested list of items of one paragraph each. *)
Lemma nested_lines (p : list Segment) (qs : list (list Segment)) :
  forallb richText (p :: qs) = true ->
  nodeMarkdown (nestedList p qs)
  = join [nl] ((lit "- " ++ textOf p) :: map (fun q => lit "  - " ++ textOf q) qs).
Proof.
  cbn [forallb]. rewrite andb_true_iff. intros [Hp Hqs].
  unfold nestedList. cbn [nodeMarkdown].
  rewrite (nested_list_shape bullet_list bullet_list _ _ _ (lit "-") None p _ Hp
             (or_introl eq_refl)).
  cbn [nestedMarker]. rewrite (simple_items _ _ qs Hqs).
  change (JS.eqb (lit "-") (lit "1.")) with false. cbn iota.
  destruct qs as [|q qs]; [cbn; now rewrite app_nil_r|].
  set (lines := map (fun q => lit "- " ++ textOf q) (q :: qs)).
  assert (Hne : lines <> []) by discriminate.
  assert (Ht : truthy (join [nl] lines) = true).
  { destruct (join [nl] lines) eqn:E; [|reflexivity].
    subst lines. cbn [map] in E. rewrite join_cons in E. discriminate. }
  rewrite Ht, indent_lines; [|exact Hne|].
  - subst lines. rewrite map_map.
    transitivity ((lit "- " ++ textOf p) ++ [nl]
                  ++ join [nl] (map (fun q0 => lit "  - " ++ textOf q0) (q :: qs)));
      [|reflexivity].
    rewrite <- app_assoc. reflexivity.
  - subst lines. rewrite forallb_forall. intros l Hin.
    apply in_map_iff in Hin as (k & <- & Hk).
    rewrite forallb_forall in Hqs. now apply bullet_no_newline, Hqs.
Qed.

(** White space before the marker of an item is passed over. *)
Lemma classify_indented (ws line text : jsstring) :
  forallb isWhiteSpace ws = true ->
  classify line = UnorderedItem text -> classify (ws ++ line) = UnorderedItem text.
Proof.
  intros Hws. assert (Htrim : trim (ws ++ line) = trim line).
  { unfold trim, trimStart. now rewrite dropWhile_app. }
  unfold classify. rewrite Htrim.
  repeat match goal with
         | |- context [if ?b then _ else _] => destruct b; [exact (fun H => H)|]
         end.
  discriminate.
Qed.

Lemma parseLines_nested (qs : list (list Segment)) (rest : list jsstring) (html : jsstring) :
  forallb wellFormed (map LBullet qs) = true ->
  parseLines (map (fun q => lit "  - " ++ textOf q) qs ++ rest) html
  = parseLines (flat_map linesOf (map LBullet qs) ++ rest) html.
Proof.
  revert html; induction qs as [|q qs IH]; intros html H; [reflexivity|].
  cbn [map forallb] in H. apply andb_true_iff in H as [Hq H].
  pose proof (classify_first (LBullet q) Hq) as Hc. cbn [linesOf hd classOf] in Hc.
  pose proof (classify_indented (lit "  ") _ _ eq_refl Hc) as Hi.
  cbn [map flat_map linesOf app].
  rewrite (parseLines_line (lit "- " ++ textOf q)), Hc
    by (intros lang E; rewrite Hc in E; discriminate).
  change (lit "  - " ++ textOf q) with (lit "  " ++ lit "- " ++ textOf q).
  rewrite (parseLines_line (lit "  " ++ lit "- " ++ textOf q)), Hi
    by (intros lang E; rewrite Hi in E; discriminate).
  now apply IH.
Qed.

Lemma parse_same_markup (a b : jsstring) :
  truthy a = truthy b -> buildMarkup a = buildMarkup b -> Engine.parse a = Engine.parse b.
Proof.
  intros Ht Hm. unfold Engine.parse, Engine.parseCompletion, parseMarkdown, parseBody.
  now rewrite Ht, Hm.
Qed.

(** X30.  The nesting of a list does not survive a round trip.  A bullet list
    whose item holds a bullet list is written with the inner items
    indented; the parser passes over the indentation and reads every line as
    a list of its own, so the tree that comes back is flat. *)
Theorem nested_list_comes_back_flat (p : list Segment) (qs : list (list Segment)) :
  forallb (fun t => richText t && negb (opensWithLink t)) (p :: qs) = true ->
  let tree := Block doc defaultAttrs [nestedList p qs] in
  Engine.serialize tree
  = join [nl] ((lit "- " ++ textOf p) :: map (fun q => lit "  - " ++ textOf q) qs)
  /\ Engine.parse (Engine.serialize tree) = Block doc defaultAttrs (flatLists (p :: qs)).
Proof.
  intros H tree.
  assert (Hwf : forallb wellFormed (map LBullet (p :: qs)) = true).
  { rewrite forallb_forall in *. intros l Hl. apply in_map_iff in Hl as (t & <- & Ht).
    exact (H t Ht). }
  assert (Hrich : forallb richText (p :: qs) = true).
  { rewrite forallb_forall in *. intros t Ht. specialize (H t Ht).
    now apply andb_true_iff in H as [H _]. }
  assert (Hs : Engine.serialize tree
               = join [nl] ((lit "- " ++ textOf p)
                            :: map (fun q => lit "  - " ++ textOf q) qs)).
  { unfold Engine.serialize, serializeToMarkdown, tree. cbn [children].
    rewrite serialize_children. cbn [map join]. now apply nested_lines. }
  split; [exact Hs|]. rewrite Hs.
  set (lines := (lit "- " ++ textOf p) :: map (fun q => lit "  - " ++ textOf q) qs).
  assert (Hlines : forallb noNewline lines = true).
  { subst lines. cbn [forallb] in *. apply andb_true_iff in Hrich as [Hp Hqs].
    rewrite (bullet_no_newline p Hp). cbn [andb].
    rewrite forallb_forall in *. intros l Hl. apply in_map_iff in Hl as (t & <- & Ht).
    change (lit "  - " ++ textOf t) with (lit "  " ++ lit "- " ++ textOf t).
    apply noNewline_app; [reflexivity|]. now apply bullet_no_newline, Hqs. }
  assert (Htruthy : truthy (join [nl] lines) = true).
  { subst lines. rewrite join_cons. reflexivity. }
  assert (Htruthy' : truthy (markdownOf (map LBullet (p :: qs))) = true).
  { unfold markdownOf. cbn [map flat_map linesOf app]. rewrite join_cons. reflexivity. }
  rewrite (parse_same_markup (join [nl] lines) (markdownOf (map LBullet (p :: qs)))).
  - rewrite (parse_tree _ Hwf Htruthy'). unfold flatLists. now rewrite map_map.
  - now rewrite Htruthy, Htruthy'.
  - unfold buildMarkup, markdownOf. rewrite !split_join.
    + subst lines. cbn [map flat_map linesOf app].
      cbn [map forallb] in Hwf. apply andb_true_iff in Hwf as [Hp Hqs].
      pose proof (classify_first (LBullet p) Hp) as Hc. cbn [linesOf hd classOf] in Hc.
      rewrite !(parseLines_line (lit "- " ++ textOf p))
        by (intros lang E; rewrite Hc in E; discriminate).
      rewrite <- (app_nil_r (map (fun q => lit "  - " ++ textOf q) qs)).
      rewrite (parseLines_nested qs [] _ Hqs). now rewrite app_nil_r.
    + discriminate.
    + rewrite forallb_forall. intros x Hx. apply in_flat_map in Hx as (l & Hl & Hx).
      rewrite forallb_forall in Hwf. pose proof (lines_no_newline l (Hwf l Hl)) as Hn.
      rewrite forallb_forall in Hn. now apply Hn.
    + subst lines. discriminate.
    + exact Hlines.
Qed.

Lemma nested_list_comes_back_flat_witness :
  Engine.parse
    (Engine.serialize
       (Block doc defaultAttrs
          [nestedList [SText Regular (lit "a")] [[SText Bold (lit "b")]]]))
  = Block doc defaultAttrs (flatLists [[SText Regular (lit "a")]; [SText Bold (lit "b")]]).
Proof.
  exact (proj2 (nested_list_comes_back_flat [SText Regular (lit "a")]
                  [[SText Bold (lit "b")]] eq_refl)).
Defined.

End NestedFacts.
